(** * Verification of the pattern engine and of the block assembler

    Shallow embedding of [general_searching.py] (module [Searching]) and of
    [basic_assembler.py] (module [Assembler]).  Python integers that the code
    only ever uses as list positions are [nat]; the other integers are [Z].
    Python exceptions are values of [exn]; a loop that the source does not
    bound is run on a fuel counter and reports [Diverge] when it runs out. *)

From Stdlib Require Import ZArith Lia.
From stdpp Require Import gmap strings list sorting.

(** The exceptions that the modelled code can raise. *)
Inductive exn : Type :=
| AssertionError
| AttributeError
| IndexError
| KeyError
| TypeError
| ValueError
| ZeroDivisionError
| _NoMatch.

#[global] Instance exn_eq_dec : EqDecision exn.
Proof. solve_decision. Defined.

(** What a call does: it returns a value, raises an exception, or does not
    come back within the fuel. *)
Inductive outcome (A : Type) : Type :=
| Returns (a : A)
| Raises (e : exn)
| Loops.
Arguments Returns {A} a.
Arguments Raises {A} e.
Arguments Loops {A}.

#[global] Instance outcome_ret : MRet outcome := λ A a, Returns a.
#[global] Instance outcome_bind : MBind outcome := λ A B f o,
  match o with
  | Returns a => f a
  | Raises e => Raises e
  | Loops => Loops
  end.
#[global] Instance outcome_fmap : FMap outcome := λ A B f o,
  match o with
  | Returns a => Returns (f a)
  | Raises e => Raises e
  | Loops => Loops
  end.

(** [list.pop()]: removes and returns the last element. *)
Definition list_pop {A} (l : list A) : option (list A * A) :=
  match rev l with
  | [] => None
  | x :: r => Some (rev r, x)
  end.

Lemma list_pop_app {A} (l : list A) (x : A) : list_pop (l ++ [x]) = Some (l, x).
Proof. unfold list_pop. rewrite rev_app_distr. simpl. by rewrite rev_involutive. Qed.

Lemma list_pop_nil {A} : list_pop (@nil A) = None.
Proof. reflexivity. Qed.

Lemma list_pop_Some {A} (l l' : list A) (x : A) :
  list_pop l = Some (l', x) → l = l' ++ [x].
Proof.
  unfold list_pop. destruct (rev l) as [|y r] eqn:E; [done|].
  intros [= <- <-]. rewrite <- (rev_involutive l), E. reflexivity.
Qed.

Lemma list_pop_None {A} (l : list A) : list_pop l = None → l = [].
Proof.
  unfold list_pop. destruct (rev l) as [|y r] eqn:E; [|done].
  intros _. rewrite <- (rev_involutive l), E. reflexivity.
Qed.

Module Searching.

Section Engine.

(** The tokens of the searched stream, compared with Python's [==]. *)
Context {T : Type} `{EqDecision T}.

(** ** The capture store *)

(** A captured value: one token ([stream[start]]) or a slice of the stream. *)
Inductive cval : Type :=
| CTok (t : T)
| CSlice (l : list T).

Local Abbreviation dict := (gmap string cval).

(** [collections.ChainMap]: its list [maps] is never empty ([ChainMap()] is
    [[{}]]), so it is kept as the first map and the ones below it. *)
Record ChainMap : Type := mkChainMap {
  maps_first : dict;
  maps_below : list dict
}.

Definition ChainMap_new : ChainMap := mkChainMap ∅ [].

Definition new_child (m : ChainMap) : ChainMap :=
  mkChainMap ∅ (maps_first m :: maps_below m).

(** [self.parents]: a [ChainMap] of [self.maps[1:]], which is [ChainMap()]
    when nothing is below. *)
Definition parents (m : ChainMap) : ChainMap :=
  match maps_below m with
  | [] => ChainMap_new
  | d :: r => mkChainMap d r
  end.

Definition ChainMap_setitem (key : string) (value : cval) (m : ChainMap) : ChainMap :=
  mkChainMap (<[key := value]> (maps_first m)) (maps_below m).

Fixpoint maps_lookup (key : string) (ms : list dict) : option cval :=
  match ms with
  | [] => None
  | d :: r => match d !! key with Some v => Some v | None => maps_lookup key r end
  end.

Definition ChainMap_getitem (key : string) (m : ChainMap) : option cval :=
  maps_lookup key (maps_first m :: maps_below m).

(** [dict(chainmap)]: the flattened view, where the innermost binding wins. *)
Definition ChainMap_to_dict (m : ChainMap) : dict :=
  foldr (λ d acc, d ∪ acc) ∅ (maps_first m :: maps_below m).

(** [Captures]: the chain of scopes, the stack of scope keys (the last one is
    the most recent) and the identity that the next [object()] will get. *)
Record Captures : Type := mkCaptures {
  _internal : ChainMap;
  _keys : list nat;
  next_object : nat
}.

Definition Captures_new : Captures := mkCaptures ChainMap_new [] 0.

Definition enter (c : Captures) : nat * Captures :=
  let key := next_object c in
  (key, mkCaptures (new_child (_internal c)) (_keys c ++ [key]) (S key)).

Definition exit (key : nat) (c : Captures) : exn + Captures :=
  match list_pop (_keys c) with
  | None => inl IndexError
  | Some (ks, k) =>
      if decide (key = k)
      then inr (mkCaptures (parents (_internal c)) ks (next_object c))
      else inl AssertionError
  end.

Definition setitem (key : string) (value : cval) (c : Captures) : Captures :=
  mkCaptures (ChainMap_setitem key value (_internal c)) (_keys c) (next_object c).

Definition maybe (name : option string) (value : cval) (c : Captures) : Captures :=
  match name with
  | None => c
  | Some n => setitem n value c
  end.

(** [captures[item]]; [None] stands for the [KeyError]. *)
Definition getitem (item : string) (c : Captures) : option cval :=
  ChainMap_getitem item (_internal c).

Definition to_dict (c : Captures) : dict := ChainMap_to_dict (_internal c).

(** [self._internal.update(r)]: every item of [r] is set in the first map. *)
Definition extend (r : dict) (c : Captures) : Captures :=
  mkCaptures (mkChainMap (r ∪ maps_first (_internal c)) (maps_below (_internal c)))
             (_keys c) (next_object c).

(** ** Generators *)

(** A yielded value is an index, or the pair [(v, {})] that [Repeat] yields
    before its first repetition. *)
Inductive pos : Type :=
| PInt (n : nat)
| PTup (p : pos).

(** One [next()] on a generator, called when the shared capture store is [c]:
    the generator stops, yields a value and suspends (its continuation runs at
    the following [next()], on the store as it is then), raises, or is still
    looping when the fuel runs out. *)
Inductive res : Type :=
| Stop (c : Captures)
| Yield (v : pos) (c : Captures) (k : Captures → res)
| Raise (e : exn)
| Diverge.

Definition gen : Type := Captures → res.

(** [yield from r] followed by the statements [after]. *)
Fixpoint yield_from (r : res) (after : gen) : res :=
  match r with
  | Stop c => after c
  | Yield v c k => Yield v c (λ c', yield_from (k c') after)
  | Raise e => Raise e
  | Diverge => Diverge
  end.

(** What [FunctionMatch.func] returns: [None], a [bool], a [dict], another
    object (falsy or truthy), or an exception. *)
Inductive fres : Type :=
| FNone
| FBool (b : bool)
| FDict (d : dict)
| FOther (truthy : bool)
| FRaise (e : exn).

(** [Any.length]: one length or a sequence of lengths.  The lengths of the
    patterns here are not negative; a negative length, with which [Any]
    yields [start + length], an index before its start, is left out. *)
Inductive any_length : Type :=
| LenInt (n : nat)
| LenSeq (ls : list nat).

(** ** Patterns *)

Unset Elimination Schemes.
Inductive Pattern : Type :=
| Alternation (patterns : list Pattern)
| Lookahead (base : Pattern) (no_captures : bool)
| EOS
| Concatenation (patterns : list Pattern)
| Repeat (base : Pattern) (min : Z) (max : option Z) (step : Z)
| Any (capture : option string) (length : any_length)
| DirectMatch (value : T) (capture : option string)
| FunctionMatch (func : Captures → T → fres) (capture : option string)
| AnyOfMatch (options : list T) (capture : option string)
| StringMatch (s : T).
Set Elimination Schemes.

(** *** Composition operators *)

Definition Pattern_or (self other : Pattern) : Pattern := Alternation [self; other].
Definition Pattern_ror (self other : Pattern) : Pattern := Alternation [other; self].
Definition Pattern_add (self other : Pattern) : Pattern := Concatenation [self; other].
Definition Pattern_radd (self other : Pattern) : Pattern := Concatenation [other; self].

Definition Alternation_or (patterns : list Pattern) (other : Pattern) : Pattern :=
  match other with
  | Alternation ps => Alternation (patterns ++ ps)
  | _ => Alternation (patterns ++ [other])
  end.

Definition Alternation_ror (patterns : list Pattern) (other : Pattern) : Pattern :=
  match other with
  | Alternation ps => Alternation (ps ++ patterns)
  | _ => Alternation (other :: patterns)
  end.

Definition Concatenation_add (patterns : list Pattern) (other : Pattern) : Pattern :=
  match other with
  | Concatenation ps => Concatenation (patterns ++ ps)
  | _ => Concatenation (patterns ++ [other])
  end.

Definition Concatenation_radd (patterns : list Pattern) (other : Pattern) : Pattern :=
  match other with
  | Concatenation ps => Concatenation (ps ++ patterns)
  | _ => Concatenation (other :: patterns)
  end.

(** [p + q] between two patterns.  Python calls [type(p).__add__(p, q)]; the
    reflected [q.__radd__(p)] would only be tried first if [type(q)] were a
    subclass of [type(p)], or afterwards if [__add__] returned
    [NotImplemented].  No pattern class derives from another concrete pattern
    class and no [__add__] returns [NotImplemented], so the method of the left
    operand decides. *)
Definition add (p q : Pattern) : Pattern :=
  match p with
  | Concatenation ps => Concatenation_add ps q
  | _ => Pattern_add p q
  end.

(** [p | q] between two patterns, dispatched like [add]. *)
Definition or_ (p q : Pattern) : Pattern :=
  match p with
  | Alternation ps => Alternation_or ps q
  | _ => Pattern_or p q
  end.

(** [p[item]] for a slice [start:stop:step] ([None] for an omitted part):
    [Repeat(self, item.start or 0, item.stop, item.step or 1)]. *)
Definition getitem_slice (self : Pattern) (start stop step : option Z) : Pattern :=
  Repeat self
    (match start with Some s => s | None => 0%Z end)
    stop
    (match step with Some s => if decide (s = 0%Z) then 1%Z else s | None => 1%Z end).

(** [p[item]] for an integer: the slice [item:item]. *)
Definition getitem_int (self : Pattern) (item : Z) : Pattern :=
  getitem_slice self (Some item) (Some item) None.

(** ** Matching *)

(** The leaves compare [start] with [len(stream)]: a pair raises [TypeError]. *)
Definition with_index (start : pos) (body : nat → res) : res :=
  match start with
  | PInt n => body n
  | PTup _ => Raise TypeError
  end.

(** [stream[start:start + l]] *)
Definition slice (stream : list T) (start l : nat) : list T :=
  take l (drop start stream).

Definition EOS_match (stream : list T) (start : pos) : gen := λ c,
  with_index start (λ n,
    if length stream <=? n then Yield start c Stop else Stop c).

(** The loop of [Any.match] over a sequence of lengths. *)
Fixpoint Any_loop (capture : option string) (stream : list T) (n : nat)
    (ls : list nat) (c : Captures) : res :=
  match ls with
  | [] => Stop c
  | l :: ls' =>
      if length stream <? n + l then Any_loop capture stream n ls' c
      else
        let '(k, c1) := enter c in
        let c2 := maybe capture (CSlice (slice stream n l)) c1 in
        Yield (PInt (n + l)) c2 (λ c3,
          match exit k c3 with
          | inl e => Raise e
          | inr c4 => Any_loop capture stream n ls' c4
          end)
  end.

Definition Any_match (capture : option string) (len : any_length)
    (stream : list T) (start : pos) : gen := λ c,
  with_index start (λ n,
    if length stream <=? n then Stop c
    else match len with
         | LenInt l =>
             if length stream <? n + l then Stop c
             else Yield (PInt (n + l)) (maybe capture (CSlice (slice stream n l)) c) Stop
         | LenSeq ls => Any_loop capture stream n ls c
         end).

Definition DirectMatch_match (value : T) (capture : option string)
    (stream : list T) (start : pos) : gen := λ c,
  with_index start (λ n,
    if length stream <=? n then Stop c
    else match stream !! n with
         | None => Raise IndexError
         | Some t =>
             if decide (t = value)
             then Yield (PInt (n + 1)) (maybe capture (CTok t) c) Stop
             else Stop c
         end).

(** [r is None or r is False or (not r and r != {})] *)
Definition rejects (r : fres) : bool :=
  match r with
  | FNone => true
  | FBool b => negb b
  | FDict _ => false
  | FOther truthy => negb truthy
  | FRaise _ => false
  end.

Definition FunctionMatch_match (func : Captures → T → fres) (capture : option string)
    (stream : list T) (start : pos) : gen := λ c,
  with_index start (λ n,
    if length stream <=? n then Stop c
    else match stream !! n with
         | None => Raise IndexError
         | Some t =>
             match func c t with
             | FRaise e => Raise e
             | r =>
                 if rejects r then Stop c
                 else
                   let c1 := maybe capture (CTok t) c in
                   let c2 := match r with FDict d => extend d c1 | _ => c1 end in
                   Yield (PInt (n + 1)) c2 Stop
             end
         end).

Definition AnyOfMatch_match (options : list T) (capture : option string)
    (stream : list T) (start : pos) : gen := λ c,
  with_index start (λ n,
    if length stream <=? n then Stop c
    else match stream !! n with
         | None => Raise IndexError
         | Some v =>
             if decide (v ∈ options)
             then Yield (PInt (n + 1)) (maybe capture (CTok v) c) Stop
             else Stop c
         end).

(** [StringMatch.match] on a stream that is a sequence and not a [str]: it
    returns when [len(stream) >= start], and otherwise indexes the stream past
    its end. *)
Definition StringMatch_match (s : T) (stream : list T) (start : pos) : gen := λ c,
  with_index start (λ n,
    if n <=? length stream then Stop c
    else match stream !! n with
         | None => Raise IndexError
         | Some t => if decide (t = s) then Yield (PInt (n + 1)) c Stop else Stop c
         end).

(** [Alternation.match], over the generators of the branches that are left. *)
Fixpoint Alternation_loop (branches : list gen) (c : Captures) : res :=
  match branches with
  | [] => Stop c
  | p :: rest =>
      let '(k, c1) := enter c in
      yield_from (p c1) (λ c2,
        match exit k c2 with
        | inl e => Raise e
        | inr c3 => Alternation_loop rest c3
        end)
  end.

(** The [for] loop of [Lookahead.match] over what is left of the generator of
    [base]. *)
Fixpoint Lookahead_loop (start : pos) (k : nat) (r : res) : res :=
  match r with
  | Stop c => match exit k c with inl e => Raise e | inr c' => Stop c' end
  | Yield _ c next => Yield start c (λ c', Lookahead_loop start k (next c'))
  | Raise e => Raise e
  | Diverge => Diverge
  end.

Definition Lookahead_match (base : gen) (start : pos) : gen := λ c,
  let '(k, c1) := enter c in
  Lookahead_loop start k (base c1).

(** A sub-pattern seen from a loop: [p.match(stream, start, captures)] as a
    function of [start]. *)
Definition matcher : Type := pos → gen.

(** The [while iter_stack] loop of [Concatenation.match].  The stacks grow at
    their end, as Python lists do; [iter_stack] holds the suspended generators,
    each as what is left of it. *)
Fixpoint Concatenation_loop (patterns : list matcher) (fuel : nat)
    (keys_stack : list nat) (iter_stack : list gen) (result_stack : list pos)
    (c : Captures) : res :=
  match fuel with
  | 0 => Diverge
  | S fuel' =>
    match iter_stack with
    | [] => Stop c
    | _ =>
      if negb (length iter_stack =? length keys_stack) then Raise AssertionError
      else if length result_stack <? length iter_stack then
        match iter_stack !! length result_stack with
        | None => Raise IndexError
        | Some g =>
            match g c with
            | Yield v c' g' =>
                Concatenation_loop patterns fuel' keys_stack
                  (<[length result_stack := g']> iter_stack) (result_stack ++ [v]) c'
            | Stop c' =>
                match list_pop iter_stack, list_pop keys_stack with
                | Some (iter_stack', _), Some (keys_stack', key) =>
                    match exit key c' with
                    | inl e => Raise e
                    | inr c'' =>
                        match list_pop result_stack with
                        | None => Stop c''
                        | Some (result_stack', _) =>
                            Concatenation_loop patterns fuel' keys_stack' iter_stack'
                              result_stack' c''
                        end
                    end
                | _, _ => Raise IndexError
                end
            | Raise e => Raise e
            | Diverge => Diverge
            end
        end
      else if length iter_stack <? length patterns then
        let '(k, c1) := enter c in
        match patterns !! length iter_stack, last result_stack with
        | Some p, Some i =>
            Concatenation_loop patterns fuel' (keys_stack ++ [k]) (iter_stack ++ [p i])
              result_stack c1
        | _, _ => Raise IndexError
        end
      else if (length result_stack =? length iter_stack)
              && (length iter_stack =? length patterns) then
        match last result_stack, list_pop result_stack with
        | Some i, Some (result_stack', _) =>
            Yield i c (λ c',
              Concatenation_loop patterns fuel' keys_stack iter_stack result_stack' c')
        | _, _ => Raise IndexError
        end
      else Diverge
    end
  end.

Definition Concatenation_match (patterns : list matcher) (fuel : nat)
    (start : pos) : gen := λ c,
  let '(k, c1) := enter c in
  match patterns !! 0 with
  | None => Raise IndexError
  | Some p => Concatenation_loop patterns fuel [k] [p start] [] c1
  end.

(** [self.max is None or len(iter_stack) < self.max] *)
Definition below_max (max : option Z) (n : nat) : bool :=
  match max with
  | None => true
  | Some m => (Z.of_nat n <? m)%Z
  end.

(** The [while iter_stack] loop of [Repeat.match]. *)
Fixpoint Repeat_loop (base : matcher) (min : Z) (max : option Z) (step : Z)
    (fuel : nat) (keys_stack : list nat) (iter_stack : list gen)
    (result_stack : list pos) (c : Captures) : res :=
  match fuel with
  | 0 => Diverge
  | S fuel' =>
    match iter_stack with
    | [] => Stop c
    | _ =>
      if negb (length iter_stack =? length keys_stack) then Raise AssertionError
      else if length result_stack <? length iter_stack then
        match iter_stack !! length result_stack with
        | None => Raise IndexError
        | Some g =>
            match g c with
            | Yield v c' g' =>
                Repeat_loop base min max step fuel' keys_stack
                  (<[length result_stack := g']> iter_stack) (result_stack ++ [v]) c'
            | Stop c' =>
                match list_pop iter_stack, list_pop keys_stack with
                | Some (iter_stack', _), Some (keys_stack', key) =>
                    match exit key c' with
                    | inl e => Raise e
                    | inr c'' =>
                        match iter_stack' with
                        | [] => Stop c''
                        | _ =>
                            match list_pop result_stack with
                            | None => Raise IndexError
                            | Some (result_stack', _) =>
                                Repeat_loop base min max step fuel' keys_stack' iter_stack'
                                  result_stack' c''
                            end
                        end
                    end
                | _, _ => Raise IndexError
                end
            | Raise e => Raise e
            | Diverge => Diverge
            end
        end
      else
        let push (c0 : Captures) : res :=
          let '(k, c1) := enter c0 in
          match last result_stack with
          | Some i =>
              Repeat_loop base min max step fuel' (keys_stack ++ [k])
                (iter_stack ++ [base i]) result_stack c1
          | None => Raise IndexError
          end in
        if (Z.of_nat (length iter_stack) <? min)%Z then push c
        else if length result_stack =? length iter_stack then
          let after (c0 : Captures) : res :=
            if below_max max (length iter_stack) then push c0
            else match list_pop result_stack with
                 | Some (result_stack', _) =>
                     Repeat_loop base min max step fuel' keys_stack iter_stack
                       result_stack' c0
                 | None => Raise IndexError
                 end in
          if decide (step = 0%Z) then Raise ZeroDivisionError
          else if decide (((Z.of_nat (length iter_stack) - min) mod step)%Z = 0%Z) then
            match last result_stack with
            | Some i => Yield i c after
            | None => Raise IndexError
            end
          else after c
        else Diverge
    end
  end.

Definition Repeat_match (base : matcher) (min : Z) (max : option Z) (step : Z)
    (fuel : nat) (start : pos) : gen := λ c,
  let body (c0 : Captures) : res :=
    let '(k, c1) := enter c0 in
    Repeat_loop base min max step fuel [k] [base start] [] c1 in
  if decide (min = 0%Z) then Yield (PTup start) c body else body c.

(** [p.match(stream, start, captures)], for each class of pattern. *)
Fixpoint pmatch (fuel : nat) (p : Pattern) (stream : list T) (start : pos) : gen :=
  match p with
  | Alternation patterns =>
      Alternation_loop (map (λ q, pmatch fuel q stream start) patterns)
  | Lookahead base _ => Lookahead_match (pmatch fuel base stream start) start
  | EOS => EOS_match stream start
  | Concatenation patterns =>
      Concatenation_match (map (λ q, pmatch fuel q stream) patterns) fuel start
  | Repeat base min max step =>
      Repeat_match (pmatch fuel base stream) min max step fuel start
  | Any capture len => Any_match capture len stream start
  | DirectMatch value capture => DirectMatch_match value capture stream start
  | FunctionMatch func capture => FunctionMatch_match func capture stream start
  | AnyOfMatch options capture => AnyOfMatch_match options capture stream start
  | StringMatch s => StringMatch_match s stream start
  end.

(** ** The first-match driver *)

Record MatchResult : Type := mkMatchResult {
  start : nat;
  end_ : pos;
  orig : list T;
  captures : dict
}.

(** [MatcherFirst._match]: the generator is started at index [0], whatever
    [start] is, and left after its first value. *)
Definition _match (fuel : nat) (pattern : Pattern) (stream : list T) (start : nat)
    : outcome MatchResult :=
  match pmatch fuel pattern stream (PInt 0) Captures_new with
  | Yield i c _ => Returns (mkMatchResult 0 i stream (to_dict c))
  | Stop _ => Raises _NoMatch
  | Raise e => Raises e
  | Diverge => Loops
  end.

(** [MatcherFirst.match] *)
Definition match_ (fuel : nat) (pattern : Pattern) (stream : list T)
    : outcome (option MatchResult) :=
  match _match fuel pattern stream 0 with
  | Returns r => Returns (Some r)
  | Raises _NoMatch => Returns None
  | Raises e => Raises e
  | Loops => Loops
  end.

(** The [for] loop of [MatcherFirst.fullmatch]; [i >= len(stream)] raises
    [TypeError] when [i] is a pair. *)
Fixpoint fullmatch_loop (stream : list T) (r : res) : outcome (option MatchResult) :=
  match r with
  | Stop _ => Returns None
  | Yield i c k =>
      match i with
      | PTup _ => Raises TypeError
      | PInt n =>
          if length stream <=? n
          then Returns (Some (mkMatchResult 0 i stream (to_dict c)))
          else fullmatch_loop stream (k c)
      end
  | Raise e => Raises e
  | Diverge => Loops
  end.

Definition fullmatch (fuel : nat) (pattern : Pattern) (stream : list T)
    : outcome (option MatchResult) :=
  fullmatch_loop stream (pmatch fuel pattern stream (PInt 0) Captures_new).

(** The [while start < len(stream)] loop of [MatcherFirst.search]; [rounds]
    bounds its iterations.  Falling out of the loop returns [None]. *)
Fixpoint search_loop (fuel : nat) (pattern : Pattern) (stream : list T)
    (rounds : nat) (start : nat) : outcome (option MatchResult) :=
  match rounds with
  | 0 => Loops
  | S rounds' =>
      if start <? length stream then
        match _match fuel pattern stream start with
        | Returns r => Returns (Some r)
        | Raises _NoMatch => search_loop fuel pattern stream rounds' (start + 1)
        | Raises e => Raises e
        | Loops => Loops
        end
      else Returns None
  end.

Definition search (fuel : nat) (pattern : Pattern) (stream : list T)
    : outcome (option MatchResult) :=
  search_loop fuel pattern stream (S (length stream)) 0.

(** ** Consuming a generator *)

(** How a generator that is pulled until it ends, ends. *)
Inductive ending : Type :=
| Finished (c : Captures)
| Raised (e : exn)
| Diverged.

(** [for v in g: pass] by a consumer that leaves the captures alone: the values
    yielded, each with the captures as they are at that [yield], and the
    ending. *)
Fixpoint drain (r : res) : list (pos * Captures) * ending :=
  match r with
  | Stop c => ([], Finished c)
  | Yield v c k => let '(l, e) := drain (k c) in ((v, c) :: l, e)
  | Raise e => ([], Raised e)
  | Diverge => ([], Diverged)
  end.

Definition emissions (r : res) : list pos := (drain r).1.*1.

(** The parts of the capture store that [enter] and [exit] move: the chain of
    scopes and the stack of keys. *)
Definition store (c : Captures) : ChainMap * list nat := (_internal c, _keys c).

(** What lies under the first scope: the scopes below it and the keys. *)
Definition frame (c : Captures) : list dict * list nat :=
  (maps_below (_internal c), _keys c).

(** The frame that [enter] makes from a store, with key [k]. *)
Definition entered (σ : ChainMap * list nat) (k : nat) : list dict * list nat :=
  (maps_first σ.1 :: maps_below σ.1, σ.2 ++ [k]).

(** [runs r tr c]: the generator is pulled to its end by a consumer that
    resumes it, each time, on the store it had at its [yield]; it yields [tr]
    and stops on [c]. *)
Inductive runs : res → list (pos * Captures) → Captures → Prop :=
| runs_Stop c : runs (Stop c) [] c
| runs_Yield v c k c' tr cf :
    store c' = store c → runs (k c') tr cf → runs (Yield v c k) ((v, c) :: tr) cf.

(** [pulls r tr r']: such a consumer has taken the values [tr] from the
    generator, and [r'] is what the generator does at the next [next()]. *)
Inductive pulls : res → list (pos * Captures) → res → Prop :=
| pulls_here r : pulls r [] r
| pulls_Yield v c k c' tr r' :
    store c' = store c → pulls (k c') tr r' → pulls (Yield v c k) ((v, c) :: tr) r'.

(** [balanced B r]: however such a consumer pulls [r], if [r] stops, it stops
    with the frame [B]. *)
Inductive balanced (B : list dict * list nat) : res → Prop :=
| balanced_Stop c : frame c = B → balanced B (Stop c)
| balanced_Yield v c k :
    (∀ c', store c' = store c → balanced B (k c')) → balanced B (Yield v c k)
| balanced_Raise e : balanced B (Raise e)
| balanced_Diverge : balanced B Diverge.

(** The suspended generators of a [Concatenation] or [Repeat] loop, with their
    keys: the last one can be resumed on the store [σ']; when it stops it
    leaves the frame that its [enter] made, so that its [exit] gives the store
    on which the one before it can be resumed; under all of them is the store
    [σ0] of the call. *)
Inductive suspended (σ0 : ChainMap * list nat)
    : list nat → list gen → ChainMap * list nat → Prop :=
| suspended_nil : suspended σ0 [] [] σ0
| suspended_snoc ks its σ k g σ' :
    suspended σ0 ks its σ →
    (∀ c, store c = σ' → balanced (entered σ k) (g c)) →
    suspended σ0 (ks ++ [k]) (its ++ [g]) σ'.

(** Induction on patterns, through the lists of sub-patterns. *)
Section Pattern_induction.
Variable P : Pattern → Prop.
Hypothesis HAlternation : ∀ ps, Forall P ps → P (Alternation ps).
Hypothesis HLookahead : ∀ b nc, P b → P (Lookahead b nc).
Hypothesis HEOS : P EOS.
Hypothesis HConcatenation : ∀ ps, Forall P ps → P (Concatenation ps).
Hypothesis HRepeat : ∀ b mn mx st, P b → P (Repeat b mn mx st).
Hypothesis HAny : ∀ cap len, P (Any cap len).
Hypothesis HDirectMatch : ∀ v cap, P (DirectMatch v cap).
Hypothesis HFunctionMatch : ∀ f cap, P (FunctionMatch f cap).
Hypothesis HAnyOfMatch : ∀ o cap, P (AnyOfMatch o cap).
Hypothesis HStringMatch : ∀ s, P (StringMatch s).

Fixpoint Pattern_ind (p : Pattern) : P p :=
  let all := fix all (l : list Pattern) : Forall P l :=
    match l with
    | [] => List.Forall_nil P
    | q :: r => List.Forall_cons P q r (Pattern_ind q) (all r)
    end in
  match p with
  | Alternation ps => HAlternation ps (all ps)
  | Lookahead b nc => HLookahead b nc (Pattern_ind b)
  | EOS => HEOS
  | Concatenation ps => HConcatenation ps (all ps)
  | Repeat b mn mx st => HRepeat b mn mx st (Pattern_ind b)
  | Any cap len => HAny cap len
  | DirectMatch v cap => HDirectMatch v cap
  | FunctionMatch f cap => HFunctionMatch f cap
  | AnyOfMatch o cap => HAnyOfMatch o cap
  | StringMatch s => HStringMatch s
  end.
End Pattern_induction.

(** ** Facts on the capture store *)

Lemma store_frame c c' : store c = store c' → frame c = frame c'.
Proof. unfold store, frame. by intros [= -> ->]. Qed.

Lemma frame_enter c : frame (enter c).2 = entered (store c) (enter c).1.
Proof. reflexivity. Qed.

Lemma frame_maybe name v c : frame (maybe name v c) = frame c.
Proof. by destruct name. Qed.

Lemma frame_extend d c : frame (extend d c) = frame c.
Proof. reflexivity. Qed.

(** [exit] on the frame that [enter] made gives back the store of before. *)
Lemma exit_entered σ k c :
  frame c = entered σ k → ∃ c', exit k c = inr c' ∧ store c' = σ.
Proof.
  destruct σ as [m ks]. unfold frame, entered, exit, store. simpl.
  intros [= Hm Hk]. rewrite Hk, list_pop_app.
  rewrite decide_True by done. eexists; split; [done|]. simpl.
  unfold parents. rewrite Hm. by destruct m.
Qed.

Lemma exit_enter c c2 :
  frame c2 = frame (enter c).2 → ∃ c3, exit (enter c).1 c2 = inr c3 ∧ store c3 = store c.
Proof. intros Hf. apply exit_entered. by rewrite Hf. Qed.

Lemma getitem_store x c c' : store c = store c' → getitem x c = getitem x c'.
Proof. unfold store, getitem. by intros [= -> _]. Qed.

Lemma to_dict_store c c' : store c = store c' → to_dict c = to_dict c'.
Proof. unfold store, to_dict. by intros [= -> _]. Qed.

(** ** Facts on generators *)

Lemma drain_runs r tr c : drain r = (tr, Finished c) → runs r tr c.
Proof.
  revert tr. induction r as [c0|v c0 k IH|e|]; simpl; intros tr Hd.
  - injection Hd as <- <-. constructor.
  - destruct (drain (k c0)) as [l e] eqn:E. injection Hd as <- ->.
    econstructor; [reflexivity|]. by apply IH.
  - discriminate.
  - discriminate.
Qed.

Lemma runs_yield_from r after tr cf :
  runs (yield_from r after) tr cf →
  ∃ tr1 tr2 c2, tr = tr1 ++ tr2 ∧ runs r tr1 c2 ∧ runs (after c2) tr2 cf.
Proof.
  revert tr. induction r as [c0|v c0 k IH|e|]; simpl; intros tr Hr.
  - exists [], tr, c0. repeat split; [constructor | done].
  - inversion Hr as [|? ? ? c' tr' ? Hs Hk]; subst.
    destruct (IH _ _ Hk) as (tr1 & tr2 & c2 & -> & H1 & H2).
    exists ((v, c0) :: tr1), tr2, c2. repeat split; [|done].
    by econstructor.
  - inversion Hr.
  - inversion Hr.
Qed.

Lemma pulls_yield_from r after tr c2 :
  runs r tr c2 → pulls (yield_from r after) tr (after c2).
Proof.
  induction 1 as [c|v c k c' tr cf Hs Hr IH]; simpl; [constructor|].
  by econstructor.
Qed.

Lemma pulls_Alternation_loop (g : gen) rest c tr c2 c3 :
  runs (g (enter c).2) tr c2 →
  exit (enter c).1 c2 = inr c3 →
  pulls (Alternation_loop (g :: rest) c) tr (Alternation_loop rest c3).
Proof.
  intros Hr Hx. cbn [Alternation_loop].
  destruct (enter c) as [k c1]. cbn [fst snd] in Hr, Hx.
  pose proof (pulls_yield_from _
    (λ c2, match exit k c2 with
           | inl e => Raise e
           | inr c3 => Alternation_loop rest c3
           end) _ _ Hr) as Hp.
  cbv beta in Hp. by rewrite Hx in Hp.
Qed.

Lemma balanced_runs B r tr cf : balanced B r → runs r tr cf → frame cf = B.
Proof.
  intros Hb Hr. induction Hr as [c|v c k c' tr cf Hs Hr IH].
  - by inversion Hb.
  - inversion Hb as [|? ? ? Hk| |]; subst. apply IH, Hk, Hs.
Qed.

Lemma balanced_yield_from B1 B2 r (after : gen) :
  balanced B1 r → (∀ c, frame c = B1 → balanced B2 (after c)) →
  balanced B2 (yield_from r after).
Proof.
  intros Hb Ha. induction Hb as [c Hc|v c k Hk IH|e|]; simpl.
  - by apply Ha.
  - constructor. intros c' Hs. by apply IH.
  - constructor.
  - constructor.
Qed.

Lemma suspended_length σ0 ks its σ : suspended σ0 ks its σ → length ks = length its.
Proof. induction 1; [done|]. rewrite !length_app. simpl. lia. Qed.

Lemma lookup_snoc_last {A} (l : list A) (x : A) : (l ++ [x]) !! length l = Some x.
Proof. by apply list_lookup_middle. Qed.

Lemma insert_snoc_last {A} (l : list A) (x y : A) :
  <[length l := y]> (l ++ [x]) = l ++ [y].
Proof. induction l as [|a l IH]; simpl; [done|]. by rewrite IH. Qed.

Lemma last_snoc_pop {A} (l : list A) (x : A) : last (l ++ [x]) = Some x.
Proof. apply last_snoc. Qed.

Lemma suspended_inv σ0 ks its σ' :
  suspended σ0 ks its σ' →
  (ks = [] ∧ its = [] ∧ σ' = σ0) ∨
  (∃ ks0 its0 σ k g,
      ks = ks0 ++ [k] ∧ its = its0 ++ [g] ∧ suspended σ0 ks0 its0 σ ∧
      ∀ c, store c = σ' → balanced (entered σ k) (g c)).
Proof. destruct 1; [by left|]. right. eauto 10. Qed.

(** ** Every pattern is balanced *)

Definition balanced_gen (g : gen) : Prop := ∀ c, balanced (frame c) (g c).

Lemma balanced_stop_same c c' : store c' = store c → balanced (frame c) (Stop c').
Proof. intros Hs. constructor. by apply store_frame. Qed.

Lemma EOS_balanced stream start : balanced_gen (EOS_match stream start).
Proof.
  intros c. unfold EOS_match, with_index. destruct start; [|constructor].
  destruct (_ <=? _); [|by constructor].
  constructor. intros c' Hs. by apply balanced_stop_same.
Qed.

Lemma yield_stop_balanced B v c : frame c = B → balanced B (Yield v c Stop).
Proof.
  intros Hf. constructor. intros c' Hs. constructor.
  by rewrite (store_frame _ _ Hs).
Qed.

Lemma Any_loop_balanced capture stream n ls : balanced_gen (Any_loop capture stream n ls).
Proof.
  induction ls as [|l ls IH]; intros c; simpl; [by constructor|].
  destruct (_ <? _); [apply IH|].
  constructor. intros c3 Hs.
  destruct (exit_enter c c3) as (c4 & Hx & Hs4).
  { rewrite (store_frame _ _ Hs). apply frame_maybe. }
  simpl in Hx. rewrite Hx, <- (store_frame _ _ Hs4). apply IH.
Qed.

Lemma Any_balanced capture len stream start :
  balanced_gen (Any_match capture len stream start).
Proof.
  intros c. unfold Any_match, with_index. destruct start; [|constructor].
  destruct (_ <=? _); [by constructor|].
  destruct len as [l|ls]; [|apply Any_loop_balanced].
  destruct (_ <? _); [by constructor|].
  apply yield_stop_balanced, frame_maybe.
Qed.

Lemma DirectMatch_balanced value capture stream start :
  balanced_gen (DirectMatch_match value capture stream start).
Proof.
  intros c. unfold DirectMatch_match, with_index. destruct start; [|constructor].
  destruct (_ <=? _); [by constructor|].
  destruct (_ !! _); [|constructor].
  destruct (decide _); [|by constructor].
  apply yield_stop_balanced, frame_maybe.
Qed.

Lemma FunctionMatch_balanced func capture stream start :
  balanced_gen (FunctionMatch_match func capture stream start).
Proof.
  intros c. unfold FunctionMatch_match, with_index. destruct start; [|constructor].
  destruct (_ <=? _); [by constructor|].
  destruct (_ !! _); [|constructor].
  destruct (func c t) as [|b|d|b|e]; simpl.
  - by constructor.
  - destruct b; simpl; [|by constructor]. apply yield_stop_balanced, frame_maybe.
  - apply yield_stop_balanced. rewrite frame_extend. apply frame_maybe.
  - destruct b; simpl; [|by constructor]. apply yield_stop_balanced, frame_maybe.
  - constructor.
Qed.

Lemma AnyOfMatch_balanced options capture stream start :
  balanced_gen (AnyOfMatch_match options capture stream start).
Proof.
  intros c. unfold AnyOfMatch_match, with_index. destruct start; [|constructor].
  destruct (_ <=? _); [by constructor|].
  destruct (_ !! _); [|constructor].
  destruct (decide _); [|by constructor].
  apply yield_stop_balanced, frame_maybe.
Qed.

Lemma StringMatch_balanced s stream start :
  balanced_gen (StringMatch_match s stream start).
Proof.
  intros c. unfold StringMatch_match, with_index. destruct start; [|constructor].
  destruct (_ <=? _); [by constructor|].
  destruct (_ !! _); [|constructor].
  destruct (decide _); [|by constructor].
  by apply yield_stop_balanced.
Qed.

(** A branch of an [Alternation], bracketed by [enter] and [exit], gives the
    store back as it was. *)
Lemma Alternation_loop_balanced branches :
  Forall balanced_gen branches → balanced_gen (Alternation_loop branches).
Proof.
  induction 1 as [|p rest Hp _ IH]; intros c; simpl; [by constructor|].
  eapply balanced_yield_from; [apply Hp|].
  intros c2 Hf. destruct (exit_enter c c2 Hf) as (c3 & Hx & Hs).
  simpl in Hx. rewrite Hx, <- (store_frame _ _ Hs). apply IH.
Qed.

Lemma Lookahead_balanced base start :
  balanced_gen base → balanced_gen (Lookahead_match base start).
Proof.
  intros Hb c. unfold Lookahead_match. simpl.
  pose proof (Hb (enter c).2) as Hr. simpl in Hr.
  induction Hr as [c2 Hf|v c2 k Hk IH|e|]; simpl.
  - destruct (exit_enter c c2 Hf) as (c3 & Hx & Hs).
    simpl in Hx. rewrite Hx. constructor. by apply store_frame.
  - constructor. intros c' Hs. by apply IH.
  - constructor.
  - constructor.
Qed.

(** The frame of a store. *)
Definition frame_of (σ : ChainMap * list nat) : list dict * list nat :=
  (maps_below σ.1, σ.2).

Definition balanced_matcher (p : matcher) : Prop := ∀ v, balanced_gen (p v).

(** A new generator, pushed after [enter], keeps the stack of suspended
    generators resumable. *)
Lemma suspended_push σ0 ks its c (g : gen) :
  suspended σ0 ks its (store c) → balanced_gen g →
  suspended σ0 (ks ++ [(enter c).1]) (its ++ [g]) (store (enter c).2).
Proof.
  intros Hs Hg. eapply suspended_snoc; [exact Hs|].
  intros c' Hc'. rewrite <- frame_enter, <- (store_frame _ _ Hc'). apply Hg.
Qed.

Lemma Concatenation_loop_balanced patterns σ0 fuel :
  Forall balanced_matcher patterns →
  ∀ ks its rs c,
    suspended σ0 ks its (store c) →
    length rs ≤ length its ≤ S (length rs) →
    balanced (frame_of σ0) (Concatenation_loop patterns fuel ks its rs c).
Proof.
  intros Hp. induction fuel as [|fuel IH]; intros ks its rs c Hs Hlen; simpl;
    [constructor|].
  destruct (suspended_inv _ _ _ _ Hs)
    as [(-> & -> & Hσ)|(ks0 & its0 & σ & k & g & -> & -> & Hs0 & Hg)].
  { constructor. unfold frame, frame_of. by rewrite <- Hσ. }
  pose proof (suspended_length _ _ _ _ Hs0) as Hl0. unfold gen in *.
  destruct (its0 ++ [g]) as [|g1 its1] eqn:Eits; [by apply app_nil in Eits as [_ ?]|].
  rewrite <- Eits in *. clear g1 its1 Eits.
  rewrite !length_app in *. simpl in *.
  replace (length its0 + 1 =? length ks0 + 1) with true
    by (symmetry; apply Nat.eqb_eq; lia). simpl.
  destruct (length rs <? length its0 + 1) eqn:Epull.
  - apply Nat.ltb_lt in Epull. assert (length rs = length its0) as Hrs by lia.
    rewrite Hrs, lookup_snoc_last.
    pose proof (Hg c eq_refl) as Hgc.
    destruct (g c) as [c'|v c' g'|e|] eqn:Egc; try constructor.
    + rewrite !list_pop_app. inversion Hgc as [? Hf| | |]; subst.
      destruct (exit_entered _ _ _ Hf) as (c'' & -> & Hs'').
      destruct (list_pop rs) as [[rs' x]|] eqn:Ers.
      * apply list_pop_Some in Ers as ->. rewrite length_app in *. simpl in *.
        apply IH; [by rewrite Hs''|lia].
      * apply list_pop_None in Ers as ->. destruct its0; [|done].
        clear Hrs. destruct (suspended_inv _ _ _ _ Hs0)
          as [(_ & _ & ->)|(? & its' & ? & ? & ? & _ & E & _)];
          [|by destruct its'].
        constructor. unfold frame, frame_of. by rewrite <- Hs''.
    + rewrite insert_snoc_last. inversion Hgc as [|? ? ? Hk| |]; subst.
      apply IH; [|rewrite !length_app; simpl; lia].
      eapply suspended_snoc; [exact Hs0|]. intros c0 Hc0. by apply Hk.
  - apply Nat.ltb_ge in Epull. assert (length rs = length its0 + 1) as Hrs by lia.
    destruct (length its0 + 1 <? length patterns) eqn:Epush.
    + destruct (patterns !! (length its0 + 1)) as [p|] eqn:Ep; [|constructor].
      destruct (last rs) as [i|]; [|constructor].
      apply IH; [|rewrite !length_app; simpl; lia].
      apply (suspended_push σ0 (ks0 ++ [k]) (its0 ++ [g]) c (p i)); [done|].
      eapply Forall_lookup_1 in Hp; [|exact Ep]. apply Hp.
    + destruct ((length rs =? length its0 + 1) && _); [|constructor].
      destruct (last rs) as [i|]; [|constructor].
      destruct (list_pop rs) as [[rs' x]|] eqn:Ers; [|constructor].
      apply list_pop_Some in Ers as ->. rewrite length_app in *. simpl in *.
      constructor. intros c' Hc'.
      apply IH; [by rewrite Hc'|rewrite !length_app; simpl; lia].
Qed.

Lemma Concatenation_balanced patterns fuel start :
  Forall balanced_matcher patterns →
  balanced_gen (Concatenation_match patterns fuel start).
Proof.
  intros Hp c. unfold Concatenation_match. simpl.
  destruct (patterns !! 0) as [p|] eqn:Ep; [|constructor].
  change (frame c) with (frame_of (store c)).
  apply Concatenation_loop_balanced; [done| |simpl; lia].
  apply (suspended_push (store c) [] [] c (p start)); [constructor|].
  eapply Forall_lookup_1 in Hp; [|exact Ep]. apply Hp.
Qed.

Lemma Repeat_loop_balanced base min max step σ0 fuel :
  balanced_matcher base →
  ∀ ks its rs c,
    suspended σ0 ks its (store c) →
    length rs ≤ length its ≤ S (length rs) →
    balanced (frame_of σ0) (Repeat_loop base min max step fuel ks its rs c).
Proof.
  intros Hp. induction fuel as [|fuel IH]; intros ks its rs c Hs Hlen; simpl;
    [constructor|].
  destruct (suspended_inv _ _ _ _ Hs)
    as [(-> & -> & Hσ)|(ks0 & its0 & σ & k & g & -> & -> & Hs0 & Hg)].
  { constructor. unfold frame, frame_of. by rewrite <- Hσ. }
  pose proof (suspended_length _ _ _ _ Hs0) as Hl0. unfold gen in *.
  destruct (its0 ++ [g]) as [|g1 its1] eqn:Eits; [by apply app_nil in Eits as [_ ?]|].
  rewrite <- Eits in *. clear g1 its1 Eits.
  rewrite !length_app in *. simpl in *.
  replace (length its0 + 1 =? length ks0 + 1) with true
    by (symmetry; apply Nat.eqb_eq; lia). simpl.
  assert (Hpush : ∀ c0, store c0 = store c → length rs = length its0 + 1 →
    balanced (frame_of σ0)
      (match last rs with
       | Some i =>
           Repeat_loop base min max step fuel
             ((ks0 ++ [k]) ++ [next_object c0])
             ((its0 ++ [g]) ++ [base i]) rs
             (mkCaptures (new_child (_internal c0)) (_keys c0 ++ [next_object c0])
                (S (next_object c0)))
       | None => Raise IndexError
       end)).
  { intros c0 Hc0 Hrs. destruct (last rs) as [i|]; [|constructor].
    apply IH; [|rewrite !length_app; simpl; lia].
    apply (suspended_push σ0 (ks0 ++ [k]) (its0 ++ [g]) c0 (base i)); [|apply Hp].
    by rewrite Hc0. }
  destruct (length rs <? length its0 + 1) eqn:Epull.
  - apply Nat.ltb_lt in Epull. assert (length rs = length its0) as Hrs by lia.
    rewrite Hrs, lookup_snoc_last.
    pose proof (Hg c eq_refl) as Hgc.
    destruct (g c) as [c'|v c' g'|e|] eqn:Egc; try constructor.
    + rewrite !list_pop_app. inversion Hgc as [? Hf| | |]; subst.
      destruct (exit_entered _ _ _ Hf) as (c'' & -> & Hs'').
      destruct its0 as [|g0 its0'] eqn:Eits0.
      * destruct (suspended_inv _ _ _ _ Hs0)
          as [(_ & _ & ->)|(? & its' & ? & ? & ? & _ & E & _)];
          [|by destruct its'].
        constructor. unfold frame, frame_of. by rewrite <- Hs''.
      * rewrite <- Eits0 in *.
        destruct (list_pop rs) as [[rs' x]|] eqn:Ers; [|constructor].
        apply list_pop_Some in Ers as ->. rewrite length_app in *. simpl in *.
        apply IH; [by rewrite Hs''|lia].
    + rewrite insert_snoc_last. inversion Hgc as [|? ? ? Hk| |]; subst.
      apply IH; [|rewrite !length_app; simpl; lia].
      eapply suspended_snoc; [exact Hs0|]. intros c0 Hc0. by apply Hk.
  - apply Nat.ltb_ge in Epull. assert (length rs = length its0 + 1) as Hrs by lia.
    destruct (_ <? min)%Z; [by apply Hpush|].
    destruct (length rs =? length its0 + 1); [|constructor].
    assert (Hafter : ∀ c0, store c0 = store c →
      balanced (frame_of σ0)
        (if below_max max (length its0 + 1)
         then
           match last rs with
           | Some i =>
               Repeat_loop base min max step fuel
                 ((ks0 ++ [k]) ++ [next_object c0])
                 ((its0 ++ [g]) ++ [base i]) rs
                 (mkCaptures (new_child (_internal c0))
                    (_keys c0 ++ [next_object c0]) (S (next_object c0)))
           | None => Raise IndexError
           end
         else
           match list_pop rs with
           | Some (result_stack', _) =>
               Repeat_loop base min max step fuel (ks0 ++ [k]) (its0 ++ [g])
                 result_stack' c0
           | None => Raise IndexError
           end)).
    { intros c0 Hc0. destruct (below_max _ _); [by apply Hpush|].
      destruct (list_pop rs) as [[rs' x]|] eqn:Ers; [|constructor].
      apply list_pop_Some in Ers as ->. rewrite length_app in *. simpl in *.
      apply IH; [by rewrite Hc0|rewrite !length_app; simpl; lia]. }
    destruct (decide (step = 0%Z)); [constructor|].
    destruct (decide _); [|by apply Hafter].
    destruct (last rs) as [i|] eqn:Elast; [|constructor].
    constructor. intros c' Hc'. by apply Hafter.
Qed.

Lemma Repeat_balanced base min max step fuel start :
  balanced_matcher base → balanced_gen (Repeat_match base min max step fuel start).
Proof.
  intros Hp c. unfold Repeat_match.
  assert (Hbody : ∀ c0, store c0 = store c →
    balanced (frame c)
      (let '(k, c1) := enter c0 in
       Repeat_loop base min max step fuel [k] [base start] [] c1)).
  { intros c0 Hc0. simpl. change (frame c) with (frame_of (store c)).
    apply Repeat_loop_balanced; [done| |simpl; lia].
    apply (suspended_push (store c) [] [] c0 (base start)); [|apply Hp].
    rewrite Hc0. constructor. }
  destruct (decide _); [|by apply Hbody].
  constructor. intros c' Hc'. by apply Hbody.
Qed.

(** Every generator that [pmatch] makes is balanced: when it is pulled to its
    end, the scopes it entered are all exited, in order, and only the first
    scope of the store it started on may have changed. *)
Lemma pmatch_balanced fuel p stream start :
  balanced_gen (pmatch fuel p stream start).
Proof.
  revert start.
  induction p as [ps IH|b nc IH| |ps IH|b mn mx st IH| | | | |] using Pattern_ind;
    intros start; simpl.
  - apply Alternation_loop_balanced. apply Forall_map.
    eapply Forall_impl; [exact IH|]. intros q Hq. apply Hq.
  - by apply Lookahead_balanced.
  - apply EOS_balanced.
  - apply Concatenation_balanced. apply Forall_map.
    eapply Forall_impl; [exact IH|]. intros q Hq v. apply Hq.
  - apply Repeat_balanced. intros v. apply IH.
  - apply Any_balanced.
  - apply DirectMatch_balanced.
  - apply FunctionMatch_balanced.
  - apply AnyOfMatch_balanced.
  - apply StringMatch_balanced.
Qed.

(** ** Properties of the engine *)

Lemma Alternation_loop_runs_store branches c tr cf :
  Forall balanced_gen branches →
  runs (Alternation_loop branches c) tr cf → store cf = store c.
Proof.
  intros Hb. revert c tr. induction Hb as [|p rest Hp _ IH]; intros c tr; simpl.
  - by inversion 1.
  - intros Hr. apply runs_yield_from in Hr as (tr1 & tr2 & c2 & -> & H1 & H2).
    pose proof (balanced_runs _ _ _ _ (Hp _) H1) as Hf.
    destruct (exit_enter c c2 Hf) as (c3 & Hx & Hs). simpl in Hx.
    rewrite Hx in H2. rewrite <- Hs. by eapply IH.
Qed.

Lemma drain_Lookahead_loop start k r :
  (drain (Lookahead_loop start k r)).1 = (λ e, (start, e.2)) <$> (drain r).1.
Proof.
  induction r as [c|v c next IH|e|]; simpl; try done.
  - by destruct (exit k c).
  - specialize (IH c). destruct (drain (next c)) as [l e].
    destruct (drain (Lookahead_loop start k (next c))) as [l' e'].
    simpl in *. by rewrite IH.
Qed.

(** [_match] does not look at its [start]. *)
Lemma _match_ignores_start fuel pattern stream start :
  _match fuel pattern stream start = _match fuel pattern stream 0.
Proof. reflexivity. Qed.

Lemma search_loop_result fuel pattern stream rounds start r :
  search_loop fuel pattern stream rounds start = Returns (Some r) →
  _match fuel pattern stream 0 = Returns r.
Proof.
  revert start. induction rounds as [|rounds IH]; intros start; simpl; [done|].
  destruct (start <? length stream); [|done].
  rewrite (_match_ignores_start _ _ _ start).
  destruct (_match fuel pattern stream 0) as [r0|e|]; try done.
  - by intros [= ->].
  - destruct e; try done. apply IH.
Qed.

(** Whatever [search] finds is the match at index [0]. *)
Lemma search_only_at_zero fuel pattern stream r :
  search fuel pattern stream = Returns (Some r) →
  _match fuel pattern stream 0 = Returns r ∧ start r = 0.
Proof.
  intros Hs. apply search_loop_result in Hs. split; [done|].
  unfold _match in Hs. by destruct (pmatch _ _ _ _ _); inversion Hs.
Qed.

(** With [min == 0], the first value of [Repeat.match] is the pair
    [(start, {})]. *)
Lemma Repeat_min_zero_first fuel base max step stream start c :
  ∃ k, pmatch fuel (Repeat base 0 max step) stream start c = Yield (PTup start) c k.
Proof. simpl. unfold Repeat_match. simpl. eauto. Qed.

(** The elements that a pattern brings into a sequence. *)
Definition concatenation_elements (p : Pattern) : list Pattern :=
  match p with
  | Concatenation ps => ps
  | _ => [p]
  end.

Definition alternation_elements (p : Pattern) : list Pattern :=
  match p with
  | Alternation ps => ps
  | _ => [p]
  end.

Definition is_Concatenation (p : Pattern) : bool :=
  match p with Concatenation _ => true | _ => false end.

Definition is_Alternation (p : Pattern) : bool :=
  match p with Alternation _ => true | _ => false end.

(** A [Concatenation] on the left flattens both operands. *)
Lemma add_Concatenation_left ps q :
  add (Concatenation ps) q = Concatenation (ps ++ concatenation_elements q).
Proof. by destruct q. Qed.

(** Any other pattern on the left keeps the right operand whole. *)
Lemma add_other_left p q :
  is_Concatenation p = false → add p q = Concatenation [p; q].
Proof. by destruct p. Qed.

Lemma or_Alternation_left ps q :
  or_ (Alternation ps) q = Alternation (ps ++ alternation_elements q).
Proof. by destruct q. Qed.

Lemma or_other_left p q :
  is_Alternation p = false → or_ p q = Alternation [p; q].
Proof. by destruct p. Qed.

(** C5. Capture isolation in [Alternation]: every branch runs between an
    [enter] and the [exit] with its key.  When a branch has been pulled to its
    end (it failed, or all that it yielded was rejected), that [exit] succeeds
    and gives back the store of before the branch, so that every name [x] is
    bound, or unbound, as it was; the alternation has yielded what the branch
    yielded and goes on as the alternation of the other branches from that
    store; and when these come to their end too, the store is still the one
    that the alternation started on. *)
Theorem Alternation_capture_isolation fuel p rest stream start c tr c2 :
  runs (pmatch fuel p stream start (enter c).2) tr c2 →
  ∃ c3,
    exit (enter c).1 c2 = inr c3 ∧
    store c3 = store c ∧
    (∀ x, getitem x c3 = getitem x c) ∧
    pulls (pmatch fuel (Alternation (p :: rest)) stream start c) tr
          (pmatch fuel (Alternation rest) stream start c3) ∧
    (∀ tr' cf,
       runs (pmatch fuel (Alternation rest) stream start c3) tr' cf →
       store cf = store c).
Proof.
  intros Hr.
  pose proof (balanced_runs _ _ _ _ (pmatch_balanced fuel p stream start _) Hr) as Hf.
  destruct (exit_enter c c2 Hf) as (c3 & Hx & Hs).
  exists c3. repeat split; try done.
  - intros x. by apply getitem_store.
  - exact (pulls_Alternation_loop (pmatch fuel p stream start)
             (map (λ q, pmatch fuel q stream start) rest) c tr c2 c3 Hr Hx).
  - intros tr' cf Hr'. rewrite <- Hs. simpl in Hr'.
    eapply Alternation_loop_runs_store; [|exact Hr'].
    apply Forall_map, Forall_forall. intros q _. apply pmatch_balanced.
Qed.

(** C6, as the code has it. [Lookahead] is zero-width and yields once for
    every value that its inner pattern yields at the start position (inside
    the scope that the lookahead entered): each time it yields the start
    position itself, whatever the inner pattern consumed, with the captures of
    the inner pattern at that point; so it yields at least once just when the
    inner pattern matches, and nothing when it does not. *)
Theorem Lookahead_emissions fuel base no_captures stream start c :
  (drain (pmatch fuel (Lookahead base no_captures) stream start c)).1
  = (λ e, (start, e.2)) <$> (drain (pmatch fuel base stream start (enter c).2)).1.
Proof. simpl. unfold Lookahead_match. simpl. apply drain_Lookahead_loop. Qed.

Lemma Lookahead_emissions_start fuel base no_captures stream start c :
  emissions (pmatch fuel (Lookahead base no_captures) stream start c)
  = (λ _, start) <$> emissions (pmatch fuel base stream start (enter c).2).
Proof.
  unfold emissions. simpl. unfold Lookahead_match. simpl.
  rewrite drain_Lookahead_loop, <- !list_fmap_compose. done.
Qed.

End Engine.

(** ** The engine on concrete streams of strings *)

Section Examples.
Open Scope string_scope.

Definition tok (s : string) : Pattern (T := string) := DirectMatch s None.

(** The branch [DirectMatch('a', 'x')] on the stream [['a']]: it yields once,
    with [x] bound, and is then exhausted. *)
Lemma Alternation_capture_isolation_witness :
  let p : Pattern (T := string) := DirectMatch "a" (Some "x") in
  let rest : list (Pattern (T := string)) := [DirectMatch "b" None] in
  let c : Captures (T := string) := Captures_new in
  ∃ tr c2,
    runs (pmatch 5 p ["a"] (PInt 0) (enter c).2) tr c2 ∧
    (λ e, getitem "x" e.2) <$> tr = [Some (CTok "a")] ∧
    ∃ c3,
      exit (enter c).1 c2 = inr c3 ∧
      store c3 = store c ∧
      (∀ x, getitem x c3 = getitem x c) ∧
      pulls (pmatch 5 (Alternation (p :: rest)) ["a"] (PInt 0) c) tr
            (pmatch 5 (Alternation rest) ["a"] (PInt 0) c3) ∧
      (∀ tr' cf,
         runs (pmatch 5 (Alternation rest) ["a"] (PInt 0) c3) tr' cf →
         store cf = store c).
Proof.
  intros p rest c. set (r := pmatch 5 p ["a"] (PInt 0) (enter c).2).
  exists (drain r).1,
    (match (drain r).2 with Finished c' => c' | _ => Captures_new end).
  assert (Hr : runs r (drain r).1
                 (match (drain r).2 with Finished c' => c' | _ => Captures_new end)).
  { apply drain_runs. vm_compute. reflexivity. }
  split; [exact Hr|]. split; [vm_compute; reflexivity|].
  exact (Alternation_capture_isolation 5 p rest ["a"] (PInt 0) c _ _ Hr).
Defined.

(** In that run [x] is bound while the first branch is the candidate. *)
Example first_branch_binds_x :
  (λ e, getitem "x" e.2) <$>
    (drain (pmatch 5 (Alternation [DirectMatch "a" (Some "x"); DirectMatch "b" None])
              ["a"] (PInt 0) Captures_new)).1
  = [Some (CTok "a")].
Proof. vm_compute. reflexivity. Qed.

(** C1. [search] does not find a match that starts after index [0]: the
    pattern [DirectMatch('b')] matches the stream [['a', 'b']] at start index
    [1] (and not at [0]), and [search] returns [None]. *)
Theorem search_misses_later_start :
  emissions (pmatch 5 (tok "b") ["a"; "b"] (PInt 1) Captures_new) = [PInt 2] ∧
  emissions (pmatch 5 (tok "b") ["a"; "b"] (PInt 0) Captures_new) = [] ∧
  search 5 (tok "b") ["a"; "b"] = Returns None.
Proof. vm_compute. done. Qed.

(** C4. The count-0 emission of [Repeat] is not the start index: on a stream
    where the inner pattern matches zero times, [Repeat(p, 0, None, 1)]
    yields exactly one value, the pair [(0, {})], and [match] reports it as
    the end of the match. *)
Theorem Repeat_zero_count_is_a_pair :
  emissions (pmatch 5 (Repeat (tok "a") 0 None 1) ["b"] (PInt 0) Captures_new)
    = [PTup (PInt 0)] ∧
  end_ <$> _match 5 (Repeat (tok "a") 0 None 1) ["b"] 0 = Returns (PTup (PInt 0)).
Proof. vm_compute. done. Qed.

(** The rest of what C4 says holds on these streams: with [min = 2] and
    [max = 4] the counts 2, 3 and 4 are emitted and no other. *)
Example Repeat_2_4_counts :
  emissions (pmatch 40 (Repeat (tok "a") 2 (Some 4%Z) 1)
               ["a"; "a"; "a"; "a"; "a"; "a"] (PInt 0) Captures_new)
  = [PInt 2; PInt 3; PInt 4].
Proof. vm_compute. reflexivity. Qed.

(** The pair cannot be the start of what follows in a sequence: the next
    pattern compares it with [len(stream)]. *)
Example Repeat_zero_then_token :
  (drain (pmatch 40 (Concatenation [Repeat (tok "a") 0 None 1; tok "a"])
            ["a"; "a"] (PInt 0) Captures_new)).2
  = Raised TypeError.
Proof. vm_compute. reflexivity. Qed.

(** A counterexample to C6 as it is stated: the inner pattern [Any(None,
    (1, 2))] matches [['a', 'b']] at index 0 (in two ways), and the lookahead
    yields its start twice, not once. *)
Lemma Lookahead_yields_twice :
  let inner : Pattern (T := string) := Any None (LenSeq [1; 2]) in
  ¬ (emissions (pmatch 5 inner ["a"; "b"] (PInt 0) (enter Captures_new).2) ≠ [] →
     emissions (pmatch 5 (Lookahead inner false) ["a"; "b"] (PInt 0) Captures_new)
       = [PInt 0]).
Proof. intros inner Hc. by specialize (Hc ltac:(by vm_compute)). Qed.

Example Lookahead_twice :
  emissions (pmatch 5 (Lookahead (Any None (LenSeq [1; 2])) false)
               ["a"; "b"] (PInt 0) (@Captures_new string))
  = [PInt 0; PInt 0].
Proof. vm_compute. reflexivity. Qed.

(** C9. Composition does not always flatten: with a pattern that is not a
    [Concatenation] on the left, [p + q] keeps the [Concatenation] [q] whole,
    nested directly inside the result; and likewise for [p | q] and an
    [Alternation] [q]. *)
Theorem add_keeps_right_Concatenation :
  add (tok "a") (Concatenation [tok "b"; tok "c"])
    = Concatenation [tok "a"; Concatenation [tok "b"; tok "c"]] ∧
  or_ (tok "a") (Alternation [tok "b"; tok "c"])
    = Alternation [tok "a"; Alternation [tok "b"; tok "c"]].
Proof. split; reflexivity. Qed.

End Examples.

(** ** The drivers and the capture store, further *)

Section Drivers.
Context {T : Type} `{EqDecision T}.

Implicit Types (c : Captures (T := T)) (x : string).

(** ** More on the capture store *)

(** [captures[x] = v] for each item of [binds], in order. *)
Definition bind_all (binds : list (string * cval)) c : Captures :=
  foldl (λ acc kv, setitem kv.1 kv.2 acc) c binds.

Lemma bind_all_frame binds c : frame (bind_all binds c) = frame c.
Proof. revert c. induction binds as [|[x v] binds IH]; intros c; simpl; [done|]. by rewrite IH. Qed.

Lemma getitem_setitem x v c : getitem x (setitem x v c) = Some v.
Proof. unfold getitem, setitem, ChainMap_getitem. simpl. by rewrite lookup_insert_eq. Qed.

Lemma getitem_setitem_ne x y v c : x ≠ y → getitem x (setitem y v c) = getitem x c.
Proof.
  intros Hne. unfold getitem, setitem, ChainMap_getitem. simpl.
  by rewrite lookup_insert_ne.
Qed.

Lemma getitem_bind_all_other binds x c :
  x ∉ binds.*1 → getitem x (bind_all binds c) = getitem x c.
Proof.
  revert c. induction binds as [|[y v] binds IH]; intros c; simpl; [done|].
  intros [Hne Hx]%not_elem_of_cons. rewrite IH by done. by apply getitem_setitem_ne.
Qed.

Lemma bind_all_app l1 l2 c : bind_all (l1 ++ l2) c = bind_all l2 (bind_all l1 c).
Proof. apply foldl_app. Qed.

Lemma getitem_enter x c : getitem x (enter c).2 = getitem x c.
Proof. unfold getitem, enter, ChainMap_getitem. simpl. by rewrite lookup_empty. Qed.

(** X1. A scope of the capture store: after [enter], the names bound before
    are still read, a name bound inside reads as its last binding, and [exit]
    with the key that [enter] gave drops all of them and gives back every
    name as it was before.  [exit] with another key raises
    [AssertionError]; on a store with no open scope it raises
    [IndexError]. *)
Theorem Captures_scope_roundtrip c (binds : list (string * cval)) :
  let k := (enter c).1 in
  let c2 := bind_all binds (enter c).2 in
  (∀ x, x ∉ binds.*1 → getitem x c2 = getitem x c) ∧
  (∀ x v pre post, binds = pre ++ (x, v) :: post → x ∉ post.*1 → getitem x c2 = Some v) ∧
  (∃ c3, exit k c2 = inr c3 ∧ _keys c3 = _keys c ∧ to_dict c3 = to_dict c ∧
         ∀ x, getitem x c3 = getitem x c) ∧
  (∀ k', k' ≠ k → exit k' c2 = inl AssertionError) ∧
  exit k (@Captures_new T) = inl IndexError.
Proof.
  intros k c2. split; [|split; [|split; [|split]]].
  - intros x Hx. unfold c2. rewrite getitem_bind_all_other by done. apply getitem_enter.
  - intros x v pre post -> Hx. unfold c2. rewrite bind_all_app.
    change (bind_all ((x, v) :: post) ?c') with (bind_all post (setitem x v c')).
    rewrite getitem_bind_all_other by done. apply getitem_setitem.
  - destruct (exit_enter c c2) as (c3 & Hx & Hs); [apply bind_all_frame|].
    exists c3. split; [done|]. split; [by injection Hs|].
    split; [by apply to_dict_store|]. intros x. by apply getitem_store.
  - intros k' Hk'. pose proof (bind_all_frame binds (enter c).2) as Hf.
    unfold exit. fold c2 in Hf. unfold frame in Hf. injection Hf as _ ->.
    simpl. rewrite list_pop_app. by rewrite decide_False.
  - reflexivity.
Qed.

(** ** Scopes are closed by every pattern *)

(** X2. Whatever the pattern, a match generator that is pulled to its end
    has exited every scope that it entered: the stack of keys and the scopes
    under the first one are those of the call.  (A leaf pattern binds its
    capture in the first scope, which is the caller's.) *)
Theorem match_closes_its_scopes fuel p (stream : list T) start c tr cf :
  runs (pmatch fuel p stream start c) tr cf →
  _keys cf = _keys c ∧ maps_below (_internal cf) = maps_below (_internal c).
Proof.
  intros Hr.
  pose proof (balanced_runs _ _ _ _ (pmatch_balanced fuel p stream start c) Hr) as Hf.
  unfold frame in Hf. by injection Hf.
Qed.

(** ** [search] and [match] *)

Lemma search_loop_no_match fuel pattern (stream : list T) rounds start :
  _match fuel pattern stream 0 = Raises _NoMatch →
  0 < rounds → length stream < rounds + start →
  search_loop fuel pattern stream rounds start = Returns None.
Proof.
  intros Hm. revert start. induction rounds as [|rounds IH]; intros start Hr Hlen;
    simpl; [lia|].
  destruct (start <? length stream) eqn:E; [|done].
  apply Nat.ltb_lt in E.
  rewrite (_match_ignores_start _ _ _ start), Hm. apply IH; lia.
Qed.

(** X3. [search] never looks further than [match]: on an empty stream it
    returns [None] without trying the pattern, and on any other stream it
    does what [match] does, which tries the pattern at index [0] only. *)
Theorem search_is_match fuel pattern (stream : list T) :
  search fuel pattern stream =
    match stream with
    | [] => Returns None
    | _ => match_ fuel pattern stream
    end.
Proof.
  destruct stream as [|t stream]; [reflexivity|].
  unfold search, match_. generalize (eq_refl (length (t :: stream))).
  generalize (length (t :: stream)) at 1 3. intros rounds Hr.
  destruct (_match fuel pattern (t :: stream) 0) as [r|e|] eqn:Hm.
  - simpl. by rewrite Hm.
  - destruct e; try (simpl; by rewrite Hm).
    apply search_loop_no_match; [done|lia|lia].
  - simpl. by rewrite Hm.
Qed.

(** ** [MatcherLongest] *)

#[global] Instance pos_eq_dec : EqDecision pos.
Proof. solve_decision. Defined.

(** [a > b] between yielded values: integers are compared; two pairs
    [(a, {})] and [(b, {})] are compared as tuples, by their first items if
    these differ; an integer and a pair are not ordered. *)
Fixpoint pos_gt (a b : pos) : outcome bool :=
  match a, b with
  | PInt x, PInt y => Returns (y <? x)
  | PTup x, PTup y => if decide (x = y) then Returns false else pos_gt x y
  | _, _ => Raises TypeError
  end.

(** The [for] loop of [MatcherLongest._match], on what is left of the
    generator. *)
Fixpoint longest_loop (stream : list T) (best : option MatchResult) (r : res)
    : outcome MatchResult :=
  match r with
  | Stop _ =>
      match best with
      | None => Raises _NoMatch
      | Some b => Returns b
      end
  | Yield i c k =>
      let r0 := mkMatchResult 0 i stream (to_dict c) in
      match best with
      | None => longest_loop stream (Some r0) (k c)
      | Some b =>
          match pos_gt i (end_ b) with
          | Returns gt => longest_loop stream (Some (if gt then r0 else b)) (k c)
          | Raises e => Raises e
          | Loops => Loops
          end
      end
  | Raise e => Raises e
  | Diverge => Loops
  end.

(** [MatcherLongest._match]: like [MatcherFirst._match], it starts the
    generator at index [0] whatever [start] is. *)
Definition MatcherLongest_match (fuel : nat) (pattern : Pattern) (stream : list T)
    (start : nat) : outcome MatchResult :=
  longest_loop stream None (pmatch fuel pattern stream (PInt 0) Captures_new).

Definition int_end (e : pos * Captures (T := T)) (P : nat → Prop) : Prop :=
  ∃ m, e.1 = PInt m ∧ P m.

Lemma longest_loop_spec (stream : list T) r tr cf b n cb :
  drain r = (tr, Finished cf) →
  Forall (λ e, int_end e (λ _, True)) tr →
  b = mkMatchResult 0 (PInt n) stream (to_dict cb) →
  (Forall (λ e, int_end e (λ m, m ≤ n)) tr ∧ longest_loop stream (Some b) r = Returns b) ∨
  (∃ pre n' c' post,
      tr = pre ++ (PInt n', c') :: post ∧ n < n' ∧
      Forall (λ e, int_end e (λ m, m < n')) pre ∧
      Forall (λ e, int_end e (λ m, m ≤ n')) post ∧
      longest_loop stream (Some b) r
        = Returns (mkMatchResult 0 (PInt n') stream (to_dict c'))).
Proof.
  revert tr b n cb. induction r as [c0|v c0 k IH|e|]; simpl; intros tr b n cb Hd Hall ->.
  - injection Hd as <- _. left. by split.
  - destruct (drain (k c0)) as [l e] eqn:E. injection Hd as <- ->.
    apply Forall_cons in Hall as [(m & Hv & _) Hall]. simpl in Hv. subst v. simpl.
    destruct (n <? m) eqn:Hnm.
    + apply Nat.ltb_lt in Hnm. right.
      destruct (IH c0 l _ m c0 E Hall eq_refl)
        as [[Hle Hres]|(pre & n' & c' & post & -> & Hlt & Hpre & Hpost & Hres)].
      * exists [], m, c0, l. repeat split; try done.
      * exists ((PInt m, c0) :: pre), n', c', post. repeat split; try done; [lia|].
        constructor; [|done]. exists m. split; [done|lia].
    + apply Nat.ltb_ge in Hnm.
      destruct (IH c0 l _ n cb E Hall eq_refl)
        as [[Hle Hres]|(pre & n' & c' & post & -> & Hlt & Hpre & Hpost & Hres)].
      * left. split; [|done]. constructor; [|done]. by exists m.
      * right. exists ((PInt m, c0) :: pre), n', c', post. repeat split; try done.
        constructor; [|done]. exists m. split; [done|lia].
  - discriminate.
  - discriminate.
Qed.

(** X5. [MatcherLongest._match], for a pattern all of whose values at
    index [0] are indices: with no value it raises [_NoMatch]; otherwise it
    returns the match that ends furthest, the first one of them if several
    end there, with the captures as they were when that value was yielded.
    Its start is [0], whatever [start] was asked. *)
Theorem MatcherLongest_match_spec fuel pattern (stream : list T) start tr cf :
  drain (pmatch fuel pattern stream (PInt 0) Captures_new) = (tr, Finished cf) →
  Forall (λ e, int_end e (λ _, True)) tr →
  match tr with
  | [] => MatcherLongest_match fuel pattern stream start = Raises _NoMatch
  | _ =>
      ∃ pre n c post,
        tr = pre ++ (PInt n, c) :: post ∧
        Forall (λ e, int_end e (λ m, m < n)) pre ∧
        Forall (λ e, int_end e (λ m, m ≤ n)) post ∧
        MatcherLongest_match fuel pattern stream start
          = Returns (mkMatchResult 0 (PInt n) stream (to_dict c))
  end.
Proof.
  unfold MatcherLongest_match.
  destruct (pmatch fuel pattern stream (PInt 0) Captures_new) as [c0|v c0 k|e|];
    simpl; intros Hd Hall; try discriminate.
  - by injection Hd as <- _.
  - destruct (drain (k c0)) as [l e] eqn:E. injection Hd as <- ->.
    apply Forall_cons in Hall as [(m & Hv & _) Hall]. simpl in Hv. subst v.
    destruct (longest_loop_spec stream (k c0) l cf _ m c0 E Hall eq_refl)
      as [[Hle Hres]|(pre & n' & c' & post & -> & Hlt & Hpre & Hpost & Hres)].
    + exists [], m, c0, l. repeat split; try done.
    + exists ((PInt m, c0) :: pre), n', c', post. repeat split; try done.
      constructor; [|done]. exists m. split; [done|lia].
Qed.

(** ** [findall] *)

(** The class of a matcher object: [findall] and the other drivers of
    [MatcherFirst] are inherited by [MatcherLongest] and call
    [self._match]. *)
Inductive matcher_class : Type := MatcherFirst | MatcherLongest.

Definition self_match (cls : matcher_class) (fuel : nat) (pattern : Pattern)
    (stream : list T) (start : nat) : outcome MatchResult :=
  match cls with
  | MatcherFirst => _match fuel pattern stream start
  | MatcherLongest => MatcherLongest_match fuel pattern stream start
  end.

(** The generator [findall], pulled by a consumer for as long as it yields:
    the results yielded during [rounds] rounds of its [while] loop, and how it
    ends ([Loops]: it is still inside the loop after these rounds).  [start]
    becomes [r.end], which can be a pair. *)
Fixpoint findall_loop (cls : matcher_class) (fuel : nat) (pattern : Pattern)
    (stream : list T) (overlapping : bool) (rounds : nat) (start : pos)
    : list MatchResult * outcome unit :=
  match rounds with
  | 0 => ([], Loops)
  | S rounds' =>
      match start with
      | PTup _ => ([], Raises TypeError)
      | PInt n =>
          if n <? length stream then
            match self_match cls fuel pattern stream n with
            | Returns r =>
                let '(l, e) :=
                  findall_loop cls fuel pattern stream overlapping rounds'
                    (if overlapping then PInt (n + 1) else end_ r) in
                (r :: l, e)
            | Raises _NoMatch =>
                findall_loop cls fuel pattern stream overlapping rounds' (PInt (n + 1))
            | Raises e => ([], Raises e)
            | Loops => ([], Loops)
            end
          else ([], Returns tt)
      end
  end.

Definition findall (cls : matcher_class) (fuel : nat) (pattern : Pattern)
    (stream : list T) (overlapping : bool) (rounds : nat)
    : list MatchResult * outcome unit :=
  findall_loop cls fuel pattern stream overlapping rounds (PInt 0).

Lemma self_match_ignores_start cls fuel pattern (stream : list T) start :
  self_match cls fuel pattern stream start = self_match cls fuel pattern stream 0.
Proof. by destruct cls. Qed.

Lemma findall_loop_no_match cls fuel pattern (stream : list T) overlapping rounds n :
  self_match cls fuel pattern stream 0 = Raises _NoMatch →
  0 < rounds → length stream < rounds + n →
  findall_loop cls fuel pattern stream overlapping rounds (PInt n) = ([], Returns tt).
Proof.
  intros Hm. revert n. induction rounds as [|rounds IH]; intros n Hr Hlen; simpl; [lia|].
  destruct (n <? length stream) eqn:E; [|done]. apply Nat.ltb_lt in E.
  rewrite (self_match_ignores_start _ _ _ _ n), Hm. apply IH; lia.
Qed.

Lemma findall_loop_overlapping cls fuel pattern (stream : list T) rounds n r :
  self_match cls fuel pattern stream 0 = Returns r →
  0 < rounds → length stream < rounds + n →
  findall_loop cls fuel pattern stream true rounds (PInt n)
    = (replicate (length stream - n) r, Returns tt).
Proof.
  intros Hm. revert n. induction rounds as [|rounds IH]; intros n Hr Hlen; simpl; [lia|].
  destruct (n <? length stream) eqn:E.
  - apply Nat.ltb_lt in E.
    rewrite (self_match_ignores_start _ _ _ _ n), Hm, IH by lia.
    replace (length stream - n) with (S (length stream - (n + 1))) by lia. done.
  - apply Nat.ltb_ge in E. by replace (length stream - n) with 0 by lia.
Qed.

Lemma findall_loop_stuck cls fuel pattern (stream : list T) rounds n r e :
  self_match cls fuel pattern stream 0 = Returns r →
  end_ r = PInt e → e < length stream → n < length stream →
  findall_loop cls fuel pattern stream false rounds (PInt n) = (replicate rounds r, Loops).
Proof.
  intros Hm He Hlt. revert n. induction rounds as [|rounds IH]; intros n Hn; simpl; [done|].
  apply Nat.ltb_lt in Hn as Hn'. rewrite Hn'.
  rewrite (self_match_ignores_start _ _ _ _ n), Hm, He, IH by done. done.
Qed.

(** X4. [findall] repeats the match at index [0].  With no match there it
    yields nothing.  When overlapping matches are asked for it yields that
    one match once for every index of the stream.  Otherwise it goes on from
    the end of the match: if this is the end of the stream it has yielded the
    match once and stops, and if it is an index inside the stream the loop
    never leaves it and yields the same match at every round. *)
Theorem findall_repeats_first_match cls fuel pattern (stream : list T) overlapping rounds :
  length stream < rounds →
  findall cls fuel pattern stream overlapping rounds =
    match stream with
    | [] => ([], Returns tt)
    | _ =>
        match self_match cls fuel pattern stream 0 with
        | Returns r =>
            if overlapping then (replicate (length stream) r, Returns tt)
            else
              match end_ r with
              | PInt e =>
                  if e <? length stream then (replicate rounds r, Loops)
                  else ([r], Returns tt)
              | PTup _ => ([r], Raises TypeError)
              end
        | Raises _NoMatch => ([], Returns tt)
        | Raises e => ([], Raises e)
        | Loops => ([], Loops)
        end
    end.
Proof.
  intros Hlen. unfold findall.
  destruct stream as [|t stream]; [destruct rounds; [simpl in Hlen; lia|done]|].
  set (s := t :: stream) in *.
  assert (0 < length s) as Hpos by (simpl; lia).
  destruct (self_match cls fuel pattern s 0) as [r|ex|] eqn:Hm.
  - destruct overlapping.
    + rewrite (findall_loop_overlapping _ _ _ _ _ _ r) by (done || lia).
      by rewrite Nat.sub_0_r.
    + destruct (end_ r) as [e|p] eqn:He.
      * destruct (e <? length s) eqn:E.
        { apply Nat.ltb_lt in E. by eapply findall_loop_stuck. }
        destruct rounds as [|[|rounds]]; [lia|lia|].
        cbn [findall_loop]. apply Nat.ltb_lt in Hpos as ->.
        rewrite Hm, He, E. done.
      * destruct rounds as [|[|rounds]]; [lia|lia|].
        cbn [findall_loop]. apply Nat.ltb_lt in Hpos as ->.
        rewrite Hm, He. done.
  - destruct (decide (ex = _NoMatch)) as [->|Hne].
    + apply findall_loop_no_match; [done|lia|lia].
    + destruct rounds as [|rounds]; [lia|].
      cbn [findall_loop]. apply Nat.ltb_lt in Hpos as ->.
      rewrite Hm. by destruct ex.
  - destruct rounds as [|rounds]; [lia|].
    cbn [findall_loop]. apply Nat.ltb_lt in Hpos as ->.
    by rewrite Hm.
Qed.

(** ** Chains of operators *)

(** X6. A chain [p0 + p1 + ... + pn], which Python reads from the left,
    is one [Concatenation]: the first sum decides its first elements, and
    every later operand is appended, its elements one by one if it is a
    [Concatenation] itself.  Chains of [|] make an [Alternation] in the same
    way. *)
Theorem operator_chain_flattens (p0 p1 : Pattern (T := T)) (rest : list Pattern) :
  foldl add p0 (p1 :: rest)
    = Concatenation (concatenation_elements (add p0 p1)
                     ++ concat (concatenation_elements <$> rest)) ∧
  foldl or_ p0 (p1 :: rest)
    = Alternation (alternation_elements (or_ p0 p1)
                   ++ concat (alternation_elements <$> rest)).
Proof.
  split; cbn [foldl].
  - assert (∃ ps, add p0 p1 = Concatenation ps) as [ps ->].
    { destruct p0; simpl; eauto; destruct p1; simpl; eauto. }
    cbn [concatenation_elements]. revert ps.
    induction rest as [|q rest IH]; intros ps; cbn [foldl fmap list_fmap concat].
    + by rewrite app_nil_r.
    + rewrite add_Concatenation_left, IH. by rewrite <- app_assoc.
  - assert (∃ ps, or_ p0 p1 = Alternation ps) as [ps ->].
    { destruct p0; simpl; eauto; destruct p1; simpl; eauto. }
    cbn [alternation_elements]. revert ps.
    induction rest as [|q rest IH]; intros ps; cbn [foldl fmap list_fmap concat].
    + by rewrite app_nil_r.
    + rewrite or_Alternation_left, IH. by rewrite <- app_assoc.
Qed.

(** ** [StringMatch] on a sequence *)

(** X7. On a stream that is a sequence and not a [str], [StringMatch]
    never yields: for a start inside the stream, or at its end, it returns at
    once, and for a start past the end it raises [IndexError]. *)
Theorem StringMatch_never_matches_a_sequence fuel s (stream : list T) start c :
  drain (pmatch fuel (StringMatch s) stream start c) =
    match start with
    | PInt n => if n <=? length stream then ([], Finished c) else ([], Raised IndexError)
    | PTup _ => ([], Raised TypeError)
    end.
Proof.
  simpl. unfold StringMatch_match, with_index. destruct start as [n|]; [|done].
  destruct (n <=? length stream) eqn:E; [done|].
  apply Nat.leb_gt in E. by rewrite lookup_ge_None_2 by lia.
Qed.

(** ** Where a match can end *)

(** The index inside a yielded value. *)
Fixpoint pos_index (v : pos) : nat :=
  match v with
  | PInt n => n
  | PTup p => pos_index p
  end.

(** [within lo hi r]: whatever the consumer does to the captures between
    two values, every value that [r] yields has its index in [lo, hi]. *)
Inductive within (lo hi : nat) : res (T := T) → Prop :=
| within_Stop c : within lo hi (Stop c)
| within_Yield v c k :
    lo ≤ pos_index v ≤ hi → (∀ c', within lo hi (k c')) → within lo hi (Yield v c k)
| within_Raise e : within lo hi (Raise e)
| within_Diverge : within lo hi Diverge.

(** A sub-pattern that, started on a value, stays between that value and the
    end of the stream (or that value, if it is past the end). *)
Definition stays_within (len : nat) (p : matcher (T := T)) : Prop :=
  ∀ v c, within (pos_index v) (pos_index v `max` len) (p v c).

Lemma within_weaken lo hi lo' hi' r :
  within lo hi r → lo' ≤ lo → hi ≤ hi' → within lo' hi' r.
Proof.
  intros Hw Hlo Hhi. induction Hw as [c|v c k Hv Hk IH|e|]; constructor; [lia|done].
Qed.

Lemma within_yield_from lo hi r (after : gen) :
  within lo hi r → (∀ c, within lo hi (after c)) → within lo hi (yield_from r after).
Proof.
  intros Hw Ha. induction Hw as [c|v c k Hv Hk IH|e|]; simpl; [done| |constructor..].
  by constructor.
Qed.

Lemma within_started lo hi len (p : matcher) v c :
  stays_within len p → lo ≤ pos_index v ≤ hi → len ≤ hi → within lo hi (p v c).
Proof. intros Hp Hv Hlen. eapply within_weaken; [apply Hp|lia|lia]. Qed.

Lemma within_yield_stop lo hi v c : lo ≤ pos_index v ≤ hi → within lo hi (Yield v c Stop).
Proof. intros Hv. constructor; [done|]. intros c'. constructor. Qed.

Lemma Any_loop_within capture (stream : list T) n ls c :
  within n (n `max` length stream) (Any_loop capture stream n ls c).
Proof.
  revert c. induction ls as [|l ls IH]; intros c; simpl; [constructor|].
  destruct (length stream <? n + l) eqn:E; [apply IH|].
  apply Nat.ltb_ge in E. constructor; [simpl; lia|].
  intros c'. destruct (exit _ c'); [constructor|apply IH].
Qed.

Lemma Lookahead_loop_within lo hi start k r :
  lo ≤ pos_index start ≤ hi → within lo hi (Lookahead_loop start k r).
Proof.
  intros Hs. induction r as [c|v c next IH|e|]; simpl.
  - destruct (exit k c); constructor.
  - by constructor.
  - constructor.
  - constructor.
Qed.

Lemma Alternation_loop_within lo hi (branches : list gen) c :
  Forall (λ g : gen, ∀ c, within lo hi (g c)) branches →
  within lo hi (Alternation_loop branches c).
Proof.
  intros Hb. revert c. induction Hb as [|g rest Hg _ IH]; intros c; simpl; [constructor|].
  apply within_yield_from; [apply Hg|].
  intros c2. destruct (exit _ c2); [constructor|apply IH].
Qed.

Lemma last_Forall {A} (P : A → Prop) (l : list A) (a : A) :
  Forall P l → last l = Some a → P a.
Proof.
  intros Hl Hx. apply last_Some in Hx as [l' ->]. apply Forall_app in Hl as [_ Hl].
  by inversion Hl.
Qed.

Lemma list_pop_Forall {A} (P : A → Prop) (l l' : list A) (a : A) :
  Forall P l → list_pop l = Some (l', a) → Forall P l'.
Proof. intros Hl ->%list_pop_Some. by apply Forall_app in Hl as [Hl _]. Qed.

Lemma Concatenation_loop_within lo hi len (patterns : list matcher) fuel :
  Forall (stays_within len) patterns → len ≤ hi →
  ∀ ks (its : list gen) rs c,
    Forall (λ g : gen, ∀ c, within lo hi (g c)) its →
    Forall (λ v, lo ≤ pos_index v ≤ hi) rs →
    within lo hi (Concatenation_loop patterns fuel ks its rs c).
Proof.
  intros Hp Hlen. induction fuel as [|fuel IH]; intros ks its rs c Hits Hrs; simpl;
    [constructor|].
  destruct its as [|g0 its0] eqn:Eits; [constructor|]. rewrite <- Eits in *.
  clear g0 its0 Eits.
  destruct (negb _); [constructor|].
  destruct (length rs <? length its).
  - destruct (its !! length rs) as [g|] eqn:Eg; [|constructor].
    pose proof (Forall_lookup_1 _ _ _ _ Hits Eg c) as Hg.
    destruct (g c) as [c'|v c' g'|e|]; [| |constructor..].
    + destruct (list_pop its) as [[its' gl]|] eqn:Epop; [|constructor].
      destruct (list_pop ks) as [[ks' kl]|]; [|constructor].
      destruct (exit kl c'); [constructor|].
      destruct (list_pop rs) as [[rs' rl]|] eqn:Ers; [|constructor].
      apply IH; [by eapply list_pop_Forall|by eapply list_pop_Forall].
    + inversion Hg as [|? ? ? Hv Hk| |]; subst.
      apply IH; [by apply Forall_insert|].
      apply Forall_app; split; [done|]. by apply Forall_singleton.
  - destruct (length its <? length patterns).
    + destruct (patterns !! length its) as [p|] eqn:Ep; [|constructor].
      destruct (last rs) as [i|] eqn:Ei; [|constructor].
      apply IH; [|done]. apply Forall_app; split; [done|]. apply Forall_singleton.
      intros c0. apply (within_started lo hi len p i c0);
        [by eapply Forall_lookup_1 in Hp|exact (last_Forall _ _ _ Hrs Ei)|done].
    + destruct (_ && _); [|constructor].
      destruct (last rs) as [i|] eqn:Ei; [|constructor].
      destruct (list_pop rs) as [[rs' rl]|] eqn:Ers; [|constructor].
      constructor; [exact (last_Forall _ _ _ Hrs Ei)|].
      intros c'. apply IH; [done|by eapply list_pop_Forall].
Qed.

Lemma Repeat_loop_within lo hi len (base : matcher) min max step fuel :
  stays_within len base → len ≤ hi →
  ∀ ks (its : list gen) rs c,
    Forall (λ g : gen, ∀ c, within lo hi (g c)) its →
    Forall (λ v, lo ≤ pos_index v ≤ hi) rs →
    within lo hi (Repeat_loop base min max step fuel ks its rs c).
Proof.
  intros Hp Hlen. induction fuel as [|fuel IH]; intros ks its rs c Hits Hrs; simpl;
    [constructor|].
  destruct its as [|g0 its0] eqn:Eits; [constructor|]. rewrite <- Eits in *.
  clear g0 its0 Eits.
  destruct (negb _); [constructor|].
  assert (Hpush : ∀ c0,
    within lo hi
      (match last rs with
       | Some i =>
           Repeat_loop base min max step fuel (ks ++ [next_object c0])
             (its ++ [base i]) rs
             (mkCaptures (new_child (_internal c0)) (_keys c0 ++ [next_object c0])
                (S (next_object c0)))
       | None => Raise IndexError
       end)).
  { intros c0. destruct (last rs) as [i|] eqn:Ei; [|constructor].
    apply IH; [|done]. apply Forall_app; split; [done|]. apply Forall_singleton.
    intros c1. apply (within_started lo hi len base i c1);
      [done|exact (last_Forall _ _ _ Hrs Ei)|done]. }
  destruct (length rs <? length its).
  - destruct (its !! length rs) as [g|] eqn:Eg; [|constructor].
    pose proof (Forall_lookup_1 _ _ _ _ Hits Eg c) as Hg.
    destruct (g c) as [c'|v c' g'|e|]; [| |constructor..].
    + destruct (list_pop its) as [[its' gl]|] eqn:Epop; [|constructor].
      destruct (list_pop ks) as [[ks' kl]|]; [|constructor].
      destruct (exit kl c'); [constructor|].
      destruct its' as [|g1 its1] eqn:Eits'; [constructor|]. rewrite <- Eits' in *.
      destruct (list_pop rs) as [[rs' rl]|] eqn:Ers; [|constructor].
      apply IH; [by eapply list_pop_Forall|by eapply list_pop_Forall].
    + inversion Hg as [|? ? ? Hv Hk| |]; subst.
      apply IH; [by apply Forall_insert|].
      apply Forall_app; split; [done|]. by apply Forall_singleton.
  - destruct (_ <? min)%Z; [apply Hpush|].
    destruct (length rs =? length its); [|constructor].
    assert (Hafter : ∀ c0,
      within lo hi
        (if below_max max (length its)
         then
           match last rs with
           | Some i =>
               Repeat_loop base min max step fuel (ks ++ [next_object c0])
                 (its ++ [base i]) rs
                 (mkCaptures (new_child (_internal c0))
                    (_keys c0 ++ [next_object c0]) (S (next_object c0)))
           | None => Raise IndexError
           end
         else
           match list_pop rs with
           | Some (result_stack', _) =>
               Repeat_loop base min max step fuel ks its result_stack' c0
           | None => Raise IndexError
           end)).
    { intros c0. destruct (below_max _ _); [apply Hpush|].
      destruct (list_pop rs) as [[rs' rl]|] eqn:Ers; [|constructor].
      apply IH; [done|by eapply list_pop_Forall]. }
    destruct (decide (step = 0%Z)); [constructor|].
    destruct (decide _); [|apply Hafter].
    destruct (last rs) as [i|] eqn:Ei; [|constructor].
    constructor; [exact (last_Forall _ _ _ Hrs Ei)|]. apply Hafter.
Qed.

Lemma pmatch_stays_within fuel p (stream : list T) :
  stays_within (length stream) (pmatch fuel p stream).
Proof.
  induction p as [ps IH|b nc IH| |ps IH|b mn mx st IH|cap len|val cap|f cap|opts cap|s]
    using Pattern_ind; intros start c; simpl.
  - apply Alternation_loop_within. apply Forall_map.
    eapply Forall_impl; [exact IH|]. intros q Hq c0. apply Hq.
  - unfold Lookahead_match. simpl. apply Lookahead_loop_within. lia.
  - unfold EOS_match, with_index. destruct start as [n|]; [|constructor].
    destruct (_ <=? _); [|constructor]. apply within_yield_stop. simpl. lia.
  - unfold Concatenation_match. simpl.
    destruct (map _ ps !! 0) as [p|] eqn:Ep; [|constructor].
    assert (Forall (stays_within (length stream)) (map (λ q, pmatch fuel q stream) ps))
      as Hps by (by apply Forall_map).
    eapply Concatenation_loop_within; [exact Hps|lia| |constructor].
    apply Forall_singleton. intros c0.
    by eapply Forall_lookup_1 in Hps.
  - unfold Repeat_match.
    assert (Hbody : ∀ c0,
      within (pos_index start) (pos_index start `max` length stream)
        (let '(k, c1) := enter c0 in
         Repeat_loop (pmatch fuel b stream) mn mx st fuel [k] [pmatch fuel b stream start]
           [] c1)).
    { intros c0. simpl. eapply Repeat_loop_within; [exact IH|lia| |constructor].
      apply Forall_singleton. intros c1. apply IH. }
    destruct (decide _); [|apply Hbody].
    constructor; [simpl; lia|apply Hbody].
  - unfold Any_match, with_index. destruct start as [n|]; [|constructor].
    destruct (_ <=? _); [constructor|].
    destruct len as [l|ls]; [|apply Any_loop_within].
    destruct (length stream <? n + l) eqn:E; [constructor|].
    apply Nat.ltb_ge in E. apply within_yield_stop. simpl. lia.
  - unfold DirectMatch_match, with_index. destruct start as [n|]; [|constructor].
    destruct (length stream <=? n) eqn:E; [constructor|]. apply Nat.leb_gt in E.
    destruct (_ !! _); [|constructor].
    destruct (decide _); [|constructor]. apply within_yield_stop. simpl. lia.
  - unfold FunctionMatch_match, with_index. destruct start as [n|]; [|constructor].
    destruct (length stream <=? n) eqn:E; [constructor|]. apply Nat.leb_gt in E.
    destruct (_ !! _); [|constructor].
    destruct (f c t) as [|bb|d|bb|e]; simpl.
    + constructor.
    + destruct bb; simpl; [|constructor]. apply within_yield_stop. simpl. lia.
    + apply within_yield_stop. simpl. lia.
    + destruct bb; simpl; [|constructor]. apply within_yield_stop. simpl. lia.
    + constructor.
  - unfold AnyOfMatch_match, with_index. destruct start as [n|]; [|constructor].
    destruct (length stream <=? n) eqn:E; [constructor|]. apply Nat.leb_gt in E.
    destruct (_ !! _); [|constructor].
    destruct (decide _); [|constructor]. apply within_yield_stop. simpl. lia.
  - unfold StringMatch_match, with_index. destruct start as [n|]; [|constructor].
    destruct (n <=? length stream) eqn:E; [constructor|]. apply Nat.leb_gt in E.
    rewrite lookup_ge_None_2 by lia. constructor.
Qed.

Lemma within_drain lo hi r :
  within lo hi r → Forall (λ e, lo ≤ pos_index e.1 ≤ hi) (drain r).1.
Proof.
  induction 1 as [c|v c k Hv Hk IH|e|]; simpl; try constructor.
  specialize (IH c). destruct (drain (k c)) as [l e]. by constructor.
Qed.

(** X9. A match never ends past the end of the stream: every value that a
    pattern yields, started on the index [n], holds an index that is at most
    [len(stream)] (or [n] itself, when [n] is past the end). *)
Theorem match_ends_within_the_stream fuel p (stream : list T) n c :
  Forall (λ v, pos_index v ≤ n `max` length stream)
    (emissions (pmatch fuel p stream (PInt n) c)).
Proof.
  unfold emissions. apply Forall_fmap.
  eapply Forall_impl; [apply (within_drain n (n `max` length stream))|].
  - apply (pmatch_stays_within fuel p stream (PInt n) c).
  - intros e He. unfold compose. simpl in *. lia.
Qed.

(** X29. A match does not go back, when no [Any] of the pattern has a
    negative length (as it is for the lengths here, which are natural
    numbers): every value that the pattern yields, started on the index [n],
    holds an index that is at least [n].  With a negative length [Any] yields
    [start + length], an index before its start. *)
Theorem match_does_not_go_back fuel p (stream : list T) n c :
  Forall (λ v, n ≤ pos_index v) (emissions (pmatch fuel p stream (PInt n) c)).
Proof.
  unfold emissions. apply Forall_fmap.
  eapply Forall_impl; [apply (within_drain n (n `max` length stream))|].
  - apply (pmatch_stays_within fuel p stream (PInt n) c).
  - intros e He. unfold compose. simpl in *. lia.
Qed.

(** ** Sequences of literals *)

(** The sub-patterns of a [Concatenation] of literals [DirectMatch(w, name)],
    as the loop sees them. *)
Definition literal_matchers (fuel : nat) (stream : list T)
    (ws : list (T * option string)) : list (matcher (T := T)) :=
  map (λ q, pmatch fuel q stream) ((λ wc, DirectMatch wc.1 wc.2) <$> ws).

Lemma exit_last_key (c : Captures (T := T)) base ks key :
  _keys c = base ++ ks ++ [key] →
  ∃ c', exit key c = inr c' ∧ _keys c' = base ++ ks.
Proof.
  intros Hk. unfold exit. rewrite Hk, app_assoc, list_pop_app.
  rewrite decide_True by done. eauto.
Qed.

Lemma replicate_snoc {A} (a : A) m : replicate m a ++ [a] = replicate (S m) a.
Proof. induction m as [|m IH]; simpl; [done|]. by rewrite IH. Qed.

(** One round of the loop of [Concatenation.match], in each of its four
    cases. *)
Lemma Concatenation_loop_exhausted (patterns : list matcher) fuel ks0 key
    (its0 : list gen) (g : gen) rs (c c' c'' : Captures (T := T)) :
  length ks0 = length its0 → length rs = length its0 →
  g c = Stop c' → exit key c' = inr c'' →
  Concatenation_loop patterns (S fuel) (ks0 ++ [key]) (its0 ++ [g]) rs c =
    match list_pop rs with
    | None => Stop c''
    | Some (rs', _) => Concatenation_loop patterns fuel ks0 its0 rs' c''
    end.
Proof.
  intros Hks Hrs Hg Hx. cbn [Concatenation_loop]. unfold gen in *.
  destruct (its0 ++ [g]) as [|g1 its1] eqn:Eits; [by apply app_nil in Eits as [_ ?]|].
  rewrite <- Eits. clear g1 its1 Eits.
  rewrite !length_app. cbn [length].
  replace (length its0 + 1 =? length ks0 + 1) with true
    by (symmetry; apply Nat.eqb_eq; lia).
  replace (length rs <? length its0 + 1) with true by (symmetry; apply Nat.ltb_lt; lia).
  cbn [negb]. rewrite Hrs, lookup_snoc_last, Hg, !list_pop_app, Hx. done.
Qed.

Lemma Concatenation_loop_pulled (patterns : list matcher) fuel ks
    (its0 : list gen) (g g' : gen) rs v (c c' : Captures (T := T)) :
  length ks = S (length its0) → length rs = length its0 →
  g c = Yield v c' g' →
  Concatenation_loop patterns (S fuel) ks (its0 ++ [g]) rs c =
    Concatenation_loop patterns fuel ks (its0 ++ [g']) (rs ++ [v]) c'.
Proof.
  intros Hks Hrs Hg. cbn [Concatenation_loop]. unfold gen in *.
  destruct (its0 ++ [g]) as [|g1 its1] eqn:Eits; [by apply app_nil in Eits as [_ ?]|].
  rewrite <- Eits. clear g1 its1 Eits.
  rewrite !length_app. cbn [length].
  replace (length its0 + 1 =? length ks) with true by (symmetry; apply Nat.eqb_eq; lia).
  replace (length rs <? length its0 + 1) with true by (symmetry; apply Nat.ltb_lt; lia).
  cbn [negb]. rewrite Hrs, lookup_snoc_last, Hg, insert_snoc_last. done.
Qed.

Lemma Concatenation_loop_pushes (patterns : list matcher) fuel ks
    (its : list gen) rs i p (c : Captures (T := T)) :
  its ≠ [] → length ks = length its → length rs = length its →
  patterns !! length its = Some p → last rs = Some i →
  Concatenation_loop patterns (S fuel) ks its rs c =
    Concatenation_loop patterns fuel (ks ++ [(enter c).1]) (its ++ [p i]) rs (enter c).2.
Proof.
  intros Hne Hks Hrs Hp Hi. cbn [Concatenation_loop]. unfold gen in *.
  destruct its as [|g1 its1] eqn:Eits; [done|]. rewrite <- Eits in *. clear g1 its1 Eits Hne.
  replace (length its =? length ks) with true by (symmetry; apply Nat.eqb_eq; lia).
  replace (length rs <? length its) with false by (symmetry; apply Nat.ltb_ge; lia).
  apply lookup_lt_Some in Hp as Hlt.
  replace (length its <? length patterns) with true by (symmetry; by apply Nat.ltb_lt).
  cbn [negb]. unfold enter. by rewrite Hp, Hi.
Qed.

Lemma Concatenation_loop_yields (patterns : list matcher) fuel ks
    (its : list gen) rs' i (c : Captures (T := T)) :
  its ≠ [] → length ks = length its → S (length rs') = length its →
  length its = length patterns →
  Concatenation_loop patterns (S fuel) ks its (rs' ++ [i]) c =
    Yield i c (λ c', Concatenation_loop patterns fuel ks its rs' c').
Proof.
  intros Hne Hks Hrs Hp. cbn [Concatenation_loop]. unfold gen in *.
  destruct its as [|g1 its1] eqn:Eits; [done|]. rewrite <- Eits in *. clear g1 its1 Eits Hne.
  rewrite length_app. cbn [length].
  replace (length its =? length ks) with true by (symmetry; apply Nat.eqb_eq; lia).
  replace (length rs' + 1 <? length its) with false by (symmetry; apply Nat.ltb_ge; lia).
  replace (length its <? length patterns) with false by (symmetry; apply Nat.ltb_ge; lia).
  replace (length rs' + 1 =? length its) with true by (symmetry; apply Nat.eqb_eq; lia).
  replace (length its =? length patterns) with true by (symmetry; by apply Nat.eqb_eq).
  cbn [negb andb]. by rewrite last_snoc, list_pop_app.
Qed.

(** When every generator on the stack is exhausted, the loop unwinds: it
    yields nothing more and returns. *)
Lemma Concatenation_loop_unwinds (patterns : list matcher) base m :
  ∀ fuel ks rs (c : Captures (T := T)),
    m < fuel → length ks = S m → length rs = m → _keys c = base ++ ks →
    ∃ cf, drain (Concatenation_loop patterns fuel ks (replicate (S m) Stop) rs c)
          = ([], Finished cf).
Proof.
  induction m as [|m IH]; intros fuel ks rs c Hfuel Hks Hrs Hc;
    (destruct fuel as [|fuel]; [lia|]);
    (destruct (list_pop ks) as [[ks' key]|] eqn:Eks;
      [|apply list_pop_None in Eks; by subst]);
    apply list_pop_Some in Eks as ->;
    rewrite length_app in Hks; simpl in Hks;
    (destruct (exit_last_key c base ks' key) as (c' & Hx & Hk'); [done|]);
    rewrite <- replicate_snoc;
    rewrite (Concatenation_loop_exhausted _ _ _ _ _ _ _ c c c');
      try done; try (rewrite length_replicate; lia).
  - destruct rs; [|done]. simpl. eauto.
  - destruct (list_pop rs) as [[rs' rl]|] eqn:Ers;
      [|apply list_pop_None in Ers; by subst].
    apply list_pop_Some in Ers as ->.
    rewrite length_app in Hrs. simpl in Hrs.
    apply IH; [lia|lia|lia|done].
Qed.

(** The loop, when the literals before index [i] have matched and the
    generator of the one at [i] has just been pushed. *)
Lemma Concatenation_loop_literals fuel0 (stream : list T) ws n base d :
  ∀ i fuel ks rs (c : Captures (T := T)) w cap,
    d + i = length ws →
    ws !! i = Some (w, cap) →
    2 * d + length ws ≤ fuel →
    length ks = S i → length rs = i → _keys c = base ++ ks →
    (i = 0 ∨ last rs = Some (PInt (n + i))) →
    ∃ cf,
      (drain (Concatenation_loop (literal_matchers fuel0 stream ws) fuel ks
                (replicate i Stop ++ [DirectMatch_match w cap stream (PInt (n + i))])
                rs c)).2 = Finished cf ∧
      emissions (Concatenation_loop (literal_matchers fuel0 stream ws) fuel ks
                   (replicate i Stop ++ [DirectMatch_match w cap stream (PInt (n + i))])
                   rs c)
      = if decide (take d (drop (n + i) stream) = (drop i ws).*1)
        then [PInt (n + length ws)] else [].
Proof.
  induction d as [|d IH]; intros i fuel ks rs c w cap Hd Hw Hfuel Hks Hrs Hc Hlast.
  { apply lookup_lt_Some in Hw. lia. }
  destruct fuel as [|fuel]; [lia|].
  destruct (list_pop ks) as [[ks' key]|] eqn:Eks;
    [|apply list_pop_None in Eks; by subst].
  apply list_pop_Some in Eks as ->. rewrite length_app in Hks. simpl in Hks.
  rewrite (drop_S ws (w, cap) i Hw). cbn [fmap list_fmap fst].
  assert (Hmiss : ∀ c1, DirectMatch_match w cap stream (PInt (n + i)) c = Stop c1 →
    _keys c1 = _keys c →
    ∃ cf,
      (drain (Concatenation_loop (literal_matchers fuel0 stream ws) (S fuel) (ks' ++ [key])
                (replicate i Stop ++ [DirectMatch_match w cap stream (PInt (n + i))])
                rs c)).2 = Finished cf ∧
      emissions (Concatenation_loop (literal_matchers fuel0 stream ws) (S fuel)
                   (ks' ++ [key])
                   (replicate i Stop ++ [DirectMatch_match w cap stream (PInt (n + i))])
                   rs c) = []).
  { intros c1 Hg Hk1.
    destruct (exit_last_key c1 base ks' key) as (c' & Hx & Hk'); [by rewrite Hk1|].
    rewrite (Concatenation_loop_exhausted _ _ _ _ _ _ _ c c1 c');
      try done; try (rewrite length_replicate; lia).
    destruct (list_pop rs) as [[rs' rl]|] eqn:Ers.
    - apply list_pop_Some in Ers as ->. rewrite length_app in Hrs. simpl in Hrs.
      destruct i as [|i]; [lia|].
      destruct (Concatenation_loop_unwinds (literal_matchers fuel0 stream ws) base i
                  fuel ks' rs' c') as [cf Hcf]; [lia|lia|lia|done|].
      exists cf. unfold emissions. by rewrite Hcf.
    - simpl. eauto. }
  unfold DirectMatch_match in Hmiss |- * at 1 2. unfold with_index in Hmiss |- *.
  destruct (stream !! (n + i)) as [t|] eqn:Et.
  2:{ apply lookup_ge_None in Et.
      rewrite (proj2 (Nat.leb_le _ _) Et) in Hmiss |- *.
      destruct (Hmiss c eq_refl eq_refl) as (cf & H1 & H2).
      exists cf. split; [done|]. rewrite H2.
      rewrite drop_ge by lia. rewrite take_nil. by rewrite decide_False. }
  apply lookup_lt_Some in Et as Hlt.
  rewrite (proj2 (Nat.leb_gt _ _) Hlt) in Hmiss |- *.
  rewrite (drop_S stream t (n + i) Et). cbn [take].
  destruct (decide (t = w)) as [->|Hne].
  2:{ destruct (Hmiss c eq_refl eq_refl) as (cf & H1 & H2).
      exists cf. split; [done|]. rewrite H2. rewrite decide_False; [done|].
      by intros [= ?]. }
  clear Hmiss.
  rewrite (Concatenation_loop_pulled _ _ _ _ _ Stop _ (PInt (n + i + 1))
             c (maybe cap (CTok w) c));
    try done; try (rewrite ?length_app, ?length_replicate; simpl; lia).
  rewrite replicate_snoc.
  set (c1 := maybe cap (CTok w) c).
  assert (_keys c1 = base ++ ks' ++ [key]) as Hc1 by (unfold c1; by destruct cap).
  destruct (ws !! S i) as [[w' cap']|] eqn:Enext.
  - (* more literals: the next generator is pushed *)
    destruct fuel as [|fuel]; [apply lookup_lt_Some in Enext; lia|].
    rewrite (Concatenation_loop_pushes _ _ _ _ _ (PInt (n + i + 1))
               (pmatch fuel0 (DirectMatch w' cap') stream) c1);
      try done; try (rewrite ?length_app, ?length_replicate; simpl; lia).
    2:{ unfold literal_matchers. rewrite length_replicate, list_lookup_fmap,
          list_lookup_fmap, Enext. done. }
    2:{ apply last_snoc. }
    cbn [pmatch].
    replace (n + i + 1) with (n + S i) by lia.
    destruct (IH (S i) fuel ((ks' ++ [key]) ++ [(enter c1).1]) (rs ++ [PInt (n + S i)])
                (enter c1).2 w' cap') as (cf & H1 & H2);
      try done; try (rewrite ?length_app; simpl; lia).
    { simpl. by rewrite Hc1, <- !app_assoc. }
    { right. apply last_snoc. }
    exists cf. split; [done|]. etrans; [exact H2|].
    replace (S (n + i)) with (n + S i) by lia.
    destruct (decide (take d (drop (n + S i) stream) = (drop (S i) ws).*1)) as [Heq|Hneq].
    + by rewrite decide_True by (by rewrite Heq).
    + rewrite decide_False; [done|]. by intros [= ?].
  - (* the last literal: the loop yields, and unwinds *)
    apply lookup_ge_None in Enext. assert (d = 0) as -> by lia.
    rewrite (drop_ge ws) by lia. rewrite take_0. cbn [fmap list_fmap].
    rewrite decide_True by done.
    destruct fuel as [|fuel]; [lia|].
    rewrite (Concatenation_loop_yields _ _ _ _ _ (PInt (n + i + 1)) c1);
      try done;
      try (unfold literal_matchers;
           rewrite ?length_app, ?length_map, ?length_fmap, ?length_replicate; simpl; lia).
    destruct (Concatenation_loop_unwinds (literal_matchers fuel0 stream ws) base i
                fuel (ks' ++ [key]) rs c1) as [cf Hcf];
      try done; try (rewrite ?length_app; simpl; lia).
    exists cf. unfold emissions. cbn [drain]. unfold gen in *. rewrite Hcf. simpl.
    split; [done|]. do 2 f_equal. lia.
Qed.

(** X8. A [Concatenation] of literals matches the run of these literals
    and nothing else: started on the index [n], with fuel for its loop, it
    yields [n + len(ws)] once if the stream holds the literals [ws] from [n]
    on, and nothing otherwise; and in both cases it returns. *)
Theorem Concatenation_of_literals fuel (stream : list T) (ws : list (T * option string))
    n (c : Captures (T := T)) :
  ws ≠ [] → 3 * length ws ≤ fuel →
  let r := pmatch fuel (Concatenation ((λ wc, DirectMatch wc.1 wc.2) <$> ws)) stream
             (PInt n) c in
  (∃ cf, (drain r).2 = Finished cf) ∧
  emissions r = if decide (take (length ws) (drop n stream) = ws.*1)
                then [PInt (n + length ws)] else [].
Proof.
  intros Hne Hfuel r.
  destruct ws as [|[w cap] ws'] eqn:Ews; [done|].
  assert (r = Concatenation_loop (literal_matchers fuel stream ws) fuel [(enter c).1]
                ([] ++ [DirectMatch_match w cap stream (PInt (n + 0))]) [] (enter c).2)
    as Hr by (rewrite Nat.add_0_r, Ews; reflexivity).
  clearbody r. subst r. rewrite <- Ews in *.
  destruct (Concatenation_loop_literals fuel stream ws n (_keys c) (length ws)
              0 fuel [(enter c).1] [] (enter c).2 w cap) as (cf & H1 & H2);
    try done; try lia.
  { by rewrite Ews. }
  split; [by exists cf|]. etrans; [exact H2|].
  by rewrite Nat.add_0_r, drop_0.
Qed.

End Drivers.

Section Driver_examples.
Open Scope string_scope.

(** A sequence of two literals, the first one captured, pulled to its end. *)
Lemma match_closes_its_scopes_witness :
  let p : Pattern (T := string) :=
    Concatenation [DirectMatch "a" (Some "x"); DirectMatch "b" None] in
  ∃ tr cf,
    runs (pmatch 9 p ["a"; "b"] (PInt 0) Captures_new) tr cf ∧
    tr.*1 = [PInt 2] ∧
    _keys cf = [] ∧ maps_below (_internal cf) = [].
Proof.
  intros p. set (r := pmatch 9 p ["a"; "b"] (PInt 0) Captures_new).
  exists (drain r).1,
    (match (drain r).2 with Finished c' => c' | _ => Captures_new end).
  assert (Hr : runs r (drain r).1
                 (match (drain r).2 with Finished c' => c' | _ => Captures_new end)).
  { apply drain_runs. vm_compute. reflexivity. }
  split; [exact Hr|]. split; [vm_compute; reflexivity|].
  exact (match_closes_its_scopes 9 p ["a"; "b"] (PInt 0) Captures_new _ _ Hr).
Defined.

(** [findall] on [['a', 'b']] for the literal ['a']: the match ends at index
    [1], inside the stream, and comes again at every round. *)
Lemma findall_repeats_first_match_witness :
  (length ["a"; "b"] < 4)%nat ∧
  findall MatcherFirst 5 (DirectMatch "a" None) ["a"; "b"] false 4
    = (replicate 4 (mkMatchResult 0 (PInt 1) ["a"; "b"] ∅), Loops).
Proof.
  split; [simpl; lia|].
  rewrite (findall_repeats_first_match MatcherFirst 5 (DirectMatch "a" None)
             ["a"; "b"] false 4) by (simpl; lia).
  vm_compute. reflexivity.
Defined.

(** [Any(None, (1, 2, 2))] on two tokens yields [1], [2] and [2]: the longest
    match is the first of the two that end at [2]. *)
Lemma MatcherLongest_match_spec_witness :
  let p : Pattern (T := string) := Any None (LenSeq [1; 2; 2]) in
  ∃ tr cf,
    drain (pmatch 5 p ["a"; "b"] (PInt 0) Captures_new) = (tr, Finished cf) ∧
    Forall (λ e, int_end e (λ _, True)) tr ∧
    tr.*1 = [PInt 1; PInt 2; PInt 2] ∧
    ∃ pre n c post,
      tr = (pre ++ (PInt n, c) :: post)%list ∧
      Forall (λ e, int_end e (λ m, (m < n)%nat)) pre ∧
      Forall (λ e, int_end e (λ m, (m ≤ n)%nat)) post ∧
      MatcherLongest_match 5 p ["a"; "b"] 7
        = Returns (mkMatchResult 0 (PInt n) ["a"; "b"] (to_dict c)).
Proof.
  intros p. set (d := drain (pmatch 5 p ["a"; "b"] (PInt 0) Captures_new)).
  exists d.1, (match d.2 with Finished c' => c' | _ => Captures_new end).
  assert (Hd : d = (d.1, Finished (match d.2 with Finished c' => c' | _ => Captures_new end)))
    by (vm_compute; reflexivity).
  assert (Hall : Forall (λ e, int_end e (λ _, True)) d.1).
  { vm_compute. repeat (constructor; [eexists; split; [reflexivity|exact I]|]).
    constructor. }
  split; [exact Hd|]. split; [exact Hall|]. split; [vm_compute; reflexivity|].
  exact (MatcherLongest_match_spec 5 p ["a"; "b"] 7 _ _ Hd Hall).
Defined.

(** The literals ['a'] (captured as [x]) and ['b'] in [['z', 'a', 'b']], from
    index [1]. *)
Lemma Concatenation_of_literals_witness :
  let ws := [("a", Some "x"); ("b", None)] in
  let r := pmatch 6 (Concatenation ((λ wc, DirectMatch wc.1 wc.2) <$> ws))
             ["z"; "a"; "b"] (PInt 1) Captures_new in
  ws ≠ [] ∧ (3 * length ws ≤ 6)%nat ∧
  (∃ cf, (drain r).2 = Finished cf) ∧ emissions r = [PInt 3].
Proof.
  intros ws r. split; [done|]. split; [simpl; lia|].
  exact (Concatenation_of_literals 6 ["z"; "a"; "b"] ws 1 Captures_new
           ltac:(done) ltac:(simpl; lia)).
Defined.

End Driver_examples.

(** ** The whole stream *)

Section Fullmatch.
Context {T : Type} `{EqDecision T}.

(** A value that [fullmatch] passes over: an index before the end of the
    stream. *)
Definition short (stream : list T) (e : pos * Captures (T := T)) : Prop :=
  ∃ n, e.1 = PInt n ∧ n < length stream.

(** What [fullmatch] makes of a generator whose values are within the
    stream: the first value that is not an index before the end decides. *)
Definition fullmatch_outcome (stream : list T) (r : res (T := T))
    (o : outcome (option (MatchResult (T := T)))) : Prop :=
  match o with
  | Returns (Some m) =>
      start m = 0 ∧ end_ m = PInt (length stream) ∧ orig m = stream ∧
      ∃ pre c rest,
        (drain r).1 = pre ++ (PInt (length stream), c) :: rest ∧
        Forall (short stream) pre ∧ captures m = to_dict c
  | Returns None =>
      Forall (short stream) (drain r).1 ∧ ∃ c, (drain r).2 = Finished c
  | Raises e =>
      (Forall (short stream) (drain r).1 ∧ (drain r).2 = Raised e) ∨
      (e = TypeError ∧
       ∃ pre v c rest, (drain r).1 = pre ++ (PTup v, c) :: rest ∧ Forall (short stream) pre)
  | Loops => Forall (short stream) (drain r).1 ∧ (drain r).2 = Diverged
  end.

Lemma fullmatch_loop_outcome (stream : list T) r :
  within 0 (length stream) r → fullmatch_outcome stream r (fullmatch_loop stream r).
Proof.
  unfold fullmatch_outcome. induction 1 as [c|v c k Hv Hk IH|e|]; simpl.
  - split; [constructor|by exists c].
  - specialize (IH c). destruct v as [n|v]; simpl in *.
    + destruct (length stream <=? n) eqn:E; simpl.
      * apply Nat.leb_le in E. assert (n = length stream) as -> by lia.
        split_and!; try done. destruct (drain (k c)) as [l e].
        by exists [], c, l.
      * apply Nat.leb_gt in E.
        assert (Hs : short stream (PInt n, c)) by (by exists n).
        destruct (fullmatch_loop stream (k c)) as [[m|]|e|], (drain (k c)) as [l en];
          simpl in *.
        -- destruct IH as (? & ? & ? & pre & c0 & rest & -> & Hpre & ?).
           split_and!; try done. exists ((PInt n, c) :: pre), c0, rest.
           split_and!; try done. by constructor.
        -- destruct IH as [Hl Hc]. split; [by constructor|done].
        -- destruct IH as [[Hl He]|(-> & pre & v & c0 & rest & -> & Hpre)].
           ++ left. split; [by constructor|done].
           ++ right. split; [done|]. exists ((PInt n, c) :: pre), v, c0, rest.
              split; [done|]. by constructor.
        -- destruct IH as [Hl Hd]. split; [by constructor|done].
    + right. split; [done|]. destruct (drain (k c)) as [l e].
      by exists [], v, c, l.
  - left. by split; [constructor|].
  - by split; [constructor|].
Qed.

(** X25. [fullmatch] is decided by the first value of the pattern that is
    not an index before the end of the stream.  When it returns a match, the
    match starts at 0 and ends at [len(stream)], with the captures of that
    value; it returns [None] when the pattern ends on values that are all
    before the end; it raises [TypeError] when the value is a pair (what a
    [Repeat] with [min == 0] yields first), and otherwise what the pattern
    raises. *)
Theorem fullmatch_spans_the_stream fuel p (stream : list T) :
  fullmatch_outcome stream (pmatch fuel p stream (PInt 0) Captures_new)
    (fullmatch fuel p stream).
Proof.
  unfold fullmatch. apply fullmatch_loop_outcome.
  apply (pmatch_stays_within fuel p stream (PInt 0) Captures_new).
Qed.

End Fullmatch.

(** ** Repetitions of a literal *)

Section Repetitions.
Context {T : Type} `{EqDecision T}.

(** How many times [w] stands at the head of [l]. *)
Fixpoint repetitions (w : T) (l : list T) : nat :=
  match l with
  | [] => 0
  | t :: l' => if decide (t = w) then S (repetitions w l') else 0
  end.

(** The loop of [Repeat.match] goes deeper from [d] repetitions:
    [len(iter_stack) < self.min], or
    [self.max is None or len(iter_stack) < self.max]. *)
Definition deepens (min : Z) (max : option Z) (d : nat) : Prop :=
  (Z.of_nat d < min)%Z ∨ below_max max d = true.

(** The counts of repetitions that a loop started with [d0] repetitions
    yields. *)
Definition counts_from (d0 : nat) (min : Z) (max : option Z) (step : Z) (d : nat) : Prop :=
  (min ≤ Z.of_nat d)%Z ∧ ((Z.of_nat d - min) mod step = 0)%Z ∧
  (d = d0 ∨ deepens min max (d - 1)).

(** The counts of repetitions that [Repeat(base, min, max, step)] yields:
    those from [min] on in steps of [step], up to [max]; but one repetition
    and [min] repetitions are tried whatever [max] is. *)
Definition counts (min : Z) (max : option Z) (step : Z) (d : nat) : Prop :=
  (min ≤ Z.of_nat d)%Z ∧ ((Z.of_nat d - min) mod step = 0)%Z ∧
  (d = 1 ∨ Z.of_nat d = min ∨ from_option (λ m, Z.of_nat d ≤ m)%Z True max).

#[global] Instance deepens_dec min max d : Decision (deepens min max d).
Proof. unfold deepens. apply _. Defined.

#[global] Instance counts_from_dec d0 min max step d :
  Decision (counts_from d0 min max step d).
Proof. unfold counts_from. apply _. Defined.

#[global] Instance counts_dec min max step d : Decision (counts min max step d).
Proof. unfold counts. destruct max; simpl; apply _. Defined.

Lemma filter_ext_in {A} (P Q : A → Prop) `{∀ x, Decision (P x)} `{∀ x, Decision (Q x)}
    (l : list A) :
  (∀ x, x ∈ l → P x ↔ Q x) → filter P l = filter Q l.
Proof.
  induction l as [|a l IH]; intros Hl; [done|].
  rewrite !filter_cons.
  assert (P a ↔ Q a) as Ha by (apply Hl; left).
  rewrite IH by (intros x Hx; apply Hl; by right).
  destruct (decide (P a)), (decide (Q a)); tauto.
Qed.

Lemma filter_none {A} (P : A → Prop) `{∀ x, Decision (P x)} (l : list A) :
  (∀ x, x ∈ l → ¬ P x) → filter P l = [].
Proof.
  induction l as [|a l IH]; intros Hl; [done|].
  rewrite filter_cons_False by (apply Hl; left).
  apply IH. intros x Hx. apply Hl. by right.
Qed.

Lemma deepens_below min max d e : d ≤ e → deepens min max e → deepens min max d.
Proof.
  intros Hde [Hmin|Hmax]; [left; lia|right].
  destruct max as [m|]; [|done]. simpl in *.
  apply Z.ltb_lt in Hmax. apply Z.ltb_lt. lia.
Qed.

(** One round of the loop of [Repeat.match], in each of its cases. *)
Lemma Repeat_loop_exhausted (base : matcher) min max step fuel ks0 key
    (its0 : list gen) (g : gen) rs (c c' c'' : Captures (T := T)) :
  length ks0 = length its0 → length rs = length its0 →
  g c = Stop c' → exit key c' = inr c'' →
  Repeat_loop base min max step (S fuel) (ks0 ++ [key]) (its0 ++ [g]) rs c =
    match its0 with
    | [] => Stop c''
    | _ =>
        match list_pop rs with
        | None => Raise IndexError
        | Some (rs', _) => Repeat_loop base min max step fuel ks0 its0 rs' c''
        end
    end.
Proof.
  intros Hks Hrs Hg Hx. cbn [Repeat_loop]. unfold gen in *.
  destruct (its0 ++ [g]) as [|g1 its1] eqn:Eits; [by apply app_nil in Eits as [_ ?]|].
  rewrite <- Eits. clear g1 its1 Eits.
  rewrite !length_app. cbn [length].
  replace (length its0 + 1 =? length ks0 + 1) with true
    by (symmetry; apply Nat.eqb_eq; lia).
  replace (length rs <? length its0 + 1) with true by (symmetry; apply Nat.ltb_lt; lia).
  cbn [negb]. rewrite Hrs, lookup_snoc_last, Hg, !list_pop_app, Hx. done.
Qed.

Lemma Repeat_loop_pulled (base : matcher) min max step fuel ks
    (its0 : list gen) (g g' : gen) rs v (c c' : Captures (T := T)) :
  length ks = S (length its0) → length rs = length its0 →
  g c = Yield v c' g' →
  Repeat_loop base min max step (S fuel) ks (its0 ++ [g]) rs c =
    Repeat_loop base min max step fuel ks (its0 ++ [g']) (rs ++ [v]) c'.
Proof.
  intros Hks Hrs Hg. cbn [Repeat_loop]. unfold gen in *.
  destruct (its0 ++ [g]) as [|g1 its1] eqn:Eits; [by apply app_nil in Eits as [_ ?]|].
  rewrite <- Eits. clear g1 its1 Eits.
  rewrite !length_app. cbn [length].
  replace (length its0 + 1 =? length ks) with true by (symmetry; apply Nat.eqb_eq; lia).
  replace (length rs <? length its0 + 1) with true by (symmetry; apply Nat.ltb_lt; lia).
  cbn [negb]. rewrite Hrs, lookup_snoc_last, Hg, insert_snoc_last. done.
Qed.

Lemma Repeat_loop_counted (base : matcher) min max step fuel ks
    (its : list gen) rs' i (c : Captures (T := T)) :
  its ≠ [] → length ks = length its → S (length rs') = length its → step ≠ 0%Z →
  Repeat_loop base min max step (S fuel) ks its (rs' ++ [i]) c =
    let push (c0 : Captures) : res :=
      Repeat_loop base min max step fuel (ks ++ [(enter c0).1]) (its ++ [base i])
        (rs' ++ [i]) (enter c0).2 in
    let after (c0 : Captures) : res :=
      if below_max max (length its) then push c0
      else Repeat_loop base min max step fuel ks its rs' c0 in
    if (Z.of_nat (length its) <? min)%Z then push c
    else if decide (((Z.of_nat (length its) - min) mod step)%Z = 0%Z)
         then Yield i c after else after c.
Proof.
  intros Hne Hks Hrs Hstep. cbn [Repeat_loop]. unfold gen in *.
  destruct its as [|g1 its1] eqn:Eits; [done|]. rewrite <- Eits in *. clear g1 its1 Eits Hne.
  rewrite length_app. cbn [length].
  replace (length its =? length ks) with true by (symmetry; apply Nat.eqb_eq; lia).
  replace (length rs' + 1 <? length its) with false by (symmetry; apply Nat.ltb_ge; lia).
  replace (length rs' + 1 =? length its) with true by (symmetry; apply Nat.eqb_eq; lia).
  cbn [negb]. rewrite last_snoc, list_pop_app. unfold enter.
  rewrite (decide_False (P := step = 0%Z)) by done. done.
Qed.

(** When every generator on the stack is exhausted, the loop unwinds: it
    yields nothing more and returns. *)
Lemma Repeat_loop_unwinds (base : matcher) min max step ks0 m :
  ∀ fuel ks rs (c : Captures (T := T)),
    m < fuel → length ks = S m → length rs = m → _keys c = ks0 ++ ks →
    ∃ cf, drain (Repeat_loop base min max step fuel ks (replicate (S m) Stop) rs c)
          = ([], Finished cf).
Proof.
  induction m as [|m IH]; intros fuel ks rs c Hfuel Hks Hrs Hc;
    (destruct fuel as [|fuel]; [lia|]);
    (destruct (list_pop ks) as [[ks' key]|] eqn:Eks;
      [|apply list_pop_None in Eks; by subst]);
    apply list_pop_Some in Eks as ->;
    rewrite length_app in Hks; simpl in Hks;
    (destruct (exit_last_key c ks0 ks' key) as (c' & Hx & Hk'); [done|]);
    rewrite <- replicate_snoc;
    rewrite (Repeat_loop_exhausted _ _ _ _ _ _ _ _ _ _ c c c');
      try done; try (rewrite length_replicate; lia).
  - simpl. eauto.
  - destruct (list_pop rs) as [[rs' rl]|] eqn:Ers;
      [|apply list_pop_None in Ers; by subst].
    apply list_pop_Some in Ers as ->.
    rewrite length_app in Hrs. simpl in Hrs. simpl replicate.
    change (Stop :: replicate m Stop) with (replicate (S m) (Stop (T := T))).
    apply IH; [lia|lia|lia|done].
Qed.

(** The loop, when [i] repetitions have matched and the generator of the
    next one has just been pushed. *)
Lemma Repeat_loop_literal (stream : list T) w cap min max step n ks0 :
  step ≠ 0%Z →
  ∀ m i fuel ks rs (c : Captures (T := T)),
    repetitions w (drop (n + i) stream) = m →
    3 * m + S i ≤ fuel →
    length ks = S i → length rs = i → _keys c = ks0 ++ ks →
    let r := Repeat_loop (DirectMatch_match w cap stream) min max step fuel ks
               (replicate i Stop ++ [DirectMatch_match w cap stream (PInt (n + i))])
               rs c in
    (∃ cf, (drain r).2 = Finished cf) ∧
    emissions r
    = (λ d, PInt (n + d)) <$> filter (counts_from (S i) min max step) (seq (S i) m).
Proof.
  intros Hstep m. induction m as [|m IH]; intros i fuel ks rs c Hrun Hfuel Hks Hrs Hc r;
    subst r; (destruct fuel as [|fuel]; [lia|]);
    (destruct (list_pop ks) as [[ks' key]|] eqn:Eks;
      [|apply list_pop_None in Eks; by subst]);
    apply list_pop_Some in Eks as ->; rewrite length_app in Hks; simpl in Hks.
  - (* the literal does not stand here: the loop unwinds *)
    assert (DirectMatch_match w cap stream (PInt (n + i)) c = Stop c) as Hg.
    { unfold DirectMatch_match, with_index.
      destruct (length stream <=? n + i) eqn:E; [done|]. apply Nat.leb_gt in E.
      destruct (stream !! (n + i)) as [t|] eqn:Et;
        [|apply lookup_ge_None in Et; lia].
      rewrite (drop_S stream t (n + i) Et) in Hrun. simpl in Hrun.
      by destruct (decide (t = w)). }
    destruct (exit_last_key c ks0 ks' key) as (c' & Hx & Hk'); [done|].
    rewrite (Repeat_loop_exhausted _ _ _ _ _ _ _ _ _ _ c c c');
      try done; try (rewrite length_replicate; lia).
    destruct i as [|i]; [simpl; eauto|].
    destruct (list_pop rs) as [[rs' rl]|] eqn:Ers;
      [|apply list_pop_None in Ers; by subst].
    apply list_pop_Some in Ers as ->. rewrite length_app in Hrs. simpl in Hrs.
    change (replicate (S i) Stop) with (replicate (S i) (Stop (T := T))).
    destruct (Repeat_loop_unwinds (DirectMatch_match w cap stream) min max step ks0 i
                fuel ks' rs' c') as [cf Hcf]; [lia|lia|lia|done|].
    cbn [replicate] in Hcf |- *. unfold emissions. rewrite Hcf. simpl. eauto.
  - (* it stands here: one more repetition *)
    assert (stream !! (n + i) = Some w ∧ repetitions w (drop (n + S i) stream) = m)
      as [Et Hrun'].
    { destruct (stream !! (n + i)) as [t|] eqn:Et.
      - rewrite (drop_S stream t (n + i) Et) in Hrun. simpl in Hrun.
        destruct (decide (t = w)) as [->|]; [|done].
        split; [done|]. replace (n + S i) with (S (n + i)) by lia. lia.
      - apply lookup_ge_None in Et. by rewrite drop_ge in Hrun by lia. }
    set (c1 := maybe cap (CTok w) c).
    assert (DirectMatch_match w cap stream (PInt (n + i)) c
            = Yield (PInt (n + i + 1)) c1 Stop) as Hg.
    { unfold DirectMatch_match, with_index. apply lookup_lt_Some in Et as Hlt.
      rewrite (proj2 (Nat.leb_gt _ _) Hlt), Et. by rewrite decide_True. }
    assert (_keys c1 = ks0 ++ ks' ++ [key]) as Hc1 by (unfold c1; by destruct cap).
    rewrite (Repeat_loop_pulled _ _ _ _ _ _ _ _ Stop _ (PInt (n + i + 1)) c c1);
      try done; try (rewrite ?length_app, ?length_replicate; simpl; lia).
    rewrite replicate_snoc.
    destruct fuel as [|fuel]; [lia|].
    rewrite Repeat_loop_counted;
      try done; try (rewrite ?length_app, ?length_replicate; simpl; lia).
    rewrite length_replicate. cbn zeta.
    replace (n + i + 1) with (n + S i) by lia.
    (* what the loop does when it goes deeper *)
    assert (Hpush : ∀ c0, _keys c0 = ks0 ++ ks' ++ [key] →
      let r := Repeat_loop (DirectMatch_match w cap stream) min max step fuel
                 ((ks' ++ [key]) ++ [(enter c0).1])
                 (replicate (S i) Stop ++ [DirectMatch_match w cap stream (PInt (n + S i))])
                 (rs ++ [PInt (n + S i)]) (enter c0).2 in
      (∃ cf, (drain r).2 = Finished cf) ∧
      emissions r
      = (λ d, PInt (n + d)) <$> filter (counts_from (S (S i)) min max step) (seq (S (S i)) m)).
    { intros c0 Hc0. apply IH; try done; try (rewrite ?length_app; simpl; lia).
      simpl. by rewrite Hc0, <- !app_assoc. }
    (* and when it does not *)
    assert (Hpop : ∀ c0, _keys c0 = ks0 ++ ks' ++ [key] →
      ∃ cf, drain (Repeat_loop (DirectMatch_match w cap stream) min max step fuel
                     (ks' ++ [key]) (replicate (S i) Stop) rs c0) = ([], Finished cf)).
    { intros c0 Hc0.
      apply (Repeat_loop_unwinds _ min max step ks0 i); try done;
        try (rewrite ?length_app; simpl; lia). }
    (* the counts after this one *)
    assert (Hdeep : deepens min max (S i) →
      filter (counts_from (S i) min max step) (seq (S (S i)) m)
      = filter (counts_from (S (S i)) min max step) (seq (S (S i)) m)).
    { intros Hd. apply filter_ext_in. intros e He. apply elem_of_seq in He.
      unfold counts_from. split; intros (H1 & H2 & H3); split_and!; try done.
      - destruct H3 as [->|H3]; [lia|by right].
      - destruct H3 as [->|H3]; [|by right]. right.
        by replace (S (S i) - 1) with (S i) by lia. }
    assert (Hshallow : ¬ deepens min max (S i) →
      filter (counts_from (S i) min max step) (seq (S (S i)) m) = []).
    { intros Hd. apply filter_none. intros e He (_ & _ & H3). apply elem_of_seq in He.
      destruct H3 as [->|H3]; [lia|]. apply Hd.
      apply (deepens_below min max (S i) (e - 1)); [lia|done]. }
    cbn [seq]. rewrite filter_cons.
    destruct (Z.of_nat (S i) <? min)%Z eqn:Emin.
    + (* fewer than [min]: nothing is yielded *)
      apply Z.ltb_lt in Emin.
      destruct (Hpush c1 Hc1) as [Hend Hem]. split; [exact Hend|].
      etrans; [exact Hem|]. rewrite <- Hdeep by (by left).
      rewrite decide_False; [done|]. intros (H1 & _). lia.
    + apply Z.ltb_ge in Emin.
      assert (Hafter : ∀ c0, _keys c0 = ks0 ++ ks' ++ [key] →
        let r := if below_max max (S i)
                 then Repeat_loop (DirectMatch_match w cap stream) min max step fuel
                        ((ks' ++ [key]) ++ [(enter c0).1])
                        (replicate (S i) Stop
                           ++ [DirectMatch_match w cap stream (PInt (n + S i))])
                        (rs ++ [PInt (n + S i)]) (enter c0).2
                 else Repeat_loop (DirectMatch_match w cap stream) min max step fuel
                        (ks' ++ [key]) (replicate (S i) Stop) rs c0 in
        (∃ cf, (drain r).2 = Finished cf) ∧
        emissions r
        = (λ d, PInt (n + d)) <$> filter (counts_from (S i) min max step) (seq (S (S i)) m)).
      { intros c0 Hc0. destruct (below_max max (S i)) eqn:Emax.
        - rewrite Hdeep by (by right). by apply Hpush.
        - destruct (Hpop c0 Hc0) as [cf Hcf]. unfold emissions. rewrite Hcf. simpl.
          split; [eauto|]. rewrite Hshallow; [done|].
          intros [Hd|Hd]; [lia|congruence]. }
      destruct (decide (((Z.of_nat (S i) - min) mod step)%Z = 0%Z)) as [Hmod|Hmod].
      * rewrite decide_True by (split_and!; [lia|done|by left]).
        destruct (Hafter c1 Hc1) as [[cf Hend] Hem].
        unfold emissions in *. cbn [drain].
        destruct (drain _) as [l e] eqn:Ed. simpl in *. split; [eauto|].
        f_equal. exact Hem.
      * rewrite decide_False by (intros (_ & H2 & _); done).
        by apply Hafter.
Qed.

(** [Repeat] on a literal, from the loop. *)
Lemma Repeat_literal_counts fuel (stream : list T) w cap min max step n
    (c : Captures (T := T)) :
  step ≠ 0%Z → 3 * repetitions w (drop n stream) + 1 ≤ fuel →
  let r := pmatch fuel (Repeat (DirectMatch w cap) min max step) stream (PInt n) c in
  (∃ cf, (drain r).2 = Finished cf) ∧
  emissions r
  = (if decide (min = 0%Z) then [PTup (PInt n)] else [])
    ++ ((λ d, PInt (n + d)) <$>
          filter (counts min max step) (seq 1 (repetitions w (drop n stream)))).
Proof.
  intros Hstep Hfuel r.
  assert (Hbody :
    let r0 := Repeat_loop (DirectMatch_match w cap stream) min max step fuel [(enter c).1]
                ([] ++ [DirectMatch_match w cap stream (PInt (n + 0))]) [] (enter c).2 in
    (∃ cf, (drain r0).2 = Finished cf) ∧
    emissions r0
    = (λ d, PInt (n + d)) <$>
        filter (counts min max step) (seq 1 (repetitions w (drop n stream)))).
  { destruct (Repeat_loop_literal stream w cap min max step n (_keys c) Hstep
                (repetitions w (drop n stream)) 0 fuel [(enter c).1] [] (enter c).2)
      as [Hend Hem]; try done; try lia.
    { by rewrite Nat.add_0_r. }
    split; [exact Hend|]. etrans; [exact Hem|]. f_equal.
    apply filter_ext_in. intros d Hd. apply elem_of_seq in Hd.
    unfold counts_from, counts, deepens.
    split; intros (H1 & H2 & H3); split_and!; try done.
    - destruct H3 as [->|[H3|H3]]; [by left|right; left; lia|].
      destruct max as [mx|]; simpl in *; [|by right; right].
      apply Z.ltb_lt in H3. right; right. lia.
    - destruct H3 as [->|[H3|H3]]; [by left|right; left; lia|].
      destruct max as [mx|]; simpl in *; [|by right; right].
      right; right. apply Z.ltb_lt. lia. }
  rewrite Nat.add_0_r in Hbody. cbn zeta in Hbody.
  subst r. cbn [pmatch]. unfold Repeat_match.
  destruct (decide (min = 0%Z)) as [Hmin|Hmin].
  - destruct Hbody as [[cf Hend] Hem]. unfold emissions in *. cbn [drain].
    unfold enter in *. simpl in *.
    destruct (drain _) as [l e] eqn:Ed. simpl in *. split; [eauto|].
    f_equal. exact Hem.
  - exact Hbody.
Qed.


(** X26. [Repeat] on a literal counts the repetitions.  Started on the
    index [n] of a stream, with a step that is not 0 and fuel for its loop,
    [Repeat(DirectMatch(w, name), min, max, step)] returns, and yields, after
    the pair [(n, {})] when [min == 0], the index [n + d] for each count [d]
    from 1 to the number of times that [w] stands in the stream from [n] on,
    the least first, with [min <= d], [(d - min) % step == 0] and [d <= max]
    (no bound when [max] is [None]); but the counts 1 and [min] are yielded
    also above [max]. *)
Theorem Repeat_of_literal fuel (stream : list T) w cap min max step n
    (c : Captures (T := T)) :
  step ≠ 0%Z → 3 * repetitions w (drop n stream) + 1 ≤ fuel →
  let r := pmatch fuel (Repeat (DirectMatch w cap) min max step) stream (PInt n) c in
  (∃ cf, (drain r).2 = Finished cf) ∧
  emissions r
  = (if decide (min = 0%Z) then [PTup (PInt n)] else [])
    ++ ((λ d, PInt (n + d)) <$>
          filter (counts min max step) (seq 1 (repetitions w (drop n stream)))).
Proof. apply Repeat_literal_counts. Qed.

Lemma filter_seq_eq (D a len : nat) :
  filter (λ d, d = D) (seq a len) = if decide (a ≤ D < a + len) then [D] else [].
Proof.
  revert a. induction len as [|len IH]; intros a; simpl.
  { rewrite decide_False by lia. done. }
  rewrite filter_cons, IH. destruct (decide (a = D)) as [->|Hne].
  - rewrite decide_False by lia. rewrite decide_True by lia. done.
  - destruct (decide (S a ≤ D < S a + len)).
    + rewrite decide_True by lia. done.
    + rewrite decide_False by lia. done.
Qed.

(** X27. [p[k]] on a literal, for an integer [k]: with fuel for the loop,
    [DirectMatch(w, name)[k]] yields the index after exactly [k] repetitions
    when [k >= 1] and the stream holds them, and nothing when it does not;
    for [k <= 0] it yields the index after one repetition, if there is one,
    and before it, for [k == 0], the pair [(n, {})]. *)
Theorem getitem_int_of_literal fuel (stream : list T) w cap (k : Z) n
    (c : Captures (T := T)) :
  3 * repetitions w (drop n stream) + 1 ≤ fuel →
  let d := Z.to_nat (Z.max 1 k) in
  emissions (pmatch fuel (getitem_int (DirectMatch w cap) k) stream (PInt n) c)
  = (if decide (k = 0%Z) then [PTup (PInt n)] else [])
    ++ (if decide (d ≤ repetitions w (drop n stream)) then [PInt (n + d)] else []).
Proof.
  intros Hfuel d. unfold getitem_int, getitem_slice.
  destruct (Repeat_literal_counts fuel stream w cap k (Some k) 1%Z n c) as [_ Hem];
    [done|done|].
  etrans; [exact Hem|]. f_equal.
  rewrite (filter_ext_in _ (λ e, e = d)).
  - rewrite filter_seq_eq.
    destruct (decide (d ≤ repetitions w (drop n stream))).
    + rewrite decide_True by lia. done.
    + rewrite decide_False by lia. done.
  - intros e He. apply elem_of_seq in He. unfold counts. simpl.
    rewrite Z.mod_1_r. subst d. split.
    + intros (H1 & _ & H3). lia.
    + intros ->. split_and!; [lia|done|lia].
Qed.

(** The counts of a slice [a:b:s]: from [a] on in steps of [s], up to [b]. *)
Definition in_slice (a : Z) (stop : option Z) (s : Z) (d : nat) : Prop :=
  (a ≤ Z.of_nat d)%Z ∧ ((Z.of_nat d - a) mod s = 0)%Z ∧
  from_option (λ b, Z.of_nat d ≤ b)%Z True stop.

#[global] Instance in_slice_dec a stop s d : Decision (in_slice a stop s d).
Proof. unfold in_slice. destruct stop; simpl; apply _. Defined.

(** X28. [p[a:b:s]] on a literal, within its bounds: when the stop, if there
    is one, is at least 1 and at least the start, and with fuel for the loop,
    [DirectMatch(w, name)[a:b:s]] returns, and yields, after the pair
    [(n, {})] when the start is 0 or left out, the index [n + d] for each
    count [d] of repetitions in the stream, from the least on, with
    [a <= d <= b] and [(d - a) % s == 0]; a start left out counts as 0, a
    step that is 0 or left out as 1, and a stop left out is no bound. *)
Theorem getitem_slice_of_literal fuel (stream : list T) w cap
    (start stop step : option Z) n (c : Captures (T := T)) :
  let a := default 0%Z start in
  let s := match step with
           | Some s => if decide (s = 0%Z) then 1%Z else s
           | None => 1%Z
           end in
  (∀ b, stop = Some b → (1 ≤ b)%Z ∧ (a ≤ b)%Z) →
  3 * repetitions w (drop n stream) + 1 ≤ fuel →
  let r := pmatch fuel (getitem_slice (DirectMatch w cap) start stop step) stream
             (PInt n) c in
  (∃ cf, (drain r).2 = Finished cf) ∧
  emissions r
  = (if decide (a = 0%Z) then [PTup (PInt n)] else [])
    ++ ((λ d, PInt (n + d)) <$>
          filter (in_slice a stop s) (seq 1 (repetitions w (drop n stream)))).
Proof.
  intros a s Hstop Hfuel r.
  assert (s ≠ 0%Z) as Hs.
  { unfold s. destruct step as [s0|]; [|done]. by destruct (decide (s0 = 0%Z)). }
  assert (r = pmatch fuel (Repeat (DirectMatch w cap) a stop s) stream (PInt n) c) as ->.
  { unfold r, getitem_slice, a, s. by destruct start. }
  destruct (Repeat_literal_counts fuel stream w cap a stop s n c Hs Hfuel) as [Hend Hem].
  split; [exact Hend|]. etrans; [exact Hem|]. do 2 f_equal.
  apply filter_ext_in. intros d Hd. apply elem_of_seq in Hd. unfold counts, in_slice.
  split.
  - intros (H1 & H2 & H3). split_and!; [done..|].
    destruct stop as [b|]; simpl in *; [|done]. destruct (Hstop b eq_refl). lia.
  - intros (H1 & H2 & H3). split_and!; [done..|]. by right; right.
Qed.

End Repetitions.

Section Repetition_examples.
Open Scope string_scope.

(** Every second count from 1 to 3 of ['a'] in [['b', 'a', 'a', 'a', 'a']],
    from index [1]. *)
Lemma Repeat_of_literal_witness :
  let stream := ["b"; "a"; "a"; "a"; "a"] in
  let r := pmatch 13 (Repeat (DirectMatch "a" (Some "x")) 1 (Some 3%Z) 2) stream
             (PInt 1) Captures_new in
  (2 ≠ 0)%Z ∧ (3 * repetitions "a" (drop 1 stream) + 1 ≤ 13)%nat ∧
  (∃ cf, (drain r).2 = Finished cf) ∧ emissions r = [PInt 2; PInt 4].
Proof.
  intros stream r.
  assert (H1 : (2 ≠ 0)%Z) by done.
  assert (H2 : (3 * repetitions "a" (drop 1 stream) + 1 ≤ 13)%nat) by (vm_compute; lia).
  split; [exact H1|]. split; [exact H2|].
  exact (Repeat_of_literal 13 stream "a" (Some "x") 1 (Some 3%Z) 2 1 Captures_new H1 H2).
Defined.

(** [DirectMatch('a')[2]] on [['a', 'a', 'a']]. *)
Lemma getitem_int_of_literal_witness :
  let stream := ["a"; "a"; "a"] in
  (3 * repetitions "a" (drop 0 stream) + 1 ≤ 10)%nat ∧
  emissions (pmatch 10 (getitem_int (DirectMatch "a" None) 2) stream (PInt 0) Captures_new)
  = [PInt 2].
Proof.
  intros stream.
  assert (H1 : (3 * repetitions "a" (drop 0 stream) + 1 ≤ 10)%nat) by (vm_compute; lia).
  split; [exact H1|].
  exact (getitem_int_of_literal 10 stream "a" None 2 0 Captures_new H1).
Defined.

(** [DirectMatch('a')[2:3]] on four ['a']. *)
Lemma getitem_slice_of_literal_witness :
  let stream := ["a"; "a"; "a"; "a"] in
  let r := pmatch 13 (getitem_slice (DirectMatch "a" None) (Some 2%Z) (Some 3%Z) None)
             stream (PInt 0) Captures_new in
  (∀ b, Some 3%Z = Some b → (1 ≤ b)%Z ∧ (2 ≤ b)%Z) ∧
  (3 * repetitions "a" (drop 0 stream) + 1 ≤ 13)%nat ∧
  (∃ cf, (drain r).2 = Finished cf) ∧ emissions r = [PInt 2; PInt 3].
Proof.
  intros stream r.
  assert (H1 : ∀ b, Some 3%Z = Some b → (1 ≤ b)%Z ∧ (2 ≤ b)%Z) by (intros b [= Hb]; lia).
  assert (H2 : (3 * repetitions "a" (drop 0 stream) + 1 ≤ 13)%nat) by (vm_compute; lia).
  split; [exact H1|]. split; [exact H2|].
  exact (getitem_slice_of_literal 13 stream "a" None (Some 2%Z) (Some 3%Z) None 0
           Captures_new H1 H2).
Defined.

End Repetition_examples.

End Searching.

Module Assembler.

Open Scope Z_scope.

(** ** Values *)

(** The Python values that the model follows through operands and tables:
    [None], booleans, integers, strings and [BasicBlockTarget] labels (the
    only class of [Label]). *)
Inductive pyval : Type :=
| VNone
| VBool (b : bool)
| VInt (z : Z)
| VStr (s : string)
| VLabel (target_id : Z) (offset : Z).

#[global] Instance pyval_eq_dec : EqDecision pyval.
Proof. solve_decision. Defined.

Inductive pytype : Type := NoneType | bool_ | int_ | str_ | BasicBlockTarget.

#[global] Instance pytype_eq_dec : EqDecision pytype.
Proof. solve_decision. Defined.

(** [type(v)] *)
Definition type_of (v : pyval) : pytype :=
  match v with
  | VNone => NoneType
  | VBool _ => bool_
  | VInt _ => int_
  | VStr _ => str_
  | VLabel _ _ => BasicBlockTarget
  end.

(** [a == b]: a boolean is equal to the integer 0 or 1 it stands for. *)
Definition py_eq (a b : pyval) : bool :=
  match a, b with
  | VNone, VNone => true
  | VBool x, VBool y => bool_decide (x = y)
  | VBool x, VInt z | VInt z, VBool x => z =? (if x then 1 else 0)
  | VInt x, VInt y => x =? y
  | VStr x, VStr y => bool_decide (x = y)
  | VLabel t o, VLabel t' o' => (t =? t') && (o =? o')
  | _, _ => false
  end.

(** [v in l] *)
Definition py_in (v : pyval) (l : list pyval) : bool := existsb (py_eq v) l.

(** [l.index(v)], from position [i] on; [None] stands for the [ValueError]. *)
Fixpoint index_from (i : Z) (v : pyval) (l : list pyval) : option Z :=
  match l with
  | [] => None
  | e :: r => if py_eq v e then Some i else index_from (i + 1) v r
  end.

Definition index (l : list pyval) (v : pyval) : outcome Z :=
  match index_from 0 v l with
  | Some i => Returns i
  | None => Raises ValueError
  end.

(** The [for] loop of [_strict_index], from position [i] on. *)
Fixpoint strict_from (i : Z) (v : pyval) (l : list pyval) : option Z :=
  match l with
  | [] => None
  | e :: r =>
      if py_eq v e && bool_decide (type_of v = type_of e) then Some i
      else strict_from (i + 1) v r
  end.

Definition _strict_index (l : list pyval) (v : pyval) : outcome Z :=
  match strict_from 0 v l with
  | Some i => Returns i
  | None => index l v
  end.

(** ** The tables of the [dis] module *)

(** [dis.opname] is a list of 256 names, one for each byte: [dis.opname[op]]
    raises [IndexError] when [op] is no index of it.  A negative index counts
    from the end of the list. *)
Definition has_opname (op : Z) : bool := (-256 <=? op) && (op <? 256).

(** What the code reads from [dis]: the opcode tables of the interpreter.
    The lists [hasname], ..., [hasjabs] hold opcodes of the interpreter, so
    each of their entries has its name in [dis.opname]. *)
Record dis_tables : Type := mk_dis {
  HAVE_ARGUMENT : Z;
  EXTENDED_ARG : Z;
  hasname : list Z;
  haslocal : list Z;
  hasconst : list Z;
  hascompare : list Z;
  hasfree : list Z;
  hasjrel : list Z;
  hasjabs : list Z;
  cmp_op : list pyval;
  opname : Z → string;
  tables_named :
    Forall (λ op, has_opname op = true)
      (hasname ++ haslocal ++ hasconst ++ hascompare ++ hasfree ++ hasjrel ++ hasjabs)
}.

Lemma cpython310_tables_named :
  Forall (λ op, has_opname op = true)
    ([90; 91; 95; 96; 97; 98; 101; 106; 108; 109; 116; 160] ++ [124; 125; 126] ++ [100]
     ++ [107] ++ [135; 136; 137; 138; 148] ++ [93; 110; 122; 143; 154]
     ++ [111; 112; 113; 114; 115; 121]).
Proof.
  apply Forall_forall. intros op Hop. simpl in Hop.
  repeat (apply elem_of_cons in Hop as [->|Hop]); [done..|by apply elem_of_nil in Hop].
Qed.

(** The tables of CPython 3.10. *)
Definition cpython310 : dis_tables := {|
  HAVE_ARGUMENT := 90;
  EXTENDED_ARG := 144;
  hasname := [90; 91; 95; 96; 97; 98; 101; 106; 108; 109; 116; 160];
  haslocal := [124; 125; 126];
  hasconst := [100];
  hascompare := [107];
  hasfree := [135; 136; 137; 138; 148];
  hasjrel := [93; 110; 122; 143; 154];
  hasjabs := [111; 112; 113; 114; 115; 121];
  cmp_op := [VStr "<"; VStr "<="; VStr "=="; VStr "!="; VStr ">"; VStr ">="];
  opname := λ op,
    if decide (op = 83) then "RETURN_VALUE"%string
    else if decide (op = 113) then "JUMP_ABSOLUTE"%string
    else if decide (op = 110) then "JUMP_FORWARD"%string
    else if decide (op = 144) then "EXTENDED_ARG"%string
    else "<other>"%string;
  tables_named := cpython310_tables_named
|}.

(** ** Instructions *)

Record Instruction : Type := mkInstruction {
  opcode : Z;
  arg : pyval
}.

(** [dis.Instruction], as [dis.get_instructions] yields it. *)
Record dis_Instruction : Type := mk_dis_Instruction {
  d_opcode : Z;
  d_arg : option Z;
  d_argval : pyval;
  d_offset : Z;
  d_starts_line : option Z;
  d_is_jump_target : bool
}.

(** [dis.Instruction], as [get_raw] builds it: the opcode and the arg, all
    other fields [None]. *)
Record raw_Instruction : Type := mk_raw {
  r_opcode : Z;
  r_arg : option Z
}.

#[global] Instance raw_Instruction_eq_dec : EqDecision raw_Instruction.
Proof. solve_decision. Defined.

Record CodeInfo : Type := mkCodeInfo {
  co_argcount : Z;
  co_posonlyargcount : Z;
  co_kwonlyargcount : Z;
  co_nlocals : Z;
  co_stacksize : Z;
  co_flags : Z;
  co_consts : list pyval;
  co_names : list pyval;
  co_varnames : list pyval;
  co_filename : string;
  co_name : string;
  co_freevars : list pyval;
  co_cellvars : list pyval
}.

(** The tables that [make_sure] names. *)
Inductive table : Type := consts | names | varnames | freevars | cellvars.

(** [getattr(self, "co_" + name)] *)
Definition co_table (name : table) (ci : CodeInfo) : list pyval :=
  match name with
  | consts => co_consts ci
  | names => co_names ci
  | varnames => co_varnames ci
  | freevars => co_freevars ci
  | cellvars => co_cellvars ci
  end.

(** The code info after its list [name] has become [l]. *)
Definition set_co_table (name : table) (l : list pyval) (ci : CodeInfo) : CodeInfo :=
  match name with
  | consts =>
      mkCodeInfo (co_argcount ci) (co_posonlyargcount ci) (co_kwonlyargcount ci)
        (co_nlocals ci) (co_stacksize ci) (co_flags ci) l (co_names ci)
        (co_varnames ci) (co_filename ci) (co_name ci) (co_freevars ci) (co_cellvars ci)
  | names =>
      mkCodeInfo (co_argcount ci) (co_posonlyargcount ci) (co_kwonlyargcount ci)
        (co_nlocals ci) (co_stacksize ci) (co_flags ci) (co_consts ci) l
        (co_varnames ci) (co_filename ci) (co_name ci) (co_freevars ci) (co_cellvars ci)
  | varnames =>
      mkCodeInfo (co_argcount ci) (co_posonlyargcount ci) (co_kwonlyargcount ci)
        (co_nlocals ci) (co_stacksize ci) (co_flags ci) (co_consts ci) (co_names ci)
        l (co_filename ci) (co_name ci) (co_freevars ci) (co_cellvars ci)
  | freevars =>
      mkCodeInfo (co_argcount ci) (co_posonlyargcount ci) (co_kwonlyargcount ci)
        (co_nlocals ci) (co_stacksize ci) (co_flags ci) (co_consts ci) (co_names ci)
        (co_varnames ci) (co_filename ci) (co_name ci) l (co_cellvars ci)
  | cellvars =>
      mkCodeInfo (co_argcount ci) (co_posonlyargcount ci) (co_kwonlyargcount ci)
        (co_nlocals ci) (co_stacksize ci) (co_flags ci) (co_consts ci) (co_names ci)
        (co_varnames ci) (co_filename ci) (co_name ci) (co_freevars ci) l
  end.

(** [CodeInfo.make_sure]: the index returned and the code info afterwards
    (the list is changed in place). *)
Definition make_sure (name : table) (value : pyval) (ci : CodeInfo)
    : outcome Z * CodeInfo :=
  let l := co_table name ci in
  let l' := if py_in value l then l else l ++ [value] in
  (index l' value, set_co_table name l' ci).

Definition get_free_index (ci : CodeInfo) (name : pyval) : outcome Z :=
  if py_in name (co_cellvars ci) then index (co_cellvars ci) name
  else i ← index (co_freevars ci) name; Returns (Z.of_nat (length (co_cellvars ci)) + i).

Definition is_Label (v : pyval) : bool :=
  match v with VLabel _ _ => true | _ => false end.

Definition mem (x : Z) (l : list Z) : bool := bool_decide (x ∈ l).

(** An opcode of one of the lists of [dis] has its name in [dis.opname]. *)
Lemma tables_has_opname (dis : dis_tables) (op : Z) :
  mem op (hasname dis) || mem op (haslocal dis) || mem op (hasconst dis)
  || mem op (hascompare dis) || mem op (hasfree dis) || mem op (hasjrel dis)
  || mem op (hasjabs dis) = true →
  has_opname op = true.
Proof.
  intros H. pose proof (tables_named dis) as Hall. rewrite Forall_forall in Hall.
  apply Hall. rewrite !elem_of_app. unfold mem in H.
  repeat (apply orb_true_iff in H as [H|H]); apply bool_decide_eq_true in H; tauto.
Qed.

Section WithTables.

Variable dis : dis_tables.

Definition is_jump (i : Instruction) : bool :=
  mem (opcode i) (hasjrel dis) || mem (opcode i) (hasjabs dis).

(** [Instruction.no_next], which [disassemble] reads of the instructions that
    [dis] decoded: their opcodes are bytes, and have a name. *)
Definition no_next (i : Instruction) : bool :=
  bool_decide (opname dis (opcode i) ∈
    ["RETURN_VALUE"; "JUMP_ABSOLUTE"; "JUMP_FORWARD"]%string).

(** [Instruction.from_dis] *)
Definition from_dis (raw : dis_Instruction) : Instruction :=
  mkInstruction (d_opcode raw) (d_argval raw).

(** The operand index that [get_raw] resolves ([arg_i] before the assertion),
    for an opcode that has an argument.  [o] is the index of the instruction
    and [j] the resolved offset of its target, if it has one. *)
Definition resolve_arg (code_info : CodeInfo) (i : Instruction) (o : Z) (j : option Z)
    : outcome Z :=
  if mem (opcode i) (hasname dis) then index (co_names code_info) (arg i)
  else if mem (opcode i) (haslocal dis) then index (co_varnames code_info) (arg i)
  else if mem (opcode i) (hasconst dis) then _strict_index (co_consts code_info) (arg i)
  else if mem (opcode i) (hascompare dis) then index (cmp_op dis) (arg i)
  else if mem (opcode i) (hasfree dis) then get_free_index code_info (arg i)
  else if mem (opcode i) (hasjrel dis) && is_Label (arg i) then
    match j with
    | Some j => Returns (j - o - 1)
    | None => Raises TypeError
    end
  else if mem (opcode i) (hasjabs dis) && is_Label (arg i) then
    match j with
    | Some j => Returns j
    | None => Raises TypeError
    end
  else
    match arg i with
    | VInt z => Returns z
    | VBool b => Returns (if b then 1 else 0)
    | _ => Raises AssertionError
    end.

(** The loop [while arg_i > 0xFF] of [get_raw], which fills [vs]. *)
Fixpoint split_arg (fuel : nat) (arg_i : Z) (vs : list Z) : list Z :=
  match fuel with
  | O => vs ++ [arg_i]
  | S fuel' =>
      if 255 <? arg_i
      then split_arg fuel' (Z.shiftr arg_i 8) (vs ++ [Z.land arg_i 255])
      else vs ++ [arg_i]
  end.

(** [vs], reversed: the loop shifts [arg_i] by 8 bits each time, so it is over
    in fewer rounds than [arg_i] has bits. *)
Definition arg_bytes (arg_i : Z) : list Z :=
  rev (split_arg (Z.to_nat (Z.log2 arg_i)) arg_i []).

(** [Instruction.get_raw], with all that it yields.  The unit of the
    instruction itself is built from [self.opname], which is
    [dis.opname[self.opcode]]: an opcode without a name there raises
    [IndexError], once the operand has been resolved and split. *)
Definition get_raw (i : Instruction) (code_info : CodeInfo) (o : Z) (j : option Z)
    : outcome (list raw_Instruction) :=
  if opcode i <? HAVE_ARGUMENT dis then
    if has_opname (opcode i) then Returns [mk_raw (opcode i) None]
    else Raises IndexError
  else
    arg_i ← resolve_arg code_info i o j;
    if arg_i <? 0 then Raises AssertionError
    else
      let vs := arg_bytes arg_i in
      match list_pop vs with
      | None => Raises IndexError
      | Some (prefixes, v) =>
          if has_opname (opcode i)
          then Returns (((λ v, mk_raw (EXTENDED_ARG dis) (Some v)) <$> prefixes)
                        ++ [mk_raw (opcode i) (Some v)])
          else Raises IndexError
      end.

End WithTables.

(** ** Python dictionaries, in insertion order *)

Section odict.
Context {V : Type}.

Fixpoint od_get (k : Z) (d : list (Z * V)) : option V :=
  match d with
  | [] => None
  | (k', v) :: r => if decide (k = k') then Some v else od_get k r
  end.

(** [k in d] *)
Definition od_mem (k : Z) (d : list (Z * V)) : bool :=
  match od_get k d with Some _ => true | None => false end.

(** [d[k] = v]: a key that is there keeps its place. *)
Fixpoint od_set (k : Z) (v : V) (d : list (Z * V)) : list (Z * V) :=
  match d with
  | [] => [(k, v)]
  | (k', v') :: r => if decide (k = k') then (k, v) :: r else (k', v') :: od_set k v r
  end.

Fixpoint od_remove (k : Z) (d : list (Z * V)) : list (Z * V) :=
  match d with
  | [] => []
  | (k', v') :: r => if decide (k = k') then r else (k', v') :: od_remove k r
  end.

(** [d.pop(k)]; [None] stands for the [KeyError]. *)
Definition od_pop (k : Z) (d : list (Z * V)) : option (V * list (Z * V)) :=
  match od_get k d with
  | Some v => Some (v, od_remove k d)
  | None => None
  end.

(** [d.popitem()]: the item inserted last. *)
Definition od_popitem (d : list (Z * V)) : option (list (Z * V) * (Z * V)) := list_pop d.

(** [min(d)], for a dictionary that is not empty. *)
Definition od_min (k0 : Z) (d : list (Z * V)) : Z := foldr (λ kv m, Z.min kv.1 m) k0 d.

End odict.

(** ** Blocks *)

Record BasicBlock : Type := mkBasicBlock {
  id : Z;
  instructions : list Instruction;
  jump_instruction : option Instruction;
  next_target : option pyval;
  line : option Z
}.

(** A block is a [BasicBlock] or a [FunctionBlock], whose dictionary [blocks]
    is kept in insertion order.  ([MetaBlock] does not define
    [as_basic_blocks], so it cannot be instantiated.) *)
Unset Elimination Schemes.
Inductive Block : Type :=
| Basic (b : BasicBlock)
| Function (code_info : CodeInfo) (fid : Z) (entry : Z) (blocks : list (Z * Block)).
Set Elimination Schemes.

(** A list of blocks built by [as_basic_blocks]: a Python list object, with
    its identity, and its items. *)
Definition run : Type := nat * list BasicBlock.

Record runs_state : Type := mk_runs {
  runs_by_start : list (Z * run);
  runs_by_target : list (Z * run);
  next_list : nat
}.

(** The body of the inner [for bb in bbs] loop of [as_basic_blocks]. *)
Definition register (bb : BasicBlock) (st : runs_state) : outcome runs_state :=
  if od_mem (id bb) (runs_by_start st) then Raises AssertionError
  else
    let r : run := (next_list st, [bb]) in
    let starts := od_set (id bb) r (runs_by_start st) in
    match next_target bb with
    | None => Returns (mk_runs starts (runs_by_target st) (S (next_list st)))
    | Some (VLabel target_id offset) =>
        if negb (offset =? 0) then Raises AssertionError
        else if od_mem target_id (runs_by_target st) then Raises AssertionError
        else Returns (mk_runs starts (od_set target_id r (runs_by_target st))
                        (S (next_list st)))
    | Some _ => Raises AssertionError
    end.

Fixpoint register_all (bbs : list BasicBlock) (st : runs_state) : outcome runs_state :=
  match bbs with
  | [] => Returns st
  | bb :: rest => st' ← register bb st; register_all rest st'
  end.

(** The loop [while runs_by_target] of [as_basic_blocks]. *)
Fixpoint splice (fuel : nat) (st : runs_state) : outcome (list (Z * run)) :=
  match fuel with
  | O => Loops
  | S fuel' =>
    match od_popitem (runs_by_target st) with
    | None => Returns (runs_by_start st)
    | Some (targets, (target_id, start_run)) =>
      if negb (od_mem target_id (runs_by_start st)) then Raises AssertionError
      else
        match head start_run.2 with
        | None => Raises IndexError
        | Some first =>
          match od_pop (id first) (runs_by_start st) with
          | None => Raises KeyError
          | Some (_, starts1) =>
            match od_pop target_id starts1 with
            | None => Raises KeyError
            | Some (end_run, starts2) =>
              let r : run := (next_list st, start_run.2 ++ end_run.2) in
              match last r.2 with
              | None => Raises IndexError
              | Some final =>
                match next_target final with
                | None =>
                    splice fuel'
                      (mk_runs (od_set (id first) r starts2) targets (S (next_list st)))
                | Some (VLabel t _) =>
                    match od_get t targets with
                    | None => Raises KeyError
                    | Some r' =>
                        if negb (bool_decide (r'.1 = end_run.1)) then Raises AssertionError
                        else
                          splice fuel'
                            (mk_runs (od_set (id first) r starts2) (od_set t r targets)
                               (S (next_list st)))
                    end
                | Some _ => Raises AssertionError
                end
              end
            end
          end
        end
    end
  end.

(** The loop [while runs_by_start] that extends [result]. *)
Fixpoint extend_by_min (fuel : nat) (starts : list (Z * run)) (result : list BasicBlock)
    : outcome (list BasicBlock) :=
  match starts with
  | [] => Returns result
  | (k0, _) :: _ =>
    match fuel with
    | O => Loops
    | S fuel' =>
      match od_pop (od_min k0 starts) starts with
      | None => Raises KeyError
      | Some (r, starts') => extend_by_min fuel' starts' (result ++ r.2)
      end
    end
  end.

(** What [as_basic_blocks] does once the first loop has filled the two
    dictionaries.  Each round of the splicing loop takes an item out of
    [runs_by_target] and puts none in, and each round of the last loop takes
    one out of [runs_by_start]: the sizes bound the rounds. *)
Definition splice_and_order (entry : Z) (st : runs_state) : outcome (list BasicBlock) :=
  starts ← splice (S (length (runs_by_target st))) st;
  match od_pop entry starts with
  | None => Raises KeyError
  | Some (result, starts') => extend_by_min (length starts') starts' result.2
  end.

(** The first loop of [FunctionBlock.as_basic_blocks], over the values of
    [self.blocks]; [flatten] is [as_basic_blocks] on a block inside. *)
Definition first_loop (flatten : Block → outcome (list BasicBlock))
    : list (Z * Block) → runs_state → outcome runs_state :=
  fix go (bs : list (Z * Block)) (st : runs_state) : outcome runs_state :=
    match bs with
    | [] => Returns st
    | (_, b) :: rest =>
        bbs ← flatten b;
        st' ← register_all bbs st;
        go rest st'
    end.

(** [Block.as_basic_blocks] *)
Fixpoint as_basic_blocks (b : Block) : outcome (list BasicBlock) :=
  match b with
  | Basic bb => Returns [bb]
  | Function _ _ entry blocks =>
      st ← first_loop as_basic_blocks blocks (mk_runs [] [] 0);
      splice_and_order entry st
  end.

(** The basic blocks of the blocks inside, in the order of the first loop. *)
Fixpoint flatten_all (blocks : list (Z * Block)) : outcome (list BasicBlock) :=
  match blocks with
  | [] => Returns []
  | (_, b) :: rest =>
      bbs ← as_basic_blocks b;
      more ← flatten_all rest;
      Returns (bbs ++ more)
  end.

(** ** Facts on dictionaries *)

Section odict_facts.
Context {V : Type}.
Implicit Types d : list (Z * V).

Lemma od_get_None d k : od_get k d = None ↔ k ∉ d.*1.
Proof.
  induction d as [|[k' v'] d IH]; simpl.
  - split; [intros _ ?%elem_of_nil|]; done.
  - destruct (decide (k = k')) as [->|Hne].
    + split; [done|]. intros []. left.
    + rewrite IH, not_elem_of_cons. tauto.
Qed.

Lemma od_get_elem d k v : od_get k d = Some v → (k, v) ∈ d.
Proof.
  induction d as [|[k' v'] d IH]; simpl; [done|].
  destruct (decide (k = k')) as [->|Hne].
  - intros [= ->]. left.
  - intros Hg. right. by apply IH.
Qed.

Lemma od_get_Some d k v : NoDup d.*1 → (k, v) ∈ d → od_get k d = Some v.
Proof.
  induction d as [|[k' v'] d IH]; simpl; [by intros _ ?%elem_of_nil|].
  intros [Hk Hnd]%NoDup_cons [[= -> ->]|Hin]%elem_of_cons.
  - by rewrite decide_True.
  - destruct (decide (k = k')) as [->|Hne]; [|by apply IH].
    destruct Hk. apply list_elem_of_fmap. by exists (k', v).
Qed.

Lemma od_mem_true d k : od_mem k d = true ↔ k ∈ d.*1.
Proof.
  unfold od_mem. pose proof (od_get_None d k) as Hn.
  destruct (od_get k d); split; try done.
  - intros _. destruct (decide (k ∈ d.*1)); [done|]. by apply Hn in n.
  - intros Hin. by apply Hn in Hin.
Qed.

Lemma od_mem_false d k : od_mem k d = false ↔ k ∉ d.*1.
Proof. rewrite <- od_mem_true. by destruct (od_mem k d). Qed.

Lemma od_set_new d k v : k ∉ d.*1 → od_set k v d = d ++ [(k, v)].
Proof.
  induction d as [|[k' v'] d IH]; simpl; [done|].
  intros [Hne Hk]%not_elem_of_cons. rewrite decide_False by done. by rewrite IH.
Qed.

Lemma od_set_keys d k v : k ∈ d.*1 → (od_set k v d).*1 = d.*1.
Proof.
  induction d as [|[k' v'] d IH]; simpl; [by intros ?%elem_of_nil|].
  destruct (decide (k = k')) as [->|Hne]; [done|].
  intros [->|Hin]%elem_of_cons; [done|]. rewrite fmap_cons. f_equal. by apply IH.
Qed.

Lemma elem_of_od_set d k v k' v' :
  NoDup d.*1 →
  (k', v') ∈ od_set k v d ↔ (k' = k ∧ v' = v) ∨ (k' ≠ k ∧ (k', v') ∈ d).
Proof.
  induction d as [|[k0 v0] d IH]; simpl.
  - intros _. rewrite list_elem_of_singleton. split.
    + intros [= -> ->]. by left.
    + intros [[-> ->]|[_ ?%elem_of_nil]]; done.
  - intros [Hk Hnd]%NoDup_cons. destruct (decide (k = k0)) as [->|Hne].
    + rewrite !elem_of_cons. split.
      * intros [[= -> ->]|Hin]; [by left|]. right. split; [|by right].
        intros ->. destruct Hk. apply list_elem_of_fmap. by exists (k0, v').
      * intros [[-> ->]|[Hn [[= ? ?]|Hin]]]; [by left|done|by right].
    + rewrite !elem_of_cons, IH by done. split.
      * intros [[= -> ->]|[?|[? ?]]]; [|by left|]; right; split; auto.
      * intros [?|[? [[= -> ->]|?]]]; [right; by left|by left|right; by right].
Qed.

Lemma elem_of_od_remove d k k' v' :
  NoDup d.*1 → (k', v') ∈ od_remove k d ↔ k' ≠ k ∧ (k', v') ∈ d.
Proof.
  induction d as [|[k0 v0] d IH]; simpl.
  - intros _. split; [by intros ?%elem_of_nil|by intros [_ ?%elem_of_nil]].
  - intros [Hk Hnd]%NoDup_cons. destruct (decide (k = k0)) as [->|Hne].
    + rewrite elem_of_cons. split.
      * intros Hin. split; [|by right]. intros ->. destruct Hk.
        apply list_elem_of_fmap. by exists (k0, v').
      * intros [Hn [[= ? ?]|Hin]]; done.
    + rewrite !elem_of_cons, IH by done. split.
      * intros [[= -> ->]|[? ?]]; split; auto.
      * intros [? [?|?]]; auto.
Qed.

Lemma od_remove_keys d k : (od_remove k d).*1 ⊆ d.*1.
Proof.
  induction d as [|[k0 v0] d IH]; simpl; [done|].
  destruct (decide (k = k0)); [intros x Hx; by right|].
  rewrite fmap_cons. intros x [->|Hx]%elem_of_cons; [left|right; by apply IH].
Qed.

Lemma od_remove_NoDup d k : NoDup d.*1 → NoDup (od_remove k d).*1.
Proof.
  induction d as [|[k0 v0] d IH]; simpl; [done|].
  intros [Hk Hnd]%NoDup_cons. destruct (decide (k = k0)); [done|].
  rewrite fmap_cons. apply NoDup_cons. split; [|by apply IH].
  intros Hin. by apply od_remove_keys in Hin.
Qed.

Lemma od_remove_not_in d k : NoDup d.*1 → k ∉ (od_remove k d).*1.
Proof.
  intros Hnd [[k' v'] [-> Hin]]%list_elem_of_fmap.
  apply elem_of_od_remove in Hin as [? _]; done.
Qed.

Lemma od_remove_perm d k v : NoDup d.*1 → (k, v) ∈ d → d ≡ₚ (k, v) :: od_remove k d.
Proof.
  induction d as [|[k0 v0] d IH]; simpl; [by intros _ ?%elem_of_nil|].
  intros [Hk Hnd]%NoDup_cons [[= -> ->]|Hin]%elem_of_cons.
  - by rewrite decide_True.
  - destruct (decide (k = k0)) as [->|Hne].
    + destruct Hk. apply list_elem_of_fmap. by exists (k0, v).
    + rewrite (IH Hnd Hin) at 1. apply Permutation_swap.
Qed.

Lemma od_pop_Some d k v :
  NoDup d.*1 → (k, v) ∈ d → od_pop k d = Some (v, od_remove k d).
Proof. intros Hnd Hin. unfold od_pop. by rewrite (od_get_Some d k v). Qed.

Lemma od_min_le k0 d k : k ∈ d.*1 → od_min k0 d ≤ k.
Proof.
  induction d as [|[k' v'] d IH]; simpl; [by intros ?%elem_of_nil|].
  intros [->|Hin]%elem_of_cons; [lia|]. specialize (IH Hin). lia.
Qed.

Lemma od_min_in k0 d : od_min k0 d = k0 ∨ od_min k0 d ∈ d.*1.
Proof.
  induction d as [|[k' v'] d IH]; simpl; [by left|].
  destruct (Z.min_spec k' (od_min k0 d)) as [[_ ->]|[_ ->]].
  - right. left.
  - destruct IH as [?|?]; [by left|right; by right].
Qed.

End odict_facts.

(** ** The order of the basic blocks *)

(** The block that a block falls through to, if any. *)
Definition fall (b : BasicBlock) : option Z :=
  match next_target b with
  | Some (VLabel t _) => Some t
  | _ => None
  end.

(** Each block of the list falls through to the next one. *)
Fixpoint linked (r : list BasicBlock) : Prop :=
  match r with
  | b :: (b' :: _) as tl => fall b = Some (id b') ∧ linked tl
  | _ => True
  end.

(** The blocks of the runs of a dictionary, in its order. *)
Definition blocks_of (d : list (Z * run)) : list BasicBlock :=
  concat ((λ kv, kv.2.2) <$> d).

(** The block that the last block of a list falls through to. *)
Definition fall_last (r : list BasicBlock) : option Z := last r ≫= fall.

(** A run that cannot be spliced any further: its blocks are linked, its last
    block does not fall through, and no block falls through to its first
    one. *)
Definition maximal_run (all : list BasicBlock) (r : list BasicBlock) : Prop :=
  ∃ h, head r = Some h ∧ linked r ∧ fall_last r = None ∧
       ∀ p, p ∈ all → fall p ≠ Some (id h).

(** The ids of the first blocks of a list of runs. *)
Definition head_ids (rs : list (list BasicBlock)) : list Z :=
  omap (λ r, id <$> head r) rs.

Lemma linked_app r1 r2 :
  linked r1 → linked r2 →
  (∀ b b', last r1 = Some b → head r2 = Some b' → fall b = Some (id b')) →
  linked (r1 ++ r2).
Proof.
  intros H1 H2 Hl. induction r1 as [|b [|b' r1] IH]; simpl in *.
  - done.
  - destruct r2 as [|b2 r2]; [done|]. split; [by apply Hl|done].
  - destruct H1 as [Hb H1]. split; [done|]. apply IH; [done|].
    intros x y Hx Hy. by apply Hl.
Qed.

Lemma blocks_of_app d1 d2 : blocks_of (d1 ++ d2) = blocks_of d1 ++ blocks_of d2.
Proof. unfold blocks_of. by rewrite fmap_app, concat_app. Qed.

Lemma blocks_of_cons k ρ d : blocks_of ((k, ρ) :: d) = ρ.2 ++ blocks_of d.
Proof. reflexivity. Qed.

Lemma elem_of_blocks_of d k (ρ : run) b : (k, ρ) ∈ d → b ∈ ρ.2 → b ∈ blocks_of d.
Proof.
  intros Hin Hb. induction d as [|[k' ρ'] d IH]; [by apply elem_of_nil in Hin|].
  rewrite blocks_of_cons. apply elem_of_app.
  apply elem_of_cons in Hin as [[= <- <-]|Hin]; [by left|right; by apply IH].
Qed.

Lemma blocks_of_perm d d' : d ≡ₚ d' → blocks_of d ≡ₚ blocks_of d'.
Proof.
  induction 1 as [|[k ρ] d d' _ IH|[k1 ρ1] [k2 ρ2] d|d1 d2 d3 _ IH1 _ IH2].
  - done.
  - rewrite !blocks_of_cons. by rewrite IH.
  - rewrite !blocks_of_cons, !(assoc (++)). f_equiv. apply Permutation_app_comm.
  - by rewrite IH1.
Qed.

Lemma linked_pred pre p b post : linked (pre ++ p :: b :: post) → fall p = Some (id b).
Proof.
  induction pre as [|x [|y pre] IH]; simpl.
  - by intros [? _].
  - by intros [_ [? _]].
  - intros [_ H]. by apply IH.
Qed.

Lemma register_all_app l1 l2 st :
  register_all (l1 ++ l2) st = st' ← register_all l1 st; register_all l2 st'.
Proof.
  revert st. induction l1 as [|b l1 IH]; intros st; simpl; [done|].
  destruct (register b st) as [st'|e|]; simpl; [apply IH|done|done].
Qed.

(** The first loop registers the basic blocks of the blocks inside, one after
    the other. *)
Lemma first_loop_flatten blocks bbs st :
  flatten_all blocks = Returns bbs →
  first_loop as_basic_blocks blocks st = register_all bbs st.
Proof.
  revert bbs st. induction blocks as [|[k b] blocks IH]; intros bbs st; simpl.
  - by intros [= <-].
  - destruct (as_basic_blocks b) as [l|e|]; simpl; try done.
    destruct (flatten_all blocks) as [more|e|]; simpl; try done.
    intros [= <-]. rewrite register_all_app.
    destruct (register_all l st) as [st'|e|]; simpl; [by apply IH|done|done].
Qed.

(** The last loop appends the runs that are left by ascending key. *)
Lemma extend_by_min_spec fuel (d : list (Z * run)) acc :
  NoDup d.*1 → (length d ≤ fuel)%nat →
  ∃ d', d' ≡ₚ d ∧ StronglySorted (λ a b, a.1 < b.1) d' ∧
        extend_by_min fuel d acc = Returns (acc ++ blocks_of d').
Proof.
  revert d acc. induction fuel as [|fuel IH]; intros d acc Hnd Hlen.
  - destruct d; [|simpl in Hlen; lia]. exists []. split; [done|]. split; [constructor|].
    simpl. by rewrite app_nil_r.
  - destruct d as [|[k0 v0] d0].
    { exists []. split; [done|]. split; [constructor|]. simpl. by rewrite app_nil_r. }
    remember ((k0, v0) :: d0) as d eqn:Ed.
    assert (Hk0 : k0 ∈ d.*1) by (rewrite Ed; left).
    set (m := od_min k0 d).
    assert (Hm : m ∈ d.*1).
    { unfold m. destruct (od_min_in k0 d) as [E|?]; [by rewrite E|done]. }
    apply list_elem_of_fmap in Hm as ([m' ρ] & Em & Hρ). simpl in Em. subst m'.
    assert (Hstep : extend_by_min (S fuel) d acc
                    = extend_by_min fuel (od_remove m d) (acc ++ ρ.2)).
    { rewrite Ed at 1. cbn [extend_by_min]. rewrite <- Ed. fold m.
      by rewrite (od_pop_Some d m ρ). }
    pose proof (od_remove_perm d m ρ Hnd Hρ) as Hperm.
    destruct (IH (od_remove m d) (acc ++ ρ.2)) as (d' & Hp' & Hs' & Hr').
    { by apply od_remove_NoDup. }
    { apply Permutation_length in Hperm. simpl in Hperm. lia. }
    exists ((m, ρ) :: d'). split; [|split].
    + by rewrite Hperm, Hp'.
    + constructor; [done|]. apply Forall_forall. intros [k v] Hin. simpl.
      rewrite Hp' in Hin. apply elem_of_od_remove in Hin as [Hne Hin]; [|done].
      assert (m ≤ k); [|lia]. apply od_min_le, list_elem_of_fmap. by exists (k, v).
    + rewrite Hstep, Hr', blocks_of_cons. by rewrite <- (assoc (++)).
Qed.

Lemma sorted_keys (d : list (Z * run)) :
  StronglySorted (λ a b, a.1 < b.1) d → StronglySorted Z.lt d.*1.
Proof.
  induction 1 as [|[k v] d _ IH Hall]; simpl; constructor; [done|].
  apply Forall_fmap. eapply Forall_impl; [exact Hall|]. done.
Qed.

Lemma head_ids_keys (d : list (Z * run)) :
  (∀ k ρ, (k, ρ) ∈ d → ∃ b tl, ρ.2 = b :: tl ∧ id b = k) →
  head_ids ((λ kv, kv.2.2) <$> d) = d.*1.
Proof.
  induction d as [|[k ρ] d IH]; intros Hd; [done|].
  destruct (Hd k ρ ltac:(left)) as (b & tl & E & <-).
  unfold head_ids in *. simpl. rewrite E. simpl. f_equal.
  apply IH. intros k' ρ' Hin. apply Hd. by right.
Qed.

Section Linearize.

Variable all : list BasicBlock.
Variable rank : Z → nat.

Hypothesis ids_unique : NoDup (id <$> all).
Hypothesis targets_unique : NoDup (omap fall all).
Hypothesis targets_plain :
  Forall (λ b, next_target b = None ∨ ∃ t, next_target b = Some (VLabel t 0)) all.
Hypothesis targets_resolve :
  Forall (λ b, ∀ t, fall b = Some t → t ∈ id <$> all ∧ (rank (id b) < rank t)%nat) all.

Lemma rank_fall b t : b ∈ all → fall b = Some t → (rank (id b) < rank t)%nat.
Proof.
  intros Hb Ht. rewrite Forall_forall in targets_resolve.
  by apply (targets_resolve b Hb t).
Qed.

(** Along a run the rank grows, so a run does not fall through to its own
    first block. *)
Lemma rank_linked r h l :
  (∀ b, b ∈ r → b ∈ all) → linked r → head r = Some h → last r = Some l →
  (rank (id h) ≤ rank (id l))%nat.
Proof.
  revert h. induction r as [|b [|b' r] IH]; intros h Hall Hl Hh Hla; simpl in *.
  - done.
  - injection Hh as <-. injection Hla as <-. done.
  - injection Hh as <-. destruct Hl as [Hb Hl].
    assert (rank (id b) < rank (id b'))%nat.
    { apply rank_fall; [apply Hall; left|done]. }
    assert (rank (id b') ≤ rank (id l))%nat; [|lia].
    apply IH; [|done|done|done]. intros x Hx. apply Hall. by right.
Qed.

(** What holds of the two dictionaries at each round of the splicing loop. *)
Record splice_inv (st : runs_state) : Prop := mk_splice_inv {
  inv_keys : NoDup (runs_by_start st).*1;
  inv_head : ∀ k ρ, (k, ρ) ∈ runs_by_start st → ∃ b tl, ρ.2 = b :: tl ∧ id b = k;
  inv_linked : ∀ k ρ, (k, ρ) ∈ runs_by_start st → linked ρ.2;
  inv_perm : blocks_of (runs_by_start st) ≡ₚ all;
  inv_tkeys : NoDup (runs_by_target st).*1;
  inv_targets : ∀ t ρ,
    (t, ρ) ∈ runs_by_target st ↔
    (∃ k, (k, ρ) ∈ runs_by_start st) ∧ fall_last ρ.2 = Some t;
  inv_target_key : ∀ t ρ,
    (t, ρ) ∈ runs_by_target st → t ∈ (runs_by_start st).*1;
  inv_key_target : ∀ p t,
    p ∈ all → fall p = Some t → t ∈ (runs_by_start st).*1 →
    ∃ ρ, (t, ρ) ∈ runs_by_target st ∧ last ρ.2 = Some p
}.

Lemma inv_in_all st k ρ b :
  splice_inv st → (k, ρ) ∈ runs_by_start st → b ∈ ρ.2 → b ∈ all.
Proof.
  intros Hinv Hin Hb. rewrite <- (inv_perm st Hinv). by eapply elem_of_blocks_of.
Qed.

Lemma plain_target b :
  b ∈ all →
  (next_target b = None ∧ fall b = None) ∨
  (∃ t, next_target b = Some (VLabel t 0) ∧ fall b = Some t).
Proof.
  intros Hb. rewrite Forall_forall in targets_plain.
  destruct (targets_plain b Hb) as [Hn|[t Ht]]; unfold fall; rewrite ?Hn, ?Ht; eauto.
Qed.

Lemma od_key_unique {V} (d : list (Z * V)) k v1 v2 :
  NoDup d.*1 → (k, v1) ∈ d → (k, v2) ∈ d → v1 = v2.
Proof.
  intros Hnd H1 H2. apply (od_get_Some d k v1 Hnd) in H1.
  apply (od_get_Some d k v2 Hnd) in H2. congruence.
Qed.

Lemma inv_run_key st k1 k2 ρ :
  splice_inv st → (k1, ρ) ∈ runs_by_start st → (k2, ρ) ∈ runs_by_start st → k1 = k2.
Proof.
  intros Hinv H1 H2.
  destruct (inv_head st Hinv k1 ρ H1) as (b1 & tl1 & E1 & <-).
  destruct (inv_head st Hinv k2 ρ H2) as (b2 & tl2 & E2 & <-).
  congruence.
Qed.

(** One round of the splicing loop: the run [ρs], which falls through to [t],
    and the run [ρe], which starts at [t], become one run. *)
Lemma splice_step_inv starts targets n t ρs ρe bs final (r : run) :
  let st := mk_runs starts (targets ++ [(t, ρs)]) n in
  let starts' :=
    od_set (id bs) r (od_remove t (od_remove (id bs) starts)) in
  let targets' :=
    match fall final with
    | Some t' => od_set t' r targets
    | None => targets
    end in
  splice_inv st →
  head ρs.2 = Some bs → (id bs, ρs) ∈ starts → (t, ρe) ∈ starts →
  r.2 = ρs.2 ++ ρe.2 → last ρe.2 = Some final →
  splice_inv (mk_runs starts' targets' (S n)).
Proof.
  intros st starts' targets' Hinv Hbs Hρs Hρe Hr Hfinal.
  pose proof (inv_keys st Hinv) as Hkeys. simpl in Hkeys.
  pose proof (inv_tkeys st Hinv) as Htkeys. simpl in Htkeys.
  rewrite fmap_app in Htkeys. apply NoDup_app in Htkeys as (Htk & Htk' & _).
  assert (Hts : (t, ρs) ∈ runs_by_target st) by (simpl; apply elem_of_app; right; left).
  destruct (proj1 (inv_targets st Hinv t ρs) Hts) as [_ Hfs].
  destruct (inv_head st Hinv t ρe Hρe) as (be & tle & Ee & Hbe).
  destruct (inv_head st Hinv (id bs) ρs Hρs) as (bs' & tls & Es & _).
  assert (bs' = bs) as -> by (rewrite Es in Hbs; simpl in Hbs; congruence).
  assert (Hfe : fall_last ρe.2 = fall final) by (unfold fall_last; by rewrite Hfinal).
  assert (Hfr : fall_last r.2 = fall final).
  { unfold fall_last. rewrite Hr, last_app, Hfinal. done. }
  (* the last block of [ρs] *)
  destruct (last ρs.2) as [bl|] eqn:Ebl; [|by unfold fall_last in Hfs; rewrite Ebl in Hfs].
  assert (Hbl : fall bl = Some t) by (unfold fall_last in Hfs; by rewrite Ebl in Hfs).
  assert (Hall_s : ∀ b, b ∈ ρs.2 → b ∈ all) by (intros b; by eapply inv_in_all).
  assert (Hall_e : ∀ b, b ∈ ρe.2 → b ∈ all) by (intros b; by eapply inv_in_all).
  assert (Hbl_all : bl ∈ all).
  { apply Hall_s. apply last_Some in Ebl as [l' ->]. apply elem_of_app. right. left. }
  assert (Hfinal_all : final ∈ all).
  { apply Hall_e. apply last_Some in Hfinal as [l' ->]. apply elem_of_app. right. left. }
  assert (Hrank_s : (rank (id bs) < rank t)%nat).
  { pose proof (rank_linked ρs.2 bs bl Hall_s (inv_linked st Hinv _ _ Hρs) Hbs Ebl).
    pose proof (rank_fall bl t Hbl_all Hbl). lia. }
  assert (Hrank_e : (rank t ≤ rank (id final))%nat).
  { rewrite <- Hbe. apply (rank_linked ρe.2); [done| |by rewrite Ee|done].
    by eapply (inv_linked st Hinv). }
  assert (Hne : t ≠ id bs) by (intros ->; lia).
  assert (Hrank_f : ∀ t', fall final = Some t' → t' ≠ t ∧ t' ≠ id bs).
  { intros t' Ht'. pose proof (rank_fall final t' Hfinal_all Ht').
    split; intros ->; lia. }
  (* the new dictionary of starts *)
  set (starts2 := od_remove t (od_remove (id bs) starts)).
  assert (Hnd1 : NoDup (od_remove (id bs) starts).*1) by by apply od_remove_NoDup.
  assert (Hnd2 : NoDup starts2.*1) by by apply od_remove_NoDup.
  assert (Hin2 : ∀ k ρ, (k, ρ) ∈ starts2 ↔ (k, ρ) ∈ starts ∧ k ≠ id bs ∧ k ≠ t).
  { intros k ρ. unfold starts2. rewrite !elem_of_od_remove by done. tauto. }
  assert (Hfresh : id bs ∉ starts2.*1).
  { intros [[k ρ] [Hk Hin]]%list_elem_of_fmap. simpl in Hk. subst k.
    apply Hin2 in Hin as (_ & ? & _). done. }
  assert (Hstarts' : starts' = starts2 ++ [(id bs, r)]) by by apply od_set_new.
  assert (Hin' : ∀ k ρ, (k, ρ) ∈ starts' ↔
            (k = id bs ∧ ρ = r) ∨ ((k, ρ) ∈ starts ∧ k ≠ id bs ∧ k ≠ t)).
  { intros k ρ. rewrite Hstarts', elem_of_app, list_elem_of_singleton, Hin2.
    split; [intros [?|[= -> ->]]; auto|intros [[-> ->]|?]; auto]. }
  assert (Hkey' : ∀ k, k ∈ starts'.*1 ↔ k = id bs ∨ (k ∈ starts.*1 ∧ k ≠ t)).
  { intros k. rewrite list_elem_of_fmap. split.
    - intros [[k' ρ] [-> [[-> ->]|(Hin & ? & ?)]%Hin']]; [by left|].
      right. split; [|done]. apply list_elem_of_fmap. by exists (k', ρ).
    - intros [->|[[[k' ρ] [-> Hin]]%list_elem_of_fmap Hk]].
      + exists (id bs, r). split; [done|]. apply Hin'. by left.
      + destruct (decide (k' = id bs)) as [->|Hk'].
        * exists (id bs, r). split; [done|]. apply Hin'. by left.
        * exists (k', ρ). split; [done|]. apply Hin'. right. done. }
  (* the old dictionary of targets *)
  assert (Hint : ∀ t0 ρ0, (t0, ρ0) ∈ targets ↔ (t0, ρ0) ∈ runs_by_target st ∧ t0 ≠ t).
  { intros t0 ρ0. simpl. rewrite elem_of_app, list_elem_of_singleton. split.
    - intros Hin. split; [by left|]. intros ->. apply (Htk' t).
      + apply list_elem_of_fmap. by exists (t, ρ0).
      + left.
    - intros [[?|[= -> ->]] ?]; done. }
  assert (Hold : ∀ t0 ρ0 k0, (t0, ρ0) ∈ runs_by_target st → (k0, ρ0) ∈ starts →
            (k0 = id bs → t0 = t) ∧ (k0 = t → Some t0 = fall final)).
  { intros t0 ρ0 k0 Ht0 Hk0.
    destruct (proj1 (inv_targets st Hinv t0 ρ0) Ht0) as [_ Hf0]. split; intros ->.
    - assert (ρ0 = ρs) as -> by by eapply (od_key_unique starts).
      congruence.
    - assert (ρ0 = ρe) as -> by by eapply (od_key_unique starts).
      congruence. }
  assert (Hin'' : ∀ t0 ρ0, (t0, ρ0) ∈ targets' ↔
            (Some t0 = fall final ∧ ρ0 = r) ∨
            (Some t0 ≠ fall final ∧ (t0, ρ0) ∈ runs_by_target st ∧ t0 ≠ t)).
  { intros t0 ρ0. unfold targets'. destruct (fall final) as [t'|] eqn:Ef.
    - rewrite elem_of_od_set, Hint by done. split.
      + intros [[-> ->]|[? ?]]; [by left|right]. split; [congruence|done].
      + intros [[[= ->] ->]|[? ?]]; [by left|right]. split; [congruence|done].
    - rewrite Hint. split; [intros ?; right; done|intros [[? _]|[_ ?]]; done]. }
  constructor; simpl.
  - rewrite Hstarts', fmap_app. apply NoDup_app. repeat split; [done| |apply NoDup_singleton].
    intros k Hk ->%list_elem_of_singleton. done.
  - intros k ρ [[-> ->]|(Hin & _)]%Hin'.
    + exists bs, (tls ++ ρe.2). by rewrite Hr, Es.
    + by apply (inv_head st Hinv).
  - intros k ρ [[-> ->]|(Hin & _)]%Hin'.
    + rewrite Hr. apply linked_app.
      * by eapply (inv_linked st Hinv).
      * by eapply (inv_linked st Hinv).
      * intros b b' Hb Hb'. rewrite Ebl in Hb. injection Hb as <-.
        rewrite Ee in Hb'. simpl in Hb'. injection Hb' as <-. by rewrite Hbe.
    + by eapply (inv_linked st Hinv).
  - rewrite <- (inv_perm st Hinv). simpl.
    rewrite (blocks_of_perm starts ((id bs, ρs) :: (t, ρe) :: starts2)).
    + rewrite Hstarts', blocks_of_app, !blocks_of_cons. simpl.
      unfold blocks_of at 2. simpl. rewrite Hr, app_nil_r.
      rewrite (assoc (++) ρs.2). apply Permutation_app_comm.
    + rewrite (od_remove_perm starts (id bs) ρs) by done.
      apply Permutation_skip. apply od_remove_perm; [done|].
      apply elem_of_od_remove; done.
  - unfold targets'. destruct (fall final) as [t'|] eqn:Ef; [|done].
    rewrite od_set_keys; [done|].
    assert ((t', ρe) ∈ runs_by_target st) as Hte.
    { apply (inv_targets st Hinv). split; [eauto|]. by rewrite Hfe. }
    destruct (Hrank_f t' eq_refl) as [Ht' _].
    apply list_elem_of_fmap. exists (t', ρe). split; [done|]. by apply Hint.
  - intros t0 ρ0. rewrite Hin''. split.
    + intros [[Ht0 ->]|(Ht0 & Hin & Hne0)].
      * split; [exists (id bs); apply Hin'; by left|congruence].
      * destruct (proj1 (inv_targets st Hinv t0 ρ0) Hin) as [[k0 Hk0] Hf0].
        split; [|done]. exists k0. apply Hin'. right. split; [done|].
        destruct (Hold t0 ρ0 k0 Hin Hk0) as [H1 H2]. split; intros ->; auto.
    + intros [[k0 [[-> ->]|(Hk0 & Hk1 & Hk2)]%Hin'] Hf0].
      * left. split; [congruence|done].
      * right. assert ((t0, ρ0) ∈ runs_by_target st) as Hin.
        { apply (inv_targets st Hinv). eauto. }
        repeat split; [|done|].
        -- intros Heq. rewrite <- Hfe in Heq.
           assert ((t0, ρe) ∈ runs_by_target st) as Hin2'.
           { apply (inv_targets st Hinv). split; [eauto|done]. }
           assert (ρ0 = ρe) as -> by by eapply (od_key_unique (runs_by_target st)), Hin2'; [apply (inv_tkeys st Hinv)|].
           apply Hk2. by eapply (inv_run_key st).
        -- intros ->.
           assert (ρ0 = ρs) as -> by by eapply (od_key_unique (runs_by_target st)), Hts; [apply (inv_tkeys st Hinv)|].
           apply Hk1. by eapply (inv_run_key st).
  - intros t0 ρ0 [[Ht0 ->]|(Ht0 & Hin & Hne0)]%Hin''; apply Hkey'.
    + destruct (Hrank_f t0 (eq_sym Ht0)) as [? ?]. right. split; [|done].
      apply (inv_target_key st Hinv t0 ρe). apply (inv_targets st Hinv).
      split; [eauto|congruence].
    + right. split; [|done]. by apply (inv_target_key st Hinv t0 ρ0).
  - intros p t0 Hp Hfp [->|[Hk Hne0]]%Hkey'.
    + destruct (inv_key_target st Hinv p (id bs) Hp Hfp) as (ρp & Hρp & Hlp).
      { apply list_elem_of_fmap. by exists (id bs, ρs). }
      destruct (decide (Some (id bs) = fall final)) as [Heq|Hneq].
      * destruct (Hrank_f (id bs) (eq_sym Heq)) as [_ ?]. done.
      * exists ρp. split; [|done]. apply Hin''. right. done.
    + destruct (inv_key_target st Hinv p t0 Hp Hfp Hk) as (ρp & Hρp & Hlp).
      destruct (decide (Some t0 = fall final)) as [Heq|Hneq].
      * exists r. split; [apply Hin''; by left|].
        assert ((t0, ρe) ∈ runs_by_target st) as Hin2'.
        { apply (inv_targets st Hinv). split; [eauto|congruence]. }
        assert (ρp = ρe) as -> by by eapply (od_key_unique (runs_by_target st)), Hin2'; [apply (inv_tkeys st Hinv)|].
        rewrite Hr, last_app, Hfinal. congruence.
      * exists ρp. split; [|done]. apply Hin''. right. done.
Qed.

Lemma od_set_length {V} (d : list (Z * V)) k v :
  k ∈ d.*1 → length (od_set k v d) = length d.
Proof.
  intros Hk. rewrite <- (length_fmap fst (od_set k v d)), od_set_keys by done.
  by rewrite length_fmap.
Qed.

(** The runs that a round of the splicing loop finds. *)
Lemma splice_step_facts starts targets n t ρs :
  splice_inv (mk_runs starts (targets ++ [(t, ρs)]) n) →
  ∃ bs ρe final,
    head ρs.2 = Some bs ∧ (id bs, ρs) ∈ starts ∧ (t, ρe) ∈ starts ∧ t ≠ id bs ∧
    last ρe.2 = Some final ∧ final ∈ all ∧
    (∀ t', fall final = Some t' → (t', ρe) ∈ targets).
Proof.
  intros Hinv. set (st := mk_runs starts (targets ++ [(t, ρs)]) n) in *.
  assert (Hts : (t, ρs) ∈ runs_by_target st) by (simpl; apply elem_of_app; right; left).
  destruct (proj1 (inv_targets st Hinv t ρs) Hts) as [[ks Hks] Hfs].
  destruct (inv_head st Hinv ks ρs Hks) as (bs & tls & Es & <-).
  pose proof (inv_target_key st Hinv t ρs Hts) as Ht.
  apply list_elem_of_fmap in Ht as ([t0 ρe] & -> & Hρe). simpl in *.
  destruct (inv_head st Hinv t0 ρe Hρe) as (be & tle & Ee & Hbe).
  destruct (last ρe.2) as [final|] eqn:Hfinal; [|by rewrite Ee, last_cons in Hfinal;
    destruct (last tle)].
  destruct (last ρs.2) as [bl|] eqn:Ebl; [|by unfold fall_last in Hfs; rewrite Ebl in Hfs].
  assert (Hbl : fall bl = Some t0) by (unfold fall_last in Hfs; by rewrite Ebl in Hfs).
  assert (Hall_s : ∀ b, b ∈ ρs.2 → b ∈ all) by (intros b; by eapply (inv_in_all st)).
  assert (Hall_e : ∀ b, b ∈ ρe.2 → b ∈ all) by (intros b; by eapply (inv_in_all st)).
  assert (Hbl_all : bl ∈ all).
  { apply Hall_s. apply last_Some in Ebl as [l' ->]. apply elem_of_app. right. left. }
  assert (Hfinal_all : final ∈ all).
  { apply Hall_e. apply last_Some in Hfinal as [l' ->]. apply elem_of_app. right. left. }
  assert (Hrank_s : (rank (id bs) < rank t0)%nat).
  { pose proof (rank_linked ρs.2 bs bl Hall_s (inv_linked st Hinv _ _ Hks)
                  ltac:(by rewrite Es) Ebl).
    pose proof (rank_fall bl t0 Hbl_all Hbl). lia. }
  assert (Hrank_e : (rank t0 ≤ rank (id final))%nat).
  { rewrite <- Hbe. apply (rank_linked ρe.2); [done| |by rewrite Ee|done].
    by eapply (inv_linked st Hinv). }
  exists bs, ρe, final. repeat split; try done.
  - by rewrite Es.
  - intros ->. lia.
  - intros t' Ht'.
    assert ((t', ρe) ∈ runs_by_target st) as Hin.
    { apply (inv_targets st Hinv). split; [eauto|]. unfold fall_last. by rewrite Hfinal. }
    simpl in Hin. apply elem_of_app in Hin as [?|[= -> ->]%list_elem_of_singleton]; [done|].
    pose proof (rank_fall final t0 Hfinal_all Ht'). lia.
Qed.

(** The splicing loop comes to its end, with nothing left to splice. *)
Lemma splice_spec fuel st :
  splice_inv st → (length (runs_by_target st) < fuel)%nat →
  ∃ starts n, splice fuel st = Returns starts ∧ splice_inv (mk_runs starts [] n).
Proof.
  revert st. induction fuel as [|fuel IH]; intros [starts targets0 n] Hinv Hlen; [lia|].
  simpl in *. unfold od_popitem.
  destruct (list_pop targets0) as [[targets [t ρs]]|] eqn:Ep.
  - apply list_pop_Some in Ep as ->.
    destruct (splice_step_facts _ _ _ _ _ Hinv)
      as (bs & ρe & final & Hbs & Hρs & Hρe & Hne & Hfinal & Hfall & Hte).
    pose proof (inv_keys _ Hinv) as Hkeys. simpl in Hkeys.
    pose proof (inv_tkeys _ Hinv) as Htkeys. simpl in Htkeys.
    rewrite fmap_app in Htkeys. apply NoDup_app in Htkeys as (Htk & _ & _).
    replace (od_mem t starts) with true.
    2:{ symmetry. apply od_mem_true, list_elem_of_fmap. by exists (t, ρe). }
    simpl. rewrite Hbs.
    rewrite (od_pop_Some starts (id bs) ρs) by done.
    rewrite (od_pop_Some (od_remove (id bs) starts) t ρe).
    2:{ by apply od_remove_NoDup. }
    2:{ apply elem_of_od_remove; done. }
    rewrite last_app, Hfinal.
    pose proof (splice_step_inv starts targets n t ρs ρe bs final
                  (n, ρs.2 ++ ρe.2) Hinv Hbs Hρs Hρe eq_refl Hfinal) as Hinv'.
    rewrite length_app in Hlen. simpl in Hlen.
    destruct (plain_target final Hfall) as [[Hn Hf]|(t' & Hn & Hf)]; rewrite Hn.
    + rewrite Hf in Hinv'. apply IH; [done|simpl; lia].
    + rewrite Hf in Hinv'. specialize (Hte t' Hf).
      rewrite (od_get_Some targets t' ρe) by done.
      rewrite bool_decide_eq_true_2 by done. simpl.
      apply IH; [done|]. simpl. rewrite od_set_length; [lia|].
      apply list_elem_of_fmap. by exists (t', ρe).
  - apply list_pop_None in Ep as ->. eauto.
Qed.

(** *** The first loop *)

(** What holds of the two dictionaries when the blocks [cur] have been
    registered. *)
Record reg_inv (cur : list BasicBlock) (st : runs_state) : Prop := mk_reg_inv {
  reg_keys : (runs_by_start st).*1 = id <$> cur;
  reg_tkeys : (runs_by_target st).*1 = omap fall cur;
  reg_single : ∀ k ρ, (k, ρ) ∈ runs_by_start st → ∃ b, ρ.2 = [b] ∧ id b = k;
  reg_blocks : blocks_of (runs_by_start st) = cur;
  reg_targets : ∀ t ρ,
    (t, ρ) ∈ runs_by_target st ↔
    (∃ k, (k, ρ) ∈ runs_by_start st) ∧ fall_last ρ.2 = Some t;
  reg_key_target : ∀ p t,
    p ∈ cur → fall p = Some t → ∃ ρ, (t, ρ) ∈ runs_by_target st ∧ last ρ.2 = Some p
}.

Lemma reg_inv_empty : reg_inv [] (mk_runs [] [] 0).
Proof.
  constructor; simpl; try done.
  - by intros k ρ ?%elem_of_nil.
  - intros t ρ. split; [by intros ?%elem_of_nil|by intros [[k ?%elem_of_nil] _]].
  - by intros p t ?%elem_of_nil.
Qed.

Lemma register_spec cur b rest st :
  reg_inv cur st → cur ++ b :: rest = all →
  ∃ st', register b st = Returns st' ∧ reg_inv (cur ++ [b]) st'.
Proof.
  intros Hinv Hall. destruct st as [starts targets n]. unfold register. simpl.
  pose proof (reg_keys _ _ Hinv) as Hk. pose proof (reg_tkeys _ _ Hinv) as Htk.
  simpl in Hk, Htk.
  assert (Hb : b ∈ all) by (rewrite <- Hall; apply elem_of_app; right; left).
  assert (Hfresh : id b ∉ starts.*1).
  { rewrite Hk. pose proof ids_unique as Hnd.
    rewrite <- Hall, fmap_app, fmap_cons in Hnd.
    apply NoDup_app in Hnd as (_ & Hnd & _). intros Hin. apply (Hnd _ Hin). left. }
  rewrite (proj2 (od_mem_false starts (id b)) Hfresh).
  rewrite (od_set_new starts (id b)) by done.
  set (r := (n, [b]) : run).
  assert (Hin' : ∀ k ρ, (k, ρ) ∈ starts ++ [(id b, r)] ↔
            (k, ρ) ∈ starts ∨ (k = id b ∧ ρ = r)).
  { intros k ρ. rewrite elem_of_app, list_elem_of_singleton.
    split; (intros [?|?]; [by left|right]); [by simplify_eq|by destruct H as [-> ->]]. }
  assert (Hcommon :
    ∀ targets',
      targets'.*1 = omap fall (cur ++ [b]) →
      (∀ t ρ, (t, ρ) ∈ targets' ↔ (t, ρ) ∈ targets ∨ (fall b = Some t ∧ ρ = r)) →
      reg_inv (cur ++ [b]) (mk_runs (starts ++ [(id b, r)]) targets' (S n))).
  { intros targets' Hkeys' Hint. constructor; simpl.
    - by rewrite !fmap_app, Hk.
    - done.
    - intros k ρ [Hin|[-> ->]]%Hin'; [by apply (reg_single _ _ Hinv)|by exists b].
    - pose proof (reg_blocks _ _ Hinv) as Hbl. simpl in Hbl.
      rewrite blocks_of_app, Hbl. done.
    - intros t ρ. rewrite Hint. split.
      + intros [Hin|[Hf ->]].
        * apply (reg_targets _ _ Hinv) in Hin as [[k Hk'] Hf]. split; [|done].
          exists k. apply Hin'. by left.
        * split; [|done]. exists (id b). apply Hin'. by right.
      + intros [[k [Hin|[-> ->]]%Hin'] Hf].
        * left. apply (reg_targets _ _ Hinv). eauto.
        * by right.
    - intros p t [Hp| ->%list_elem_of_singleton]%elem_of_app Hf.
      + destruct (reg_key_target _ _ Hinv p t Hp Hf) as (ρ & Hρ & Hl).
        exists ρ. split; [|done]. apply Hint. by left.
      + exists r. split; [|done]. apply Hint. by right. }
  destruct (plain_target b Hb) as [[Hn Hf]|(t & Hn & Hf)]; rewrite Hn.
  - eexists. split; [done|]. apply Hcommon.
    + rewrite omap_app. simpl. rewrite Hf, app_nil_r. done.
    + intros t ρ. rewrite Hf. split; [by left|intros [?|[? _]]; done].
  - simpl.
    assert (Htfresh : t ∉ targets.*1).
    { rewrite Htk. pose proof targets_unique as Hnd.
      rewrite <- Hall, omap_app in Hnd. simpl in Hnd. rewrite Hf in Hnd.
      apply NoDup_app in Hnd as (_ & Hnd & _). intros Hin. apply (Hnd _ Hin). left. }
    rewrite (proj2 (od_mem_false targets t) Htfresh).
    rewrite (od_set_new targets t) by done.
    eexists. split; [done|]. apply Hcommon.
    + rewrite fmap_app, omap_app, Htk. simpl. by rewrite Hf.
    + intros t0 ρ. rewrite elem_of_app, list_elem_of_singleton, Hf.
      split; (intros [?|?]; [by left|right]); [by simplify_eq|].
      destruct H as [[= ->] ->]. done.
Qed.

Lemma register_all_spec rest cur st :
  reg_inv cur st → cur ++ rest = all →
  ∃ st', register_all rest st = Returns st' ∧ reg_inv all st'.
Proof.
  revert cur st. induction rest as [|b rest IH]; intros cur st Hinv Hall; simpl.
  - rewrite app_nil_r in Hall. subst. eauto.
  - destruct (register_spec cur b rest st Hinv Hall) as (st' & -> & Hinv'). simpl.
    apply (IH (cur ++ [b])); [done|]. by rewrite <- (assoc (++)).
Qed.

Lemma reg_inv_splice_inv st : reg_inv all st → splice_inv st.
Proof.
  intros Hinv. constructor.
  - rewrite (reg_keys _ _ Hinv). exact ids_unique.
  - intros k ρ Hin. destruct (reg_single _ _ Hinv k ρ Hin) as (b & -> & <-). eauto.
  - intros k ρ Hin. destruct (reg_single _ _ Hinv k ρ Hin) as (b & -> & _). done.
  - by rewrite (reg_blocks _ _ Hinv).
  - rewrite (reg_tkeys _ _ Hinv). exact targets_unique.
  - apply (reg_targets _ _ Hinv).
  - intros t ρ Hin. apply (reg_targets _ _ Hinv) in Hin as [[k Hk] Hf].
    destruct (reg_single _ _ Hinv k ρ Hk) as (b & Eb & <-).
    rewrite Eb in Hf. unfold fall_last in Hf. simpl in Hf.
    assert (Hb : b ∈ all).
    { rewrite <- (reg_blocks _ _ Hinv). eapply elem_of_blocks_of; [exact Hk|].
      rewrite Eb. left. }
    pose proof targets_resolve as Hres. rewrite Forall_forall in Hres.
    destruct (Hres b Hb t Hf) as [Ht _]. by rewrite (reg_keys _ _ Hinv).
  - intros p t Hp Hf _. by apply (reg_key_target _ _ Hinv).
Qed.

(** *** The order that comes out *)

Variable code_info : CodeInfo.
Variable fid entry : Z.
Variable blocks : list (Z * Block).

Hypothesis blocks_flatten : flatten_all blocks = Returns all.
Hypothesis entry_block : entry ∈ id <$> all.
Hypothesis entry_first : entry ∉ omap fall all.

(** When nothing is left to splice, every run is maximal. *)
Lemma final_runs_maximal starts n k ρ :
  splice_inv (mk_runs starts [] n) → (k, ρ) ∈ starts → maximal_run all ρ.2.
Proof.
  intros Hinv Hin. destruct (inv_head _ Hinv k ρ Hin) as (b & tl & E & Hb).
  exists b. repeat split.
  - by rewrite E.
  - by apply (inv_linked _ Hinv k).
  - destruct (fall_last ρ.2) as [t|] eqn:Ef; [|done].
    assert ((t, ρ) ∈ []) as Hc; [|by apply elem_of_nil in Hc].
    apply (inv_targets _ Hinv t ρ). eauto.
  - intros p Hp Hf.
    destruct (inv_key_target _ Hinv p (id b) Hp Hf) as (ρ' & Hc & _).
    + rewrite Hb. apply list_elem_of_fmap. by exists (k, ρ).
    + by apply elem_of_nil in Hc.
Qed.

(** The entry block starts a run. *)
Lemma entry_is_key st : splice_inv st → entry ∈ (runs_by_start st).*1.
Proof.
  intros Hinv. pose proof entry_block as He.
  apply list_elem_of_fmap in He as (be & -> & Hbe).
  rewrite <- (inv_perm _ Hinv) in Hbe.
  assert (∃ k ρ, (k, ρ) ∈ runs_by_start st ∧ be ∈ ρ.2) as (k & ρ & Hin & Hb).
  { clear Hinv. induction (runs_by_start st) as [|[k ρ] d IH].
    - by apply elem_of_nil in Hbe.
    - rewrite blocks_of_cons in Hbe. apply elem_of_app in Hbe as [Hb|Hb].
      + exists k, ρ. split; [left|done].
      + destruct (IH Hb) as (k' & ρ' & ? & ?). exists k', ρ'. split; [by right|done]. }
  destruct (inv_head _ Hinv k ρ Hin) as (b & tl & E & Hk).
  apply list_elem_of_split in Hb as (pre & post & Epre).
  destruct pre as [|x pre _] using rev_ind.
  - rewrite E in Epre. simpl in Epre. injection Epre as -> _.
    apply list_elem_of_fmap. exists (k, ρ). split; [by rewrite <- Hk|done].
  - pose proof (inv_linked _ Hinv k ρ Hin) as Hl.
    rewrite Epre, <- (assoc (++)) in Hl. simpl in Hl. apply linked_pred in Hl.
    destruct entry_first. apply list_elem_of_omap. exists x. split; [|done].
    eapply (inv_in_all st); [done|exact Hin|]. rewrite Epre.
    apply elem_of_app. left. apply elem_of_app. right. left.
Qed.

(** C7, as the code has it.  On a function block whose basic blocks have
    unique ids, fall through only to labels at offset 0 of blocks of the
    graph, no two to the same block and never in a cycle (the rank grows
    along every fallthrough), and whose entry block exists and is not fallen
    into, [as_basic_blocks] returns every basic block exactly once: first the
    run that starts with the entry block, then the other runs by ascending id
    of their first block; each of these runs is maximal. *)
Theorem as_basic_blocks_order :
  ∃ first rest,
    as_basic_blocks (Function code_info fid entry blocks)
      = Returns (first ++ concat rest) ∧
    first ++ concat rest ≡ₚ all ∧
    (∃ b, head first = Some b ∧ id b = entry) ∧
    Forall (maximal_run all) (first :: rest) ∧
    StronglySorted Z.lt (head_ids rest).
Proof.
  destruct (register_all_spec all [] (mk_runs [] [] 0) reg_inv_empty eq_refl)
    as (st0 & Hreg & Hinv0).
  apply reg_inv_splice_inv in Hinv0.
  destruct (splice_spec (S (length (runs_by_target st0))) st0 Hinv0 ltac:(lia))
    as (starts & n & Hsplice & Hinv).
  pose proof (entry_is_key _ Hinv) as He. simpl in He.
  apply list_elem_of_fmap in He as ([e ρ] & Ee & Hρ). simpl in Ee. subst e.
  pose proof (inv_keys _ Hinv) as Hnd. simpl in Hnd.
  destruct (extend_by_min_spec (length (od_remove entry starts))
              (od_remove entry starts) ρ.2) as (d' & Hp' & Hs' & Hr');
    [by apply od_remove_NoDup|done|].
  assert (Hsub : ∀ k ρ0, (k, ρ0) ∈ d' → (k, ρ0) ∈ starts).
  { intros k ρ0 Hin. rewrite Hp' in Hin. by apply elem_of_od_remove in Hin as [_ ?]. }
  exists ρ.2, ((λ kv, kv.2.2) <$> d'). split; [|split; [|split; [|split]]].
  - simpl. rewrite (first_loop_flatten blocks all _ blocks_flatten), Hreg. simpl.
    unfold splice_and_order. rewrite Hsplice. simpl.
    by rewrite (od_pop_Some starts entry ρ).
  - rewrite <- (inv_perm _ Hinv). simpl.
    rewrite (blocks_of_perm starts ((entry, ρ) :: d')); [done|].
    rewrite Hp'. by apply od_remove_perm.
  - destruct (inv_head _ Hinv entry ρ Hρ) as (b & tl & E & Hb).
    exists b. by rewrite E.
  - constructor; [by eapply final_runs_maximal|].
    apply Forall_fmap, Forall_forall. intros [k ρ0] Hin. simpl.
    eapply final_runs_maximal; [done|]. by apply Hsub.
  - rewrite head_ids_keys; [by apply sorted_keys|].
    intros k ρ0 Hin. apply (inv_head _ Hinv). by apply Hsub.
Qed.

End Linearize.

(** ** Laying out the instructions *)

(** [_to_bytes]: [bytearray.append] refuses what is not in [range(256)]. *)
Definition byte_ok (v : Z) : bool := (0 <=? v) && (v <? 256).

Fixpoint _to_bytes (raw : list raw_Instruction) : outcome (list Z) :=
  match raw with
  | [] => Returns []
  | i :: rest =>
      let a := match r_arg i with Some a => a | None => 0 end in
      if byte_ok (r_opcode i) && byte_ok a
      then out ← _to_bytes rest; Returns (r_opcode i :: a :: out)
      else Raises ValueError
  end.

(** [out.extend((a, b))] *)
Definition extend2 (out : list Z) (a b : Z) : outcome (list Z) :=
  if byte_ok a && byte_ok b then Returns (out ++ [a; b]) else Raises ValueError.

(** [while dl > 127: out.extend((0, 127 * ddl)); dl -= 127] *)
Fixpoint line_steps (fuel : nat) (dl ddl : Z) (out : list Z) : outcome (Z * list Z) :=
  if 127 <? dl then
    match fuel with
    | O => Loops
    | S fuel' => out' ← extend2 out 0 (127 * ddl); line_steps fuel' (dl - 127) ddl out'
    end
  else Returns (dl, out).

(** [while do > 0: out.extend((min(255, do), 0)); do -= 255] *)
Fixpoint offset_steps (fuel : nat) (do : Z) (out : list Z) : outcome (list Z) :=
  if 0 <? do then
    match fuel with
    | O => Loops
    | S fuel' => out' ← extend2 out (Z.min 255 do) 0; offset_steps fuel' (do - 255) out'
    end
  else Returns out.

Record linetab_state : Type := mk_linetab {
  lt_out : list Z;
  lt_lo : Z;
  lt_startline : option Z;
  lt_ll : option Z;
  lt_lll : option Z
}.

(** The body of the [for o, l in ...] loop of [_to_linetab]; arithmetic on
    [None] raises [TypeError]. *)
Definition linetab_step (o : Z) (l : option Z) (st : linetab_state)
    : outcome linetab_state :=
  match lt_startline st with
  | None =>
      match l with
      | None => Raises TypeError
      | Some l => Returns (mk_linetab (lt_out st) (lt_lo st) (Some (l - 1)) (Some l)
                             (Some (l - 1)))
      end
  | Some _ =>
      match lt_ll st, lt_lll st with
      | Some ll, Some lll =>
          let dl := ll - lll in
          let do := o - lt_lo st in
          let ddl := if dl <? 0 then -1 else 1 in
          let dl := Z.abs dl in
          '(dl, out) ← line_steps (Z.to_nat dl) dl ddl (lt_out st);
          out ← extend2 out (Z.min 255 do) ((dl * ddl) mod 256);
          let do := do - 255 in
          out ← offset_steps (Z.to_nat do) do out;
          Returns (mk_linetab out o (lt_startline st) l (Some ll))
      | _, _ => Raises TypeError
      end
  end.

Fixpoint linetab_loop (items : list (Z * option Z)) (st : linetab_state)
    : outcome linetab_state :=
  match items with
  | [] => Returns st
  | (o, l) :: rest => st' ← linetab_step o l st; linetab_loop rest st'
  end.

Definition by_offset (a b : Z * option Z) : Prop := a.1 ≤ b.1.

#[global] Instance by_offset_dec (a b : Z * option Z) : Decision (by_offset a b).
Proof. unfold by_offset. apply _. Defined.

(** [_to_linetab]; the dictionary [offsets] has one line for an offset, so
    sorting its items compares offsets only. *)
Definition _to_linetab (offsets : list (Z * option Z)) (end_ : Z)
    : outcome (option Z * list Z) :=
  st ← linetab_loop (merge_sort by_offset offsets ++ [(end_, None)])
         (mk_linetab [] 0 None None None);
  Returns (lt_startline st, lt_out st).

(** What [CodeInfo.build] makes: the code info with the three fields that
    [assemble] supplies. *)
Record Code : Type := mkCode {
  info : CodeInfo;
  co_code : list Z;
  co_firstlineno : option Z;
  co_lnotab : list Z
}.

Section Layout.

Variable dis : dis_tables.

(** [hash(frozenset(actual_targets.items()))], as a function of the
    dictionary. *)
Variable hash_items : gmap Z Z → Z.

Record instructions_state : Type := mk_instructions {
  gi_block_starts : gmap Z Z;
  gi_line_starts : gmap Z (option Z);
  gi_ins : list Instruction;
  gi_last_line : option Z;
  gi_to_fix : list Z
}.

(** The body of the first loop of [get_instructions]. *)
Definition add_block (b : BasicBlock) (st : instructions_state)
    : outcome instructions_state :=
  let n := Z.of_nat (length (gi_ins st)) in
  let block_starts := <[id b := n]> (gi_block_starts st) in
  let '(line_starts, last_line) :=
    if decide (line b = gi_last_line st) then (gi_line_starts st, gi_last_line st)
    else (<[n := line b]> (gi_line_starts st), line b) in
  let ins := gi_ins st ++ instructions b in
  match jump_instruction b with
  | None => Returns (mk_instructions block_starts line_starts ins last_line (gi_to_fix st))
  | Some ji =>
      if is_Label (arg ji)
      then Returns (mk_instructions block_starts line_starts (ins ++ [ji]) last_line
                      (gi_to_fix st ++ [Z.of_nat (length ins)]))
      else Raises AssertionError
  end.

Fixpoint add_blocks (bs : list BasicBlock) (st : instructions_state)
    : outcome instructions_state :=
  match bs with
  | [] => Returns st
  | b :: rest => st' ← add_block b st; add_blocks rest st'
  end.

(** The loop [for i in to_fix] of [get_instructions]. *)
Fixpoint fix_jumps (to_fix : list Z) (ins : list Instruction) (block_starts : gmap Z Z)
    (jumps : gmap Z Z) : outcome (gmap Z Z) :=
  match to_fix with
  | [] => Returns jumps
  | i :: rest =>
      match ins !! Z.to_nat i with
      | None => Raises IndexError
      | Some instr =>
          match arg instr with
          | VLabel target_id offset =>
              match block_starts !! target_id with
              | None => Raises KeyError
              | Some s => fix_jumps rest ins block_starts (<[i := s + offset]> jumps)
              end
          | _ => Raises AssertionError
          end
      end
  end.

Definition get_instructions (fb : Block)
    : outcome (gmap Z Z * gmap Z (option Z) * list Instruction) :=
  bbs ← as_basic_blocks fb;
  st ← add_blocks bbs (mk_instructions ∅ ∅ [] None []);
  jumps ← fix_jumps (gi_to_fix st) (gi_ins st) (gi_block_starts st) ∅;
  Returns (jumps, gi_line_starts st, gi_ins st).

(** [{o: o for o in jumps.values()}] *)
Definition initial_targets (jumps : gmap Z Z) : gmap Z Z :=
  list_to_map ((λ kv, (kv.2, kv.2)) <$> map_to_list jumps).

Record pass_state : Type := mk_pass {
  actual_targets : gmap Z Z;
  raw_ins : list raw_Instruction;
  line_offsets : list (Z * option Z)
}.

(** The body of the loop [for j, i in enumerate(ins)] of [assemble]. *)
Definition pass_step (code_info : CodeInfo) (jumps : gmap Z Z)
    (line_starts : gmap Z (option Z)) (j : Z) (i : Instruction) (st : pass_state)
    : outcome pass_state :=
  let n := Z.of_nat (length (raw_ins st)) in
  let targets :=
    match actual_targets st !! j with
    | Some _ => <[j := n]> (actual_targets st)
    | None => actual_targets st
    end in
  let offsets :=
    match line_starts !! j with
    | Some l => od_set (n * 2) l (line_offsets st)
    | None => line_offsets st
    end in
  let o := jumps !! j ≫= λ o, targets !! o in
  raws ← get_raw dis i code_info j o;
  Returns (mk_pass targets (raw_ins st ++ raws) offsets).

Fixpoint pass_loop (code_info : CodeInfo) (jumps : gmap Z Z)
    (line_starts : gmap Z (option Z)) (j : Z) (ins : list Instruction) (st : pass_state)
    : outcome pass_state :=
  match ins with
  | [] => Returns st
  | i :: rest =>
      st' ← pass_step code_info jumps line_starts j i st;
      pass_loop code_info jumps line_starts (j + 1) rest st'
  end.

(** One pass of the layout: the body of the [while] loop of [assemble], from
    the targets assumed to the targets recomputed. *)
Definition layout_pass (code_info : CodeInfo) (jumps : gmap Z Z)
    (line_starts : gmap Z (option Z)) (ins : list Instruction) (targets : gmap Z Z)
    : outcome pass_state :=
  pass_loop code_info jumps line_starts 0 ins (mk_pass targets [] []).

(** The test of the [while] loop. *)
Definition keeps_going (old_hash : option Z) (targets : gmap Z Z) : bool :=
  negb (bool_decide (old_hash = Some (hash_items targets))).

(** The [while] loop of [assemble]; it returns the state after the last pass,
    if there was one. *)
Fixpoint layout_loop (fuel : nat) (code_info : CodeInfo) (jumps : gmap Z Z)
    (line_starts : gmap Z (option Z)) (ins : list Instruction)
    (old_hash : option Z) (targets : gmap Z Z) (done : option pass_state)
    : outcome (option pass_state) :=
  match fuel with
  | O => Loops
  | S fuel' =>
      if keeps_going old_hash targets then
        st ← layout_pass code_info jumps line_starts ins targets;
        layout_loop fuel' code_info jumps line_starts ins
          (Some (hash_items targets)) (actual_targets st) (Some st)
      else Returns done
  end.

(** [FunctionBlock.assemble]; a [BasicBlock] has no such method. *)
Definition assemble (fuel : nat) (fb : Block) : outcome Code :=
  match fb with
  | Basic _ => Raises AttributeError
  | Function code_info _ _ _ =>
      '(jumps, line_starts, ins) ← get_instructions fb;
      done ← layout_loop fuel code_info jumps line_starts ins None
               (initial_targets jumps) None;
      match done with
      | None => Raises AssertionError
      | Some st =>
          '(startline, linetab) ←
            _to_linetab (line_offsets st) (Z.of_nat (length (raw_ins st)) * 2);
          code ← _to_bytes (raw_ins st);
          Returns (mkCode code_info code startline linetab)
      end
  end.

(** ** Disassembling *)

Record disassemble_state : Type := mk_disassemble {
  ds_block_id : Z;
  ds_blocks : list (Z * BasicBlock);
  ds_labels : gmap Z pyval;
  ds_current : option Z;
  ds_last : option Z;
  ds_line : option Z;
  ds_current_start : Z;
  ds_to_fix : list Z
}.

(** A change to the block object that [blocks] holds under [k]: [current] and
    [last] are references to blocks of the dictionary, followed here through
    their ids. *)
Definition change_block (k : Z) (f : BasicBlock → BasicBlock)
    (blocks : list (Z * BasicBlock)) : list (Z * BasicBlock) :=
  match od_get k blocks with
  | Some b => od_set k (f b) blocks
  | None => blocks
  end.

Definition set_next_target (t : option pyval) (b : BasicBlock) : BasicBlock :=
  mkBasicBlock (id b) (instructions b) (jump_instruction b) t (line b).

Definition append_instruction (i : Instruction) (b : BasicBlock) : BasicBlock :=
  mkBasicBlock (id b) (instructions b ++ [i]) (jump_instruction b) (next_target b) (line b).

Definition set_jump_instruction (i : option Instruction) (b : BasicBlock) : BasicBlock :=
  mkBasicBlock (id b) (instructions b) i (next_target b) (line b).

(** The body of the loop [for raw in dis.get_instructions(code)]. *)
Definition disassemble_step (raw : dis_Instruction) (st : disassemble_state)
    : outcome disassemble_state :=
  (* if raw.starts_line is not None *)
  st1 ← match d_starts_line raw with
        | None => Returns st
        | Some l =>
            match ds_current st with
            | None =>
                Returns (mk_disassemble (ds_block_id st) (ds_blocks st) (ds_labels st)
                           None (ds_last st) (Some l) (ds_current_start st) (ds_to_fix st))
            | Some c =>
                match ds_last st with
                | Some _ => Raises AssertionError
                | None =>
                    Returns (mk_disassemble (ds_block_id st) (ds_blocks st) (ds_labels st)
                               None (Some c) (Some l) (ds_current_start st) (ds_to_fix st))
                end
            end
        end;
  (* if current is None *)
  st2 ← match ds_current st1 with
        | Some _ => Returns st1
        | None =>
            let new := mkBasicBlock (ds_block_id st1) [] None None (ds_line st1) in
            blocks ← match ds_last st1 with
                     | None => Returns (ds_blocks st1)
                     | Some l =>
                         match od_get l (ds_blocks st1) with
                         | None => Raises KeyError
                         | Some lb =>
                             match next_target lb with
                             | Some _ => Raises AssertionError
                             | None =>
                                 Returns (change_block l
                                   (set_next_target (Some (VLabel (ds_block_id st1) 0)))
                                   (ds_blocks st1))
                             end
                         end
                     end;
            Returns (mk_disassemble (ds_block_id st1 + 1)
                       (od_set (ds_block_id st1) new blocks) (ds_labels st1)
                       (Some (ds_block_id st1)) None (ds_line st1) (d_offset raw)
                       (ds_to_fix st1))
        end;
  match ds_current st2 with
  | None => Raises AssertionError
  | Some c =>
      (* if raw.is_jump_target *)
      let labels :=
        if d_is_jump_target raw
        then <[d_offset raw := VLabel c ((d_offset raw - ds_current_start st2) `div` 2)]>
               (ds_labels st2)
        else ds_labels st2 in
      let ins := from_dis raw in
      let st3 :=
        if negb (is_jump dis ins)
        then mk_disassemble (ds_block_id st2)
               (change_block c (append_instruction ins) (ds_blocks st2)) labels
               (Some c) (ds_last st2) (ds_line st2) (ds_current_start st2) (ds_to_fix st2)
        else mk_disassemble (ds_block_id st2)
               (change_block c (set_jump_instruction (Some ins)) (ds_blocks st2)) labels
               None (Some c) (ds_line st2) (ds_current_start st2) (ds_to_fix st2 ++ [c]) in
      (* if ins.no_next *)
      Returns (if no_next dis ins
               then mk_disassemble (ds_block_id st3) (ds_blocks st3) (ds_labels st3)
                      None None (ds_line st3) (ds_current_start st3) (ds_to_fix st3)
               else st3)
  end.

Fixpoint disassemble_loop (raws : list dis_Instruction) (st : disassemble_state)
    : outcome disassemble_state :=
  match raws with
  | [] => Returns st
  | raw :: rest => st' ← disassemble_step raw st; disassemble_loop rest st'
  end.

(** [labels[ins.arg]]: the keys are offsets, which only an integer (or the
    boolean equal to it) can hit. *)
Definition label_of (labels : gmap Z pyval) (a : pyval) : outcome pyval :=
  match a with
  | VInt z => match labels !! z with Some l => Returns l | None => Raises KeyError end
  | VBool b =>
      match labels !! (if b then 1 else 0) with
      | Some l => Returns l
      | None => Raises KeyError
      end
  | _ => Raises KeyError
  end.

(** The loop [for ins in to_fix: ins.arg = labels[ins.arg]]; each jump
    instruction of [to_fix] is the [jump_instruction] of the block that was
    current, whose id stands for it. *)
Fixpoint fix_labels (to_fix : list Z) (labels : gmap Z pyval)
    (blocks : list (Z * BasicBlock)) : outcome (list (Z * BasicBlock)) :=
  match to_fix with
  | [] => Returns blocks
  | c :: rest =>
      match od_get c blocks with
      | None => Raises KeyError
      | Some b =>
          match jump_instruction b with
          | None => Raises AssertionError
          | Some ji =>
              l ← label_of labels (arg ji);
              fix_labels rest labels
                (od_set c (set_jump_instruction (Some (mkInstruction (opcode ji) l)) b)
                   blocks)
          end
      end
  end.

(** [disassemble], on the code info of the code object ([CodeInfo.from_code])
    and on the instructions that [dis.get_instructions] decodes from it. *)
Definition disassemble (code_info : CodeInfo) (raws : list dis_Instruction)
    : outcome Block :=
  st ← disassemble_loop raws (mk_disassemble 1 [] ∅ None None None 0 []);
  blocks ← fix_labels (ds_to_fix st) (ds_labels st) (ds_blocks st);
  Returns (Function code_info 0 1 ((λ kb, (kb.1, Basic kb.2)) <$> blocks)).

(** The bytes of the code that [dis.get_instructions] decoded: each unit is
    its opcode and the low byte of its decoded arg (the higher bytes come
    from the [EXTENDED_ARG] units before it). *)
Definition decoded_bytes (raws : list dis_Instruction) : list Z :=
  flat_map (λ r, [d_opcode r;
                   match d_arg r with Some a => Z.land a 255 | None => 0 end]) raws.

End Layout.

(** A hash of the items of a dictionary that has no collisions. *)
Definition ideal_hash (m : gmap Z Z) : Z := Z.pos (encode m).

Lemma ideal_hash_inj m1 m2 : ideal_hash m1 = ideal_hash m2 → m1 = m2.
Proof. unfold ideal_hash. intros [= Heq]. by apply (inj encode). Qed.

(** ** The tables of the code info *)

Lemma set_co_table_same name ci : set_co_table name (co_table name ci) ci = ci.
Proof. by destruct name, ci. Qed.

Lemma co_table_set name l ci : co_table name (set_co_table name l ci) = l.
Proof. by destruct name. Qed.

(** [make_sure] does the same for every table: a value that is [==] to an
    entry is not appended, and the index is that of the first such entry. *)
Lemma make_sure_present name value ci :
  py_in value (co_table name ci) = true →
  make_sure name value ci = (index (co_table name ci) value, ci).
Proof. unfold make_sure. intros ->. by rewrite set_co_table_same. Qed.

Lemma make_sure_absent name value ci :
  py_in value (co_table name ci) = false →
  make_sure name value ci
  = (index (co_table name ci ++ [value]) value,
     set_co_table name (co_table name ci ++ [value]) ci).
Proof. unfold make_sure. by intros ->. Qed.

(** C8. [make_sure('consts', True)] on a constants table that holds the
    integer [1]: no entry of the table has the type of [True], and yet nothing
    is appended and the index of [1] is returned: the constants table too is
    deduplicated by plain equality. *)
Theorem make_sure_consts_by_equality :
  let ci := mkCodeInfo 0 0 0 0 1 0 [VInt 1] [] [] "f.py" "f" [] [] in
  Forall (λ e, type_of e ≠ type_of (VBool true)) (co_consts ci) ∧
  make_sure consts (VBool true) ci = (Returns 0, ci).
Proof. split; [by repeat constructor|reflexivity]. Qed.

(** The lookup of [get_raw] does tell the kinds apart when it can. *)
Example strict_index_kinds :
  _strict_index [VInt 1; VBool true] (VBool true) = Returns 1 ∧
  _strict_index [VInt 1] (VBool true) = Returns 0.
Proof. split; reflexivity. Qed.

(** ** The length of an encoding *)

(** The number of code units that encode the operand [a]. *)
Definition nbytes (a : Z) : nat := S (Z.to_nat (Z.log2 a `div` 8)).
Arguments nbytes : simpl never.

Lemma split_arg_length fuel a vs :
  0 ≤ a → Z.log2 a ≤ Z.of_nat fuel →
  length (split_arg fuel a vs) = (length vs + nbytes a)%nat.
Proof.
  revert a vs. induction fuel as [|fuel IH]; intros a vs Ha Hfuel; simpl.
  - pose proof (Z.log2_nonneg a). unfold nbytes.
    replace (Z.log2 a) with 0 by lia. rewrite length_app.
    change (Z.to_nat (0 `div` 8)) with 0%nat. simpl. lia.
  - destruct (255 <? a) eqn:E.
    + apply Z.ltb_lt in E.
      assert (8 ≤ Z.log2 a) by (apply Z.log2_le_pow2; [lia|simpl; lia]).
      assert (Hlog : Z.log2 (a ≫ 8) = Z.log2 a - 8).
      { rewrite Z.log2_shiftr by lia. lia. }
      rewrite IH.
      * rewrite length_app. simpl. unfold nbytes. rewrite Hlog.
        replace (Z.log2 a - 8) with (Z.log2 a + (-1) * 8) by lia.
        rewrite Z_div_plus by lia.
        assert (1 ≤ Z.log2 a `div` 8) by (apply Z.div_le_lower_bound; lia).
        lia.
      * by apply Z.shiftr_nonneg.
      * lia.
    + apply Z.ltb_ge in E. rewrite length_app. simpl. unfold nbytes.
      assert (Z.log2 a < 8).
      { destruct (decide (a = 0)) as [->|]; [simpl; lia|].
        apply Z.log2_lt_pow2; [lia|simpl; lia]. }
      pose proof (Z.log2_nonneg a).
      rewrite Z.div_small by lia. simpl. lia.
Qed.

Lemma arg_bytes_length a : 0 ≤ a → length (arg_bytes a) = nbytes a.
Proof.
  intros Ha. unfold arg_bytes. rewrite length_rev, split_arg_length; [done|done|].
  pose proof (Z.log2_nonneg a). lia.
Qed.



(** ** Encoding an operand *)

Section Encoding.

Variable dis : dis_tables.

(** A jump that [get_raw] resolves relative to its own index: the opcode has
    an argument, is in [hasjrel] and in none of the tables tested before it,
    and the operand is a label. *)
Definition relative_label_jump (i : Instruction) : bool :=
  negb (opcode i <? HAVE_ARGUMENT dis)
  && negb (mem (opcode i) (hasname dis))
  && negb (mem (opcode i) (haslocal dis))
  && negb (mem (opcode i) (hasconst dis))
  && negb (mem (opcode i) (hascompare dis))
  && negb (mem (opcode i) (hasfree dis))
  && mem (opcode i) (hasjrel dis)
  && is_Label (arg i).

Lemma resolve_relative code_info i o j :
  relative_label_jump i = true →
  resolve_arg dis code_info i o (Some j) = Returns (j - o - 1).
Proof.
  unfold relative_label_jump, resolve_arg. intros Hr.
  repeat (apply andb_prop in Hr as [Hr ?]).
  repeat match goal with H : negb _ = true |- _ => apply negb_true_iff in H; rewrite ?H end.
  by repeat match goal with H : _ = true |- _ => rewrite H end.
Qed.

Lemma split_arg_nonempty fuel a vs : split_arg fuel a vs ≠ [].
Proof.
  revert a vs. induction fuel as [|fuel IH]; intros a vs; simpl.
  - by destruct vs.
  - destruct (255 <? a); [apply IH|by destruct vs].
Qed.

Lemma arg_bytes_pop a : ∃ prefixes v, list_pop (arg_bytes a) = Some (prefixes, v).
Proof.
  unfold arg_bytes, list_pop. rewrite rev_involutive.
  destruct (split_arg _ a []) as [|x r] eqn:E; [by apply split_arg_nonempty in E|].
  eauto.
Qed.

(** C10. Every operand index that [get_raw] resolves passes the assertion
    [arg_i >= 0] before it is encoded; so a relative jump to a label, whose
    index is [j - o - 1], raises [AssertionError] when the resolved target [j]
    is not greater than the index [o] of the jump, and is encoded when it
    is. *)
Theorem get_raw_forward_only code_info i o j :
  relative_label_jump i = true →
  (j ≤ o → get_raw dis i code_info o (Some j) = Raises AssertionError) ∧
  (o < j → ∃ raws, get_raw dis i code_info o (Some j) = Returns raws) ∧
  (∀ i' o' j' raws,
     HAVE_ARGUMENT dis ≤ opcode i' →
     get_raw dis i' code_info o' j' = Returns raws →
     ∃ arg_i, resolve_arg dis code_info i' o' j' = Returns arg_i ∧ 0 ≤ arg_i).
Proof.
  intros Hr. pose proof (resolve_relative code_info i o j Hr) as Hres.
  assert (Hop : (opcode i <? HAVE_ARGUMENT dis) = false).
  { unfold relative_label_jump in Hr. repeat (apply andb_prop in Hr as [Hr ?]).
    by apply negb_true_iff. }
  assert (Hname : has_opname (opcode i) = true).
  { apply (tables_has_opname dis). unfold relative_label_jump in Hr.
    apply andb_prop in Hr as [Hr _]. apply andb_prop in Hr as [_ ->].
    by rewrite !orb_true_r. }
  repeat split.
  - intros Hle. unfold get_raw. rewrite Hop, Hres. simpl.
    by rewrite (proj2 (Z.ltb_lt _ _)) by lia.
  - intros Hlt. unfold get_raw. rewrite Hop, Hres, Hname. simpl.
    rewrite (proj2 (Z.ltb_ge _ _)) by lia.
    destruct (arg_bytes_pop (j - o - 1)) as (ps & v & ->). eauto.
  - intros i' o' j' raws Hop' Hg. unfold get_raw in Hg.
    rewrite (proj2 (Z.ltb_ge _ _)) in Hg by lia.
    destruct (resolve_arg dis code_info i' o' j') as [a|e|]; simpl in Hg; try done.
    destruct (a <? 0) eqn:Ea; [done|]. apply Z.ltb_ge in Ea. eauto.
Qed.













End Encoding.

(** [JUMP_FORWARD] at index 5 to a label resolved to offset 3. *)
Lemma get_raw_forward_only_witness :
  let code_info := mkCodeInfo 0 0 0 0 1 0 [VNone] [] [] "f.py" "f" [] [] in
  let i := mkInstruction 110 (VLabel 1 0) in
  relative_label_jump cpython310 i = true ∧
  (3 ≤ 5 → get_raw cpython310 i code_info 5 (Some 3) = Raises AssertionError) ∧
  (5 < 3 → ∃ raws, get_raw cpython310 i code_info 5 (Some 3) = Returns raws) ∧
  (∀ i' o' j' raws,
     HAVE_ARGUMENT cpython310 ≤ opcode i' →
     get_raw cpython310 i' code_info o' j' = Returns raws →
     ∃ arg_i, resolve_arg cpython310 code_info i' o' j' = Returns arg_i ∧ 0 ≤ arg_i).
Proof.
  intros code_info i. split; [reflexivity|].
  apply (get_raw_forward_only cpython310 code_info i 5 3). reflexivity.
Defined.

(** ** The fixed point of the layout *)

Section Fixed_point.

Variable dis : dis_tables.
Variable hash_items : gmap Z Z → Z.
Variable code_info : CodeInfo.
Variable jumps : gmap Z Z.
Variable line_starts : gmap Z (option Z).






Lemma pass_step_inv j i st s :
  pass_step dis code_info jumps line_starts j i st = Returns s →
  let n := Z.of_nat (length (raw_ins st)) in
  let targets :=
    match actual_targets st !! j with
    | Some _ => <[j := n]> (actual_targets st)
    | None => actual_targets st
    end in
  ∃ raws,
    get_raw dis i code_info j (jumps !! j ≫= λ o, targets !! o) = Returns raws ∧
    actual_targets s = targets ∧
    raw_ins s = raw_ins st ++ raws.
Proof.
  unfold pass_step. intros Hs. simpl.
  destruct (get_raw dis i code_info j _) as [raws|e|] eqn:Eg; simpl in Hs; try done.
  injection Hs as <-. eauto.
Qed.




Lemma initial_targets_lookup k v : initial_targets jumps !! k = Some v → v = k.
Proof.
  unfold initial_targets. intros Hl. apply elem_of_list_to_map_2 in Hl.
  apply list_elem_of_fmap in Hl as ([a b] & [= -> ->] & _). done.
Qed.

(** *** A bound on the offsets *)










(** *** The sum of the offsets *)






(** *** The loop *)

Section Loop.

Variable ins : list Instruction.






Lemma keeps_going_same m : keeps_going hash_items (Some (hash_items m)) m = false.
Proof. unfold keeps_going. by rewrite bool_decide_eq_true_2. Qed.

Lemma keeps_going_differ m m' :
  keeps_going hash_items (Some (hash_items m)) m' = true → m' ≠ m.
Proof. intros Hk ->. by rewrite keeps_going_same in Hk. Qed.







End Loop.

End Fixed_point.

(** ** The round trip *)

(** The code [EXTENDED_ARG 1; BUILD_LIST 0; RETURN_VALUE], as
    [dis.get_instructions] decodes it: the [EXTENDED_ARG] unit is an
    instruction of its own, and [BUILD_LIST] has the whole argument 256. *)
Definition long_list_code : list dis_Instruction :=
  [mk_dis_Instruction 144 (Some 1) (VInt 1) 0 (Some 1) false;
   mk_dis_Instruction 103 (Some 256) (VInt 256) 2 None false;
   mk_dis_Instruction 83 None VNone 4 None false].

Definition long_list_info : CodeInfo :=
  mkCodeInfo 0 0 0 0 256 67 [VNone] [] [] "f.py" "f" [] [].

(** C2. Disassembling and reassembling that code gives other bytes: the
    disassembler keeps the [EXTENDED_ARG] unit as an instruction, and the
    assembler encodes the argument 256 of [BUILD_LIST] with a prefix of its
    own, so the prefix is there twice. *)
Theorem roundtrip_repeats_extended_arg :
  decoded_bytes long_list_code = [144; 1; 103; 0; 83; 0] ∧
  (fb ← disassemble cpython310 long_list_info long_list_code;
   code ← assemble cpython310 ideal_hash 3 fb;
   Returns (co_code code))
  = Returns [144; 1; 144; 1; 103; 0; 83; 0].
Proof. split; vm_compute; reflexivity. Qed.

(** Without [EXTENDED_ARG], here with a backward absolute jump and two lines,
    the bytes do come back. *)
Example roundtrip_small_loop :
  let raws :=
    [mk_dis_Instruction 100 (Some 0) VNone 0 (Some 1) true;
     mk_dis_Instruction 114 (Some 0) (VInt 0) 2 None false;
     mk_dis_Instruction 100 (Some 0) VNone 4 (Some 2) false;
     mk_dis_Instruction 83 None VNone 6 None false] in
  (fb ← disassemble cpython310 long_list_info raws;
   code ← assemble cpython310 ideal_hash 3 fb;
   Returns (co_code code))
  = Returns (decoded_bytes raws).
Proof. vm_compute. reflexivity. Qed.

(** A graph of four blocks: block 3, the entry, falls through to block 1, and
    block 2 to block 4. *)
Definition block_of (i : Z) (target : option Z) : BasicBlock :=
  mkBasicBlock i [mkInstruction 9 VNone] None
    (match target with Some t => Some (VLabel t 0) | None => None end) (Some 1).

Definition four_blocks : list BasicBlock :=
  [block_of 1 None; block_of 2 (Some 4); block_of 3 (Some 1); block_of 4 None].

Definition four_blocks_graph : Block :=
  Function long_list_info 0 3 ((λ b, (id b, Basic b)) <$> four_blocks).

Example four_blocks_order :
  as_basic_blocks four_blocks_graph
  = Returns [block_of 3 (Some 1); block_of 1 None; block_of 2 (Some 4); block_of 4 None].
Proof. vm_compute. reflexivity. Qed.

Lemma as_basic_blocks_order_witness :
  ∃ first rest,
    as_basic_blocks four_blocks_graph = Returns (first ++ concat rest) ∧
    first ++ concat rest ≡ₚ four_blocks ∧
    (∃ b, head first = Some b ∧ id b = 3) ∧
    Forall (maximal_run four_blocks) (first :: rest) ∧
    StronglySorted Z.lt (head_ids rest).
Proof.
  apply (as_basic_blocks_order four_blocks
           (λ i, if decide (i = 2 ∨ i = 3) then 0%nat else 1%nat)).
  - apply (bool_decide_unpack _). vm_compute. reflexivity.
  - apply (bool_decide_unpack _). vm_compute. reflexivity.
  - apply Forall_forall. intros b Hb.
    repeat (apply elem_of_cons in Hb as [->|Hb]); [..|by apply elem_of_nil in Hb];
      simpl; eauto.
  - apply Forall_forall. intros b Hb.
    repeat (apply elem_of_cons in Hb as [->|Hb]); [..|by apply elem_of_nil in Hb];
      intros t [= <-]; split;
      try (apply (bool_decide_unpack _); vm_compute; reflexivity); simpl; lia.
  - reflexivity.
  - apply (bool_decide_unpack _). vm_compute. reflexivity.
  - apply (bool_decide_unpack _). vm_compute. reflexivity.
Defined.

(** The fallthrough invariants of the blocks of a function: the ids of the
    blocks are unique, a block falls through to a label at offset 0 that names
    a block of the function, no two blocks fall through to the same block,
    and the entry is a block of the function. *)
Definition fallthrough_invariants (entry : Z) (all : list BasicBlock) : Prop :=
  NoDup (id <$> all) ∧
  NoDup (omap fall all) ∧
  Forall (λ b, next_target b = None ∨ ∃ t, next_target b = Some (VLabel t 0)) all ∧
  Forall (λ b, ∀ t, fall b = Some t → t ∈ id <$> all) all ∧
  entry ∈ id <$> all.

(** The function made of the basic blocks [all], entered at [entry]. *)
Definition graph_of (entry : Z) (all : list BasicBlock) : Block :=
  Function long_list_info 0 entry ((λ b, (id b, Basic b)) <$> all).

(** Block 1 falls through to the entry block 2. *)
Definition fallen_entry : list BasicBlock := [block_of 1 (Some 2); block_of 2 None].

(** Blocks 1 and 2 fall through to each other; the entry block 3 is apart. *)
Definition fall_cycle : list BasicBlock :=
  [block_of 1 (Some 2); block_of 2 (Some 1); block_of 3 None].

Example as_basic_blocks_KeyError :
  as_basic_blocks (graph_of 2 fallen_entry) = Raises KeyError ∧
  as_basic_blocks (graph_of 3 fall_cycle) = Raises KeyError ∧
  as_basic_blocks (graph_of 1 fallen_entry) = Returns fallen_entry.
Proof. vm_compute. done. Qed.

Lemma fallen_entry_invariants : fallthrough_invariants 2 fallen_entry.
Proof.
  split_and!; try (apply (bool_decide_unpack _); vm_compute; reflexivity).
  - apply Forall_forall. intros b Hb.
    repeat (apply elem_of_cons in Hb as [->|Hb]); [..|by apply elem_of_nil in Hb];
      simpl; eauto.
  - apply Forall_forall. intros b Hb.
    repeat (apply elem_of_cons in Hb as [->|Hb]); [..|by apply elem_of_nil in Hb];
      intros t [= <-]; apply (bool_decide_unpack _); vm_compute; reflexivity.
Qed.

Lemma fall_cycle_invariants : fallthrough_invariants 3 fall_cycle.
Proof.
  split_and!; try (apply (bool_decide_unpack _); vm_compute; reflexivity).
  - apply Forall_forall. intros b Hb.
    repeat (apply elem_of_cons in Hb as [->|Hb]); [..|by apply elem_of_nil in Hb];
      simpl; eauto.
  - apply Forall_forall. intros b Hb.
    repeat (apply elem_of_cons in Hb as [->|Hb]); [..|by apply elem_of_nil in Hb];
      intros t [= <-]; apply (bool_decide_unpack _); vm_compute; reflexivity.
Qed.

(** A counterexample to C7 as it is stated: two functions whose blocks keep
    the fallthrough invariants, on which [as_basic_blocks] returns no order
    of the blocks, but raises [KeyError].  In the first one a block falls
    through to the entry block, so that the run of the entry does not start
    with it, and [runs_by_start.pop(self.entry)] finds no run; in the second
    one two blocks fall through to each other, and the splicing loop pops
    their run twice. *)
Lemma as_basic_blocks_entry_inside_a_run :
  ¬ (fallthrough_invariants 2 fallen_entry →
     ∃ bs, as_basic_blocks (graph_of 2 fallen_entry) = Returns bs) ∧
  ¬ (fallthrough_invariants 3 fall_cycle →
     ∃ bs, as_basic_blocks (graph_of 3 fall_cycle) = Returns bs).
Proof.
  destruct as_basic_blocks_KeyError as (H1 & H2 & _). split.
  - intros Hc. destruct (Hc fallen_entry_invariants) as [bs Hbs]. congruence.
  - intros Hc. destruct (Hc fall_cycle_invariants) as [bs Hbs]. congruence.
Qed.


(** The loop on that input: the first pass leaves the targets as they are, and
    the test of the second round ends the loop. *)
Example layout_two_passes :
  let ins := [mkInstruction 113 (VLabel 2 0); mkInstruction 9 VNone;
              mkInstruction 83 VNone] in
  let jumps : gmap Z Z := {[0 := 2]} in
  layout_loop cpython310 ideal_hash 1 long_list_info jumps ∅ ins None
    (initial_targets jumps) None = Loops ∧
  (λ done : option pass_state, raw_ins <$> done) <$>
    layout_loop cpython310 ideal_hash 2 long_list_info jumps ∅ ins None
      (initial_targets jumps) None
  = Returns (Some [mk_raw 113 (Some 2); mk_raw 9 None; mk_raw 83 None]).
Proof. split; vm_compute; reflexivity. Qed.

(** A jump over 256 instructions: the first pass finds that the jump needs a
    prefix, which moves its target from 257 to 258; the second pass leaves the
    targets as they are. *)
Example layout_widening :
  let ins := mkInstruction 113 (VLabel 2 0) :: replicate 256 (mkInstruction 9 VNone)
             ++ [mkInstruction 83 VNone] in
  let jumps : gmap Z Z := {[0 := 257]} in
  layout_loop cpython310 ideal_hash 2 long_list_info jumps ∅ ins None
    (initial_targets jumps) None = Loops ∧
  (λ done : option pass_state,
     (λ st, (take 3 (raw_ins st), actual_targets st !! 257)) <$> done) <$>
    layout_loop cpython310 ideal_hash 3 long_list_info jumps ∅ ins None
      (initial_targets jumps) None
  = Returns (Some ([mk_raw 144 (Some 1); mk_raw 113 (Some 2); mk_raw 9 None],
                   Some 258)).
Proof. split; vm_compute; reflexivity. Qed.

(** ** Tables: insertion and lookup *)

Lemma py_eq_refl v : py_eq v v = true.
Proof.
  destruct v as [|b|z|s|t o]; simpl; try done.
  - by apply bool_decide_eq_true.
  - apply Z.eqb_refl.
  - by apply bool_decide_eq_true.
  - by rewrite !Z.eqb_refl.
Qed.

Lemma index_from_Some i v l k :
  index_from i v l = Some k →
  i ≤ k ∧
  (∃ e, l !! Z.to_nat (k - i) = Some e ∧ py_eq v e = true) ∧
  ∀ n e, (n < Z.to_nat (k - i))%nat → l !! n = Some e → py_eq v e = false.
Proof.
  revert i. induction l as [|e l IH]; intros i; simpl; [done|].
  destruct (py_eq v e) eqn:E.
  - intros [= <-]. rewrite Z.sub_diag. split; [lia|]. split; [by exists e|].
    intros n e' Hn. simpl in Hn. lia.
  - intros Hk. destruct (IH _ Hk) as (Hle & (e' & He' & Heq) & Hfirst).
    split; [lia|].
    replace (Z.to_nat (k - i)) with (S (Z.to_nat (k - (i + 1)))) by lia.
    split; [by exists e'|].
    intros [|n] e0 Hn; simpl; [by intros [= <-]|].
    apply Hfirst. lia.
Qed.

Lemma index_from_None i v l : index_from i v l = None ↔ py_in v l = false.
Proof.
  unfold py_in. revert i. induction l as [|e l IH]; intros i; simpl; [done|].
  destruct (py_eq v e); simpl; [done|]. apply IH.
Qed.

Lemma py_in_false v l : py_in v l = false ↔ Forall (λ e, py_eq v e = false) l.
Proof.
  unfold py_in. induction l as [|e l IH]; simpl; [by split; [constructor|]|].
  rewrite orb_false_iff, IH, Forall_cons. done.
Qed.

Lemma index_from_snoc i v l :
  py_in v l = false → index_from i v (l ++ [v]) = Some (i + Z.of_nat (length l)).
Proof.
  unfold py_in. revert i. induction l as [|e l IH]; intros i; simpl.
  - intros _. rewrite py_eq_refl. f_equal. lia.
  - intros [-> H]%orb_false_iff. rewrite IH by done. f_equal. lia.
Qed.

Lemma index_from_app_l i v l l' k :
  index_from i v l = Some k → index_from i v (l ++ l') = Some k.
Proof.
  revert i. induction l as [|e l IH]; intros i; simpl; [done|].
  destruct (py_eq v e); [done|]. apply IH.
Qed.

Lemma co_table_make_sure name value ci :
  co_table name (make_sure name value ci).2
    = co_table name ci ++ (if py_in value (co_table name ci) then [] else [value]).
Proof.
  unfold make_sure. simpl. rewrite co_table_set.
  destruct (py_in _ _); [by rewrite app_nil_r|done].
Qed.

Lemma py_in_make_sure name value ci :
  py_in value (co_table name (make_sure name value ci).2) = true.
Proof.
  rewrite co_table_make_sure. destruct (py_in value (co_table name ci)) eqn:E.
  - by rewrite app_nil_r.
  - unfold py_in in *. rewrite existsb_app, E. simpl. by rewrite py_eq_refl.
Qed.

Lemma index_py_in l v : py_in v l = true → ∃ k, index l v = Returns k ∧ 0 ≤ k.
Proof.
  intros Hin. unfold index. destruct (index_from 0 v l) as [k|] eqn:E.
  - exists k. split; [done|]. by apply index_from_Some in E as (? & _).
  - apply index_from_None in E. congruence.
Qed.

Lemma strict_from_ge i v l k : strict_from i v l = Some k → i ≤ k.
Proof.
  revert i. induction l as [|e l IH]; intros i; simpl; [done|].
  destruct (_ && _); [intros [= <-]; lia|]. intros H%IH. lia.
Qed.

Lemma strict_index_py_in l v :
  py_in v l = true → ∃ k, _strict_index l v = Returns k ∧ 0 ≤ k.
Proof.
  intros Hin. unfold _strict_index. destruct (strict_from 0 v l) as [k|] eqn:E.
  - exists k. split; [done|]. by apply strict_from_ge in E.
  - by apply index_py_in.
Qed.

(** X10. [make_sure] inserts and looks up: it never fails; the index [i]
    that it returns is that of the first entry of the table that is [==] to
    the value; the table is the old one, with the value appended if no entry
    was [==] to it, so every index handed out before still holds the same
    entry; the other tables are untouched; and a second call returns [i]
    again and changes nothing. *)
Theorem make_sure_inserts name value ci :
  let ci' := (make_sure name value ci).2 in
  ∃ i,
    (make_sure name value ci).1 = Returns i ∧ 0 ≤ i ∧
    (∃ e, co_table name ci' !! Z.to_nat i = Some e ∧ py_eq value e = true) ∧
    (∀ n e, (n < Z.to_nat i)%nat → co_table name ci' !! n = Some e →
            py_eq value e = false) ∧
    co_table name ci'
      = co_table name ci ++ (if py_in value (co_table name ci) then [] else [value]) ∧
    (∀ other, other ≠ name → co_table other ci' = co_table other ci) ∧
    make_sure name value ci' = (Returns i, ci').
Proof.
  intros ci'.
  assert (Htab : co_table name ci'
            = co_table name ci ++ (if py_in value (co_table name ci) then [] else [value])).
  { unfold ci', make_sure. simpl. rewrite co_table_set.
    destruct (py_in _ _); [by rewrite app_nil_r|done]. }
  assert (Hin : py_in value (co_table name ci') = true).
  { rewrite Htab. destruct (py_in value (co_table name ci)) eqn:E.
    - by rewrite app_nil_r.
    - unfold py_in in *. rewrite existsb_app, E. simpl. by rewrite py_eq_refl. }
  destruct (index_from 0 value (co_table name ci')) as [i|] eqn:Ei;
    [|apply index_from_None in Ei; congruence].
  assert (Hres : (make_sure name value ci).1 = Returns i).
  { unfold make_sure. simpl. unfold index.
    replace (if py_in value (co_table name ci) then co_table name ci
             else co_table name ci ++ [value]) with (co_table name ci').
    - by rewrite Ei.
    - rewrite Htab. destruct (py_in _ _); [by rewrite app_nil_r|done]. }
  exists i. destruct (index_from_Some _ _ _ _ Ei) as (Hle & He & Hfirst).
  rewrite Z.sub_0_r in He, Hfirst.
  repeat split; try done.
  - intros other Hne. unfold ci', make_sure. simpl.
    by destruct name, other.
  - rewrite make_sure_present by done. unfold index. by rewrite Ei.
Qed.

(** X11. [_strict_index] returns the index of an entry that is [==] to
    the value: the first entry that also has its type, if there is one, and
    otherwise the first entry that is [==] to it; it raises [ValueError] only
    when no entry is [==] to the value. *)
Theorem _strict_index_finds l v :
  match _strict_index l v with
  | Returns i =>
      0 ≤ i ∧
      ∃ e, l !! Z.to_nat i = Some e ∧ py_eq v e = true ∧
        ((type_of v = type_of e ∧
          ∀ n e', (n < Z.to_nat i)%nat → l !! n = Some e' →
                  py_eq v e' && bool_decide (type_of v = type_of e') = false) ∨
         (Forall (λ e', py_eq v e' && bool_decide (type_of v = type_of e') = false) l ∧
          ∀ n e', (n < Z.to_nat i)%nat → l !! n = Some e' → py_eq v e' = false))
  | Raises ex => ex = ValueError ∧ Forall (λ e, py_eq v e = false) l
  | Loops => False
  end.
Proof.
  assert (Hs : ∀ i k, strict_from i v l = Some k →
    i ≤ k ∧
    (∃ e, l !! Z.to_nat (k - i) = Some e ∧ py_eq v e = true ∧ type_of v = type_of e) ∧
    ∀ n e', (n < Z.to_nat (k - i))%nat → l !! n = Some e' →
            py_eq v e' && bool_decide (type_of v = type_of e') = false).
  { induction l as [|e l IH]; intros i k; simpl; [done|].
    destruct (py_eq v e && bool_decide (type_of v = type_of e)) eqn:E.
    - intros [= <-]. rewrite Z.sub_diag. split; [lia|].
      apply andb_prop in E as [E1 E2%bool_decide_eq_true]. split; [by exists e|].
      intros n e' Hn. simpl in Hn. lia.
    - intros Hk. destruct (IH _ _ Hk) as (Hle & (e' & He' & Heq & Hty) & Hfirst).
      split; [lia|].
      replace (Z.to_nat (k - i)) with (S (Z.to_nat (k - (i + 1)))) by lia.
      split; [by exists e'|].
      intros [|n] e0 Hn; simpl; [by intros [= <-]|].
      apply Hfirst. lia. }
  assert (Hn : ∀ i, strict_from i v l = None →
    Forall (λ e', py_eq v e' && bool_decide (type_of v = type_of e') = false) l).
  { clear Hs. induction l as [|e l IH]; intros i; simpl; [constructor|].
    destruct (py_eq v e && bool_decide (type_of v = type_of e)) eqn:E; [done|].
    intros H. constructor; [done|]. by eapply IH. }
  unfold _strict_index. destruct (strict_from 0 v l) as [k|] eqn:Ek.
  - destruct (Hs _ _ Ek) as (Hle & (e & He & Heq & Hty) & Hfirst).
    rewrite Z.sub_0_r in He, Hfirst. split; [done|]. exists e. repeat split; try done.
    by left.
  - unfold index. destruct (index_from 0 v l) as [k|] eqn:Ei.
    + destruct (index_from_Some _ _ _ _ Ei) as (Hle & (e & He & Heq) & Hfirst).
      rewrite Z.sub_0_r in He, Hfirst. split; [done|]. exists e. repeat split; try done.
      right. split; [by eapply Hn|done].
    + split; [done|]. by apply py_in_false, (index_from_None 0).
Qed.

(** ** The encoding of an operand *)

(** The number that a list of bytes writes in base 256, the first byte being
    the most significant. *)
Definition digits_value (ds : list Z) : Z := foldl (λ acc b, acc * 256 + b) 0 ds.

Lemma digits_value_snoc ds b : digits_value (ds ++ [b]) = digits_value ds * 256 + b.
Proof. unfold digits_value. by rewrite foldl_app. Qed.

Lemma split_arg_digits fuel a vs :
  0 ≤ a → Z.log2 a ≤ Z.of_nat fuel →
  ∃ ds,
    split_arg fuel a vs = vs ++ ds ∧
    Forall (λ b, 0 ≤ b < 256) ds ∧
    digits_value (rev ds) = a ∧
    (a ≤ 255 → ds = [a]) ∧
    (255 < a → ∃ b, last ds = Some b ∧ 0 < b).
Proof.
  revert a vs. induction fuel as [|fuel IH]; intros a vs Ha Hfuel.
  - assert (a ≤ 1).
    { destruct (decide (a ≤ 1)); [done|].
      assert (1 ≤ Z.log2 a) by (apply Z.log2_le_pow2; simpl; lia). lia. }
    exists [a]. simpl. split_and!; [done| |unfold digits_value; simpl; lia|done|lia].
    constructor; [lia|constructor].
  - simpl. destruct (255 <? a) eqn:E.
    + apply Z.ltb_lt in E.
      assert (8 ≤ Z.log2 a) by (apply Z.log2_le_pow2; [lia|simpl; lia]).
      assert (Hlog : Z.log2 (a ≫ 8) = Z.log2 a - 8).
      { rewrite Z.log2_shiftr by lia. lia. }
      assert (0 ≤ a ≫ 8) by (by apply Z.shiftr_nonneg).
      destruct (IH (a ≫ 8) (vs ++ [Z.land a 255])) as (ds & Hds & Hall & Hval & Hsmall & Hbig);
        [done|lia|].
      exists (Z.land a 255 :: ds). rewrite Hds, <- app_assoc. simpl.
      assert (Hland : Z.land a 255 = a `mod` 256).
      { change 255 with (Z.ones 8). by rewrite Z.land_ones. }
      assert (Hshift : a ≫ 8 = a `div` 256) by (by rewrite Z.shiftr_div_pow2).
      pose proof (Z.mod_pos_bound a 256 ltac:(lia)).
      split_and!; [done| | |lia|].
      * constructor; [lia|done].
      * rewrite digits_value_snoc, Hval, Hland, Hshift.
        pose proof (Z.div_mod a 256 ltac:(lia)). lia.
      * intros _. destruct (decide (a ≫ 8 ≤ 255)) as [Hle|Hgt].
        -- rewrite (Hsmall Hle). simpl. exists (a ≫ 8). split; [done|].
           rewrite Hshift. apply Z.div_str_pos. lia.
        -- destruct Hbig as (b & Hb & Hpos); [lia|]. exists b. split; [|done].
           destruct ds; [done|]. done.
    + apply Z.ltb_ge in E. exists [a].
      split_and!; [done| |unfold digits_value; simpl; lia|done|lia].
      constructor; [lia|constructor].
Qed.

Section Operands.

Variable dis : dis_tables.

Lemma get_raw_resolved i code_info o j a :
  HAVE_ARGUMENT dis ≤ opcode i →
  has_opname (opcode i) = true →
  resolve_arg dis code_info i o j = Returns a → 0 ≤ a →
  ∃ prefixes v,
    list_pop (arg_bytes a) = Some (prefixes, v) ∧
    get_raw dis i code_info o j
      = Returns (((λ b, mk_raw (EXTENDED_ARG dis) (Some b)) <$> prefixes)
                 ++ [mk_raw (opcode i) (Some v)]).
Proof.
  intros Hop Hname Hres Ha. unfold get_raw.
  rewrite (proj2 (Z.ltb_ge _ _) Hop), Hres, Hname. cbn -[arg_bytes list_pop].
  rewrite (proj2 (Z.ltb_ge _ _) Ha).
  destruct (arg_bytes_pop a) as (prefixes & v & Hpop). rewrite Hpop. eauto.
Qed.

(** X12. The units that [get_raw] emits for an operand write it in base
    256: for an opcode that takes an argument and a resolved operand
    [a >= 0], when the opcode has a name in [dis.opname], [get_raw] returns
    the bytes of [a], the most significant first and with no leading zero,
    every one of them in [range(256)]; all but the last are carried by
    [EXTENDED_ARG] units and the last by the opcode of the instruction.  When
    the opcode has no name there, [get_raw] raises [IndexError]. *)
Theorem get_raw_writes_base_256 i code_info o j a :
  HAVE_ARGUMENT dis ≤ opcode i →
  resolve_arg dis code_info i o j = Returns a →
  0 ≤ a →
  (has_opname (opcode i) = true →
   ∃ prefixes v,
     get_raw dis i code_info o j
       = Returns (((λ b, mk_raw (EXTENDED_ARG dis) (Some b)) <$> prefixes)
                  ++ [mk_raw (opcode i) (Some v)]) ∧
     Forall (λ b, 0 ≤ b < 256) (prefixes ++ [v]) ∧
     digits_value (prefixes ++ [v]) = a ∧
     (∀ b, head (prefixes ++ [v]) = Some b → b = 0 → a = 0) ∧
     length (prefixes ++ [v]) = nbytes a) ∧
  (has_opname (opcode i) = false →
   get_raw dis i code_info o j = Raises IndexError).
Proof.
  intros Hop Hres Ha. split.
  2:{ intros Hname. unfold get_raw.
      rewrite (proj2 (Z.ltb_ge _ _) Hop), Hres, Hname. cbn -[arg_bytes list_pop].
      rewrite (proj2 (Z.ltb_ge _ _) Ha).
      by destruct (list_pop (arg_bytes a)) as [[??]|]. }
  intros Hname.
  destruct (get_raw_resolved i code_info o j a Hop Hname Hres Ha)
    as (prefixes & v & Hpop & ->).
  destruct (split_arg_digits (Z.to_nat (Z.log2 a)) a [] Ha)
    as (ds & Hds & Hall & Hval & Hsmall & Hbig).
  { pose proof (Z.log2_nonneg a). lia. }
  simpl in Hds.
  apply list_pop_Some in Hpop. exists prefixes, v.
  assert (Hrev : prefixes ++ [v] = rev ds) by (by rewrite <- Hpop; unfold arg_bytes; rewrite Hds).
  rewrite Hrev. split_and!; [done|by apply Forall_rev|done| |].
  - intros b Hb ->. destruct (decide (a ≤ 255)) as [Hle|Hgt].
    + rewrite (Hsmall Hle) in Hb. simpl in Hb. by injection Hb.
    + destruct Hbig as (b & Hlast & Hpos); [lia|].
      rewrite <- (rev_involutive ds) in Hlast.
      destruct (rev ds) as [|x r]; [done|]. simpl in Hb, Hlast.
      rewrite last_snoc in Hlast. injection Hb as ->. injection Hlast as <-. lia.
  - rewrite <- Hrev, <- Hpop. by apply arg_bytes_length.
Qed.

(** The tables of the code info in which [get_raw] looks up the operand of an
    instruction, by its opcode. *)
Definition operand_tables (i : Instruction) : list table :=
  if mem (opcode i) (hasname dis) then [names]
  else if mem (opcode i) (haslocal dis) then [varnames]
  else if mem (opcode i) (hasconst dis) then [consts]
  else if mem (opcode i) (hascompare dis) then []
  else if mem (opcode i) (hasfree dis) then [cellvars; freevars]
  else [].

(** X13. [make_sure] is what [get_raw] needs: once the operand of an
    instruction has been put with [make_sure] into a table in which [get_raw]
    looks for it (the names, the local names, the constants, the cell or the
    free variables, by the opcode), [get_raw] finds it and returns the units
    of the instruction. *)
Theorem get_raw_after_make_sure i code_info t o j :
  HAVE_ARGUMENT dis ≤ opcode i →
  t ∈ operand_tables i →
  ∃ raws, get_raw dis i (make_sure t (arg i) code_info).2 o j = Returns raws.
Proof.
  intros Hop Ht.
  set (ci' := (make_sure t (arg i) code_info).2).
  assert (∃ a, resolve_arg dis ci' i o j = Returns a ∧ 0 ≤ a) as (a & Ha & Hpos).
  { pose proof (py_in_make_sure t (arg i) code_info) as Hin. fold ci' in Hin.
    unfold resolve_arg, operand_tables in *.
    destruct (mem (opcode i) (hasname dis)).
    { apply list_elem_of_singleton in Ht as ->. by apply index_py_in. }
    destruct (mem (opcode i) (haslocal dis)).
    { apply list_elem_of_singleton in Ht as ->. by apply index_py_in. }
    destruct (mem (opcode i) (hasconst dis)).
    { apply list_elem_of_singleton in Ht as ->. by apply strict_index_py_in. }
    destruct (mem (opcode i) (hascompare dis)); [by apply elem_of_nil in Ht|].
    destruct (mem (opcode i) (hasfree dis)); [|by apply elem_of_nil in Ht].
    unfold get_free_index.
    apply elem_of_cons in Ht as [->|Ht].
    - change (py_in (arg i) (co_cellvars ci') = true) in Hin.
      rewrite Hin. by apply index_py_in.
    - apply list_elem_of_singleton in Ht as ->.
      change (py_in (arg i) (co_freevars ci') = true) in Hin.
      destruct (py_in (arg i) (co_cellvars ci')) eqn:Hcell; [by apply index_py_in|].
      destruct (index_py_in _ _ Hin) as (k & -> & Hk). simpl.
      eexists. split; [done|]. lia. }
  assert (has_opname (opcode i) = true) as Hname.
  { apply (tables_has_opname dis). unfold operand_tables in Ht.
    destruct (mem (opcode i) (hasname dis)); [done|].
    destruct (mem (opcode i) (haslocal dis)); [done|].
    destruct (mem (opcode i) (hasconst dis)); [done|].
    destruct (mem (opcode i) (hascompare dis)); [done|].
    destruct (mem (opcode i) (hasfree dis)); [done|]. by apply elem_of_nil in Ht. }
  destruct (get_raw_resolved i ci' o j a Hop Hname Ha Hpos) as (ps & v & _ & ->).
  eauto.
Qed.

End Operands.

(** ** The layout at the fixed point *)

Section Consistency.

Variable dis : dis_tables.
Variable hash_items : gmap Z Z → Z.
Variable code_info : CodeInfo.
Variable jumps : gmap Z Z.
Variable line_starts : gmap Z (option Z).

(** The target offsets during a pass that started at the instruction [j0]
    with [base] units emitted and the targets [t0], and has emitted the units
    [raws] since: the keys below [upto] hold the positions of their
    instructions. *)
Definition placed (t0 : gmap Z Z) (j0 : Z) (base : nat)
    (raws : list (list raw_Instruction)) (upto : Z) (o : Z) : option Z :=
  match t0 !! o with
  | None => None
  | Some v =>
      if decide (j0 ≤ o < upto)
      then Some (Z.of_nat (base + length (concat (take (Z.to_nat (o - j0)) raws))))
      else Some v
  end.

Lemma placed_cons t0 j0 base r raws upto o :
  j0 < upto →
  placed (match t0 !! j0 with
          | Some _ => <[j0 := Z.of_nat base]> t0
          | None => t0
          end) (j0 + 1) (base + length r) raws upto o
  = placed t0 j0 base (r :: raws) upto o.
Proof.
  intros Hup. unfold placed. destruct (decide (o = j0)) as [->|Hne].
  - destruct (t0 !! j0) as [v|] eqn:E; [|by rewrite E].
    rewrite lookup_insert_eq. rewrite decide_False by lia. rewrite decide_True by lia.
    rewrite Z.sub_diag. simpl. do 2 f_equal. lia.
  - assert ((match t0 !! j0 with
             | Some _ => <[j0 := Z.of_nat base]> t0
             | None => t0
             end) !! o = t0 !! o) as ->.
    { destruct (t0 !! j0); [by rewrite lookup_insert_ne|done]. }
    destruct (t0 !! o) as [v|]; [|done].
    destruct (decide (j0 + 1 ≤ o < upto)) as [Hin|Hout].
    + rewrite decide_True by lia.
      replace (Z.to_nat (o - j0)) with (S (Z.to_nat (o - (j0 + 1)))) by lia.
      simpl. rewrite length_app. do 2 f_equal. lia.
    + by rewrite decide_False by lia.
Qed.

Lemma bind_ext (x : option Z) (f g : Z → option Z) :
  (∀ o, f o = g o) → x ≫= f = x ≫= g.
Proof. intros Hfg. destruct x; simpl; [apply Hfg|done]. Qed.

(** What a pass does, instruction by instruction. *)
Lemma pass_loop_trace ins j0 st sf :
  pass_loop dis code_info jumps line_starts j0 ins st = Returns sf →
  ∃ raws : list (list raw_Instruction),
    length raws = length ins ∧
    raw_ins sf = raw_ins st ++ concat raws ∧
    (∀ o, actual_targets sf !! o
          = placed (actual_targets st) j0 (length (raw_ins st)) raws
              (j0 + Z.of_nat (length ins)) o) ∧
    (∀ (k : nat) i r, ins !! k = Some i → raws !! k = Some r →
       get_raw dis i code_info (j0 + Z.of_nat k)
         (jumps !! (j0 + Z.of_nat k) ≫=
            placed (actual_targets st) j0 (length (raw_ins st)) raws
              (j0 + Z.of_nat k + 1))
       = Returns r).
Proof.
  revert j0 st. induction ins as [|i ins IH]; intros j0 st; simpl.
  - intros [= <-]. exists []. split_and!; [done|by rewrite app_nil_r| |done].
    intros o. unfold placed. destruct (_ !! o); [|done]. by rewrite decide_False by lia.
  - destruct (pass_step _ _ _ _ j0 i st) as [s1|e|] eqn:E1; simpl; try done.
    intros Hloop. apply pass_step_inv in E1 as (r1 & Hg1 & Ht1 & Hr1).
    destruct (IH _ _ Hloop) as (raws & Hlen & Hraw & Htargets & Hget).
    exists (r1 :: raws).
    rewrite Ht1, Hr1, length_app in Htargets, Hget.
    split_and!.
    + simpl. by rewrite Hlen.
    + rewrite Hraw, Hr1. simpl. by rewrite <- app_assoc.
    + intros o. rewrite Htargets.
      replace (j0 + 1 + Z.of_nat (length ins)) with (j0 + Z.of_nat (S (length ins))) by lia.
      apply placed_cons. lia.
    + intros [|k] i' r.
      * simpl. intros [= <-] [= <-]. rewrite Z.add_0_r, <- Hg1.
        f_equal. apply bind_ext. intros o. rewrite <- placed_cons by lia.
        unfold placed at 1.
        destruct (_ !! o) as [v|]; [|done]. by rewrite decide_False by lia.
      * simpl. intros Hi Hr. rewrite <- (Hget k i' r Hi Hr).
        replace (j0 + 1 + Z.of_nat k) with (j0 + Z.of_nat (S k)) by lia.
        f_equal. apply bind_ext. intros o. symmetry. apply placed_cons. lia.
Qed.

(** A pass that ends on the targets that it started from. *)
Lemma layout_pass_fixed ins m st :
  layout_pass dis code_info jumps line_starts ins m = Returns st →
  actual_targets st = m →
  ∃ raws : list (list raw_Instruction),
    length raws = length ins ∧
    raw_ins st = concat raws ∧
    (∀ (k : nat) i r, ins !! k = Some i → raws !! k = Some r →
       get_raw dis i code_info (Z.of_nat k) (jumps !! Z.of_nat k ≫= λ o, m !! o)
       = Returns r) ∧
    (∀ o v, m !! o = Some v → 0 ≤ o < Z.of_nat (length ins) →
       v = Z.of_nat (length (concat (take (Z.to_nat o) raws)))).
Proof.
  unfold layout_pass. intros Hpass Hfix.
  destruct (pass_loop_trace _ _ _ _ Hpass) as (raws & Hlen & Hraw & Htargets & Hget).
  simpl in *. rewrite Hfix in Htargets.
  assert (Hplaced : ∀ o v, m !! o = Some v → 0 ≤ o < Z.of_nat (length ins) →
            v = Z.of_nat (length (concat (take (Z.to_nat o) raws)))).
  { intros o v Ho Hin. pose proof (Htargets o) as Hto. unfold placed in Hto.
    rewrite Ho in Hto. rewrite decide_True in Hto by lia.
    rewrite Z.sub_0_r in Hto. simpl in Hto. by injection Hto. }
  exists raws. split_and!; [done|done| |done].
  intros k i r Hi Hr. rewrite <- (Hget k i r Hi Hr). simpl.
  f_equal. apply bind_ext. intros o. unfold placed.
  destruct (m !! o) as [v|] eqn:Ho; [|done].
  destruct (decide (0 ≤ o < 0 + Z.of_nat k + 1)) as [Hin|Hout]; [|done].
  apply lookup_lt_Some in Hi. rewrite Z.sub_0_r. simpl.
  f_equal. apply Hplaced; [done|lia].
Qed.

(** When the loop ends after a pass, that pass started from the targets that
    it ended on, for a hash that tells the dictionaries apart. *)
Lemma layout_loop_last_pass ins fuel old m prev st :
  (∀ m1 m2, hash_items m1 = hash_items m2 → m1 = m2) →
  (prev = None ∨
   ∃ sd m', prev = Some sd ∧ old = Some (hash_items m') ∧
     layout_pass dis code_info jumps line_starts ins m' = Returns sd ∧
     m = actual_targets sd) →
  layout_loop dis hash_items fuel code_info jumps line_starts ins old m prev
    = Returns (Some st) →
  layout_pass dis code_info jumps line_starts ins (actual_targets st) = Returns st.
Proof.
  intros Hinj. revert old m prev. induction fuel as [|fuel IH]; intros old m prev Hinv;
    [done|].
  cbn [layout_loop]. destruct (keeps_going hash_items old m) eqn:Hk.
  - destruct (layout_pass dis code_info jumps line_starts ins m) as [s|e|] eqn:Hp;
      simpl; try done.
    apply IH. right. by exists s, m.
  - intros [= ->]. destruct Hinv as [?|(sd & m' & [= <-] & -> & Hp & ->)]; [done|].
    unfold keeps_going in Hk. apply negb_false_iff, bool_decide_eq_true in Hk.
    injection Hk as Hk. apply Hinj in Hk. by rewrite <- Hk.
Qed.

(** X14. The layout that [assemble] settles on is consistent.  When the
    loop ends (for a hash that tells the dictionaries apart), the units of the
    last pass are those of the instructions, one after the other, each encoded
    by [get_raw] against the final target offsets; every target that is the
    index of an instruction holds the position, in units, of the first unit of
    that instruction; and one more pass from these targets would give the same
    units and targets again. *)
Theorem layout_is_consistent ins fuel st :
  (∀ m1 m2, hash_items m1 = hash_items m2 → m1 = m2) →
  layout_loop dis hash_items fuel code_info jumps line_starts ins None
    (initial_targets jumps) None = Returns (Some st) →
  layout_pass dis code_info jumps line_starts ins (actual_targets st) = Returns st ∧
  ∃ raws : list (list raw_Instruction),
    length raws = length ins ∧
    raw_ins st = concat raws ∧
    (∀ (k : nat) i r, ins !! k = Some i → raws !! k = Some r →
       get_raw dis i code_info (Z.of_nat k)
         (jumps !! Z.of_nat k ≫= λ o, actual_targets st !! o)
       = Returns r) ∧
    (∀ o v, actual_targets st !! o = Some v → 0 ≤ o < Z.of_nat (length ins) →
       v = Z.of_nat (length (concat (take (Z.to_nat o) raws)))).
Proof.
  intros Hinj Hloop.
  assert (Hp : layout_pass dis code_info jumps line_starts ins (actual_targets st)
               = Returns st).
  { eapply layout_loop_last_pass; [done| |exact Hloop]. by left. }
  split; [done|]. by apply layout_pass_fixed.
Qed.

End Consistency.

(** ** The bytes of the code *)

(** A unit that fits in two bytes. *)
Definition unit_fits (r : raw_Instruction) : bool :=
  byte_ok (r_opcode r) && byte_ok (default 0 (r_arg r)).

(** The two bytes of a unit: [i.opcode] and [i.arg or 0]. *)
Definition unit_bytes (r : raw_Instruction) : list Z := [r_opcode r; default 0 (r_arg r)].

Lemma _to_bytes_fits raw :
  _to_bytes raw = if forallb unit_fits raw then Returns (flat_map unit_bytes raw)
                  else Raises ValueError.
Proof.
  induction raw as [|r raw IH]; simpl; [done|].
  unfold unit_fits at 1. destruct (r_arg r) as [a|]; simpl;
    (destruct (byte_ok (r_opcode r) && _); simpl; [|done]);
    rewrite IH; by destruct (forallb unit_fits raw).
Qed.

Lemma byte_ok_range b : 0 ≤ b < 256 → byte_ok b = true.
Proof. intros Hb. unfold byte_ok. apply andb_true_intro. split; lia. Qed.

Lemma range_byte_ok b : byte_ok b = true → 0 ≤ b < 256.
Proof. unfold byte_ok. intros [?%Z.leb_le ?%Z.ltb_lt]%andb_prop. lia. Qed.

Section Code_bytes.

Variable dis : dis_tables.
Variable code_info : CodeInfo.
Variable jumps : gmap Z Z.
Variable line_starts : gmap Z (option Z).

Hypothesis EXTENDED_ARG_byte : byte_ok (EXTENDED_ARG dis) = true.

Lemma get_raw_fits i o j raws :
  byte_ok (opcode i) = true →
  get_raw dis i code_info o j = Returns raws →
  forallb unit_fits raws = true.
Proof.
  intros Hop. unfold get_raw. destruct (_ <? _) eqn:Eop.
  { destruct (has_opname _); [|done].
    intros [= <-]. simpl. unfold unit_fits. simpl. by rewrite Hop. }
  destruct (resolve_arg dis code_info i o j) as [a|e|] eqn:Hres; simpl; try done.
  destruct (a <? 0) eqn:Ea; [done|]. apply Z.ltb_ge in Ea.
  destruct (split_arg_digits (Z.to_nat (Z.log2 a)) a [] Ea) as (ds & Hds & Hall & _).
  { pose proof (Z.log2_nonneg a). lia. }
  simpl in Hds.
  destruct (list_pop (arg_bytes a)) as [[ps v]|] eqn:Hpop; [|done].
  destruct (has_opname _); [|done].
  intros [= <-]. apply list_pop_Some in Hpop.
  assert (Forall (λ b, 0 ≤ b < 256) (ps ++ [v])) as [Hps Hv]%Forall_app.
  { rewrite <- Hpop. unfold arg_bytes. rewrite Hds. by apply Forall_rev. }
  apply Forall_cons in Hv as [Hv _].
  rewrite forallb_app. apply andb_true_intro. split.
  - clear -Hps EXTENDED_ARG_byte. induction Hps as [|b ps Hb _ IH]; [done|].
    rewrite fmap_cons. cbn [forallb]. rewrite IH. unfold unit_fits. simpl.
    by rewrite EXTENDED_ARG_byte, byte_ok_range.
  - simpl. unfold unit_fits. simpl. rewrite Hop, byte_ok_range by done. done.
Qed.

Lemma pass_loop_fits ins j st sf :
  Forall (λ i, byte_ok (opcode i) = true) ins →
  forallb unit_fits (raw_ins st) = true →
  pass_loop dis code_info jumps line_starts j ins st = Returns sf →
  forallb unit_fits (raw_ins sf) = true.
Proof.
  intros Hins. revert j st. induction Hins as [|i ins Hi _ IH]; intros j st Hst; simpl.
  - by intros [= <-].
  - destruct (pass_step _ _ _ _ j i st) as [s1|e|] eqn:E1; simpl; try done.
    apply pass_step_inv in E1 as (r1 & Hg1 & _ & Hr1).
    apply IH. rewrite Hr1, forallb_app, Hst. simpl. by eapply get_raw_fits.
Qed.

(** X15. The units of a pass always fit the byte string: when the
    opcodes of the instructions and [EXTENDED_ARG] are in [range(256)],
    [_to_bytes] does not raise on the units that a layout pass has emitted; it
    returns two bytes for each unit, the opcode and the argument (or [0]), all
    of them in [range(256)]. *)
Theorem pass_code_is_bytes ins m st :
  Forall (λ i, byte_ok (opcode i) = true) ins →
  layout_pass dis code_info jumps line_starts ins m = Returns st →
  _to_bytes (raw_ins st) = Returns (flat_map unit_bytes (raw_ins st)) ∧
  length (flat_map unit_bytes (raw_ins st)) = (2 * length (raw_ins st))%nat ∧
  Forall (λ b, 0 ≤ b < 256) (flat_map unit_bytes (raw_ins st)).
Proof.
  intros Hins Hpass.
  assert (Hfit : forallb unit_fits (raw_ins st) = true).
  { unfold layout_pass in Hpass. by eapply pass_loop_fits in Hpass. }
  split_and!.
  - by rewrite _to_bytes_fits, Hfit.
  - clear. induction (raw_ins st) as [|r l IH]; simpl; [done|]. rewrite IH. lia.
  - rewrite forallb_forall in Hfit. apply Forall_forall. intros b Hb.
    apply list_elem_of_In, in_flat_map in Hb as (r & Hr & Hb).
    apply Hfit in Hr. unfold unit_fits in Hr. apply andb_prop in Hr as [H1 H2].
    unfold unit_bytes in Hb. simpl in Hb.
    destruct Hb as [<-|[<-|[]]]; by apply range_byte_ok.
Qed.

End Code_bytes.

(** ** The line table *)

(** The entries of a line table: pairs of an offset increment and a line
    increment, each written as a byte. *)
Definition pair_bytes (p : Z * Z) : list Z := [p.1; p.2].

Definition table_bytes (ps : list (Z * Z)) : list Z := flat_map pair_bytes ps.

(** The line increment that a byte stands for. *)
Definition signed (b : Z) : Z := if b <? 128 then b else b - 256.

Definition sum_list (l : list Z) : Z := foldr Z.add 0 l.

Lemma sum_list_app l1 l2 : sum_list (l1 ++ l2) = sum_list l1 + sum_list l2.
Proof. unfold sum_list. induction l1 as [|x l1 IH]; simpl; [done|]. rewrite IH. lia. Qed.

Lemma table_bytes_app ps qs : table_bytes (ps ++ qs) = table_bytes ps ++ table_bytes qs.
Proof. unfold table_bytes. apply flat_map_app. Qed.

Definition entry_ok (p : Z * Z) : Prop := 0 ≤ p.1 < 256 ∧ 0 ≤ p.2 < 256.

Lemma extend2_entry out a b :
  0 ≤ a < 256 → 0 ≤ b < 256 → extend2 out a b = Returns (out ++ table_bytes [(a, b)]).
Proof. intros Ha Hb. unfold extend2. by rewrite !byte_ok_range. Qed.

Lemma line_steps_up fuel dl out :
  0 ≤ dl → dl ≤ Z.of_nat fuel →
  ∃ k dl',
    line_steps fuel dl 1 out = Returns (dl', out ++ table_bytes (replicate k (0, 127))) ∧
    dl = dl' + 127 * Z.of_nat k ∧ 0 ≤ dl' ≤ 127.
Proof.
  revert dl out. induction fuel as [|fuel IH]; intros dl out Hdl Hfuel.
  - exists 0%nat, dl. cbn [line_steps].
    replace (127 <? dl) with false by (symmetry; apply Z.ltb_ge; lia).
    cbn [replicate table_bytes flat_map]. rewrite app_nil_r. split; [done|]. split; lia.
  - cbn [line_steps]. destruct (127 <? dl) eqn:E.
    + apply Z.ltb_lt in E. change (127 * 1) with 127.
      rewrite extend2_entry by lia. cbn [mbind outcome_bind].
      destruct (IH (dl - 127) (out ++ table_bytes [(0, 127)])) as (k & dl' & -> & Hk & Hdl');
        [lia|lia|].
      exists (S k), dl'. split; [|split; lia].
      do 2 f_equal. rewrite <- app_assoc. f_equal.
    + apply Z.ltb_ge in E. exists 0%nat, dl.
      cbn [replicate table_bytes flat_map]. rewrite app_nil_r. split; [done|]. split; lia.
Qed.

Lemma line_steps_small fuel dl ddl out :
  dl ≤ 127 → line_steps fuel dl ddl out = Returns (dl, out).
Proof.
  intros Hdl. destruct fuel; simpl;
    by replace (127 <? dl) with false by (symmetry; apply Z.ltb_ge; lia).
Qed.

Lemma offset_steps_sum fuel do out :
  do ≤ Z.of_nat fuel →
  ∃ ps,
    offset_steps fuel do out = Returns (out ++ table_bytes ps) ∧
    sum_list ps.*1 = Z.max do 0 ∧ Forall entry_ok ps ∧ Forall (λ p, p.2 = 0) ps.
Proof.
  revert do out. induction fuel as [|fuel IH]; intros do out Hfuel.
  - exists []. cbn [offset_steps].
    replace (0 <? do) with false by (symmetry; apply Z.ltb_ge; lia).
    cbn [table_bytes flat_map]. rewrite app_nil_r. split_and!; [done|simpl; lia|done|done].
  - cbn [offset_steps]. destruct (0 <? do) eqn:E.
    + apply Z.ltb_lt in E. rewrite extend2_entry by lia. cbn [mbind outcome_bind].
      destruct (IH (do - 255) (out ++ table_bytes [(255 `min` do, 0)]))
        as (ps & Hps & Hsum & Hok & Hz); [lia|].
      exists ((255 `min` do, 0) :: ps).
      rewrite Hps. split_and!.
      * f_equal. rewrite <- app_assoc. f_equal.
      * rewrite fmap_cons. unfold sum_list in *. simpl. rewrite Hsum. lia.
      * constructor; [|done]. unfold entry_ok. simpl. lia.
      * by constructor.
    + apply Z.ltb_ge in E. exists []. cbn [table_bytes flat_map]. rewrite app_nil_r.
      split_and!; [done|simpl; lia|done|done].
Qed.

(** The items that [_to_linetab] goes through after the first one: each
    offset is not before the one before it, each line is there and is not
    more than 127 lines above the next one. *)
Fixpoint items_ok (lo ll : Z) (items : list (Z * option Z)) (end_ : Z) : Prop :=
  match items with
  | [] => lo ≤ end_
  | (o, l) :: rest =>
      lo ≤ o ∧
      match l with
      | None => False
      | Some l => -127 ≤ l - ll ∧ items_ok o l rest end_
      end
  end.

Definition last_line (l1 : Z) (rest : list (Z * option Z)) : Z :=
  default l1 (last (omap snd rest)).

Lemma sum_signed_replicate k :
  sum_list (signed <$> (replicate k (0, 127)).*2) = 127 * Z.of_nat k.
Proof.
  induction k as [|k IH]; [done|]. rewrite Nat2Z.inj_succ.
  cbn [replicate fmap list_fmap]. unfold sum_list in *. cbn [foldr]. rewrite IH.
  change (signed (0, 127).2) with 127. lia.
Qed.

Lemma last_line_cons ll o l items :
  last_line ll ((o, Some l) :: items) = last_line l items.
Proof.
  unfold last_line. cbn [omap list_omap snd]. rewrite last_cons.
  by destruct (last (omap snd items)).
Qed.

(** One round of the loop of [_to_linetab], for an item after the first
    one. *)
Lemma linetab_step_entries o l out lo startline ll lll :
  lo ≤ o → -127 ≤ ll - lll →
  ∃ ps,
    linetab_step o l (mk_linetab out lo (Some startline) (Some ll) (Some lll))
      = Returns (mk_linetab (out ++ table_bytes ps) o (Some startline) l (Some ll)) ∧
    Forall entry_ok ps ∧
    sum_list ps.*1 = o - lo ∧
    sum_list (signed <$> ps.*2) = ll - lll.
Proof.
  intros Ho Hl. unfold linetab_step. cbn [lt_startline lt_ll lt_lll lt_out lt_lo].
  set (dl := ll - lll) in *.
  assert (∃ ps1 dl',
    line_steps (Z.to_nat (Z.abs dl)) (Z.abs dl) (if dl <? 0 then -1 else 1) out
      = Returns (dl', out ++ table_bytes ps1) ∧
    Forall entry_ok ps1 ∧ Forall (λ p, p.1 = 0) ps1 ∧
    0 ≤ dl' ≤ 127 ∧
    sum_list (signed <$> ps1.*2) + dl' * (if dl <? 0 then -1 else 1) = dl)
    as (ps1 & dl' & -> & Hok1 & Hz1 & Hdl' & Hsum1).
  { destruct (dl <? 0) eqn:E.
    - apply Z.ltb_lt in E. rewrite line_steps_small by lia.
      exists [], (Z.abs dl). cbn [table_bytes flat_map]. rewrite app_nil_r.
      split; [done|]. split; [done|]. split; [done|]. split; [lia|].
      unfold sum_list. simpl. lia.
    - apply Z.ltb_ge in E.
      destruct (line_steps_up (Z.to_nat (Z.abs dl)) (Z.abs dl) out) as (k & dl' & -> & Hk & Hdl');
        [lia|lia|].
      exists (replicate k (0, 127)), dl'.
      split; [done|]. split; [apply Forall_replicate; unfold entry_ok; simpl; lia|].
      split; [by apply Forall_replicate|]. split; [lia|].
      rewrite sum_signed_replicate. lia. }
  cbn [mbind outcome_bind].
  set (ddl := if dl <? 0 then -1 else 1) in *.
  set (b := (dl' * ddl) `mod` 256).
  assert (0 ≤ b < 256) as Hb by (apply Z.mod_pos_bound; lia).
  assert (signed b = dl' * ddl) as Hsb.
  { unfold signed, b, ddl. destruct (dl <? 0).
    - destruct (decide (dl' = 0)) as [->|]; [done|].
      replace (dl' * -1) with (256 - dl' + (-1) * 256) by lia.
      rewrite Z_mod_plus_full, Z.mod_small by lia.
      replace (256 - dl' <? 128) with false by (symmetry; apply Z.ltb_ge; lia). lia.
    - rewrite Z.mul_1_r, Z.mod_small by lia.
      replace (dl' <? 128) with true by (symmetry; apply Z.ltb_lt; lia). done. }
  rewrite extend2_entry by lia. cbn [mbind outcome_bind].
  destruct (offset_steps_sum (Z.to_nat (o - lo - 255)) (o - lo - 255)
              ((out ++ table_bytes ps1) ++ table_bytes [(255 `min` (o - lo), b)]))
    as (ps2 & -> & Hsum2 & Hok2 & Hz2); [lia|].
  cbn [mbind outcome_bind].
  exists (ps1 ++ (255 `min` (o - lo), b) :: ps2). split_and!.
  - do 2 f_equal. rewrite !table_bytes_app, <- !app_assoc. done.
  - apply Forall_app. split; [done|]. constructor; [|done].
    unfold entry_ok. simpl. lia.
  - rewrite fmap_app, sum_list_app, fmap_cons. simpl.
    assert (sum_list ps1.*1 = 0) as ->.
    { clear -Hz1. induction Hz1 as [|p ps Hp _ IH]; [done|].
      rewrite fmap_cons. unfold sum_list in *. simpl. rewrite IH, Hp. done. }
    unfold sum_list in *. simpl. rewrite Hsum2. lia.
  - rewrite !fmap_app, sum_list_app, !fmap_cons. simpl.
    assert (sum_list (signed <$> ps2.*2) = 0) as Hs2.
    { clear -Hz2. induction Hz2 as [|p ps Hp _ IH]; [done|].
      rewrite !fmap_cons. unfold sum_list in *. simpl. rewrite IH, Hp. done. }
    unfold sum_list in *. simpl. rewrite Hs2, Hsb. lia.
Qed.

Lemma linetab_loop_entries items end_ :
  ∀ out lo startline ll lll,
    -127 ≤ ll - lll →
    items_ok lo ll items end_ →
    ∃ ps,
      (λ st, (lt_startline st, lt_out st)) <$>
        linetab_loop (items ++ [(end_, None)])
          (mk_linetab out lo (Some startline) (Some ll) (Some lll))
        = Returns (Some startline, out ++ table_bytes ps) ∧
      Forall entry_ok ps ∧
      sum_list ps.*1 = end_ - lo ∧
      sum_list (signed <$> ps.*2) = last_line ll items - lll.
Proof.
  induction items as [|[o l] items IH]; intros out lo startline ll lll Hl Hok.
  - simpl in Hok.
    destruct (linetab_step_entries end_ None out lo startline ll lll Hok Hl)
      as (ps & Hstep & Hall & Hs1 & Hs2).
    exists ps. cbn [app linetab_loop]. rewrite Hstep. simpl. by split_and!.
  - simpl in Hok. destruct Hok as [Ho Hok]. destruct l as [l|]; [|done].
    destruct Hok as [Hl' Hok].
    destruct (linetab_step_entries o (Some l) out lo startline ll lll Ho Hl)
      as (ps & Hstep & Hall & Hs1 & Hs2).
    destruct (IH (out ++ table_bytes ps) o startline l ll Hl' Hok)
      as (qs & Hloop & Hallq & Hq1 & Hq2).
    exists (ps ++ qs). cbn [app linetab_loop]. rewrite Hstep. cbn [mbind outcome_bind].
    rewrite Hloop, table_bytes_app, <- app_assoc. split_and!; [done| | |].
    + by apply Forall_app.
    + rewrite fmap_app, sum_list_app. lia.
    + rewrite !fmap_app, sum_list_app, Hs2, Hq2, last_line_cons. lia.
Qed.

(** X16. The line table covers the code.  When the offsets of the line
    starts are not negative and not past the end of the code, and no line is
    more than 127 lines above the line that follows it, [_to_linetab] returns
    the line before the first one as the start line, and a table of entries
    (offset increment, line increment), every byte in [range(256)], whose
    offset increments add up to the length of the code and whose line
    increments add up from the start line to the last line. *)
Theorem _to_linetab_covers offsets end_ o1 l1 rest :
  merge_sort by_offset offsets = (o1, Some l1) :: rest →
  items_ok 0 l1 rest end_ →
  ∃ ps,
    _to_linetab offsets end_ = Returns (Some (l1 - 1), table_bytes ps) ∧
    Forall entry_ok ps ∧
    sum_list ps.*1 = end_ ∧
    sum_list (signed <$> ps.*2) = last_line l1 rest - (l1 - 1).
Proof.
  intros Hsort Hok. unfold _to_linetab. rewrite Hsort.
  destruct (linetab_loop_entries rest end_ [] 0 (l1 - 1) l1 (l1 - 1) ltac:(lia) Hok)
    as (ps & Hloop & Hall & Hs1 & Hs2).
  exists ps.
  change (linetab_loop (((o1, Some l1) :: rest) ++ [(end_, None)])
            (mk_linetab [] 0 None None None))
    with (linetab_loop (rest ++ [(end_, None)])
            (mk_linetab [] 0 (Some (l1 - 1)) (Some l1) (Some (l1 - 1)))).
  destruct (linetab_loop _ _) as [st|e|]; simpl in Hloop |- *; try done.
  injection Hloop as H1 H2. rewrite H1, H2. split_and!; [done|done|lia|done].
Qed.

(** ** What [as_basic_blocks] refuses *)

(** A fallthrough that the first loop of [as_basic_blocks] accepts: none, or
    a label at offset 0. *)
Definition plain (b : BasicBlock) : Prop :=
  next_target b = None ∨ ∃ t, next_target b = Some (VLabel t 0).

Lemma register_Returns b st st' :
  register b st = Returns st' →
  (id b ∉ (runs_by_start st).*1) ∧
  (runs_by_start st').*1 = (runs_by_start st).*1 ++ [id b] ∧
  plain b ∧
  (∀ t, fall b = Some t → t ∉ (runs_by_target st).*1) ∧
  (runs_by_target st').*1 = (runs_by_target st).*1 ++ omap fall [b].
Proof.
  unfold register, plain. destruct (od_mem (id b) (runs_by_start st)) eqn:Ei; [done|].
  apply od_mem_false in Ei. rewrite (od_set_new _ _ _ Ei).
  unfold fall. simpl. destruct (next_target b) as [[| | | |t o]|]; try done.
  - destruct (o =? 0) eqn:Eo; [|done]. apply Z.eqb_eq in Eo as ->. simpl.
    destruct (od_mem t (runs_by_target st)) eqn:Et; [done|].
    apply od_mem_false in Et. intros [= <-]. simpl.
    rewrite (od_set_new _ _ _ Et), !fmap_app.
    split_and!; [done|done|right; by exists t| |done].
    by intros ? [= <-].
  - intros [= <-]. simpl. rewrite app_nil_r, fmap_app.
    split_and!; [done|done|by left|done|done].
Qed.

Lemma register_Raises b st e : register b st = Raises e → e = AssertionError.
Proof.
  unfold register. destruct (od_mem _ _); [by intros [= <-]|].
  destruct (next_target b) as [[| | | |t o]|]; try by intros [= <-].
  destruct (negb _); [by intros [= <-]|]. destruct (od_mem _ _); [by intros [= <-]|done].
Qed.

Lemma register_not_Loops b st : register b st ≠ Loops.
Proof.
  unfold register. destruct (od_mem _ _); [done|].
  destruct (next_target b) as [[| | | |t o]|]; try done.
  destruct (negb _); [done|]. by destruct (od_mem _ _).
Qed.

Lemma register_all_outcome bbs st :
  (∃ st', register_all bbs st = Returns st') ∨ register_all bbs st = Raises AssertionError.
Proof.
  revert st. induction bbs as [|b bbs IH]; intros st; simpl; [eauto|].
  destruct (register b st) as [st1|e|] eqn:E; simpl.
  - apply IH.
  - right. by apply register_Raises in E as ->.
  - by apply register_not_Loops in E.
Qed.

Lemma register_all_Returns bbs st st' :
  register_all bbs st = Returns st' →
  NoDup (runs_by_start st).*1 → NoDup (runs_by_target st).*1 →
  NoDup ((runs_by_start st).*1 ++ (id <$> bbs)) ∧
  NoDup ((runs_by_target st).*1 ++ omap fall bbs) ∧
  Forall plain bbs.
Proof.
  revert st. induction bbs as [|b bbs IH]; intros st; simpl.
  - intros _ H1 H2. by rewrite !app_nil_r.
  - destruct (register b st) as [st1|e|] eqn:E; simpl; try done.
    apply register_Returns in E as (Hfresh & Hk & Hplain & Htfresh & Htk).
    intros Hreg H1 H2.
    destruct (IH st1 Hreg) as (Hn1 & Hn2 & Hall).
    + rewrite Hk. apply NoDup_app. split_and!; [done| |apply NoDup_singleton].
      by intros x Hx ->%list_elem_of_singleton.
    + rewrite Htk. simpl. destruct (fall b) as [t|] eqn:Ef; [|by rewrite app_nil_r].
      apply NoDup_app. split_and!; [done| |apply NoDup_singleton].
      intros x Hx Hx'%list_elem_of_singleton. subst x. by apply (Htfresh t).
    + rewrite Hk, <- app_assoc in Hn1. rewrite Htk, <- app_assoc in Hn2.
      split_and!; [done| |by constructor].
      simpl in Hn2. simpl. by destruct (fall b).
Qed.

(** X17. What the first loop of [as_basic_blocks] asserts: when two basic
    blocks of a function have the same id, or fall through to the same block,
    or one of them falls through to something that is not a label at offset
    0, [as_basic_blocks] raises [AssertionError]. *)
Theorem as_basic_blocks_asserts code_info fid entry blocks all :
  flatten_all blocks = Returns all →
  ¬ (NoDup (id <$> all) ∧ NoDup (omap fall all) ∧ Forall plain all) →
  as_basic_blocks (Function code_info fid entry blocks) = Raises AssertionError.
Proof.
  intros Hflat Hbad. simpl. rewrite (first_loop_flatten blocks all _ Hflat).
  destruct (register_all_outcome all (mk_runs [] [] 0)) as [[st' Hreg]| ->]; [|done].
  destruct Hbad. apply register_all_Returns in Hreg; [done|constructor..].
Qed.

(** X18. The entry of a function must be the first block of a run: on a
    function whose blocks pass these assertions and fall through to blocks
    of the function without a cycle, [as_basic_blocks] raises [KeyError] when
    no block has the id [entry], and also when some block falls through to
    the entry block. *)
Theorem as_basic_blocks_needs_its_entry code_info fid entry blocks all (rank : Z → nat) :
  flatten_all blocks = Returns all →
  NoDup (id <$> all) →
  NoDup (omap fall all) →
  Forall plain all →
  Forall (λ b, ∀ t, fall b = Some t → t ∈ id <$> all ∧ (rank (id b) < rank t)%nat) all →
  entry ∉ id <$> all ∨ entry ∈ omap fall all →
  as_basic_blocks (Function code_info fid entry blocks) = Raises KeyError.
Proof.
  intros Hflat Hids Htargets Hplain Hres Hentry.
  destruct (register_all_spec all rank Hids Htargets Hplain Hres all [] (mk_runs [] [] 0)
              (reg_inv_empty) eq_refl) as (st0 & Hreg & Hinv0).
  apply (reg_inv_splice_inv all rank Hids Htargets Hres) in Hinv0.
  destruct (splice_spec all rank Hplain Hres (S (length (runs_by_target st0))) st0 Hinv0
              ltac:(lia)) as (starts & n & Hsplice & Hinv).
  simpl. rewrite (first_loop_flatten blocks all _ Hflat), Hreg. simpl.
  unfold splice_and_order. rewrite Hsplice. simpl.
  unfold od_pop. destruct (od_get entry starts) as [ρ|] eqn:Eg; [|done].
  apply od_get_elem in Eg.
  destruct (inv_head _ _ Hinv entry ρ Eg) as (b & tl & Eρ & Hb).
  destruct Hentry as [Hno|Hfallen].
  - destruct Hno. apply list_elem_of_fmap. exists b. split; [done|].
    eapply (inv_in_all all); [exact Hinv|exact Eg|]. rewrite Eρ. left.
  - apply list_elem_of_omap in Hfallen as (p & Hp & Hf).
    destruct (final_runs_maximal all starts n entry ρ Hinv Eg) as (h & Hh & _ & _ & Hnone).
    rewrite Eρ in Hh. injection Hh as <-. destruct (Hnone p Hp). by rewrite Hb.
Qed.

(** ** The properties above on concrete code *)

(** [BUILD_LIST 65793]: the operand is [0x010101], three bytes. *)
Lemma get_raw_writes_base_256_witness :
  let i := mkInstruction 103 (VInt 65793) in
  HAVE_ARGUMENT cpython310 ≤ opcode i ∧
  resolve_arg cpython310 long_list_info i 0 None = Returns 65793 ∧
  0 ≤ 65793 ∧
  has_opname (opcode i) = true ∧
  ∃ prefixes v,
    get_raw cpython310 i long_list_info 0 None
      = Returns (((λ b, mk_raw 144 (Some b)) <$> prefixes) ++ [mk_raw 103 (Some v)]) ∧
    Forall (λ b, 0 ≤ b < 256) (prefixes ++ [v]) ∧
    digits_value (prefixes ++ [v]) = 65793 ∧
    (∀ b, head (prefixes ++ [v]) = Some b → b = 0 → 65793 = 0) ∧
    length (prefixes ++ [v]) = nbytes 65793.
Proof.
  intros i.
  assert (H1 : HAVE_ARGUMENT cpython310 ≤ opcode i) by (simpl; lia).
  assert (H2 : resolve_arg cpython310 long_list_info i 0 None = Returns 65793)
    by reflexivity.
  assert (H3 : 0 ≤ 65793) by lia.
  split; [exact H1|]. split; [exact H2|]. split; [exact H3|]. split; [reflexivity|].
  exact (proj1 (get_raw_writes_base_256 cpython310 i long_list_info 0 None 65793 H1 H2 H3)
           eq_refl).
Defined.

(** [LOAD_CONST True] after [make_sure('consts', True)], on a constants table
    that holds [1]. *)
Lemma get_raw_after_make_sure_witness :
  let i := mkInstruction 100 (VBool true) in
  let ci := mkCodeInfo 0 0 0 0 1 0 [VInt 1] [] [] "f.py" "f" [] [] in
  HAVE_ARGUMENT cpython310 ≤ opcode i ∧
  consts ∈ operand_tables cpython310 i ∧
  ∃ raws, get_raw cpython310 i (make_sure consts (arg i) ci).2 0 None = Returns raws.
Proof.
  intros i ci.
  assert (H1 : HAVE_ARGUMENT cpython310 ≤ opcode i) by (simpl; lia).
  assert (H2 : consts ∈ operand_tables cpython310 i) by (vm_compute; left).
  split; [exact H1|]. split; [exact H2|].
  exact (get_raw_after_make_sure cpython310 i ci consts 0 None H1 H2).
Defined.

(** The jump of [layout_fixed_point_witness], laid out. *)
Lemma layout_is_consistent_witness :
  let ins := [mkInstruction 113 (VLabel 2 0); mkInstruction 9 VNone;
              mkInstruction 83 VNone] in
  let jumps : gmap Z Z := {[0 := 2]} in
  (∀ m1 m2, ideal_hash m1 = ideal_hash m2 → m1 = m2) ∧
  ∃ st,
    layout_loop cpython310 ideal_hash 2 long_list_info jumps ∅ ins None
      (initial_targets jumps) None = Returns (Some st) ∧
    layout_pass cpython310 long_list_info jumps ∅ ins (actual_targets st) = Returns st ∧
    ∃ raws : list (list raw_Instruction),
      length raws = length ins ∧
      raw_ins st = concat raws ∧
      (∀ (k : nat) i r, ins !! k = Some i → raws !! k = Some r →
         get_raw cpython310 i long_list_info (Z.of_nat k)
           (jumps !! Z.of_nat k ≫= λ o, actual_targets st !! o)
         = Returns r) ∧
      (∀ o v, actual_targets st !! o = Some v → 0 ≤ o < Z.of_nat (length ins) →
         v = Z.of_nat (length (concat (take (Z.to_nat o) raws)))).
Proof.
  intros ins jumps. split; [exact ideal_hash_inj|].
  set (r := layout_loop cpython310 ideal_hash 2 long_list_info jumps ∅ ins None
              (initial_targets jumps) None).
  set (st := match r with Returns (Some st) => st | _ => mk_pass ∅ [] [] end).
  assert (Hr : r = Returns (Some st)) by (vm_compute; reflexivity).
  exists st. split; [exact Hr|].
  exact (layout_is_consistent cpython310 ideal_hash long_list_info jumps ∅ ins 2 st
           ideal_hash_inj Hr).
Defined.

Lemma pass_code_is_bytes_witness :
  let ins := [mkInstruction 113 (VLabel 2 0); mkInstruction 9 VNone;
              mkInstruction 83 VNone] in
  let jumps : gmap Z Z := {[0 := 2]} in
  byte_ok (EXTENDED_ARG cpython310) = true ∧
  Forall (λ i, byte_ok (opcode i) = true) ins ∧
  ∃ st,
    layout_pass cpython310 long_list_info jumps ∅ ins (initial_targets jumps) = Returns st ∧
    _to_bytes (raw_ins st) = Returns [113; 2; 9; 0; 83; 0] ∧
    _to_bytes (raw_ins st) = Returns (flat_map unit_bytes (raw_ins st)) ∧
    length (flat_map unit_bytes (raw_ins st)) = (2 * length (raw_ins st))%nat ∧
    Forall (λ b, 0 ≤ b < 256) (flat_map unit_bytes (raw_ins st)).
Proof.
  intros ins jumps.
  assert (H1 : byte_ok (EXTENDED_ARG cpython310) = true) by reflexivity.
  assert (H2 : Forall (λ i, byte_ok (opcode i) = true) ins) by (by repeat constructor).
  split; [exact H1|]. split; [exact H2|].
  set (r := layout_pass cpython310 long_list_info jumps ∅ ins (initial_targets jumps)).
  set (st := match r with Returns st => st | _ => mk_pass ∅ [] [] end).
  assert (Hr : r = Returns st) by (vm_compute; reflexivity).
  exists st. split; [exact Hr|]. split; [vm_compute; reflexivity|].
  exact (pass_code_is_bytes cpython310 long_list_info jumps ∅ H1 ins
           (initial_targets jumps) st H2 Hr).
Defined.

(** Three line starts in ten bytes of code: lines 10, 12 and 11. *)
Lemma _to_linetab_covers_witness :
  let offsets := [(4, Some 12); (0, Some 10); (6, Some 11)] in
  merge_sort by_offset offsets = (0, Some 10) :: [(4, Some 12); (6, Some 11)] ∧
  items_ok 0 10 [(4, Some 12); (6, Some 11)] 10 ∧
  _to_linetab offsets 10 = Returns (Some 9, [4; 1; 2; 2; 4; 255]) ∧
  ∃ ps,
    _to_linetab offsets 10 = Returns (Some (10 - 1), table_bytes ps) ∧
    Forall entry_ok ps ∧
    sum_list ps.*1 = 10 ∧
    sum_list (signed <$> ps.*2) = last_line 10 [(4, Some 12); (6, Some 11)] - (10 - 1).
Proof.
  intros offsets.
  assert (H1 : merge_sort by_offset offsets = (0, Some 10) :: [(4, Some 12); (6, Some 11)])
    by (vm_compute; reflexivity).
  assert (H2 : items_ok 0 10 [(4, Some 12); (6, Some 11)] 10) by (simpl; lia).
  split; [exact H1|]. split; [exact H2|]. split; [vm_compute; reflexivity|].
  exact (_to_linetab_covers offsets 10 0 10 [(4, Some 12); (6, Some 11)] H1 H2).
Defined.

(** Two blocks with the id 1. *)
Lemma as_basic_blocks_asserts_witness :
  let blocks := [(1, Basic (block_of 1 None)); (2, Basic (block_of 1 None))] in
  let all := [block_of 1 None; block_of 1 None] in
  flatten_all blocks = Returns all ∧
  ¬ (NoDup (id <$> all) ∧ NoDup (omap fall all) ∧ Forall plain all) ∧
  as_basic_blocks (Function long_list_info 0 1 blocks) = Raises AssertionError.
Proof.
  intros blocks all.
  assert (H1 : flatten_all blocks = Returns all) by reflexivity.
  assert (H2 : ¬ (NoDup (id <$> all) ∧ NoDup (omap fall all) ∧ Forall plain all)).
  { intros [Hnd _]. simpl in Hnd. apply NoDup_cons in Hnd as [Hnd _].
    apply Hnd. left. }
  split; [exact H1|]. split; [exact H2|].
  exact (as_basic_blocks_asserts long_list_info 0 1 blocks all H1 H2).
Defined.

(** The graph [four_blocks] entered at block 4, which block 2 falls through
    to. *)
Lemma as_basic_blocks_needs_its_entry_witness :
  let blocks := (λ b, (id b, Basic b)) <$> four_blocks in
  (4 ∉ id <$> four_blocks ∨ 4 ∈ omap fall four_blocks) ∧
  as_basic_blocks (Function long_list_info 0 4 blocks) = Raises KeyError.
Proof.
  intros blocks.
  assert (H : 4 ∉ id <$> four_blocks ∨ 4 ∈ omap fall four_blocks).
  { right. apply (bool_decide_unpack _). vm_compute. reflexivity. }
  split; [exact H|].
  apply (as_basic_blocks_needs_its_entry long_list_info 0 4 blocks four_blocks
           (λ i, if decide (i = 2 ∨ i = 3) then 0%nat else 1%nat)).
  - reflexivity.
  - apply (bool_decide_unpack _). vm_compute. reflexivity.
  - apply (bool_decide_unpack _). vm_compute. reflexivity.
  - apply Forall_forall. intros b Hb. unfold plain.
    repeat (apply elem_of_cons in Hb as [->|Hb]); [..|by apply elem_of_nil in Hb];
      simpl; eauto.
  - apply Forall_forall. intros b Hb.
    repeat (apply elem_of_cons in Hb as [->|Hb]); [..|by apply elem_of_nil in Hb];
      intros t [= <-]; split;
      try (apply (bool_decide_unpack _); vm_compute; reflexivity); simpl; lia.
  - exact H.
Defined.

(** ** The layout of the blocks *)

(** ** The instructions of the blocks, in a row *)

(** The instructions that a block brings: its instructions, and then its jump
    instruction if it has one. *)
Definition block_code (b : BasicBlock) : list Instruction :=
  instructions b ++ option_list (jump_instruction b).

Definition code_of (bs : list BasicBlock) : list Instruction := flat_map block_code bs.

(** The index, in [code_of bs], of the first instruction of the block at
    position [k]. *)
Definition start_at (bs : list BasicBlock) (k : nat) : nat := length (code_of (take k bs)).

Lemma code_of_app bs1 bs2 : code_of (bs1 ++ bs2) = code_of bs1 ++ code_of bs2.
Proof. apply flat_map_app. Qed.

Lemma code_of_snoc bs b : code_of (bs ++ [b]) = code_of bs ++ block_code b.
Proof. rewrite code_of_app. simpl. by rewrite app_nil_r. Qed.

Lemma start_at_snoc bs b k : (k ≤ length bs)%nat → start_at (bs ++ [b]) k = start_at bs k.
Proof. intros Hk. unfold start_at. by rewrite take_app_le. Qed.

(** The state of [get_instructions] after the blocks [seen]: the
    instructions are their code, every block seen starts where
    [block_starts] says, and [to_fix] lists the places of their jump
    instructions. *)
Record blocks_added (seen : list BasicBlock) (st : instructions_state) : Prop := {
  added_ins : gi_ins st = code_of seen;
  added_starts : ∀ k b, seen !! k = Some b →
    gi_block_starts st !! id b = Some (Z.of_nat (start_at seen k));
  added_keys : ∀ t s, gi_block_starts st !! t = Some s → t ∈ id <$> seen;
  added_to_fix : ∀ i, i ∈ gi_to_fix st ↔
    ∃ k b, seen !! k = Some b ∧ is_Some (jump_instruction b) ∧
           i = Z.of_nat (start_at seen k + length (instructions b))
}.

Lemma blocks_added_empty : blocks_added [] (mk_instructions ∅ ∅ [] None []).
Proof.
  constructor; simpl; try done.
  intros i. split; [by intros ?%elem_of_nil|by intros (k & b & ? & _)].
Qed.

Lemma add_block_Returns b st :
  (∀ ji, jump_instruction b = Some ji → is_Label (arg ji) = true) →
  ∃ ls ll,
    add_block b st
    = Returns (mk_instructions
                 (<[id b := Z.of_nat (length (gi_ins st))]> (gi_block_starts st)) ls
                 (gi_ins st ++ block_code b) ll
                 (gi_to_fix st ++
                    match jump_instruction b with
                    | Some _ => [Z.of_nat (length (gi_ins st ++ instructions b))]
                    | None => []
                    end)).
Proof.
  intros Hjump. unfold add_block, block_code.
  destruct (decide (line b = gi_last_line st));
    (destruct (jump_instruction b) as [ji|] eqn:Ej;
     [rewrite (Hjump ji eq_refl)|]; simpl; rewrite ?app_nil_r, ?app_assoc; eauto).
Qed.

Lemma add_block_added seen b st :
  blocks_added seen st →
  id b ∉ id <$> seen →
  (∀ ji, jump_instruction b = Some ji → is_Label (arg ji) = true) →
  ∃ st', add_block b st = Returns st' ∧ blocks_added (seen ++ [b]) st'.
Proof.
  intros [Hins Hstarts Hkeys Hfix] Hfresh Hjump.
  destruct (add_block_Returns b st Hjump) as (ls & ll & ->).
  eexists. split; [done|].
  assert (Hn : length (gi_ins st) = start_at (seen ++ [b]) (length seen)).
  { unfold start_at. by rewrite Hins, take_app_length. }
  constructor; cbn [gi_ins gi_block_starts gi_to_fix].
  - by rewrite Hins, code_of_snoc.
  - intros k b' Hk. destruct (decide (k < length seen)%nat) as [Hlt|Hge].
    + rewrite lookup_app_l in Hk by done. rewrite start_at_snoc by lia.
      rewrite lookup_insert_ne; [by apply Hstarts|].
      intros Heq. apply Hfresh. rewrite Heq. apply list_elem_of_fmap.
      exists b'. split; [done|]. by eapply list_elem_of_lookup_2.
    + rewrite lookup_app_r in Hk by lia.
      destruct (k - length seen)%nat as [|?] eqn:E; [|done].
      injection Hk as <-. replace k with (length seen) by lia.
      by rewrite lookup_insert_eq, Hn.
  - intros t s. rewrite fmap_app. destruct (decide (t = id b)) as [->|Hne].
    + intros _. apply elem_of_app. right. left.
    + rewrite lookup_insert_ne by done. intros Ht. apply elem_of_app. left.
      by eapply Hkeys.
  - intros i. rewrite elem_of_app, Hfix. split.
    + intros [(k & b' & Hk & Hj & ->)|Hi].
      * exists k, b'. apply lookup_lt_Some in Hk as Hlt.
        rewrite lookup_app_l, start_at_snoc by lia. done.
      * destruct (jump_instruction b) as [ji|] eqn:Ej; [|by apply elem_of_nil in Hi].
        apply list_elem_of_singleton in Hi as ->.
        exists (length seen), b. rewrite lookup_app_r, Nat.sub_diag by lia.
        rewrite Ej. split_and!; [done|by eexists|].
        rewrite <- Hn, length_app. done.
    + intros (k & b' & Hk & Hj & ->).
      destruct (decide (k < length seen)%nat) as [Hlt|Hge].
      * left. exists k, b'. rewrite lookup_app_l, start_at_snoc in * by lia. done.
      * rewrite lookup_app_r in Hk by lia.
        destruct (k - length seen)%nat as [|?] eqn:E; [|done].
        injection Hk as <-. right. destruct Hj as [ji ->].
        apply list_elem_of_singleton. replace k with (length seen) by lia.
        rewrite <- Hn, length_app. done.
Qed.

Lemma add_blocks_added rest seen st :
  blocks_added seen st →
  NoDup (id <$> (seen ++ rest)) →
  Forall (λ b, ∀ ji, jump_instruction b = Some ji → is_Label (arg ji) = true) rest →
  ∃ st', add_blocks rest st = Returns st' ∧ blocks_added (seen ++ rest) st'.
Proof.
  revert seen st. induction rest as [|b rest IH]; intros seen st Hinv Hnd Hj; simpl.
  - rewrite app_nil_r. eauto.
  - apply Forall_cons in Hj as [Hb Hj].
    destruct (add_block_added seen b st Hinv) as (st1 & -> & Hinv1); [|done|].
    { rewrite fmap_app, fmap_cons in Hnd. apply NoDup_app in Hnd as (_ & Hnd & _).
      intros Hin. apply (Hnd _ Hin). left. }
    simpl. rewrite (cons_middle b seen rest), app_assoc in Hnd |- *.
    by apply IH.
Qed.

(** The loop [for i in to_fix]: every place of [to_fix] gets the start of
    the block of its label, plus the offset of the label. *)
Lemma fix_jumps_spec to_fix ins block_starts jumps :
  (∀ i, i ∈ to_fix → ∃ instr t off s,
      0 ≤ i ∧ ins !! Z.to_nat i = Some instr ∧ arg instr = VLabel t off ∧
      block_starts !! t = Some s) →
  ∃ jumps',
    fix_jumps to_fix ins block_starts jumps = Returns jumps' ∧
    (∀ i, i ∉ to_fix → jumps' !! i = jumps !! i) ∧
    (∀ i, i ∈ to_fix → ∃ instr t off s,
       ins !! Z.to_nat i = Some instr ∧ arg instr = VLabel t off ∧
       block_starts !! t = Some s ∧ jumps' !! i = Some (s + off)).
Proof.
  revert jumps. induction to_fix as [|i to_fix IH]; intros jumps Hall; simpl.
  - exists jumps. split_and!; [done|done|by intros i ?%elem_of_nil].
  - destruct (Hall i ltac:(left)) as (instr & t & off & s & Hi & Hins & Harg & Hs).
    rewrite Hins, Harg, Hs.
    destruct (IH (<[i := s + off]> jumps)) as (jumps' & -> & Hout & Hin).
    { intros i' Hi'. apply Hall. by right. }
    exists jumps'. split_and!; [done| |].
    + intros i' [Hne Hni]%not_elem_of_cons. rewrite Hout by done.
      by rewrite lookup_insert_ne.
    + intros i' [->|Hi']%elem_of_cons; [|by apply Hin].
      destruct (decide (i ∈ to_fix)) as [Hd|Hd]; [by apply Hin|].
      exists instr, t, off, s. rewrite Hout by done. by rewrite lookup_insert_eq.
Qed.

Lemma code_of_lookup bs k b j :
  bs !! k = Some b → (j < length (block_code b))%nat →
  code_of bs !! (start_at bs k + j)%nat = block_code b !! j.
Proof.
  intros Hk Hj. unfold start_at.
  assert (code_of bs = code_of (take k bs) ++ block_code b ++ code_of (drop (S k) bs)) as ->.
  { rewrite <- (take_drop_middle bs k b Hk) at 1. by rewrite code_of_app. }
  rewrite lookup_app_r by lia.
  replace (length (code_of (take k bs)) + j - length (code_of (take k bs)))%nat with j by lia.
  by rewrite lookup_app_l.
Qed.

Lemma code_of_lookup_jump bs k b ji :
  bs !! k = Some b → jump_instruction b = Some ji →
  code_of bs !! (start_at bs k + length (instructions b))%nat = Some ji.
Proof.
  intros Hk Hj. rewrite (code_of_lookup bs k b) by
    (done || (unfold block_code; rewrite Hj, length_app; simpl; lia)).
  unfold block_code. rewrite Hj. simpl. by rewrite list_lookup_middle.
Qed.

(** What [get_instructions] returns on the basic blocks [bbs], when every
    jump has a label of one of them. *)
Lemma get_instructions_spec fb bbs :
  as_basic_blocks fb = Returns bbs →
  NoDup (id <$> bbs) →
  Forall (λ b, ∀ ji, jump_instruction b = Some ji →
                ∃ t off, arg ji = VLabel t off ∧ t ∈ id <$> bbs) bbs →
  ∃ jumps line_starts,
    get_instructions fb = Returns (jumps, line_starts, code_of bbs) ∧
    (∀ k b ji, bbs !! k = Some b → jump_instruction b = Some ji →
       ∃ t off kt bt,
         arg ji = VLabel t off ∧ bbs !! kt = Some bt ∧ id bt = t ∧
         jumps !! Z.of_nat (start_at bbs k + length (instructions b))
           = Some (Z.of_nat (start_at bbs kt) + off)) ∧
    (∀ i o, jumps !! i = Some o →
       ∃ k b, bbs !! k = Some b ∧ is_Some (jump_instruction b) ∧
              i = Z.of_nat (start_at bbs k + length (instructions b))).
Proof.
  intros Hbbs Hnd Hjumps. unfold get_instructions. rewrite Hbbs. simpl.
  destruct (add_blocks_added bbs [] _ blocks_added_empty Hnd) as (st & -> & Hst).
  { eapply Forall_impl; [exact Hjumps|]. intros b Hb ji Hji.
    destruct (Hb ji Hji) as (t & off & -> & _). done. }
  simpl in Hst. destruct Hst as [Hins Hstarts Hkeys Hfix]. simpl.
  assert (Hlabel : ∀ k b ji, bbs !! k = Some b → jump_instruction b = Some ji →
    ∃ t off kt bt, arg ji = VLabel t off ∧ bbs !! kt = Some bt ∧ id bt = t ∧
      gi_block_starts st !! t = Some (Z.of_nat (start_at bbs kt))).
  { intros k b ji Hk Hji. rewrite Forall_forall in Hjumps.
    destruct (Hjumps b (list_elem_of_lookup_2 _ _ _ Hk) ji Hji) as (t & off & Harg & Ht).
    apply list_elem_of_fmap in Ht as (bt & -> & Hbt).
    apply list_elem_of_lookup_1 in Hbt as (kt & Hkt).
    exists (id bt), off, kt, bt. split_and!; try done. by apply Hstarts. }
  destruct (fix_jumps_spec (gi_to_fix st) (gi_ins st) (gi_block_starts st) ∅)
    as (jumps & -> & Hout & Hin).
  { intros i (k & b & Hk & [ji Hji] & ->)%Hfix.
    destruct (Hlabel k b ji Hk Hji) as (t & off & kt & bt & Harg & _ & _ & Hs).
    exists ji, t, off, (Z.of_nat (start_at bbs kt)). split_and!; [lia| |done|done].
    rewrite Nat2Z.id, Hins. by apply code_of_lookup_jump. }
  simpl. exists jumps, (gi_line_starts st). rewrite Hins. split_and!; [done| |].
  - intros k b ji Hk Hji.
    destruct (Hlabel k b ji Hk Hji) as (t & off & kt & bt & Harg & Hkt & Hid & Hs).
    exists t, off, kt, bt. split_and!; try done.
    destruct (Hin (Z.of_nat (start_at bbs k + length (instructions b))))
      as (instr & t' & off' & s & Hi & Harg' & Hs' & ->).
    { apply Hfix. exists k, b. by rewrite Hji. }
    rewrite Nat2Z.id, Hins, (code_of_lookup_jump bbs k b ji Hk Hji) in Hi.
    injection Hi as <-. rewrite Harg in Harg'. injection Harg' as <- <-.
    rewrite Hs in Hs'. by injection Hs' as <-.
  - intros i o Hi. destruct (decide (i ∈ gi_to_fix st)) as [Hd|Hd].
    + by apply Hfix in Hd.
    + rewrite Hout in Hi by done. by rewrite lookup_empty in Hi.
Qed.

(** X19. [get_instructions] lays the blocks out in a row.  On blocks with
    distinct ids whose jump instructions carry labels of blocks of the list,
    it returns the instructions of the blocks in the order of
    [as_basic_blocks], each block followed by its jump instruction; the keys
    of [jumps] are the places of these jump instructions, and each one maps
    to the start of the block of its label plus the offset of the label. *)
Theorem get_instructions_layout fb bbs :
  as_basic_blocks fb = Returns bbs →
  NoDup (id <$> bbs) →
  Forall (λ b, ∀ ji, jump_instruction b = Some ji →
                ∃ t off, arg ji = VLabel t off ∧ t ∈ id <$> bbs) bbs →
  ∃ jumps line_starts,
    get_instructions fb = Returns (jumps, line_starts, code_of bbs) ∧
    (∀ k b ji, bbs !! k = Some b → jump_instruction b = Some ji →
       ∃ t off kt bt,
         arg ji = VLabel t off ∧ bbs !! kt = Some bt ∧ id bt = t ∧
         jumps !! Z.of_nat (start_at bbs k + length (instructions b))
           = Some (Z.of_nat (start_at bbs kt) + off)) ∧
    (∀ i o, jumps !! i = Some o →
       ∃ k b, bbs !! k = Some b ∧ is_Some (jump_instruction b) ∧
              i = Z.of_nat (start_at bbs k + length (instructions b))).
Proof. apply get_instructions_spec. Qed.

(** ** Blocks in a chain *)

(** The outcome of [as_basic_blocks] on a function: what the splicing and the
    ordering give, under the conditions of the first loop and for fallthroughs
    that resolve without a cycle. *)
Lemma as_basic_blocks_runs code_info fid entry blocks all (rank : Z → nat) :
  NoDup (id <$> all) →
  NoDup (omap fall all) →
  Forall (λ b, next_target b = None ∨ ∃ t, next_target b = Some (VLabel t 0)) all →
  Forall (λ b, ∀ t, fall b = Some t → t ∈ id <$> all ∧ (rank (id b) < rank t)%nat) all →
  flatten_all blocks = Returns all →
  entry ∈ id <$> all →
  entry ∉ omap fall all →
  ∃ first rest,
    as_basic_blocks (Function code_info fid entry blocks) = Returns (first ++ concat rest) ∧
    first ++ concat rest ≡ₚ all ∧
    (∃ b, head first = Some b ∧ id b = entry) ∧
    Forall (maximal_run all) (first :: rest) ∧
    StronglySorted Z.lt (head_ids rest).
Proof.
  intros Hids Htargets Hplain Hres Hflat Hentry Hfirst.
  destruct (register_all_spec all rank Hids Htargets Hplain Hres all [] (mk_runs [] [] 0)
              reg_inv_empty eq_refl) as (st0 & Hreg & Hinv0).
  apply (reg_inv_splice_inv all rank Hids Htargets Hres) in Hinv0.
  destruct (splice_spec all rank Hplain Hres (S (length (runs_by_target st0))) st0 Hinv0
              ltac:(lia)) as (starts & n & Hsplice & Hinv).
  pose proof (entry_is_key all entry Hentry Hfirst _ Hinv) as He. simpl in He.
  apply list_elem_of_fmap in He as ([e ρ] & Ee & Hρ). simpl in Ee. subst e.
  pose proof (inv_keys _ _ Hinv) as Hnd. simpl in Hnd.
  destruct (extend_by_min_spec (length (od_remove entry starts))
              (od_remove entry starts) ρ.2) as (d' & Hp' & Hs' & Hr');
    [by apply od_remove_NoDup|done|].
  assert (Hsub : ∀ k ρ0, (k, ρ0) ∈ d' → (k, ρ0) ∈ starts).
  { intros k ρ0 Hin. rewrite Hp' in Hin. by apply elem_of_od_remove in Hin as [_ ?]. }
  exists ρ.2, ((λ kv, kv.2.2) <$> d'). split; [|split; [|split; [|split]]].
  - simpl. rewrite (first_loop_flatten blocks all _ Hflat), Hreg. simpl.
    unfold splice_and_order. rewrite Hsplice. simpl.
    by rewrite (od_pop_Some starts entry ρ).
  - rewrite <- (inv_perm _ _ Hinv). simpl.
    rewrite (blocks_of_perm starts ((entry, ρ) :: d')); [done|].
    rewrite Hp'. by apply od_remove_perm.
  - destruct (inv_head _ _ Hinv entry ρ Hρ) as (b & tl & E & Hb).
    exists b. by rewrite E.
  - constructor; [by eapply final_runs_maximal|].
    apply Forall_fmap, Forall_forall. intros [k ρ0] Hin. simpl.
    eapply final_runs_maximal; [done|]. by apply Hsub.
  - rewrite head_ids_keys; [by apply sorted_keys|].
    intros k ρ0 Hin. apply (inv_head _ _ Hinv). by apply Hsub.
Qed.

(** Blocks in a chain: their ids grow along the list, and a block falls
    through, if it does, to offset 0 of the block with the next id, which is
    in the list. *)
Definition chained (bs : list BasicBlock) : Prop :=
  StronglySorted Z.lt (id <$> bs) ∧
  Forall (λ b, next_target b = None ∨
               (next_target b = Some (VLabel (id b + 1) 0) ∧ id b + 1 ∈ id <$> bs)) bs.

Definition before (a b : BasicBlock) : Prop := id a < id b.

Lemma chained_fall bs b t : chained bs → b ∈ bs → fall b = Some t → t = id b + 1.
Proof.
  intros [_ Hc] Hb Hf. rewrite Forall_forall in Hc. unfold fall in Hf.
  destruct (Hc b Hb) as [Hn|[Hn _]]; rewrite Hn in Hf; [done|]. by injection Hf.
Qed.

(** A run of linked blocks of a chain has consecutive ids. *)
Lemma linked_consecutive bs r h :
  chained bs → (∀ b, b ∈ r → b ∈ bs) → linked r → head r = Some h →
  ∀ i b, r !! i = Some b → id b = id h + Z.of_nat i.
Proof.
  intros Hc. revert h. induction r as [|b0 [|b1 r] IH]; intros h Hsub Hl Hh i b Hi.
  - done.
  - injection Hh as <-. destruct i; [|done]. injection Hi as <-. lia.
  - injection Hh as <-. destruct Hl as [Hf Hl].
    destruct i as [|i]; [injection Hi as <-; lia|].
    rewrite (IH b1 (λ x Hx, Hsub x (list_elem_of_further _ _ _ Hx)) Hl eq_refl i b Hi).
    apply (chained_fall bs) in Hf; [|done|apply Hsub; left]. lia.
Qed.

Lemma consecutive_sorted (r : list BasicBlock) (z : Z) :
  (∀ i b, r !! i = Some b → id b = z + Z.of_nat i) → StronglySorted before r.
Proof.
  revert z. induction r as [|b r IH]; intros z Hr; constructor.
  - apply (IH (z + 1)). intros i b' Hi. rewrite (Hr (S i) b' Hi). lia.
  - apply Forall_forall. intros b' Hb'. apply list_elem_of_lookup_1 in Hb' as [i Hi].
    unfold before. rewrite (Hr (S i) b' Hi), (Hr 0%nat b eq_refl). lia.
Qed.

Lemma elem_of_concat {A} (x : A) (ls : list (list A)) :
  x ∈ concat ls ↔ ∃ l, x ∈ l ∧ l ∈ ls.
Proof.
  induction ls as [|l ls IH]; simpl.
  - split; [by intros ?%elem_of_nil|by intros (? & _ & ?%elem_of_nil)].
  - rewrite elem_of_app, IH. split.
    + intros [?|(l' & ? & ?)]; [exists l; split; [done|left]|exists l'; split; [done|by right]].
    + intros (l' & ? & [->|?]%elem_of_cons); [by left|right; eauto].
Qed.

(** Runs with consecutive ids, the first blocks of which have growing ids,
    and which do not share an id, come one after the other by id. *)
Lemma runs_sorted (runs : list (list BasicBlock)) :
  Forall (λ r, ∃ h, head r = Some h ∧
               ∀ i b, r !! i = Some b → id b = id h + Z.of_nat i) runs →
  StronglySorted Z.lt (head_ids runs) →
  NoDup (id <$> concat runs) →
  StronglySorted before (concat runs).
Proof.
  induction 1 as [|r runs (h & Hh & Hr) Hruns IH]; intros Hheads Hnd; simpl; [constructor|].
  unfold head_ids in Hheads. simpl in Hheads, Hnd. rewrite Hh in Hheads. simpl in Hheads.
  apply StronglySorted_cons in Hheads as [Hlt Hheads].
  rewrite fmap_app in Hnd. apply NoDup_app in Hnd as (_ & Hdisj & Hnd').
  apply StronglySorted_app_2; [|by apply (consecutive_sorted r (id h))|by apply IH].
  intros x y Hx Hy. unfold before.
  apply list_elem_of_lookup_1 in Hx as [i Hi].
  apply elem_of_concat in Hy as (r' & Hy & Hr').
  rewrite Forall_forall in Hruns. destruct (Hruns r' Hr') as (h' & Hh' & Hr'').
  apply list_elem_of_lookup_1 in Hy as [j Hj].
  rewrite (Hr i x Hi), (Hr'' j y Hj).
  assert (id h < id h') as Hhh.
  { rewrite Forall_forall in Hlt. apply Hlt. apply list_elem_of_omap.
    exists r'. split; [done|]. by rewrite Hh'. }
  assert (Z.of_nat (length r) ≤ id h' - id h); [|apply lookup_lt_Some in Hi; lia].
  destruct (decide (Z.of_nat (length r) ≤ id h' - id h)) as [|Hin]; [done|].
  destruct (lookup_lt_is_Some_2 r (Z.to_nat (id h' - id h))) as [b Hb]; [lia|].
  destruct (Hdisj (id b)).
  - apply list_elem_of_fmap. exists b. split; [done|]. by eapply list_elem_of_lookup_2.
  - rewrite (Hr _ b Hb). replace (id h + Z.of_nat (Z.to_nat (id h' - id h))) with (id h') by lia.
    apply list_elem_of_fmap. exists h'. split; [done|].
    apply elem_of_concat. exists r'. split; [|done].
    destruct r' as [|x0 r']; [done|]. injection Hh' as ->. left.
Qed.

(** On a chain entered at its first block, [as_basic_blocks] returns the
    blocks as they are. *)
Lemma as_basic_blocks_chain code_info fid blocks bs e :
  flatten_all blocks = Returns bs →
  chained bs → head bs = Some e →
  as_basic_blocks (Function code_info fid (id e) blocks) = Returns bs.
Proof.
  intros Hflat Hc He. pose proof Hc as [Hsorted Hfalls].
  assert (Hbs : StronglySorted before bs).
  { clear -Hsorted. induction bs as [|b bs IH]; [constructor|].
    rewrite fmap_cons in Hsorted. apply StronglySorted_cons in Hsorted as [Hall Hs].
    constructor; [by apply IH|]. rewrite Forall_forall in Hall.
    apply Forall_forall. intros b' Hb'. apply Hall, list_elem_of_fmap. eauto. }
  assert (Hmin : ∀ b, b ∈ bs → id e ≤ id b).
  { intros b Hb. destruct bs as [|e' bs]; [done|]. injection He as ->.
    apply elem_of_cons in Hb as [->|Hb]; [lia|].
    apply StronglySorted_cons in Hbs as [Hall _]. rewrite Forall_forall in Hall.
    specialize (Hall b Hb). unfold before in Hall. lia. }
  assert (Hids : NoDup (id <$> bs)).
  { clear -Hsorted. induction Hsorted as [|x l _ IH Hall]; constructor; [|done].
    intros Hin. rewrite Forall_forall in Hall. specialize (Hall x Hin). lia. }
  assert (Hfall : ∀ b t, b ∈ bs → fall b = Some t → t = id b + 1 ∧ t ∈ id <$> bs).
  { intros b t Hb Hf. split; [by eapply chained_fall|].
    rewrite Forall_forall in Hfalls. unfold fall in Hf.
    destruct (Hfalls b Hb) as [Hn|[Hn Hin]]; rewrite Hn in Hf; [done|].
    by injection Hf as <-. }
  assert (Htargets : NoDup (omap fall bs)).
  { assert (StronglySorted Z.lt (omap fall bs)) as Hs.
    { clear -Hbs Hfall. induction bs as [|b bs IH]; [constructor|].
      apply StronglySorted_cons in Hbs as [Hall Hs].
      assert (StronglySorted Z.lt (omap fall bs)) as IH'.
      { apply IH; [done|]. intros b' t Hb' Hf.
        destruct (Hfall b' t (list_elem_of_further _ _ _ Hb') Hf) as [-> Hin].
        split; [done|]. apply elem_of_cons in Hin as [Heq|Hin]; [|done].
        rewrite Forall_forall in Hall. specialize (Hall b' Hb'). unfold before in Hall. lia. }
      simpl. destruct (fall b) as [t|] eqn:Ef; [|done].
      constructor; [done|]. apply Forall_forall. intros t' Ht'.
      apply list_elem_of_omap in Ht' as (b' & Hb' & Hf').
      destruct (Hfall b t ltac:(left) Ef) as [-> _].
      destruct (Hfall b' t' (list_elem_of_further _ _ _ Hb') Hf') as [-> _].
      rewrite Forall_forall in Hall. specialize (Hall b' Hb'). unfold before in Hall. lia. }
    clear -Hs. induction Hs as [|x l _ IH Hall]; constructor; [|done].
    intros Hin. rewrite Forall_forall in Hall. specialize (Hall x Hin). lia. }
  destruct (as_basic_blocks_runs code_info fid (id e) blocks bs
              (λ i, Z.to_nat (i - id e)) Hids Htargets)
    as (first & rest & -> & Hperm & (b0 & Hb0 & Hid0) & Hmax & Hheads); try done.
  - eapply Forall_impl; [exact Hfalls|]. intros b [Hn|[Hn _]]; eauto.
  - apply Forall_forall. intros b Hb t Hf.
    destruct (Hfall b t Hb Hf) as [-> Hin]. split; [done|].
    specialize (Hmin b Hb). lia.
  - apply list_elem_of_fmap. exists e. split; [done|].
    destruct bs; [done|]. injection He as ->. left.
  - intros (b & Hb & Hf)%list_elem_of_omap.
    destruct (Hfall b _ Hb Hf) as [Heq _]. specialize (Hmin b Hb). lia.
  - f_equal. apply (StronglySorted_unique_strong before); [|  |done|done].
    { unfold before. intros. lia. }
    assert (Hsub : ∀ r, r ∈ first :: rest → ∀ b, b ∈ r → b ∈ bs).
    { intros r Hr b Hb. rewrite <- Hperm.
      change (first ++ concat rest) with (concat (first :: rest)).
      apply elem_of_concat. eauto. }
    change (first ++ concat rest) with (concat (first :: rest)).
    apply runs_sorted.
    + apply Forall_forall. intros r Hr. rewrite Forall_forall in Hmax.
      destruct (Hmax r Hr) as (h & Hh & Hl & _). exists h. split; [done|].
      by apply (linked_consecutive bs r h Hc (Hsub r Hr)).
    + unfold head_ids. simpl. rewrite Hb0. simpl. constructor; [done|].
      apply Forall_forall. intros t Ht.
      apply list_elem_of_omap in Ht as (r & Hr & Hh).
      destruct (head r) as [h|] eqn:Eh; [|done]. injection Hh as <-.
      assert (h ∈ r) as Hhr by (destruct r; [done|]; injection Eh as ->; left).
      assert (h ∈ bs) as Hhbs by (apply (Hsub r); [by right|done]).
      specialize (Hmin h Hhbs). rewrite Hid0.
      destruct (decide (id h = id e)) as [Heq|]; [|lia].
      (* the head of a later run cannot have the id of the entry *)
      assert (NoDup (id <$> (first ++ concat rest))) as Hnd by (by rewrite Hperm).
      rewrite fmap_app in Hnd. apply NoDup_app in Hnd as (_ & Hdisj & _).
      destruct (Hdisj (id b0)).
      * apply list_elem_of_fmap. exists b0. split; [done|].
        destruct first; [done|]. injection Hb0 as ->. left.
      * rewrite Hid0, <- Heq. apply list_elem_of_fmap. exists h. split; [done|].
        apply elem_of_concat. eauto.
    + by rewrite Hperm.
Qed.

(** ** Disassembling, then laying out *)

(** A dictionary that holds blocks under their ids. *)
Definition keyed (bs : list BasicBlock) : list (Z * BasicBlock) := (λ b, (id b, b)) <$> bs.

Lemma keyed_keys bs : (keyed bs).*1 = id <$> bs.
Proof. unfold keyed. by rewrite <- list_fmap_compose. Qed.

Lemma od_get_keyed pre b post :
  id b ∉ id <$> pre → od_get (id b) (keyed (pre ++ b :: post)) = Some b.
Proof.
  induction pre as [|a pre IH]; intros Hb; simpl.
  - by rewrite decide_True.
  - rewrite fmap_cons, not_elem_of_cons in Hb. destruct Hb as [Hne Hb].
    rewrite decide_False by done. by apply IH.
Qed.

Lemma od_set_keyed pre b b' post :
  id b ∉ id <$> pre → id b' = id b →
  od_set (id b) b' (keyed (pre ++ b :: post)) = keyed (pre ++ b' :: post).
Proof.
  intros Hb Hid. induction pre as [|a pre IH]; simpl.
  - rewrite decide_True by done. by rewrite Hid.
  - rewrite fmap_cons, not_elem_of_cons in Hb. destruct Hb as [Hne Hb].
    rewrite decide_False by done. f_equal. by apply IH.
Qed.

Lemma od_set_keyed_new bs b : id b ∉ id <$> bs → od_set (id b) b (keyed bs) = keyed (bs ++ [b]).
Proof.
  intros Hb. rewrite od_set_new by (by rewrite keyed_keys).
  unfold keyed. by rewrite fmap_app.
Qed.

Lemma change_block_keyed pre b post f :
  id b ∉ id <$> pre → id (f b) = id b →
  change_block (id b) f (keyed (pre ++ b :: post)) = keyed (pre ++ f b :: post).
Proof.
  intros Hb Hid. unfold change_block. rewrite od_get_keyed by done. by apply od_set_keyed.
Qed.

(** The ids of the blocks that hold a jump instruction, in the order of the
    blocks. *)
Definition jump_ids (bs : list BasicBlock) : list Z :=
  flat_map (λ b, match jump_instruction b with Some _ => [id b] | None => [] end) bs.

Lemma jump_ids_app bs1 bs2 : jump_ids (bs1 ++ bs2) = jump_ids bs1 ++ jump_ids bs2.
Proof. apply flat_map_app. Qed.

(** Blocks numbered from 1 in the order of the list. *)
Definition numbered (bs : list BasicBlock) : Prop :=
  id <$> bs = seqZ 1 (Z.of_nat (length bs)).

Lemma numbered_snoc init b :
  numbered (init ++ [b]) →
  numbered init ∧ id b = Z.of_nat (length init) + 1 ∧ id b ∉ id <$> init.
Proof.
  unfold numbered. rewrite fmap_app, length_app, Nat.add_1_r, seqZ_S. simpl. intros H.
  apply app_inj_2 in H as [H1 H2]; [|done]. injection H2 as H2.
  split_and!; [done|lia|]. rewrite H1, elem_of_seqZ. lia.
Qed.

Lemma numbered_snoc_2 init b :
  numbered init → id b = Z.of_nat (length init) + 1 → numbered (init ++ [b]).
Proof.
  unfold numbered. intros H1 H2.
  rewrite fmap_app, length_app, Nat.add_1_r, seqZ_S, H1. simpl. f_equal. f_equal. lia.
Qed.

Lemma numbered_lookup bs k b : numbered bs → bs !! k = Some b → id b = Z.of_nat k + 1.
Proof.
  intros Hn Hk. assert ((id <$> bs) !! k = Some (id b)) as H by (by rewrite list_lookup_fmap, Hk).
  rewrite Hn in H. apply lookup_seqZ in H. lia.
Qed.

Lemma numbered_NoDup bs : numbered bs → NoDup (id <$> bs).
Proof. intros ->. apply NoDup_seqZ. Qed.

Lemma start_at_app_le init more j :
  (j ≤ length init)%nat → start_at (init ++ more) j = start_at init j.
Proof. intros Hj. unfold start_at. by rewrite take_app_le. Qed.

Lemma start_at_length bs more : start_at (bs ++ more) (length bs) = length (code_of bs).
Proof. unfold start_at. by rewrite take_app_length. Qed.

(** A block of [init ++ [b]] is found in the same place, with its id and its
    start, after the last block got more code and more blocks came. *)
Lemma change_last_lookup init b b' more j x :
  (init ++ [b]) !! j = Some x → id b' = id b →
  ∃ x', (init ++ b' :: more) !! j = Some x' ∧ id x' = id x ∧
        start_at (init ++ b' :: more) j = start_at (init ++ [b]) j.
Proof.
  intros Hj Hid. apply lookup_snoc_Some in Hj as [[Hlt Hj]|[-> ->]].
  - exists x. rewrite lookup_app_l by done.
    rewrite !start_at_app_le by lia. done.
  - exists b'. rewrite list_lookup_middle by done. rewrite !start_at_length. done.
Qed.

Section Disassembling.

Variable dis : dis_tables.

(** The whole code that is disassembled. *)
Variable raws : list dis_Instruction.

(** The instructions are two bytes wide each. *)
Definition aligned : Prop :=
  ∀ k raw, raws !! k = Some raw → d_offset raw = 2 * Z.of_nat k.

(** What the loop of [disassemble] has built from the instructions [prev]:
    blocks numbered from 1 that hold the instructions in their order, the
    jumps at the end of their blocks; a block falls through to the next one
    only; every jump met is to fix; every instruction flagged as a target
    has a label, which names its block and its index in the block. *)
Record built (prev : list dis_Instruction) (bs : list BasicBlock)
    (labels : gmap Z pyval) (to_fix : list Z) : Prop := {
  bu_ids : numbered bs;
  bu_code : code_of bs = from_dis <$> prev;
  bu_falls : Forall (λ b, next_target b = None ∨
                 (next_target b = Some (VLabel (id b + 1) 0) ∧
                  id b < Z.of_nat (length bs))) bs;
  bu_jumps : Forall (λ b, ∀ ji, jump_instruction b = Some ji → is_jump dis ji = true) bs;
  bu_plain : Forall (λ b, Forall (λ i, is_jump dis i = false) (instructions b)) bs;
  bu_to_fix : to_fix = jump_ids bs;
  bu_keys : ∀ o, is_Some (labels !! o) ↔
     ∃ raw, raw ∈ prev ∧ d_is_jump_target raw = true ∧ d_offset raw = o;
  bu_labels : aligned → ∀ k raw, prev !! k = Some raw → d_is_jump_target raw = true →
     ∃ j b i, bs !! j = Some b ∧
              labels !! (2 * Z.of_nat k) = Some (VLabel (id b) i) ∧
              Z.of_nat (start_at bs j) + i = Z.of_nat k
}.

(** The state of the loop: [current] and [last], when set, are the block
    made last. *)
Record dis_inv (prev : list dis_Instruction) (bs : list BasicBlock)
    (st : disassemble_state) : Prop := {
  di_blocks : ds_blocks st = keyed bs;
  di_block_id : ds_block_id st = Z.of_nat (length bs) + 1;
  di_built : built prev bs (ds_labels st) (ds_to_fix st);
  di_current : ∀ c, ds_current st = Some c →
     ds_last st = None ∧
     ∃ b, last bs = Some b ∧ id b = c ∧ jump_instruction b = None ∧ next_target b = None;
  di_start : aligned → ∀ c, ds_current st = Some c →
     ds_current_start st = 2 * Z.of_nat (start_at bs (length bs - 1));
  di_last : ∀ l, ds_last st = Some l →
     ∃ b, last bs = Some b ∧ id b = l ∧ next_target b = None
}.

Lemma dis_inv_empty : dis_inv [] [] (mk_disassemble 1 [] ∅ None None None 0 []).
Proof.
  constructor; simpl; try done.
  constructor; simpl; try done.
  intros o. rewrite lookup_empty. split; [by intros []|].
  by intros (raw & Hin%elem_of_nil & _).
Qed.

(** The three parts of the body of the loop. *)
Definition starts_line_part (raw : dis_Instruction) (st : disassemble_state)
    : outcome disassemble_state :=
  match d_starts_line raw with
  | None => Returns st
  | Some l =>
      match ds_current st with
      | None =>
          Returns (mk_disassemble (ds_block_id st) (ds_blocks st) (ds_labels st)
                     None (ds_last st) (Some l) (ds_current_start st) (ds_to_fix st))
      | Some c =>
          match ds_last st with
          | Some _ => Raises AssertionError
          | None =>
              Returns (mk_disassemble (ds_block_id st) (ds_blocks st) (ds_labels st)
                         None (Some c) (Some l) (ds_current_start st) (ds_to_fix st))
          end
      end
  end.

Definition new_block_part (raw : dis_Instruction) (st1 : disassemble_state)
    : outcome disassemble_state :=
  match ds_current st1 with
  | Some _ => Returns st1
  | None =>
      let new := mkBasicBlock (ds_block_id st1) [] None None (ds_line st1) in
      blocks ← match ds_last st1 with
               | None => Returns (ds_blocks st1)
               | Some l =>
                   match od_get l (ds_blocks st1) with
                   | None => Raises KeyError
                   | Some lb =>
                       match next_target lb with
                       | Some _ => Raises AssertionError
                       | None =>
                           Returns (change_block l
                             (set_next_target (Some (VLabel (ds_block_id st1) 0)))
                             (ds_blocks st1))
                       end
                   end
               end;
      Returns (mk_disassemble (ds_block_id st1 + 1)
                 (od_set (ds_block_id st1) new blocks) (ds_labels st1)
                 (Some (ds_block_id st1)) None (ds_line st1) (d_offset raw)
                 (ds_to_fix st1))
  end.

Definition instruction_part (raw : dis_Instruction) (st2 : disassemble_state)
    : outcome disassemble_state :=
  match ds_current st2 with
  | None => Raises AssertionError
  | Some c =>
      let labels :=
        if d_is_jump_target raw
        then <[d_offset raw := VLabel c ((d_offset raw - ds_current_start st2) `div` 2)]>
               (ds_labels st2)
        else ds_labels st2 in
      let ins := from_dis raw in
      let st3 :=
        if negb (is_jump dis ins)
        then mk_disassemble (ds_block_id st2)
               (change_block c (append_instruction ins) (ds_blocks st2)) labels
               (Some c) (ds_last st2) (ds_line st2) (ds_current_start st2) (ds_to_fix st2)
        else mk_disassemble (ds_block_id st2)
               (change_block c (set_jump_instruction (Some ins)) (ds_blocks st2)) labels
               None (Some c) (ds_line st2) (ds_current_start st2) (ds_to_fix st2 ++ [c]) in
      Returns (if no_next dis ins
               then mk_disassemble (ds_block_id st3) (ds_blocks st3) (ds_labels st3)
                      None None (ds_line st3) (ds_current_start st3) (ds_to_fix st3)
               else st3)
  end.

Lemma disassemble_step_parts raw st :
  disassemble_step dis raw st =
    (st1 ← starts_line_part raw st; st2 ← new_block_part raw st1; instruction_part raw st2).
Proof. reflexivity. Qed.

Lemma starts_line_part_inv prev bs raw st :
  dis_inv prev bs st →
  ∃ st1, starts_line_part raw st = Returns st1 ∧ dis_inv prev bs st1 ∧
    ds_line st1 = from_option Some (ds_line st) (d_starts_line raw) ∧
    (is_Some (d_starts_line raw) → ds_current st1 = None).
Proof.
  intros Hinv. unfold starts_line_part.
  destruct (d_starts_line raw) as [l|].
  2:{ exists st. split_and!; [done..|]. by intros []. }
  destruct (ds_current st) as [c|] eqn:Ec.
  - destruct (di_current _ _ _ Hinv c Ec) as (-> & b & Hb).
    eexists. split; [done|]. split; [|done]. destruct Hinv. constructor; simpl; try done.
    intros ? [= <-]. exists b. tauto.
  - eexists. split; [done|]. split; [|done]. destruct Hinv. constructor; simpl; done.
Qed.

(** Blocks with the same line and the same code. *)
Definition same_line_code (x y : BasicBlock) : Prop :=
  line y = line x ∧ block_code y = block_code x.

Lemma same_line_code_refl bs : Forall2 same_line_code bs bs.
Proof. by apply Forall_Forall2_diag, Forall_forall. Qed.

Lemma built_new_block prev bs bs' labels to_fix ln :
  built prev bs labels to_fix →
  (bs' = bs ∨
   ∃ init b, bs = init ++ [b] ∧ next_target b = None ∧
     bs' = init ++ [set_next_target (Some (VLabel (Z.of_nat (length bs) + 1) 0)) b]) →
  built prev (bs' ++ [mkBasicBlock (Z.of_nat (length bs) + 1) [] None None ln])
    labels to_fix.
Proof.
  intros [Hids Hcode Hfalls Hjumps Hplain Hfix Hkeys Hlabels] [->|(init & b & -> & Hnext & ->)].
  - constructor.
    + by apply numbered_snoc_2.
    + rewrite code_of_snoc. unfold block_code. simpl. by rewrite app_nil_r.
    + apply Forall_app. split; [|by repeat constructor].
      eapply Forall_impl; [exact Hfalls|]. intros b [?|[? ?]]; [by left|right].
      split; [done|]. rewrite length_app. simpl. lia.
    + apply Forall_app. split; [done|]. by repeat constructor.
    + apply Forall_app. split; [done|]. by repeat constructor.
    + rewrite jump_ids_app. simpl. by rewrite app_nil_r.
    + done.
    + intros Hal k raw Hk Hflag.
      destruct (Hlabels Hal k raw Hk Hflag) as (j & b & i & Hj & Hl & Hs).
      exists j, b, i. pose proof (lookup_lt_Some _ _ _ Hj).
      rewrite lookup_app_l by done. by rewrite start_at_app_le by lia.
  - apply numbered_snoc in Hids as (Hinit & Hid & Hfresh).
    rewrite length_app in *. simpl in *.
    set (b' := set_next_target _ b).
    assert (id b' = id b) as Hid' by done.
    constructor.
    + apply numbered_snoc_2; [apply numbered_snoc_2; [done|by rewrite Hid']|].
      rewrite length_app. simpl. lia.
    + rewrite code_of_snoc, code_of_snoc in *. unfold block_code at 2. simpl.
      by rewrite app_nil_r.
    + apply Forall_app in Hfalls as [Hfalls _].
      rewrite <- (assoc_L (++)). simpl. apply Forall_app. split.
      * eapply Forall_impl; [exact Hfalls|]. intros x [?|[? ?]]; [by left|right].
        split; [done|]. rewrite length_app. simpl. lia.
      * constructor; [|by repeat constructor]. right. rewrite length_app. simpl.
        split; [do 2 f_equal; lia|lia].
    + apply Forall_app in Hjumps as [Hj1 Hj2]. apply Forall_cons in Hj2 as [Hj2 _].
      rewrite <- (assoc_L (++)). simpl. apply Forall_app. split; [done|].
      constructor; [exact Hj2|]. by repeat constructor.
    + apply Forall_app in Hplain as [Hp1 Hp2]. apply Forall_cons in Hp2 as [Hp2 _].
      rewrite <- (assoc_L (++)). simpl. apply Forall_app. split; [done|].
      constructor; [exact Hp2|]. by repeat constructor.
    + rewrite Hfix, !jump_ids_app. simpl. by rewrite !app_nil_r.
    + done.
    + intros Hal k raw Hk Hflag.
      destruct (Hlabels Hal k raw Hk Hflag) as (j & x & i & Hj & Hl & Hs).
      destruct (change_last_lookup init b b' [mkBasicBlock (Z.of_nat (length init + 1) + 1) [] None None ln]
                  j x Hj Hid') as (x' & Hj' & Hidx & Hst).
      exists j, x', i. rewrite <- (assoc_L (++)). simpl.
      rewrite Hj', Hidx, Hst. done.
Qed.

Lemma new_block_part_inv prev bs raw st :
  dis_inv prev bs st → raws !! length prev = Some raw →
  ∃ st2 bs2 c, new_block_part raw st = Returns st2 ∧ dis_inv prev bs2 st2 ∧
               ds_current st2 = Some c ∧
               ds_line st2 = ds_line st ∧
               ((is_Some (ds_current st) ∧ bs2 = bs) ∨
                ∃ bs1 new, bs2 = bs1 ++ [new] ∧ line new = ds_line st ∧
                           block_code new = [] ∧ Forall2 same_line_code bs bs1).
Proof.
  intros Hinv Hraw. unfold new_block_part.
  destruct (ds_current st) as [c|] eqn:Ec.
  { exists st, bs, c. split_and!; [done..|]. left. eauto. }
  pose proof (di_built _ _ _ Hinv) as Hb.
  assert (Hfresh : Z.of_nat (length bs) + 1 ∉ id <$> bs).
  { rewrite (bu_ids _ _ _ _ Hb), elem_of_seqZ. lia. }
  assert (Hstart : aligned → d_offset raw = 2 * Z.of_nat (length (code_of bs))).
  { intros Hal. rewrite (Hal _ _ Hraw), (bu_code _ _ _ _ Hb), length_fmap. done. }
  destruct (ds_last st) as [l|] eqn:El.
  - destruct (di_last _ _ _ Hinv l El) as (b & Hlast & Hid & Hnext).
    apply last_Some in Hlast as [init ->].
    destruct (numbered_snoc init b (bu_ids _ _ _ _ Hb)) as (_ & Hidb & Hfb).
    rewrite (di_blocks _ _ _ Hinv), <- Hid, od_get_keyed, Hnext by done. simpl.
    rewrite change_block_keyed by done.
    rewrite (di_block_id _ _ _ Hinv).
    set (b' := set_next_target _ b). set (new := mkBasicBlock _ _ _ _ _).
    assert (od_set (Z.of_nat (length (init ++ [b])) + 1) new (keyed (init ++ [b']))
            = keyed ((init ++ [b']) ++ [new])) as ->.
    { apply (od_set_keyed_new (init ++ [b']) new). simpl.
      intros Hin. apply Hfresh. by rewrite !fmap_app in *. }
    eexists _, ((init ++ [b']) ++ [new]), _. split; [done|].
    split; [|split_and!; [done|done|]].
    2:{ right. exists (init ++ [b']), new. split_and!; [done..|].
        apply Forall2_app; [apply same_line_code_refl|]. by repeat constructor. }
    constructor; simpl.
    + done.
    + rewrite !length_app. simpl. lia.
    + apply built_new_block; [done|]. right. by exists init, b.
    + intros ? [= <-]. split; [done|]. exists new. by rewrite last_snoc.
    + intros Hal ? _. rewrite length_app. simpl.
      replace (length (init ++ [b']) + 1 - 1)%nat with (length (init ++ [b'])) by lia.
      rewrite start_at_length, (Hstart Hal), !code_of_snoc. done.
    + done.
  - simpl. rewrite (di_blocks _ _ _ Hinv), (di_block_id _ _ _ Hinv).
    set (new := mkBasicBlock _ _ _ _ _).
    assert (od_set (Z.of_nat (length bs) + 1) new (keyed bs) = keyed (bs ++ [new])) as ->
      by (by apply (od_set_keyed_new bs new)).
    eexists _, (bs ++ [new]), _. split; [done|].
    split; [|split_and!; [done|done|]].
    2:{ right. exists bs, new. split_and!; [done..|]. apply same_line_code_refl. }
    constructor; simpl.
    + done.
    + rewrite !length_app. simpl. lia.
    + apply built_new_block; [done|]. by left.
    + intros ? [= <-]. split; [done|]. exists new. by rewrite last_snoc.
    + intros Hal ? _. rewrite length_app. simpl.
      replace (length bs + 1 - 1)%nat with (length bs) by lia.
      rewrite start_at_length, (Hstart Hal). done.
    + done.
Qed.

Lemma built_instruction prev init b raw labels to_fix cs :
  built prev (init ++ [b]) labels to_fix →
  jump_instruction b = None →
  raws !! length prev = Some raw →
  (aligned → cs = 2 * Z.of_nat (start_at (init ++ [b]) (length init))) →
  built (prev ++ [raw])
    (init ++ [if is_jump dis (from_dis raw)
              then set_jump_instruction (Some (from_dis raw)) b
              else append_instruction (from_dis raw) b])
    (if d_is_jump_target raw
     then <[d_offset raw := VLabel (id b) ((d_offset raw - cs) `div` 2)]> labels
     else labels)
    (if is_jump dis (from_dis raw) then to_fix ++ [id b] else to_fix).
Proof.
  intros [Hids Hcode Hfalls Hjumps Hplain Hfix Hkeys Hlabels] Hjump Hraw Hcs.
  set (b' := if is_jump dis (from_dis raw) then _ else _).
  assert (id b' = id b) as Hid' by (unfold b'; by destruct (is_jump dis _)).
  assert (next_target b' = next_target b) as Hnext'
    by (unfold b'; by destruct (is_jump dis _)).
  assert (block_code b' = block_code b ++ [from_dis raw]) as Hcode'.
  { unfold b', block_code. destruct (is_jump dis _); simpl; rewrite Hjump; simpl;
      by rewrite ?app_nil_r. }
  constructor.
  - unfold numbered in *. rewrite fmap_app, length_app in *. simpl in *. by rewrite Hid'.
  - rewrite code_of_snoc, Hcode', fmap_app in *. simpl. by rewrite (assoc_L (++)), Hcode.
  - apply Forall_app in Hfalls as [Hf1 Hf2]. apply Forall_cons in Hf2 as [Hf2 _].
    rewrite length_app in *. simpl in *.
    apply Forall_app. split; [done|]. constructor; [|done]. by rewrite Hnext', Hid'.
  - apply Forall_app in Hjumps as [Hj1 _]. apply Forall_app. split; [done|].
    constructor; [|done]. unfold b'. destruct (is_jump dis (from_dis raw)) eqn:Ej; simpl.
    + by intros ? [= <-].
    + by rewrite Hjump.
  - apply Forall_app in Hplain as [Hp1 Hp2]. apply Forall_cons in Hp2 as [Hp2 _].
    apply Forall_app. split; [done|]. constructor; [|done].
    unfold b'. destruct (is_jump dis (from_dis raw)) eqn:Ej; simpl; [done|].
    apply Forall_app. split; [done|]. by constructor.
  - rewrite Hfix, !jump_ids_app. unfold b'. simpl. rewrite Hjump.
    destruct (is_jump dis (from_dis raw)); simpl; by rewrite ?Hjump, ?app_nil_r.
  - intros o. destruct (d_is_jump_target raw) eqn:Eflag.
    + rewrite lookup_insert_is_Some, Hkeys. split.
      * intros [<-|[_ (raw0 & Hin & ? & ?)]].
        -- exists raw. split; [apply elem_of_app; right; left|done].
        -- exists raw0. split; [apply elem_of_app; by left|done].
      * intros (raw0 & [Hin|Hin%list_elem_of_singleton]%elem_of_app & Hflag & Ho).
        -- destruct (decide (d_offset raw = o)); [by left|right]. split; [done|].
           by exists raw0.
        -- subst raw0. by left.
    + rewrite Hkeys. split.
      * intros (raw0 & Hin & ? & ?). exists raw0. split; [apply elem_of_app; by left|done].
      * intros (raw0 & [Hin|Hin%list_elem_of_singleton]%elem_of_app & Hflag & Ho).
        -- by exists raw0.
        -- subst raw0. by rewrite Eflag in Hflag.
  - intros Hal k raw0 Hk Hflag. apply lookup_snoc_Some in Hk as [[Hlt Hk]|[-> <-]].
    + destruct (Hlabels Hal k raw0 Hk Hflag) as (j & x & i & Hj & Hl & Hs).
      destruct (change_last_lookup init b b' [] j x Hj Hid') as (x' & Hj' & Hidx & Hst).
      exists j, x', i. rewrite Hj', Hidx, Hst. split_and!; [done| |done].
      destruct (d_is_jump_target raw); [|done].
      rewrite lookup_insert_ne; [done|]. rewrite (Hal _ _ Hraw). lia.
    + rewrite Hflag. exists (length init), b', ((d_offset raw - cs) `div` 2).
      rewrite list_lookup_middle by done. rewrite Hid'.
      split_and!; [done|by rewrite <- (Hal _ _ Hraw), lookup_insert_eq|].
      rewrite start_at_length. rewrite start_at_length in Hcs.
      assert (length prev = length (code_of init) + length (block_code b))%nat as Hlen.
      { rewrite <- length_app, <- code_of_snoc, Hcode, length_fmap. done. }
      assert (d_offset raw - cs
              = (Z.of_nat (length prev) - Z.of_nat (length (code_of init))) * 2) as ->
        by (rewrite (Hal _ _ Hraw), (Hcs Hal); lia).
      rewrite Z.div_mul by done. lia.
Qed.

Lemma instruction_part_inv prev bs raw st c :
  dis_inv prev bs st → ds_current st = Some c → raws !! length prev = Some raw →
  ∃ st3 bs3, instruction_part raw st = Returns st3 ∧ dis_inv (prev ++ [raw]) bs3 st3 ∧
    ds_line st3 = ds_line st ∧
    ∃ init b b', bs = init ++ [b] ∧ bs3 = init ++ [b'] ∧ line b' = line b ∧
                 block_code b' = block_code b ++ [from_dis raw].
Proof.
  intros Hinv Ec Hraw. unfold instruction_part. rewrite Ec.
  destruct (di_current _ _ _ Hinv c Ec) as (El & b & Hlast & <- & Hjump & Hnext).
  apply last_Some in Hlast as [init ->].
  pose proof (di_built _ _ _ Hinv) as Hb.
  destruct (numbered_snoc init b (bu_ids _ _ _ _ Hb)) as (_ & Hidb & Hfb).
  pose proof (built_instruction prev init b raw _ _ (ds_current_start st) Hb Hjump Hraw)
    as Hb'.
  rewrite (di_blocks _ _ _ Hinv), !change_block_keyed by done.
  pose proof (di_block_id _ _ _ Hinv) as Hn. rewrite length_app in Hn. simpl in Hn.
  pose proof (di_start _ _ _ Hinv) as Hst. rewrite length_app in Hst. simpl in Hst.
  replace (length init + 1 - 1)%nat with (length init) in Hst by lia.
  specialize (Hb' (λ Hal, Hst Hal _ Ec)).
  remember (if is_jump dis (from_dis raw)
            then set_jump_instruction (Some (from_dis raw)) b
            else append_instruction (from_dis raw) b) as b' eqn:Eb'.
  assert (Hshape : ∃ init0 b0 b0', init ++ [b] = init0 ++ [b0] ∧
            init ++ [b'] = init0 ++ [b0'] ∧ line b0' = line b0 ∧
            block_code b0' = block_code b0 ++ [from_dis raw]).
  { exists init, b, b'. split_and!; [done|done| |].
    - subst b'. by destruct (is_jump dis _).
    - subst b'. unfold block_code. destruct (is_jump dis _); simpl; rewrite Hjump; simpl;
        by rewrite ?app_nil_r. }
  destruct (is_jump dis (from_dis raw)) eqn:Ej; destruct (no_next dis (from_dis raw));
    subst b'; simpl; eexists _, _; (split; [done|]);
    (split; [|split; [done|exact Hshape]]);
    constructor; simpl; try done; rewrite ?length_app; simpl; try done.
  - intros ? [= <-]. eexists. by rewrite last_snoc.
  - intros ? [= <-]. split; [done|]. eexists. by rewrite last_snoc.
  - intros Hal ? _. replace (length init + 1 - 1)%nat with (length init) by lia.
    rewrite (Hst Hal _ Ec), !start_at_length. done.
  - intros l Hl. by rewrite El in Hl.
Qed.

(** The lines: each line start is not more than 127 lines above the one
    after it. *)
Definition tame : Prop :=
  ∀ l1 l2 x y, omap d_starts_line raws = l1 ++ x :: y :: l2 → -127 ≤ y - x.

(** A step from the line of a block to the line of the next one that the
    line table can take. *)
Definition step_ok (x y : option Z) : Prop :=
  match x, y with
  | Some a, Some b => -127 ≤ b - a
  | None, _ => True
  | Some _, None => False
  end.

(** The lines of the blocks, between two rounds of the loop: [line] is the
    last line start met, and the line of the block made last; the first line
    that a block has is the first line start; no block is empty. *)
Record line_inv (prev : list dis_Instruction) (bs : list BasicBlock)
    (st : disassemble_state) : Prop := {
  li_prefix : prev = take (length prev) raws;
  li_line : ds_line st = last (omap d_starts_line prev);
  li_last : ∀ b, last bs = Some b → line b = ds_line st;
  li_first : head (omap line bs) = head (omap d_starts_line prev);
  li_steps : tame → ∀ k b b', bs !! k = Some b → bs !! S k = Some b' →
     step_ok (line b) (line b');
  li_nonempty : Forall (λ b, block_code b ≠ []) bs
}.

Lemma line_inv_empty : line_inv [] [] (mk_disassemble 1 [] ∅ None None None 0 []).
Proof. constructor; simpl; done. Qed.

Lemma step_ok_refl x : step_ok x x.
Proof. destruct x; simpl; [lia|done]. Qed.

Lemma disassemble_step_inv prev bs raw st :
  dis_inv prev bs st → line_inv prev bs st → raws !! length prev = Some raw →
  ∃ st' bs', disassemble_step dis raw st = Returns st' ∧
    dis_inv (prev ++ [raw]) bs' st' ∧ line_inv (prev ++ [raw]) bs' st'.
Proof.
  intros Hinv Hline Hraw. rewrite disassemble_step_parts.
  destruct (starts_line_part_inv prev bs raw st Hinv) as (st1 & -> & Hinv1 & Hl1 & Hc1).
  simpl.
  destruct (new_block_part_inv prev bs raw st1 Hinv1 Hraw)
    as (st2 & bs2 & c & -> & Hinv2 & Ec & Hl2 & Hshape2).
  simpl.
  destruct (instruction_part_inv prev bs2 raw st2 c Hinv2 Ec Hraw)
    as (st3 & bs3 & -> & Hinv3 & Hl3 & init & b & b' & -> & -> & Hlb & Hcb).
  exists st3, (init ++ [b']). split; [done|]. split; [done|].
  destruct Hline as [Hprefix Hline Hlast Hfirst Hsteps Hnonempty].
  assert (Hline3 : ds_line st3 = last (omap d_starts_line (prev ++ [raw]))).
  { rewrite Hl3, Hl2, Hl1, omap_app. simpl.
    destruct (d_starts_line raw) as [l|]; simpl; [by rewrite last_snoc|].
    by rewrite app_nil_r. }
  assert (Hb' : block_code b' ≠ []) by (rewrite Hcb; by destruct (block_code b)).
  assert (Hprefix' : prev ++ [raw] = take (length (prev ++ [raw])) raws).
  { rewrite length_app. simpl. rewrite Nat.add_1_r.
    rewrite (take_S_r _ _ _ Hraw). by rewrite <- Hprefix. }
  destruct Hshape2 as [[[c0 Hc0] <-]|(bs1 & new & Heq & Hln & Hcn & Hsame)].
  - (* the block goes on *)
    assert (d_starts_line raw = None) as Hnone.
    { destruct (d_starts_line raw) as [l|] eqn:E; [|done].
      rewrite Hc1 in Hc0 by eauto. done. }
    rewrite Hnone in Hl1. simpl in Hl1.
    constructor.
    + done.
    + done.
    + intros x Hx. rewrite last_snoc in Hx. injection Hx as <-.
      rewrite Hlb, Hl3, Hl2, Hl1. apply Hlast. by rewrite last_snoc.
    + rewrite !omap_app in *. simpl in *. rewrite Hlb, Hnone. simpl.
      by rewrite app_nil_r.
    + intros Ht k x y Hx Hy. apply lookup_snoc_Some in Hy as [[Hlt Hy]|[Hk <-]].
      * rewrite lookup_app_l in Hx by lia.
        apply (Hsteps Ht k x y); by rewrite lookup_app_l by lia.
      * rewrite lookup_app_l in Hx by lia. rewrite Hlb.
        apply (Hsteps Ht k x b); [by rewrite lookup_app_l by lia|].
        rewrite Hk. by apply list_lookup_middle.
    + apply Forall_app in Hnonempty as [Hn _]. apply Forall_app. split; [done|].
      by constructor.
  - (* a block was made *)
    apply app_inj_tail in Heq as [<- <-].
    assert (Hlines : ∀ k x y, bs !! k = Some x → init !! k = Some y → line y = line x).
    { intros k x y Hx Hy. by destruct (Forall2_lookup_lr _ _ _ _ _ _ Hsame Hx Hy). }
    pose proof (Forall2_length _ _ _ Hsame) as Hlen.
    constructor.
    + done.
    + done.
    + intros x Hx. rewrite last_snoc in Hx. injection Hx as <-.
      by rewrite Hlb, Hln, Hl3, Hl2.
    + assert (omap line init = omap line bs) as Hom.
      { clear -Hsame. induction Hsame as [|x y xs ys [Hxy _] _ IH]; [done|].
        csimpl. by rewrite Hxy, IH. }
      rewrite !omap_app, Hom. simpl. rewrite Hlb, Hln, Hl1.
      destruct (d_starts_line raw) as [l|]; simpl.
      * destruct (omap line bs) as [|x xs], (omap d_starts_line prev) as [|y ys];
          simpl in *; done.
      * rewrite app_nil_r, Hline.
        destruct (omap line bs) as [|x xs], (omap d_starts_line prev) as [|y ys] eqn:E;
          simpl in *; done.
    + intros Ht k x y Hx Hy. apply lookup_snoc_Some in Hy as [[Hlt Hy]|[Hk <-]].
      * rewrite lookup_app_l in Hx by lia.
        destruct (Forall2_lookup_r _ _ _ _ _ Hsame Hx) as (x0 & Hx0 & Hlx & _).
        destruct (Forall2_lookup_r _ _ _ _ _ Hsame Hy) as (y0 & Hy0 & Hly & _).
        rewrite Hlx, Hly. by apply (Hsteps Ht k).
      * rewrite lookup_app_l in Hx by lia.
        destruct (Forall2_lookup_r _ _ _ _ _ Hsame Hx) as (x0 & Hx0 & Hlx & _).
        rewrite Hlx, Hlb, Hln, Hl1.
        assert (line x0 = ds_line st) as ->.
        { apply Hlast. rewrite last_lookup, <- Hx0. f_equal. lia. }
        destruct (d_starts_line raw) as [l|] eqn:El; simpl; [|apply step_ok_refl].
        rewrite Hline. destruct (last (omap d_starts_line prev)) as [x1|] eqn:Elast;
          simpl; [|done].
        apply last_Some in Elast as [l1 El1].
        apply (Ht l1 (omap d_starts_line (drop (S (length prev)) raws))).
        rewrite <- (take_drop_middle raws (length prev) raw Hraw), <- Hprefix at 1.
        rewrite omap_app. simpl. rewrite El, El1. by rewrite <- (assoc_L (++)).
    + apply Forall_app. split; [|by constructor].
      apply Forall_forall. intros y [k Hy]%list_elem_of_lookup_1.
      destruct (Forall2_lookup_r _ _ _ _ _ Hsame Hy) as (x0 & Hx0 & _ & ->).
      rewrite Forall_forall in Hnonempty. apply Hnonempty.
      by eapply list_elem_of_lookup_2.
Qed.

Lemma disassemble_loop_inv rest prev bs st :
  dis_inv prev bs st → line_inv prev bs st →
  (∀ k raw, rest !! k = Some raw → raws !! (length prev + k)%nat = Some raw) →
  ∃ st' bs', disassemble_loop dis rest st = Returns st' ∧
    dis_inv (prev ++ rest) bs' st' ∧ line_inv (prev ++ rest) bs' st'.
Proof.
  revert prev bs st. induction rest as [|raw rest IH]; intros prev bs st Hinv Hline Hraws.
  - rewrite app_nil_r. by exists st, bs.
  - destruct (disassemble_step_inv prev bs raw st Hinv Hline)
      as (st' & bs' & Hstep & Hinv' & Hline').
    { rewrite <- (Hraws 0%nat raw eq_refl). f_equal. lia. }
    simpl. rewrite Hstep. simpl. rewrite (cons_middle raw), (assoc_L (++)).
    apply (IH (prev ++ [raw]) bs' st' Hinv' Hline').
    intros k raw' Hk. rewrite <- (Hraws (S k) raw' Hk), length_app. simpl. f_equal. lia.
Qed.

End Disassembling.

(** The block after [labels[ins.arg]] was put into its jump instruction. *)
Definition relabel (labels : gmap Z pyval) (b : BasicBlock) : outcome BasicBlock :=
  match jump_instruction b with
  | None => Returns b
  | Some ji =>
      l ← label_of labels (arg ji);
      Returns (set_jump_instruction (Some (mkInstruction (opcode ji) l)) b)
  end.

(** The key that [labels[arg]] looks up, if [arg] can be one of the offsets. *)
Definition offset_key (a : pyval) : option Z :=
  match a with
  | VInt z => Some z
  | VBool b => Some (if b then 1 else 0)
  | _ => None
  end.

Lemma label_of_Returns labels a l :
  label_of labels a = Returns l ↔ ∃ z, offset_key a = Some z ∧ labels !! z = Some l.
Proof.
  destruct a as [|b|z|s|t o]; simpl; try (split; [done|by intros (? & ? & ?)]).
  - destruct (labels !! (if b then 1 else 0)) as [l'|] eqn:E.
    + split; [intros [= <-]; eauto|]. intros (z & [= <-] & H). rewrite E in H. by injection H as <-.
    + split; [done|]. intros (z & [= <-] & H). by rewrite E in H.
  - destruct (labels !! z) as [l'|] eqn:E.
    + split; [intros [= <-]; eauto|]. intros (z' & [= <-] & H). rewrite E in H. by injection H as <-.
    + split; [done|]. intros (z' & [= <-] & H). by rewrite E in H.
Qed.

Lemma label_of_outcome labels a :
  (∃ l, label_of labels a = Returns l) ∨ label_of labels a = Raises KeyError.
Proof. destruct a; simpl; try (by right); case_match; eauto. Qed.

Lemma relabel_same labels b b' :
  relabel labels b = Returns b' →
  id b' = id b ∧ next_target b' = next_target b ∧ instructions b' = instructions b.
Proof.
  unfold relabel. destruct (jump_instruction b); [|by intros [= <-]].
  destruct (label_of _ _); simpl; [|done..]. by intros [= <-].
Qed.

(** The loop over [to_fix]: each jump gets its label, or the first one whose
    operand is not among the labels raises [KeyError]. *)
Lemma fix_labels_outcome labels rest pre :
  NoDup (id <$> (pre ++ rest)) →
  (∃ rest', Forall2 (λ b b', relabel labels b = Returns b') rest rest' ∧
            fix_labels (jump_ids rest) labels (keyed (pre ++ rest))
              = Returns (keyed (pre ++ rest'))) ∨
  ((∃ b, b ∈ rest ∧ relabel labels b = Raises KeyError) ∧
   fix_labels (jump_ids rest) labels (keyed (pre ++ rest)) = Raises KeyError).
Proof.
  revert pre. induction rest as [|b rest IH]; intros pre Hnd.
  - left. exists []. split; [constructor|done].
  - assert (id b ∉ id <$> pre) as Hfresh.
    { rewrite fmap_app in Hnd. apply NoDup_app in Hnd as (_ & Hd & _).
      intros Hin. apply (Hd _ Hin). rewrite fmap_cons. left. }
    unfold jump_ids. simpl. fold (jump_ids rest).
    destruct (jump_instruction b) as [ji|] eqn:Ej; simpl.
    + rewrite od_get_keyed by done. rewrite Ej.
      destruct (label_of_outcome labels (arg ji)) as [[l Hl]|Hl]; rewrite Hl; simpl.
      * rewrite od_set_keyed by done.
        set (b' := set_jump_instruction _ b).
        destruct (IH (pre ++ [b'])) as [(rest' & Hall & Hfix)|((x & Hx & Hrx) & Hfix)].
        { rewrite <- (assoc_L (++)). simpl. by rewrite fmap_app, fmap_cons in *. }
        -- left. exists (b' :: rest'). split.
           ++ constructor; [|done]. unfold relabel. by rewrite Ej, Hl.
           ++ by rewrite <- !(assoc_L (++)) in Hfix.
        -- right. split; [exists x; split; [by right|done]|].
           by rewrite <- !(assoc_L (++)) in Hfix.
      * right. split; [|done]. exists b. split; [left|]. unfold relabel. by rewrite Ej, Hl.
    + destruct (IH (pre ++ [b])) as [(rest' & Hall & Hfix)|((x & Hx & Hrx) & Hfix)].
      { by rewrite <- (assoc_L (++)). }
      * left. exists (b :: rest'). split.
        -- constructor; [|done]. unfold relabel. by rewrite Ej.
        -- by rewrite <- !(assoc_L (++)) in Hfix.
      * right. split; [exists x; split; [by right|done]|].
        by rewrite <- !(assoc_L (++)) in Hfix.
Qed.

(** The dictionary of a [FunctionBlock] that holds basic blocks only. *)
Definition as_blocks (bs : list BasicBlock) : list (Z * Block) :=
  (λ kb, (kb.1, Basic kb.2)) <$> keyed bs.

Lemma flatten_all_basic bs : flatten_all (as_blocks bs) = Returns bs.
Proof.
  induction bs as [|b bs IH]; [done|].
  change (flatten_all ((id b, Basic b) :: as_blocks bs) = Returns (b :: bs)).
  cbn [flatten_all as_basic_blocks]. by rewrite IH.
Qed.

Lemma elem_of_code_of bs i : i ∈ code_of bs ↔ ∃ b, b ∈ bs ∧ i ∈ block_code b.
Proof.
  induction bs as [|b bs IH].
  - split; [by intros ?%elem_of_nil|by intros (? & ?%elem_of_nil & _)].
  - change (code_of (b :: bs)) with (block_code b ++ code_of bs).
    rewrite elem_of_app, IH. split.
    + intros [?|(b' & ? & ?)]; [exists b; split; [left|done]|exists b'; split; [by right|done]].
    + intros (b' & [->|?]%elem_of_cons & ?); [by left|right; eauto].
Qed.

Lemma code_of_jump dis bs i :
  i ∈ code_of bs → is_jump dis i = true →
  Forall (λ b, Forall (λ i, is_jump dis i = false) (instructions b)) bs →
  ∃ b, b ∈ bs ∧ jump_instruction b = Some i.
Proof.
  intros Hi Hj Hplain. apply elem_of_code_of in Hi as (b & Hb & Hi).
  exists b. split; [done|]. unfold block_code in Hi.
  apply elem_of_app in Hi as [Hi|Hi].
  - rewrite Forall_forall in Hplain. specialize (Hplain b Hb).
    rewrite Forall_forall in Hplain. rewrite (Hplain i Hi) in Hj. done.
  - destruct (jump_instruction b); simpl in Hi; [|by apply elem_of_nil in Hi].
    by apply list_elem_of_singleton in Hi as ->.
Qed.

Lemma jump_in_code bs b ji : b ∈ bs → jump_instruction b = Some ji → ji ∈ code_of bs.
Proof.
  intros Hb Hj. apply elem_of_code_of. exists b. split; [done|].
  unfold block_code. rewrite Hj. apply elem_of_app. right. simpl. left.
Qed.

(** A jump whose operand is the offset of an instruction of the code that
    is flagged as a jump target. *)
Definition jump_resolves (dis : dis_tables) (raws : list dis_Instruction)
    (raw : dis_Instruction) : Prop :=
  is_jump dis (from_dis raw) = true →
  ∃ z target, offset_key (d_argval raw) = Some z ∧ target ∈ raws ∧
              d_is_jump_target target = true ∧ d_offset target = z.

(** The two ways [disassemble] ends: with the blocks that the loop has
    built, relabelled, or with the [KeyError] of a jump that has no label. *)
Lemma disassemble_cases dis code_info raws :
  ∃ st bs,
    dis_inv dis raws raws bs st ∧ line_inv raws raws bs st ∧
    ((Forall (jump_resolves dis raws) raws ∧
      ∃ bs', Forall2 (λ b b', relabel (ds_labels st) b = Returns b') bs bs' ∧
             disassemble dis code_info raws
               = Returns (Function code_info 0 1 (as_blocks bs'))) ∨
     (Exists (λ raw, ¬ jump_resolves dis raws raw) raws ∧
      disassemble dis code_info raws = Raises KeyError)).
Proof.
  destruct (disassemble_loop_inv dis raws raws [] [] _ (dis_inv_empty dis raws)
              (line_inv_empty raws))
    as (st & bs & Hloop & Hinv & Hline); [done|]. simpl in Hinv, Hline.
  exists st, bs. split; [done|]. split; [done|].
  pose proof (di_built _ _ _ _ _ Hinv) as Hb.
  pose proof (bu_keys _ _ _ _ _ _ Hb) as Hkeys.
  assert (Hjump : ∀ b ji, b ∈ bs → jump_instruction b = Some ji →
            is_jump dis ji = true ∧ ∃ raw, raw ∈ raws ∧ ji = from_dis raw).
  { intros b ji Hin Hji. split.
    - pose proof (bu_jumps _ _ _ _ _ _ Hb) as Hj. rewrite Forall_forall in Hj. by eapply Hj.
    - pose proof (jump_in_code bs b ji Hin Hji) as Hc.
      rewrite (bu_code _ _ _ _ _ _ Hb) in Hc.
      apply list_elem_of_fmap in Hc as (raw & -> & Hraw). eauto. }
  unfold disassemble. rewrite Hloop. simpl.
  rewrite (di_blocks _ _ _ _ _ Hinv), (bu_to_fix _ _ _ _ _ _ Hb).
  assert (Hnd : NoDup (id <$> [] ++ bs)) by apply numbered_NoDup, (bu_ids _ _ _ _ _ _ Hb).
  destruct (fix_labels_outcome (ds_labels st) bs [] Hnd)
    as [(bs' & Hall & Hfix)|((b & Hin & Hr) & Hfix)];
    [change ([] ++ bs') with bs' in Hfix|]; change ([] ++ bs) with bs in Hfix;
    rewrite Hfix.
  - left. split; [|by exists bs'].
    apply Forall_forall. intros raw Hraw Hj.
    destruct (code_of_jump dis bs (from_dis raw)) as (b & Hin & Hji); [|done| |].
    { rewrite (bu_code _ _ _ _ _ _ Hb). apply list_elem_of_fmap. eauto. }
    { apply (bu_plain _ _ _ _ _ _ Hb). }
    apply list_elem_of_lookup_1 in Hin as [k Hk].
    destruct (Forall2_lookup_l _ _ _ _ _ Hall Hk) as (b' & _ & Hr).
    unfold relabel in Hr. rewrite Hji in Hr.
    destruct (label_of (ds_labels st) (arg (from_dis raw))) as [l| |] eqn:El; [|done..].
    apply label_of_Returns in El as (z & Hz & Hl).
    destruct (proj1 (Hkeys z)) as (target & ? & ? & ?); [by rewrite Hl|].
    by exists z, target.
  - right. split; [|done].
    unfold relabel in Hr. destruct (jump_instruction b) as [ji|] eqn:Hji; [|done].
    destruct (Hjump b ji Hin Hji) as (Hj & raw & Hraw & ->).
    apply Exists_exists. exists raw. split; [done|]. intros Hres.
    destruct (Hres Hj) as (z & target & Hz & Ht & Hflag & Ho).
    destruct (proj2 (Hkeys z)) as [l Hl]; [by exists target|].
    assert (label_of (ds_labels st) (d_argval raw) = Returns l) as El
      by (apply label_of_Returns; eauto).
    simpl in Hr. by rewrite El in Hr.
Qed.

(** X20. [disassemble] ends in one of two ways, whatever the instructions
    are: it returns a function block when the operand of every jump is the
    offset of an instruction flagged as a jump target, and it raises
    [KeyError] when one is not.  Its assertions never fail. *)
Theorem disassemble_outcome dis code_info raws :
  (Forall (jump_resolves dis raws) raws ∧
   ∃ blocks, disassemble dis code_info raws = Returns (Function code_info 0 1 blocks)) ∨
  (Exists (λ raw, ¬ jump_resolves dis raws raw) raws ∧
   disassemble dis code_info raws = Raises KeyError).
Proof.
  destruct (disassemble_cases dis code_info raws)
    as (st & bs & _ & _ & [(Hall & bs' & _ & ->)|(Hex & ->)]).
  - left. eauto.
  - by right.
Qed.

Lemma StronglySorted_seqZ m n : StronglySorted Z.lt (seqZ m (Z.of_nat n)).
Proof.
  revert m. induction n as [|n IH]; intros m; [constructor|].
  rewrite seqZ_cons by lia. replace (Z.pred (Z.of_nat (S n))) with (Z.of_nat n) by lia.
  constructor; [apply IH|]. apply Forall_forall. intros x Hx%elem_of_seqZ. lia.
Qed.

Lemma relabel_ids labels bs bs' :
  Forall2 (λ b b', relabel labels b = Returns b') bs bs' → id <$> bs' = id <$> bs.
Proof.
  induction 1 as [|b b' bs bs' Hb _ IH]; [done|].
  rewrite !fmap_cons, IH. f_equal. by apply relabel_same in Hb as (-> & _).
Qed.

Lemma relabel_code_length labels b b' :
  relabel labels b = Returns b' → length (block_code b') = length (block_code b).
Proof.
  unfold relabel, block_code. destruct (jump_instruction b) as [ji|] eqn:Ej.
  - destruct (label_of _ _); simpl; [|done..]. intros [= <-]. simpl.
    by rewrite !length_app.
  - intros [= <-]. by rewrite Ej.
Qed.

Lemma relabel_start_at labels bs bs' j :
  Forall2 (λ b b', relabel labels b = Returns b') bs bs' → start_at bs' j = start_at bs j.
Proof.
  intros H. revert j. induction H as [|b b' bs bs' Hb _ IH]; intros [|j]; try done.
  unfold start_at in *. simpl.
  change (code_of (b' :: take j bs')) with (block_code b' ++ code_of (take j bs')).
  change (code_of (b :: take j bs)) with (block_code b ++ code_of (take j bs)).
  by rewrite !length_app, IH, (relabel_code_length _ _ _ Hb).
Qed.

(** An instruction of the code and what [disassemble] leaves of it in its
    block: itself, or the jump with its label. *)
Definition relabelled (dis : dis_tables) (labels : gmap Z pyval)
    (i i' : Instruction) : Prop :=
  if is_jump dis i
  then ∃ l, label_of labels (arg i) = Returns l ∧ i' = mkInstruction (opcode i) l
  else i' = i.

Lemma code_of_relabel dis labels bs bs' :
  Forall (λ b, Forall (λ i, is_jump dis i = false) (instructions b)) bs →
  Forall (λ b, ∀ ji, jump_instruction b = Some ji → is_jump dis ji = true) bs →
  Forall2 (λ b b', relabel labels b = Returns b') bs bs' →
  Forall2 (relabelled dis labels) (code_of bs) (code_of bs').
Proof.
  intros Hplain Hjumps H. induction H as [|b b' bs bs' Hb _ IH]; [constructor|].
  apply Forall_cons in Hplain as [Hp Hplain]. apply Forall_cons in Hjumps as [Hj Hjumps].
  change (code_of (b :: bs)) with (block_code b ++ code_of bs).
  change (code_of (b' :: bs')) with (block_code b' ++ code_of bs').
  apply Forall2_app; [|by apply IH].
  unfold relabel in Hb. unfold block_code.
  destruct (jump_instruction b) as [ji|] eqn:Ej.
  - destruct (label_of labels (arg ji)) as [l| |] eqn:El; [|done..].
    simpl in Hb. injection Hb as <-. simpl. apply Forall2_app.
    + apply Forall_Forall2_diag. eapply Forall_impl; [exact Hp|].
      intros i Hi. unfold relabelled. by rewrite Hi.
    + constructor; [|constructor]. unfold relabelled. rewrite (Hj ji eq_refl). eauto.
  - injection Hb as <-. rewrite Ej. apply Forall2_app; [|constructor].
    apply Forall_Forall2_diag. eapply Forall_impl; [exact Hp|].
    intros i Hi. unfold relabelled. by rewrite Hi.
Qed.

(** A jump found in the code of the blocks is the jump instruction of one of
    them. *)
Lemma code_of_jump_position dis bs k i :
  Forall (λ b, Forall (λ i, is_jump dis i = false) (instructions b)) bs →
  code_of bs !! k = Some i → is_jump dis i = true →
  ∃ kb b, bs !! kb = Some b ∧ jump_instruction b = Some i ∧
          k = (start_at bs kb + length (instructions b))%nat.
Proof.
  revert k. induction bs as [|b bs IH] using rev_ind; intros k Hplain Hk Hj; [done|].
  apply Forall_app in Hplain as [Hplain Hp]. apply Forall_cons in Hp as [Hp _].
  rewrite code_of_snoc in Hk. apply lookup_app_Some in Hk as [Hk|[Hge Hk]].
  - destruct (IH k Hplain Hk Hj) as (kb & b0 & Hkb & Hji & ->).
    exists kb, b0. pose proof (lookup_lt_Some _ _ _ Hkb).
    rewrite lookup_app_l by done. by rewrite start_at_snoc by lia.
  - exists (length bs), b. rewrite list_lookup_middle by done.
    rewrite start_at_length. unfold block_code in Hk.
    apply lookup_app_Some in Hk as [Hk|[Hge' Hk]].
    + rewrite Forall_forall in Hp.
      rewrite (Hp i (list_elem_of_lookup_2 _ _ _ Hk)) in Hj. done.
    + destruct (jump_instruction b) as [ji|]; simpl in Hk; [|done].
      destruct (k - length (code_of bs) - length (instructions b))%nat eqn:E; [|done].
      injection Hk as ->. split_and!; [done..|lia].
Qed.

Section Round_trip.

Variable dis : dis_tables.
Variable code_info : CodeInfo.
Variable raws : list dis_Instruction.

Hypothesis not_empty : raws ≠ [].
Hypothesis two_bytes : aligned raws.
Hypothesis targets_flagged :
  ∀ raw, raw ∈ raws → is_jump dis (from_dis raw) = true →
    ∃ j target, d_argval raw = VInt (2 * Z.of_nat j) ∧ raws !! j = Some target ∧
                d_is_jump_target target = true.

Lemma flagged_targets_resolve : Forall (jump_resolves dis raws) raws.
Proof.
  apply Forall_forall. intros raw Hraw Hj.
  destruct (targets_flagged raw Hraw Hj) as (j & target & Harg & Ht & Hflag).
  exists (2 * Z.of_nat j), target. rewrite Harg. split_and!; try done.
  - by eapply list_elem_of_lookup_2.
  - by apply two_bytes.
Qed.

(** The blocks of [disassemble raws], what [get_instructions] makes of them,
    and how these relate to [raws]. *)
Lemma disassemble_get_instructions_spec :
  ∃ st bs bs' jumps line_starts,
    built dis raws raws bs (ds_labels st) (ds_to_fix st) ∧
    line_inv raws raws bs st ∧
    as_basic_blocks (Function code_info 0 1 (as_blocks bs')) = Returns bs' ∧
    Forall2 (λ b b', relabel (ds_labels st) b = Returns b') bs bs' ∧
    disassemble dis code_info raws = Returns (Function code_info 0 1 (as_blocks bs')) ∧
    get_instructions (Function code_info 0 1 (as_blocks bs'))
      = Returns (jumps, line_starts, code_of bs') ∧
    (∀ k b ji, bs' !! k = Some b → jump_instruction b = Some ji →
       ∃ t off kt bt,
         arg ji = VLabel t off ∧ bs' !! kt = Some bt ∧ id bt = t ∧
         jumps !! Z.of_nat (start_at bs' k + length (instructions b))
           = Some (Z.of_nat (start_at bs' kt) + off)) ∧
    (∀ i o, jumps !! i = Some o →
       ∃ k b, bs' !! k = Some b ∧ is_Some (jump_instruction b) ∧
              i = Z.of_nat (start_at bs' k + length (instructions b))).
Proof.
  destruct (disassemble_cases dis code_info raws)
    as (st & bs & Hinv & Hline & [(_ & bs' & Hall & Hdis)|(Hex & _)]); cycle 1.
  { apply Exists_exists in Hex as (raw & Hraw & Hres). destruct Hres.
    pose proof flagged_targets_resolve as Hr. rewrite Forall_forall in Hr. by apply Hr. }
  pose proof (di_built _ _ _ _ _ Hinv) as Hb.
  pose proof (bu_ids _ _ _ _ _ _ Hb) as Hids.
  pose proof (relabel_ids _ _ _ Hall) as Hids'.
  pose proof (Forall2_length _ _ _ Hall) as Hlen.
  assert (Hnum' : numbered bs') by (unfold numbered; by rewrite Hids', <- Hlen).
  (* the blocks are in a chain that starts at block 1 *)
  assert (Hchain : chained bs').
  { split; [rewrite Hnum'; apply StronglySorted_seqZ|].
    apply Forall_forall. intros b' Hb'. apply list_elem_of_lookup_1 in Hb' as [k Hk].
    destruct (Forall2_lookup_r _ _ _ _ _ Hall Hk) as (b & Hkb & Hr).
    apply relabel_same in Hr as (Hid & Hnext & _). rewrite Hnext, Hid.
    pose proof (bu_falls _ _ _ _ _ _ Hb) as Hf. rewrite Forall_forall in Hf.
    destruct (Hf b (list_elem_of_lookup_2 _ _ _ Hkb)) as [?|[? Hlt]]; [by left|right].
    split; [done|]. rewrite Hnum', elem_of_seqZ.
    rewrite (numbered_lookup bs k b Hids Hkb) in *. lia. }
  assert (Hne : bs' ≠ []).
  { intros ->. apply Forall2_nil_inv_r in Hall as ->.
    pose proof (bu_code _ _ _ _ _ _ Hb) as Hc. simpl in Hc.
    symmetry in Hc. by apply fmap_nil_inv in Hc. }
  destruct bs' as [|e bs1] eqn:Ebs'; [done|]. rewrite <- Ebs' in *.
  assert (Hhead : head bs' = Some e) by (by rewrite Ebs').
  assert (Hide : id e = 1).
  { rewrite (numbered_lookup bs' 0 e Hnum'); [lia|by rewrite Ebs']. }
  pose proof (as_basic_blocks_chain code_info 0 (as_blocks bs') bs' e
                (flatten_all_basic bs') Hchain Hhead) as Hbbs.
  rewrite Hide in Hbbs.
  (* every jump has a label of a block *)
  assert (Hlabels : Forall (λ b, ∀ ji, jump_instruction b = Some ji →
                     ∃ t off, arg ji = VLabel t off ∧ t ∈ id <$> bs') bs').
  { apply Forall_forall. intros b' Hb' ji' Hji'.
    apply list_elem_of_lookup_1 in Hb' as [k Hk].
    destruct (Forall2_lookup_r _ _ _ _ _ Hall Hk) as (b & Hkb & Hr).
    unfold relabel in Hr. destruct (jump_instruction b) as [ji|] eqn:Hji; cycle 1.
    { injection Hr as <-. by rewrite Hji in Hji'. }
    destruct (label_of (ds_labels st) (arg ji)) as [l| |] eqn:El; [|done..].
    simpl in Hr. injection Hr as <-. simpl in Hji'. injection Hji' as <-. simpl.
    pose proof (jump_in_code bs b ji (list_elem_of_lookup_2 _ _ _ Hkb) Hji) as Hc.
    rewrite (bu_code _ _ _ _ _ _ Hb) in Hc.
    apply list_elem_of_fmap in Hc as (raw & -> & Hraw).
    pose proof (bu_jumps _ _ _ _ _ _ Hb) as Hj. rewrite Forall_forall in Hj.
    pose proof (Hj b (list_elem_of_lookup_2 _ _ _ Hkb) _ Hji) as Hjmp.
    destruct (targets_flagged raw Hraw Hjmp) as (j & target & Harg & Ht & Hflag).
    destruct (bu_labels _ _ _ _ _ _ Hb two_bytes j target Ht Hflag)
      as (jt & bt & i & Hjt & Hl & _).
    simpl in El. rewrite Harg in El. simpl in El. rewrite Hl in El. injection El as <-.
    exists (id bt), i. split; [done|]. rewrite Hids'.
    apply list_elem_of_fmap. exists bt. split; [done|]. by eapply list_elem_of_lookup_2. }
  destruct (get_instructions_spec _ bs' Hbbs (numbered_NoDup _ Hnum') Hlabels)
    as (jumps & line_starts & Hget & Hjumps & Hkeys).
  by exists st, bs, bs', jumps, line_starts.
Qed.

End Round_trip.

Lemma relabel_jumps dis labels b b' :
  relabel labels b = Returns b' →
  (∀ ji, jump_instruction b = Some ji → is_jump dis ji = true) →
  ∀ ji', jump_instruction b' = Some ji' → is_jump dis ji' = true.
Proof.
  unfold relabel. intros Hr Hj ji' Hji'. destruct (jump_instruction b) as [ji|] eqn:Ej.
  - destruct (label_of _ _); simpl in Hr; [|done..]. injection Hr as <-.
    simpl in Hji'. injection Hji' as <-. apply (Hj ji eq_refl).
  - injection Hr as <-. by rewrite Ej in Hji'.
Qed.

(** The instructions and the jumps that [get_instructions] returns on the
    function block of [disassemble], against the code. *)
Lemma disassemble_get_instructions_facts dis code_info raws :
  raws ≠ [] →
  aligned raws →
  (∀ raw, raw ∈ raws → is_jump dis (from_dis raw) = true →
     ∃ j target, d_argval raw = VInt (2 * Z.of_nat j) ∧ raws !! j = Some target ∧
                 d_is_jump_target target = true) →
  ∃ blocks jumps line_starts ins,
    disassemble dis code_info raws = Returns (Function code_info 0 1 blocks) ∧
    get_instructions (Function code_info 0 1 blocks) = Returns (jumps, line_starts, ins) ∧
    length ins = length raws ∧
    (∀ k raw, raws !! k = Some raw → is_jump dis (from_dis raw) = false →
       ins !! k = Some (from_dis raw) ∧ jumps !! Z.of_nat k = None) ∧
    (∀ k raw j, raws !! k = Some raw → is_jump dis (from_dis raw) = true →
       d_argval raw = VInt (2 * Z.of_nat j) →
       (∃ t off, ins !! k = Some (mkInstruction (d_opcode raw) (VLabel t off))) ∧
       jumps !! Z.of_nat k = Some (Z.of_nat j)).
Proof.
  intros Hne Hal Htargets.
  destruct (disassemble_get_instructions_spec dis code_info raws Hne Hal Htargets)
    as (st & bs & bs' & jumps & line_starts & Hb & _ & _ & Hall & Hdis & Hget & Hjumps
        & Hkeys).
  pose proof (bu_code _ _ _ _ _ _ Hb) as Hcode.
  pose proof (bu_plain _ _ _ _ _ _ Hb) as Hplain.
  pose proof (bu_jumps _ _ _ _ _ _ Hb) as Hjmp.
  pose proof (code_of_relabel dis _ bs bs' Hplain Hjmp Hall) as Hrel.
  assert (Hplain' : Forall (λ b, Forall (λ i, is_jump dis i = false) (instructions b)) bs').
  { apply Forall_forall. intros b' [k Hk]%list_elem_of_lookup_1.
    destruct (Forall2_lookup_r _ _ _ _ _ Hall Hk) as (b & Hkb & Hr).
    apply relabel_same in Hr as (_ & _ & ->). rewrite Forall_forall in Hplain.
    apply Hplain. by eapply list_elem_of_lookup_2. }
  assert (Hjmp' : ∀ k b' ji', bs' !! k = Some b' → jump_instruction b' = Some ji' →
                    is_jump dis ji' = true).
  { intros k b' ji' Hk Hji'.
    destruct (Forall2_lookup_r _ _ _ _ _ Hall Hk) as (b & Hkb & Hr).
    apply (relabel_jumps dis _ b b' Hr); [|done]. rewrite Forall_forall in Hjmp.
    apply Hjmp. by eapply list_elem_of_lookup_2. }
  assert (Hat : ∀ k raw, raws !! k = Some raw →
            ∃ i', code_of bs' !! k = Some i' ∧ relabelled dis (ds_labels st) (from_dis raw) i').
  { intros k raw Hk. apply (Forall2_lookup_l _ _ _ k (from_dis raw) Hrel).
    by rewrite Hcode, list_lookup_fmap, Hk. }
  exists (as_blocks bs'), jumps, line_starts, (code_of bs').
  split_and!; [done|done| | |].
  - by rewrite <- (Forall2_length _ _ _ Hrel), Hcode, length_fmap.
  - intros k raw Hk Hj. destruct (Hat k raw Hk) as (i' & Hi' & Hr).
    unfold relabelled in Hr. rewrite Hj in Hr. subst i'. split; [done|].
    destruct (jumps !! Z.of_nat k) as [o|] eqn:Eo; [|done].
    destruct (Hkeys _ _ Eo) as (kb & b' & Hkb & [ji' Hji'] & Hpos).
    apply Nat2Z.inj in Hpos. subst k.
    rewrite (code_of_lookup_jump bs' kb b' ji' Hkb Hji') in Hi'. injection Hi' as ->.
    by rewrite (Hjmp' kb b' _ Hkb Hji') in Hj.
  - intros k raw j Hk Hj Harg. destruct (Hat k raw Hk) as (i' & Hi' & Hr).
    unfold relabelled in Hr. rewrite Hj in Hr. destruct Hr as (l & Hl & ->).
    destruct (Htargets raw (list_elem_of_lookup_2 _ _ _ Hk) Hj)
      as (j0 & target & Harg0 & Ht & Hflag).
    rewrite Harg in Harg0. assert (j0 = j) as -> by (injection Harg0; lia).
    destruct (bu_labels _ _ _ _ _ _ Hb Hal j target Ht Hflag) as (jt & bt & i & Hjt & Hlab & Hs).
    simpl in Hl. rewrite Harg in Hl. simpl in Hl. rewrite Hlab in Hl. injection Hl as <-.
    simpl in Hi'. split; [by eauto|].
    destruct (code_of_jump_position dis bs' k _ Hplain' Hi') as (kb & b' & Hkb & Hji' & ->);
      [done|].
    destruct (Hjumps kb b' _ Hkb Hji') as (t & off & kt & bt' & Ha & Hkt & Hid & ->).
    simpl in Ha. injection Ha as <- <-. f_equal.
    rewrite (relabel_start_at _ _ _ kt Hall).
    assert (numbered bs') as Hnum'.
    { unfold numbered. rewrite (relabel_ids _ _ _ Hall), <- (Forall2_length _ _ _ Hall).
      apply (bu_ids _ _ _ _ _ _ Hb). }
    pose proof (numbered_lookup bs' kt bt' Hnum' Hkt) as H1.
    pose proof (numbered_lookup bs jt bt (bu_ids _ _ _ _ _ _ Hb) Hjt) as H2.
    assert (kt = jt) as -> by lia. done.
Qed.

(** X21. Disassembling and laying out again gives the code back, one
    instruction for one.  For code that is not empty, whose instructions are
    two bytes wide and whose jumps name the offset of an instruction flagged
    as a jump target, [disassemble] returns a function block on which
    [get_instructions] returns as many instructions as the code has: an
    instruction that is no jump is at its index as [from_dis] made it, and
    has no entry in [jumps]; a jump is at its index with a label for its
    operand, and [jumps] maps its index to the index of the instruction that
    it named. *)
Theorem disassemble_get_instructions dis code_info raws :
  raws ≠ [] →
  aligned raws →
  (∀ raw, raw ∈ raws → is_jump dis (from_dis raw) = true →
     ∃ j target, d_argval raw = VInt (2 * Z.of_nat j) ∧ raws !! j = Some target ∧
                 d_is_jump_target target = true) →
  ∃ blocks jumps line_starts ins,
    disassemble dis code_info raws = Returns (Function code_info 0 1 blocks) ∧
    get_instructions (Function code_info 0 1 blocks) = Returns (jumps, line_starts, ins) ∧
    length ins = length raws ∧
    (∀ k raw, raws !! k = Some raw → is_jump dis (from_dis raw) = false →
       ins !! k = Some (from_dis raw) ∧ jumps !! Z.of_nat k = None) ∧
    (∀ k raw j, raws !! k = Some raw → is_jump dis (from_dis raw) = true →
       d_argval raw = VInt (2 * Z.of_nat j) →
       (∃ t off, ins !! k = Some (mkInstruction (d_opcode raw) (VLabel t off))) ∧
       jumps !! Z.of_nat k = Some (Z.of_nat j)).
Proof. apply disassemble_get_instructions_facts. Qed.

(** ** Assembling what was disassembled *)

(** The unit of an instruction of the code, as [dis] decoded it. *)
Definition unit_of (raw : dis_Instruction) : raw_Instruction :=
  mk_raw (d_opcode raw) (d_arg raw).

(** The instruction at index [k] of the code gets its operand back: its
    opcode is a byte; below [HAVE_ARGUMENT] it has no operand; from there on
    its operand is a byte, which [get_raw] resolves again from what
    [from_dis] kept of the instruction, a jump from its label and the index
    of the instruction that it named. *)
Definition encodes_back (dis : dis_tables) (code_info : CodeInfo) (k : nat)
    (raw : dis_Instruction) : Prop :=
  0 ≤ d_opcode raw ≤ 255 ∧
  if d_opcode raw <? HAVE_ARGUMENT dis then d_arg raw = None
  else ∃ a, d_arg raw = Some a ∧ 0 ≤ a ≤ 255 ∧
    if is_jump dis (from_dis raw)
    then ∀ j t off, d_argval raw = VInt (2 * Z.of_nat j) →
           resolve_arg dis code_info (mkInstruction (d_opcode raw) (VLabel t off))
             (Z.of_nat k) (Some (Z.of_nat j)) = Returns a
    else resolve_arg dis code_info (from_dis raw) (Z.of_nat k) None = Returns a.

Lemma arg_bytes_small a : 0 ≤ a ≤ 255 → arg_bytes a = [a].
Proof.
  intros Ha. unfold arg_bytes. destruct (Z.to_nat (Z.log2 a)); simpl; [done|].
  destruct (255 <? a) eqn:E; [|done]. apply Z.ltb_lt in E. lia.
Qed.

Lemma byte_has_opname op : 0 ≤ op ≤ 255 → has_opname op = true.
Proof. intros Hop. unfold has_opname. apply andb_true_intro. split; lia. Qed.

Lemma get_raw_small dis code_info i o j a :
  HAVE_ARGUMENT dis ≤ opcode i → has_opname (opcode i) = true →
  resolve_arg dis code_info i o j = Returns a →
  0 ≤ a ≤ 255 →
  get_raw dis i code_info o j = Returns [mk_raw (opcode i) (Some a)].
Proof.
  intros Hop Hname Hres Ha. unfold get_raw.
  destruct (opcode i <? HAVE_ARGUMENT dis) eqn:E; [apply Z.ltb_lt in E; lia|].
  rewrite Hres, Hname. simpl. destruct (a <? 0) eqn:E'; [apply Z.ltb_lt in E'; lia|].
  by rewrite arg_bytes_small.
Qed.

Lemma initial_targets_range jumps k j :
  jumps !! k = Some j → initial_targets jumps !! j = Some j.
Proof.
  intros Hk. unfold initial_targets. apply elem_of_list_to_map_1'.
  - intros y Hy. by apply list_elem_of_fmap in Hy as ([a b] & [= -> ->] & _).
  - apply list_elem_of_fmap. exists (k, j). split; [done|].
    by apply elem_of_map_to_list.
Qed.

(** The line offsets that a pass notes from the instruction [j0] on, for [n]
    instructions of one unit each. *)
Fixpoint scan_offsets (line_starts : gmap Z (option Z)) (j0 n : nat)
    (offsets : list (Z * option Z)) : list (Z * option Z) :=
  match n with
  | O => offsets
  | S n' =>
      scan_offsets line_starts (S j0) n'
        (match line_starts !! Z.of_nat j0 with
         | Some l => od_set (Z.of_nat j0 * 2) l offsets
         | None => offsets
         end)
  end.

(** A pass in which every instruction takes one unit, from targets that
    hold their own keys: the targets stay, the units come one by one. *)
Lemma pass_loop_units dis code_info jumps line_starts targets :
  (∀ o v, targets !! o = Some v → v = o) →
  ∀ ins units (j0 : nat) st,
    actual_targets st = targets → length (raw_ins st) = j0 →
    length units = length ins →
    (∀ k i u, ins !! k = Some i → units !! k = Some u →
       get_raw dis i code_info (Z.of_nat (j0 + k))
         (jumps !! Z.of_nat (j0 + k) ≫= λ o, targets !! o) = Returns [u]) →
    pass_loop dis code_info jumps line_starts (Z.of_nat j0) ins st
      = Returns (mk_pass targets (raw_ins st ++ units)
                   (scan_offsets line_starts j0 (length ins) (line_offsets st))).
Proof.
  intros Hid. induction ins as [|i ins IH]; intros units j0 st Ht Hn Hlen Hget.
  - destruct units; [|done]. simpl. rewrite app_nil_r, <- Ht. by destruct st.
  - destruct units as [|u units]; [done|]. simpl in Hlen.
    assert (pass_step dis code_info jumps line_starts (Z.of_nat j0) i st
            = Returns (mk_pass targets (raw_ins st ++ [u])
                (match line_starts !! Z.of_nat j0 with
                 | Some l => od_set (Z.of_nat j0 * 2) l (line_offsets st)
                 | None => line_offsets st
                 end))) as Hstep.
    { unfold pass_step. rewrite Ht, Hn.
      assert (match targets !! Z.of_nat j0 with
              | Some _ => <[Z.of_nat j0 := Z.of_nat j0]> targets
              | None => targets
              end = targets) as ->.
      { destruct (targets !! Z.of_nat j0) as [v|] eqn:E; [|done].
        apply insert_id. by rewrite E, (Hid _ _ E). }
      pose proof (Hget 0%nat i u eq_refl eq_refl) as Hg.
      rewrite Nat.add_0_r in Hg. by rewrite Hg. }
    cbn [pass_loop]. rewrite Hstep. simpl.
    replace (Z.of_nat j0 + 1) with (Z.of_nat (S j0)) by lia.
    rewrite (IH units (S j0)).
    + simpl. by rewrite <- (assoc_L (++)).
    + done.
    + simpl. rewrite length_app. simpl. lia.
    + lia.
    + intros k i' u' Hi Hu. rewrite <- (Hget (S k) i' u' Hi Hu).
      by replace (S j0 + k)%nat with (j0 + S k)%nat by lia.
Qed.

Lemma decoded_bytes_units raws :
  Forall (λ raw, ∀ a, d_arg raw = Some a → 0 ≤ a ≤ 255) raws →
  flat_map unit_bytes (unit_of <$> raws) = decoded_bytes raws.
Proof.
  induction 1 as [|raw raws Hraw _ IH]; [done|].
  rewrite fmap_cons. cbn [flat_map]. rewrite IH. unfold decoded_bytes. cbn [flat_map].
  unfold unit_bytes, unit_of. simpl. f_equal. f_equal.
  destruct (d_arg raw) as [a|]; simpl; [|done].
  specialize (Hraw a eq_refl). change 255 with (Z.ones 8). rewrite Z.land_ones by lia.
  symmetry. apply Z.mod_small. lia.
Qed.

Section Assembled.

Variable dis : dis_tables.
Variable hash_items : gmap Z Z → Z.
Variable code_info : CodeInfo.
Variable raws : list dis_Instruction.

Hypothesis not_empty : raws ≠ [].
Hypothesis two_bytes : aligned raws.
Hypothesis targets_flagged :
  ∀ raw, raw ∈ raws → is_jump dis (from_dis raw) = true →
    ∃ j target, d_argval raw = VInt (2 * Z.of_nat j) ∧ raws !! j = Some target ∧
                d_is_jump_target target = true.
Hypothesis operands_back :
  ∀ k raw, raws !! k = Some raw → encodes_back dis code_info k raw.

(** The pass that [assemble] makes over the instructions of the function
    block of [disassemble]. *)
Lemma first_pass :
  ∃ st bs bs' jumps line_starts,
    line_inv raws raws bs st ∧
    Forall2 (λ b b', relabel (ds_labels st) b = Returns b') bs bs' ∧
    as_basic_blocks (Function code_info 0 1 (as_blocks bs')) = Returns bs' ∧
    disassemble dis code_info raws = Returns (Function code_info 0 1 (as_blocks bs')) ∧
    get_instructions (Function code_info 0 1 (as_blocks bs'))
      = Returns (jumps, line_starts, code_of bs') ∧
    length (code_of bs') = length raws ∧
    layout_pass dis code_info jumps line_starts (code_of bs') (initial_targets jumps)
      = Returns (mk_pass (initial_targets jumps) (unit_of <$> raws)
                   (scan_offsets line_starts 0 (length raws) [])) ∧
    _to_bytes (unit_of <$> raws) = Returns (decoded_bytes raws).
Proof.
  destruct (disassemble_get_instructions_spec dis code_info raws not_empty two_bytes
              targets_flagged)
    as (st & bs & bs' & jumps & line_starts & _ & Hline & Hbbs & Hall & Hdis & Hget & _).
  destruct (disassemble_get_instructions_facts dis code_info raws not_empty two_bytes
              targets_flagged)
    as (blocks & jumps0 & line_starts0 & ins & Hdis0 & Hget0 & Hlen & Hplain & Hjump).
  rewrite Hdis in Hdis0. injection Hdis0 as <-.
  rewrite Hget in Hget0. injection Hget0 as <- <- <-.
  exists st, bs, bs', jumps, line_starts. split_and!; try done.
  - unfold layout_pass. rewrite <- Hlen.
    assert (Hunits : ∀ k i u, code_of bs' !! k = Some i → (unit_of <$> raws) !! k = Some u →
              get_raw dis i code_info (Z.of_nat (0 + k))
                (jumps !! Z.of_nat (0 + k) ≫= λ o, initial_targets jumps !! o)
              = Returns [u]).
    { intros k i u Hi Hu. rewrite list_lookup_fmap in Hu.
      destruct (raws !! k) as [raw|] eqn:Hk; [|done]. injection Hu as <-.
      destruct (operands_back k raw Hk) as (Hop & Hb). simpl.
      destruct (is_jump dis (from_dis raw)) eqn:Hj.
      + destruct (targets_flagged raw (list_elem_of_lookup_2 _ _ _ Hk) Hj)
          as (j & target & Harg & _ & _).
        destruct (Hjump k raw j Hk Hj Harg) as ((t & off & Hi') & Hjk).
        rewrite Hi' in Hi. injection Hi as <-. rewrite Hjk. simpl.
        rewrite (initial_targets_range jumps _ _ Hjk).
        unfold unit_of. destruct (d_opcode raw <? HAVE_ARGUMENT dis) eqn:E.
        * unfold get_raw. simpl. by rewrite E, Hb, (byte_has_opname _ Hop).
        * destruct Hb as (a & -> & Ha & Hb).
          apply (get_raw_small dis code_info
                   (mkInstruction (d_opcode raw) (VLabel t off)));
            [simpl; apply Z.ltb_ge in E; lia|by apply byte_has_opname
            |by apply Hb|done].
      + destruct (Hplain k raw Hk Hj) as (Hi' & Hjk).
        rewrite Hi' in Hi. injection Hi as <-. rewrite Hjk. simpl.
        unfold unit_of. destruct (d_opcode raw <? HAVE_ARGUMENT dis) eqn:E.
        * unfold get_raw. simpl. by rewrite E, Hb, (byte_has_opname _ Hop).
        * destruct Hb as (a & -> & Ha & Hb).
          apply (get_raw_small dis code_info (from_dis raw));
            [simpl; apply Z.ltb_ge in E; lia|by apply byte_has_opname|done|done]. }
    assert (Hlenu : length (unit_of <$> raws) = length (code_of bs'))
      by (by rewrite length_fmap).
    exact (pass_loop_units dis code_info jumps line_starts (initial_targets jumps)
             (initial_targets_lookup jumps) (code_of bs') (unit_of <$> raws) 0
             (mk_pass (initial_targets jumps) [] []) eq_refl eq_refl Hlenu Hunits).
  - rewrite _to_bytes_fits.
    assert (forallb unit_fits (unit_of <$> raws) = true) as ->.
    { apply Is_true_true, forallb_True, Forall_forall. intros u Hu. apply Is_true_true.
      apply list_elem_of_fmap in Hu as (raw & -> & Hraw).
      apply list_elem_of_lookup_1 in Hraw as [k Hk].
      destruct (operands_back k raw Hk) as (Hop & Hb).
      unfold unit_fits, unit_of, byte_ok. simpl.
      destruct (d_opcode raw <? HAVE_ARGUMENT dis).
      - rewrite Hb. simpl. apply andb_true_iff. split; [|done].
        apply andb_true_iff. split; [apply Z.leb_le|apply Z.ltb_lt]; lia.
      - destruct Hb as (a & -> & Ha & _). simpl.
        rewrite !andb_true_iff, !Z.leb_le, !Z.ltb_lt. lia. }
    f_equal. apply decoded_bytes_units. apply Forall_forall.
    intros raw Hraw a Ha. apply list_elem_of_lookup_1 in Hraw as [k Hk].
    destruct (operands_back k raw Hk) as (_ & Hb).
    destruct (d_opcode raw <? HAVE_ARGUMENT dis); [by rewrite Hb in Ha|].
    destruct Hb as (a' & Ha' & ? & _). rewrite Ha' in Ha. by injection Ha as <-.
Qed.

(** The loop of [assemble] ends after a pass that gives back the targets it
    started from. *)
Lemma layout_loop_one_pass jumps line_starts ins st fuel :
  layout_pass dis code_info jumps line_starts ins (initial_targets jumps) = Returns st →
  actual_targets st = initial_targets jumps →
  layout_loop dis hash_items (S (S fuel)) code_info jumps line_starts ins None
    (initial_targets jumps) None = Returns (Some st).
Proof.
  intros Hpass Ht. cbn [layout_loop]. unfold keeps_going at 1.
  rewrite bool_decide_eq_false_2 by done. simpl. rewrite Hpass. simpl.
  unfold keeps_going. by rewrite Ht, bool_decide_eq_true_2.
Qed.

End Assembled.

(** X22. Assembling what was disassembled gives the bytes of the code
    back, when no operand needs an [EXTENDED_ARG].  For code that is not
    empty, of instructions two bytes wide, whose jumps name the offset of an
    instruction flagged as a jump target and whose instructions all get their
    operands back ([encodes_back]), the layout loop of [assemble] ends after
    its first pass, for any hash; the units of that pass are the bytes that
    [dis] decoded; and whenever [assemble] returns on the function block,
    [co_code] is these bytes. *)
Theorem disassemble_assemble_code dis hash_items code_info raws :
  raws ≠ [] →
  aligned raws →
  (∀ raw, raw ∈ raws → is_jump dis (from_dis raw) = true →
     ∃ j target, d_argval raw = VInt (2 * Z.of_nat j) ∧ raws !! j = Some target ∧
                 d_is_jump_target target = true) →
  (∀ k raw, raws !! k = Some raw → encodes_back dis code_info k raw) →
  ∃ blocks jumps line_starts ins st,
    disassemble dis code_info raws = Returns (Function code_info 0 1 blocks) ∧
    get_instructions (Function code_info 0 1 blocks) = Returns (jumps, line_starts, ins) ∧
    layout_loop dis hash_items 2 code_info jumps line_starts ins None
      (initial_targets jumps) None = Returns (Some st) ∧
    _to_bytes (raw_ins st) = Returns (decoded_bytes raws) ∧
    (∀ fuel code,
       assemble dis hash_items fuel (Function code_info 0 1 blocks) = Returns code →
       co_code code = decoded_bytes raws).
Proof.
  intros Hne Hal Htargets Hback.
  destruct (first_pass dis code_info raws Hne Hal Htargets Hback)
    as (st0 & bs & bs' & jumps & line_starts & _ & _ & _ & Hdis & Hget & _ & Hpass & Hbytes).
  eexists _, jumps, line_starts, _, _.
  split_and!; [done|done|by apply layout_loop_one_pass|done|].
  intros fuel code. unfold assemble. rewrite Hget. simpl.
  destruct fuel as [|[|fuel]].
  - done.
  - cbn [layout_loop]. unfold keeps_going at 1.
    rewrite bool_decide_eq_false_2 by done. simpl. rewrite Hpass. by simpl.
  - rewrite (layout_loop_one_pass dis hash_items code_info _ _ _ _ fuel Hpass eq_refl).
    simpl. rewrite Hbytes.
    destruct (_to_linetab _ _) as [[startline linetab]| |]; simpl; [|done..].
    by intros [= <-].
Qed.

(** ** The line table of what was disassembled *)

(** The line starts that [get_instructions] notes for the blocks [bs], the
    first of which starts at the instruction [n], after a block of the line
    [last_line]: a block is noted when its line is not that of the block
    before it. *)
Fixpoint line_records (last_line : option Z) (n : nat) (bs : list BasicBlock)
    : list (Z * option Z) :=
  match bs with
  | [] => []
  | b :: rest =>
      (if decide (line b = last_line) then [] else [(Z.of_nat n, line b)]) ++
      line_records (line b) (n + length (block_code b)) rest
  end.

(** The dictionary after the items were stored in it, one after the other. *)
Definition record_all (records : list (Z * option Z)) (m : gmap Z (option Z))
    : gmap Z (option Z) :=
  foldl (λ m r, <[r.1 := r.2]> m) m records.

Lemma record_all_app r1 r2 m : record_all (r1 ++ r2) m = record_all r2 (record_all r1 m).
Proof. apply foldl_app. Qed.

Lemma record_all_lookup_notin records m k :
  k ∉ records.*1 → record_all records m !! k = m !! k.
Proof.
  revert m. induction records as [|[k' l] records IH]; intros m Hk; [done|].
  rewrite fmap_cons, not_elem_of_cons in Hk. destruct Hk as [Hne Hk]. simpl in Hne.
  simpl. rewrite IH by done. by rewrite lookup_insert_ne.
Qed.

Lemma add_block_lines b st st' :
  add_block b st = Returns st' →
  gi_line_starts st'
    = record_all (if decide (line b = gi_last_line st) then []
                  else [(Z.of_nat (length (gi_ins st)), line b)]) (gi_line_starts st) ∧
  gi_last_line st' = line b ∧
  gi_ins st' = gi_ins st ++ block_code b.
Proof.
  unfold add_block, block_code.
  destruct (decide (line b = gi_last_line st)) as [Heq|Hne];
    destruct (jump_instruction b) as [ji|]; try destruct (is_Label (arg ji));
    simpl; try done; intros [= <-]; simpl; rewrite ?app_nil_r, ?(assoc_L (++)); done.
Qed.

Lemma add_blocks_line_starts bs st st' :
  add_blocks bs st = Returns st' →
  gi_line_starts st'
    = record_all (line_records (gi_last_line st) (length (gi_ins st)) bs)
        (gi_line_starts st).
Proof.
  revert st. induction bs as [|b bs IH]; intros st; simpl.
  - by intros [= <-].
  - destruct (add_block b st) as [st1| |] eqn:E; simpl; [|done..].
    intros Hrest. apply add_block_lines in E as (Hl & Hll & Hins).
    rewrite (IH st1 Hrest), Hll, Hins, Hl, length_app, record_all_app. done.
Qed.

Lemma get_instructions_line_starts fb bbs jumps line_starts ins :
  as_basic_blocks fb = Returns bbs →
  get_instructions fb = Returns (jumps, line_starts, ins) →
  line_starts = record_all (line_records None 0 bbs) ∅.
Proof.
  intros Hbbs. unfold get_instructions. rewrite Hbbs. simpl.
  destruct (add_blocks bbs _) as [st| |] eqn:E; simpl; [|done..].
  destruct (fix_jumps _ _ _ _) as [j| |]; simpl; [|done..].
  intros [= <- <- <-]. by rewrite (add_blocks_line_starts _ _ _ E).
Qed.

(** The keys of the records grow, when no block is empty. *)
Lemma line_records_keys bs :
  Forall (λ b, block_code b ≠ []) bs →
  ∀ ll n,
    StronglySorted Z.lt (line_records ll n bs).*1 ∧
    Forall (λ k, Z.of_nat n ≤ k < Z.of_nat (n + length (code_of bs)))
      (line_records ll n bs).*1.
Proof.
  induction 1 as [|b bs Hb _ IH]; intros ll n; [by split; constructor|].
  destruct (IH (line b) (n + length (block_code b))%nat) as [Hs Hk].
  change (code_of (b :: bs)) with (block_code b ++ code_of bs). rewrite length_app.
  assert (0 < length (block_code b))%nat as Hpos by (destruct (block_code b); simpl; [done|lia]).
  simpl. destruct (decide (line b = ll)); simpl.
  - split; [done|]. eapply Forall_impl; [exact Hk|]. simpl. intros k ?. lia.
  - split.
    + constructor; [done|]. eapply Forall_impl; [exact Hk|]. simpl. intros k ?. lia.
    + constructor; [lia|]. eapply Forall_impl; [exact Hk|]. simpl. intros k ?. lia.
Qed.

Definition double (r : Z * option Z) : Z * option Z := (r.1 * 2, r.2).

(** What a pass notes of records with growing keys: the records, at twice
    their keys. *)
Lemma scan_records n :
  ∀ records j0 m0 offsets,
    StronglySorted Z.lt records.*1 →
    Forall (λ k, Z.of_nat j0 ≤ k < Z.of_nat (j0 + n)) records.*1 →
    (∀ k, Z.of_nat j0 ≤ k → m0 !! k = None) →
    Forall (λ o, o < Z.of_nat j0 * 2) offsets.*1 →
    scan_offsets (record_all records m0) j0 n offsets = offsets ++ (double <$> records).
Proof.
  induction n as [|n IH]; intros records j0 m0 offsets Hs Hk Hm Ho.
  - destruct records as [|[k l] records]; [by rewrite app_nil_r|].
    apply Forall_cons in Hk as [Hk _]. simpl in Hk. lia.
  - cbn [scan_offsets].
    destruct records as [|[k l] records].
    { change (record_all [] m0) with m0. rewrite Hm by lia.
      pose proof (IH [] (S j0) m0 offsets) as IH0.
      change (record_all [] m0) with m0 in IH0.
      rewrite IH0; [done|constructor|constructor| |].
      - intros k Hk'. apply Hm. lia.
      - eapply Forall_impl; [exact Ho|]. simpl. intros. lia. }
    rewrite fmap_cons in Hs, Hk. simpl in Hs, Hk.
    apply StronglySorted_cons in Hs as [Hgt Hs].
    apply Forall_cons in Hk as [Hk0 Hk].
    assert (Hk' : Forall (λ k', Z.of_nat (S j0) ≤ k' < Z.of_nat (S j0 + n)) records.*1).
    { apply Forall_forall. intros k' Hin. rewrite Forall_forall in Hgt, Hk.
      specialize (Hgt k' Hin). specialize (Hk k' Hin). simpl in *. lia. }
    destruct (decide (k = Z.of_nat j0)) as [->|Hne].
    + assert (record_all ((Z.of_nat j0, l) :: records) m0 !! Z.of_nat j0 = Some l) as ->.
      { simpl. rewrite record_all_lookup_notin; [by rewrite lookup_insert_eq|].
        intros Hin. rewrite Forall_forall in Hgt. specialize (Hgt _ Hin). lia. }
      rewrite od_set_new.
      2:{ intros Hin. rewrite Forall_forall in Ho. specialize (Ho _ Hin). simpl in Ho. lia. }
      change (record_all ((Z.of_nat j0, l) :: records) m0)
        with (record_all records (<[Z.of_nat j0 := l]> m0)).
      rewrite (IH records (S j0)); [|done|done| |].
      * rewrite <- (assoc_L (++)). done.
      * intros k Hk1. rewrite lookup_insert_ne by lia. apply Hm. lia.
      * rewrite fmap_app. apply Forall_app. split.
        -- eapply Forall_impl; [exact Ho|]. simpl. intros. lia.
        -- repeat constructor. simpl. lia.
    + assert (record_all ((k, l) :: records) m0 !! Z.of_nat j0 = None) as ->.
      { rewrite record_all_lookup_notin; [apply Hm; lia|].
        rewrite fmap_cons. simpl. intros [Heq|Hin]%elem_of_cons; [lia|].
        rewrite Forall_forall in Hgt. specialize (Hgt _ Hin). lia. }
      rewrite (IH ((k, l) :: records) (S j0) m0 offsets); [done| | | |].
      * rewrite fmap_cons. by constructor.
      * rewrite fmap_cons. constructor; [simpl; lia|done].
      * intros k1 Hk1. apply Hm. lia.
      * eapply Forall_impl; [exact Ho|]. simpl. intros. lia.
Qed.

Lemma by_offset_trans : Transitive by_offset.
Proof. unfold by_offset. intros x y z. lia. Qed.

Lemma by_offset_total : Total by_offset.
Proof. unfold by_offset. intros x y. lia. Qed.

(** Items with growing offsets are sorted already. *)
Lemma merge_sort_sorted (l : list (Z * option Z)) :
  StronglySorted Z.lt l.*1 → merge_sort by_offset l = l.
Proof.
  intros Hs.
  assert (Hnd : NoDup l.*1).
  { clear -Hs. induction Hs as [|x xs _ IH Hall]; constructor; [|done].
    intros Hin. rewrite Forall_forall in Hall. specialize (Hall x Hin). lia. }
  apply (StronglySorted_unique_strong by_offset).
  - intros x1 x2 Hx1 Hx2 H12 H21. rewrite merge_sort_Permutation in Hx1.
    unfold by_offset in *. destruct x1 as [k1 v1], x2 as [k2 v2]. simpl in *.
    assert (k1 = k2) as -> by lia. f_equal.
    apply list_elem_of_lookup_1 in Hx1 as [i1 Hi1].
    apply list_elem_of_lookup_1 in Hx2 as [i2 Hi2].
    assert (i1 = i2) as ->.
    { apply (NoDup_lookup _ _ _ k2 Hnd); by rewrite list_lookup_fmap, ?Hi1, ?Hi2. }
    rewrite Hi1 in Hi2. by injection Hi2.
  - apply (@StronglySorted_merge_sort _ by_offset _ by_offset_trans by_offset_total).
  - clear -Hs. induction l as [|[k v] l IH]; [constructor|].
    rewrite fmap_cons in Hs. apply StronglySorted_cons in Hs as [Hall Hs].
    constructor; [by apply IH|]. apply Forall_forall. intros [k' v'] Hin.
    rewrite Forall_forall in Hall. unfold by_offset. simpl.
    assert (k' ∈ l.*1) as Hk' by (apply list_elem_of_fmap; by exists (k', v')).
    specialize (Hall k' Hk'). simpl in Hall. lia.
  - apply merge_sort_Permutation.
Qed.

(** Blocks whose lines the line table can follow, after a block of the line
    [x]. *)
Fixpoint lines_ok (x : option Z) (bs : list BasicBlock) : Prop :=
  match bs with
  | [] => True
  | b :: rest => step_ok x (line b) ∧ lines_ok (line b) rest
  end.

Lemma lines_ok_steps bs x :
  (∀ b, head bs = Some b → step_ok x (line b)) →
  (∀ k b b', bs !! k = Some b → bs !! S k = Some b' → step_ok (line b) (line b')) →
  lines_ok x bs.
Proof.
  revert x. induction bs as [|b bs IH]; intros x Hhead Hsteps; [done|].
  split; [by apply Hhead|]. apply IH.
  - intros b' Hb'. apply (Hsteps 0%nat b b'); [done|]. by destruct bs; simplify_eq.
  - intros k y y' Hy Hy'. by apply (Hsteps (S k) y y').
Qed.

(** The items after the first one. *)
Lemma line_records_items_ok end_ bs :
  ∀ n ll lo,
    lines_ok (Some ll) bs → lo ≤ Z.of_nat n * 2 →
    Z.of_nat (n + length (code_of bs)) * 2 ≤ end_ →
    items_ok lo ll (double <$> line_records (Some ll) n bs) end_.
Proof.
  induction bs as [|b bs IH]; intros n ll lo Hok Hlo Hend.
  - simpl in *. lia.
  - destruct Hok as [Hstep Hok].
    change (code_of (b :: bs)) with (block_code b ++ code_of bs) in Hend.
    rewrite length_app in Hend.
    destruct (line b) as [l|] eqn:El; [|done]. simpl in Hstep.
    simpl. rewrite El. destruct (decide (Some l = Some ll)) as [[= ->]|Hne]; simpl.
    + apply IH; [done|lia|lia].
    + split; [done|]. split; [done|]. apply IH; [done|lia|lia].
Qed.

(** The first item, and the items after it. *)
Lemma line_records_first end_ l1 bs :
  ∀ n,
    lines_ok None bs → head (omap line bs) = Some l1 →
    Z.of_nat (n + length (code_of bs)) * 2 ≤ end_ →
    ∃ o1 rest,
      double <$> line_records None n bs = (o1, Some l1) :: rest ∧
      items_ok 0 l1 rest end_.
Proof.
  induction bs as [|b bs IH]; intros n Hok Hhead Hend; [done|].
  destruct Hok as [_ Hok].
  change (code_of (b :: bs)) with (block_code b ++ code_of bs) in Hend.
  rewrite length_app in Hend.
  simpl. csimpl in Hhead. destruct (line b) as [l|] eqn:El.
  - injection Hhead as ->. rewrite decide_False by done. simpl.
    eexists _, _. split; [done|]. apply line_records_items_ok; [done|lia|lia].
  - rewrite decide_True by done. simpl. apply IH; [done|done|lia].
Qed.

Lemma _to_linetab_sorted offsets end_ o1 l1 rest :
  merge_sort by_offset offsets = (o1, Some l1) :: rest →
  items_ok 0 l1 rest end_ →
  ∃ ps,
    _to_linetab offsets end_ = Returns (Some (l1 - 1), table_bytes ps) ∧
    Forall entry_ok ps ∧
    sum_list ps.*1 = end_.
Proof.
  intros Hsort Hok. unfold _to_linetab. rewrite Hsort.
  destruct (linetab_loop_entries rest end_ [] 0 (l1 - 1) l1 (l1 - 1) ltac:(lia) Hok)
    as (ps & Hloop & Hall & Hs1 & Hs2).
  exists ps.
  change (linetab_loop (((o1, Some l1) :: rest) ++ [(end_, None)])
            (mk_linetab [] 0 None None None))
    with (linetab_loop (rest ++ [(end_, None)])
            (mk_linetab [] 0 (Some (l1 - 1)) (Some l1) (Some (l1 - 1)))).
  destruct (linetab_loop _ _) as [st|e|]; simpl in Hloop |- *; try done.
  injection Hloop as H1 H2. rewrite H1, H2. split_and!; [done|done|lia].
Qed.

Lemma relabel_line_records labels bs bs' :
  Forall2 (λ b b', relabel labels b = Returns b') bs bs' →
  ∀ ll n, line_records ll n bs' = line_records ll n bs.
Proof.
  induction 1 as [|b b' bs bs' Hb _ IH]; intros ll n; [done|].
  simpl. rewrite IH, (relabel_code_length _ _ _ Hb).
  assert (line b' = line b) as ->; [|done].
  unfold relabel in Hb. destruct (jump_instruction b); [|by injection Hb as <-].
  destruct (label_of _ _); simpl in Hb; [|done..]. by injection Hb as <-.
Qed.

(** [assemble] on the function block of [disassemble], up to the line
    table: the line offsets are the records of the lines of the blocks. *)
Lemma disassemble_assemble_linetab dis hash_items code_info raws :
  raws ≠ [] →
  aligned raws →
  (∀ raw, raw ∈ raws → is_jump dis (from_dis raw) = true →
     ∃ j target, d_argval raw = VInt (2 * Z.of_nat j) ∧ raws !! j = Some target ∧
                 d_is_jump_target target = true) →
  (∀ k raw, raws !! k = Some raw → encodes_back dis code_info k raw) →
  ∃ st bs blocks,
    line_inv raws raws bs st ∧
    length (code_of bs) = length raws ∧
    disassemble dis code_info raws = Returns (Function code_info 0 1 blocks) ∧
    ∀ fuel,
      assemble dis hash_items (S (S fuel)) (Function code_info 0 1 blocks)
      = ('(startline, linetab) ←
           _to_linetab (double <$> line_records None 0 bs) (Z.of_nat (length raws) * 2);
         Returns (mkCode code_info (decoded_bytes raws) startline linetab)).
Proof.
  intros Hne Hal Htargets Hback.
  destruct (first_pass dis code_info raws Hne Hal Htargets Hback)
    as (st & bs & bs' & jumps & line_starts & Hline & Hall & Hbbs & Hdis & Hget & Hlen
        & Hpass & Hbytes).
  pose proof (li_nonempty _ _ _ _ Hline) as Hnonempty.
  (* the line starts, and what the pass notes of them *)
  pose proof (get_instructions_line_starts _ _ _ _ _ Hbbs Hget) as Hls.
  rewrite (relabel_line_records _ _ _ Hall) in Hls.
  destruct (line_records_keys bs Hnonempty None 0) as [Hsorted Hkeys].
  assert (Hcode : length (code_of bs) = length raws).
  { rewrite <- Hlen. clear -Hall. induction Hall as [|b b' bs bs' Hb _ IH]; [done|].
    change (code_of (b :: bs)) with (block_code b ++ code_of bs).
    change (code_of (b' :: bs')) with (block_code b' ++ code_of bs').
    by rewrite !length_app, IH, (relabel_code_length _ _ _ Hb). }
  assert (Hscan : scan_offsets line_starts 0 (length raws) []
                  = double <$> line_records None 0 bs).
  { rewrite Hls, (scan_records (length raws) _ 0 ∅ []); [done|done| |done|constructor].
    by rewrite <- Hcode. }
  rewrite Hscan in Hpass.
  exists st, bs, (as_blocks bs'). split_and!; [done..|].
  intros fuel. unfold assemble. rewrite Hget. cbn -[layout_loop].
  rewrite (layout_loop_one_pass dis hash_items code_info _ _ _ _ fuel Hpass eq_refl).
  cbn -[_to_linetab]. rewrite length_fmap.
  destruct (_to_linetab _ _) as [[startline linetab]| |]; simpl; [|done..].
  by rewrite Hbytes.
Qed.

(** X23. Assembling what was disassembled returns the code.  For code that
    is not empty, of instructions two bytes wide, whose jumps name the offset
    of an instruction flagged as a jump target and whose instructions all get
    their operands back ([encodes_back]), in which some instruction starts a
    line and no line start is more than 127 lines above the one after it,
    [assemble] returns, after one pass and for any hash, the code object with
    the bytes that [dis] decoded; its first line is the line before the first
    line start, and its line table is made of entries in [range(256)] whose
    offsets add up to the length of the code. *)
Theorem disassemble_assemble_returns dis hash_items code_info raws :
  raws ≠ [] →
  aligned raws →
  (∀ raw, raw ∈ raws → is_jump dis (from_dis raw) = true →
     ∃ j target, d_argval raw = VInt (2 * Z.of_nat j) ∧ raws !! j = Some target ∧
                 d_is_jump_target target = true) →
  (∀ k raw, raws !! k = Some raw → encodes_back dis code_info k raw) →
  tame raws →
  ∀ l1, head (omap d_starts_line raws) = Some l1 →
  ∃ blocks ps,
    disassemble dis code_info raws = Returns (Function code_info 0 1 blocks) ∧
    assemble dis hash_items 2 (Function code_info 0 1 blocks)
      = Returns (mkCode code_info (decoded_bytes raws) (Some (l1 - 1)) (table_bytes ps)) ∧
    Forall entry_ok ps ∧
    sum_list ps.*1 = Z.of_nat (length raws) * 2.
Proof.
  intros Hne Hal Htargets Hback Htame l1 Hl1.
  destruct (disassemble_assemble_linetab dis hash_items code_info raws Hne Hal Htargets
              Hback) as (st & bs & blocks & Hline & Hcode & Hdis & Hasm).
  destruct Hline as [_ _ _ Hfirst Hsteps Hnonempty].
  destruct (line_records_keys bs Hnonempty None 0) as [Hsorted _].
  destruct (line_records_first (Z.of_nat (length raws) * 2) l1 bs 0)
    as (o1 & rest & Hrec & Hok).
  { apply lines_ok_steps; [done|]. by apply Hsteps. }
  { by rewrite Hfirst. }
  { rewrite Hcode. simpl. lia. }
  destruct (_to_linetab_sorted (double <$> line_records None 0 bs)
              (Z.of_nat (length raws) * 2) o1 l1 rest) as (ps & Hlt & Hps & Hsum); [|done|].
  { rewrite merge_sort_sorted; [done|].
    clear -Hsorted. induction (line_records None 0 bs) as [|[k v] l IH]; [constructor|].
    rewrite !fmap_cons in *. simpl in *.
    apply StronglySorted_cons in Hsorted as [Hall' Hs]. constructor; [by apply IH|].
    apply Forall_forall. intros k' Hk'.
    apply list_elem_of_fmap in Hk' as ([k0 v0] & -> & Hin).
    apply list_elem_of_fmap in Hin as ([k1 v1] & [= -> ->] & Hin).
    rewrite Forall_forall in Hall'. simpl.
    assert (k1 ∈ l.*1) as Hk1 by (apply list_elem_of_fmap; by exists (k1, v1)).
    specialize (Hall' k1 Hk1). lia. }
  exists blocks, ps. split_and!; [done| |done|done].
  rewrite (Hasm 0%nat), Hlt. done.
Qed.

(** X24. Code without a line cannot be assembled again.  For code that
    is not empty, of instructions two bytes wide, whose jumps name the offset
    of an instruction flagged as a jump target and whose instructions all get
    their operands back, but in which no instruction starts a line,
    [disassemble] returns a function block, and [assemble] raises [TypeError]
    on it: [_to_linetab] finds no line to start from. *)
Theorem disassemble_assemble_no_line dis hash_items code_info raws :
  raws ≠ [] →
  aligned raws →
  (∀ raw, raw ∈ raws → is_jump dis (from_dis raw) = true →
     ∃ j target, d_argval raw = VInt (2 * Z.of_nat j) ∧ raws !! j = Some target ∧
                 d_is_jump_target target = true) →
  (∀ k raw, raws !! k = Some raw → encodes_back dis code_info k raw) →
  omap d_starts_line raws = [] →
  ∃ blocks,
    disassemble dis code_info raws = Returns (Function code_info 0 1 blocks) ∧
    assemble dis hash_items 2 (Function code_info 0 1 blocks) = Raises TypeError.
Proof.
  intros Hne Hal Htargets Hback Hnone.
  destruct (disassemble_assemble_linetab dis hash_items code_info raws Hne Hal Htargets
              Hback) as (st & bs & blocks & Hline & Hcode & Hdis & Hasm).
  exists blocks. split; [done|]. rewrite (Hasm 0%nat).
  pose proof (li_first _ _ _ _ Hline) as Hfirst. rewrite Hnone in Hfirst. simpl in Hfirst.
  assert (line_records None 0 bs = []) as ->; [|done].
  assert (omap line bs = []) as Hom by (by destruct (omap line bs)).
  clear -Hom. generalize 0%nat. induction bs as [|b bs IH]; intros n; [done|].
  csimpl in Hom. simpl. destruct (line b) as [l|]; [done|].
  rewrite decide_True by done. simpl. by apply IH.
Qed.

(** Two blocks: the first one ends in a jump to the second. *)
Definition jump_blocks : list BasicBlock :=
  [mkBasicBlock 1 [mkInstruction 9 VNone] (Some (mkInstruction 113 (VLabel 2 0))) None
     (Some 1);
   mkBasicBlock 2 [mkInstruction 83 VNone] None None None].

Lemma get_instructions_layout_witness :
  let fb := Function long_list_info 0 1 (as_blocks jump_blocks) in
  as_basic_blocks fb = Returns jump_blocks ∧
  NoDup (id <$> jump_blocks) ∧
  Forall (λ b, ∀ ji, jump_instruction b = Some ji →
                ∃ t off, arg ji = VLabel t off ∧ t ∈ id <$> jump_blocks) jump_blocks ∧
  ∃ jumps line_starts,
    get_instructions fb = Returns (jumps, line_starts, code_of jump_blocks) ∧
    (∀ k b ji, jump_blocks !! k = Some b → jump_instruction b = Some ji →
       ∃ t off kt bt,
         arg ji = VLabel t off ∧ jump_blocks !! kt = Some bt ∧ id bt = t ∧
         jumps !! Z.of_nat (start_at jump_blocks k + length (instructions b))
           = Some (Z.of_nat (start_at jump_blocks kt) + off)) ∧
    (∀ i o, jumps !! i = Some o →
       ∃ k b, jump_blocks !! k = Some b ∧ is_Some (jump_instruction b) ∧
              i = Z.of_nat (start_at jump_blocks k + length (instructions b))).
Proof.
  intros fb.
  assert (H1 : as_basic_blocks fb = Returns jump_blocks) by (vm_compute; reflexivity).
  assert (H2 : NoDup (id <$> jump_blocks))
    by (apply (bool_decide_unpack _); vm_compute; reflexivity).
  assert (H3 : Forall (λ b, ∀ ji, jump_instruction b = Some ji →
                 ∃ t off, arg ji = VLabel t off ∧ t ∈ id <$> jump_blocks) jump_blocks).
  { repeat constructor; simpl; [|done]. intros ji [= <-]. exists 2, 0. split; [done|].
    apply (bool_decide_unpack _). vm_compute. reflexivity. }
  split; [exact H1|]. split; [exact H2|]. split; [exact H3|].
  exact (get_instructions_layout fb jump_blocks H1 H2 H3).
Defined.

(** A loop of three instructions on one line: the jump in the middle goes
    back to the first one. *)
Definition loop_code : list dis_Instruction :=
  [mk_dis_Instruction 9 None VNone 0 (Some 1) true;
   mk_dis_Instruction 114 (Some 0) (VInt 0) 2 None false;
   mk_dis_Instruction 83 None VNone 4 None false].

Lemma loop_code_aligned : aligned loop_code.
Proof. intros [|[|[|k]]] raw Hk; [injection Hk as <-; reflexivity..|done]. Qed.

Lemma loop_code_targets raw :
  raw ∈ loop_code → is_jump cpython310 (from_dis raw) = true →
  ∃ j target, d_argval raw = VInt (2 * Z.of_nat j) ∧ loop_code !! j = Some target ∧
              d_is_jump_target target = true.
Proof.
  intros Hraw Hj. unfold loop_code in Hraw.
  repeat (apply elem_of_cons in Hraw as [->|Hraw]); [..|by apply elem_of_nil in Hraw].
  - vm_compute in Hj. discriminate.
  - exists 0%nat. eexists. split; [reflexivity|]. split; reflexivity.
  - vm_compute in Hj. discriminate.
Qed.

Lemma loop_code_encodes_back k raw :
  loop_code !! k = Some raw → encodes_back cpython310 long_list_info k raw.
Proof.
  destruct k as [|[|[|k]]]; intros Hk; [injection Hk as <-..|done].
  - split; [simpl; lia|reflexivity].
  - split; [simpl; lia|]. exists 0. split; [reflexivity|]. split; [lia|].
    intros j t off [= Hj]. assert (j = 0%nat) as -> by lia. reflexivity.
  - split; [simpl; lia|reflexivity].
Qed.

Lemma loop_code_tame : tame loop_code.
Proof.
  intros l1 l2 x y H. apply (f_equal length) in H. rewrite length_app in H.
  simpl in H. lia.
Qed.

Lemma disassemble_get_instructions_witness :
  loop_code ≠ [] ∧
  aligned loop_code ∧
  (∀ raw, raw ∈ loop_code → is_jump cpython310 (from_dis raw) = true →
     ∃ j target, d_argval raw = VInt (2 * Z.of_nat j) ∧ loop_code !! j = Some target ∧
                 d_is_jump_target target = true) ∧
  ∃ blocks jumps line_starts ins,
    disassemble cpython310 long_list_info loop_code
      = Returns (Function long_list_info 0 1 blocks) ∧
    get_instructions (Function long_list_info 0 1 blocks)
      = Returns (jumps, line_starts, ins) ∧
    length ins = length loop_code ∧
    (∀ k raw, loop_code !! k = Some raw → is_jump cpython310 (from_dis raw) = false →
       ins !! k = Some (from_dis raw) ∧ jumps !! Z.of_nat k = None) ∧
    (∀ k raw j, loop_code !! k = Some raw → is_jump cpython310 (from_dis raw) = true →
       d_argval raw = VInt (2 * Z.of_nat j) →
       (∃ t off, ins !! k = Some (mkInstruction (d_opcode raw) (VLabel t off))) ∧
       jumps !! Z.of_nat k = Some (Z.of_nat j)).
Proof.
  assert (H1 : loop_code ≠ []) by done.
  split; [exact H1|]. split; [exact loop_code_aligned|]. split; [exact loop_code_targets|].
  exact (disassemble_get_instructions cpython310 long_list_info loop_code H1
           loop_code_aligned loop_code_targets).
Defined.

Lemma disassemble_assemble_code_witness :
  loop_code ≠ [] ∧
  aligned loop_code ∧
  (∀ raw, raw ∈ loop_code → is_jump cpython310 (from_dis raw) = true →
     ∃ j target, d_argval raw = VInt (2 * Z.of_nat j) ∧ loop_code !! j = Some target ∧
                 d_is_jump_target target = true) ∧
  (∀ k raw, loop_code !! k = Some raw → encodes_back cpython310 long_list_info k raw) ∧
  ∃ blocks jumps line_starts ins st,
    disassemble cpython310 long_list_info loop_code
      = Returns (Function long_list_info 0 1 blocks) ∧
    get_instructions (Function long_list_info 0 1 blocks)
      = Returns (jumps, line_starts, ins) ∧
    layout_loop cpython310 ideal_hash 2 long_list_info jumps line_starts ins None
      (initial_targets jumps) None = Returns (Some st) ∧
    _to_bytes (raw_ins st) = Returns (decoded_bytes loop_code) ∧
    (∀ fuel code,
       assemble cpython310 ideal_hash fuel (Function long_list_info 0 1 blocks)
         = Returns code →
       co_code code = decoded_bytes loop_code).
Proof.
  assert (H1 : loop_code ≠ []) by done.
  split; [exact H1|]. split; [exact loop_code_aligned|]. split; [exact loop_code_targets|].
  split; [exact loop_code_encodes_back|].
  exact (disassemble_assemble_code cpython310 ideal_hash long_list_info loop_code
           H1 loop_code_aligned loop_code_targets loop_code_encodes_back).
Defined.

Lemma disassemble_assemble_returns_witness :
  loop_code ≠ [] ∧
  aligned loop_code ∧
  (∀ raw, raw ∈ loop_code → is_jump cpython310 (from_dis raw) = true →
     ∃ j target, d_argval raw = VInt (2 * Z.of_nat j) ∧ loop_code !! j = Some target ∧
                 d_is_jump_target target = true) ∧
  (∀ k raw, loop_code !! k = Some raw → encodes_back cpython310 long_list_info k raw) ∧
  tame loop_code ∧
  head (omap d_starts_line loop_code) = Some 1 ∧
  ∃ blocks ps,
    disassemble cpython310 long_list_info loop_code
      = Returns (Function long_list_info 0 1 blocks) ∧
    assemble cpython310 ideal_hash 2 (Function long_list_info 0 1 blocks)
      = Returns (mkCode long_list_info (decoded_bytes loop_code) (Some (1 - 1))
                   (table_bytes ps)) ∧
    Forall entry_ok ps ∧
    sum_list ps.*1 = Z.of_nat (length loop_code) * 2.
Proof.
  assert (H1 : loop_code ≠ []) by done.
  split; [exact H1|]. split; [exact loop_code_aligned|]. split; [exact loop_code_targets|].
  split; [exact loop_code_encodes_back|]. split; [exact loop_code_tame|].
  split; [reflexivity|].
  exact (disassemble_assemble_returns cpython310 ideal_hash long_list_info loop_code
           H1 loop_code_aligned loop_code_targets loop_code_encodes_back loop_code_tame
           1 eq_refl).
Defined.

(** The same loop, without a line. *)
Definition bare_loop : list dis_Instruction :=
  [mk_dis_Instruction 9 None VNone 0 None true;
   mk_dis_Instruction 114 (Some 0) (VInt 0) 2 None false;
   mk_dis_Instruction 83 None VNone 4 None false].

Lemma bare_loop_aligned : aligned bare_loop.
Proof. intros [|[|[|k]]] raw Hk; [injection Hk as <-; reflexivity..|done]. Qed.

Lemma bare_loop_targets raw :
  raw ∈ bare_loop → is_jump cpython310 (from_dis raw) = true →
  ∃ j target, d_argval raw = VInt (2 * Z.of_nat j) ∧ bare_loop !! j = Some target ∧
              d_is_jump_target target = true.
Proof.
  intros Hraw Hj. unfold bare_loop in Hraw.
  repeat (apply elem_of_cons in Hraw as [->|Hraw]); [..|by apply elem_of_nil in Hraw].
  - vm_compute in Hj. discriminate.
  - exists 0%nat. eexists. split; [reflexivity|]. split; reflexivity.
  - vm_compute in Hj. discriminate.
Qed.

Lemma bare_loop_encodes_back k raw :
  bare_loop !! k = Some raw → encodes_back cpython310 long_list_info k raw.
Proof.
  destruct k as [|[|[|k]]]; intros Hk; [injection Hk as <-..|done].
  - split; [simpl; lia|reflexivity].
  - split; [simpl; lia|]. exists 0. split; [reflexivity|]. split; [lia|].
    intros j t off [= Hj]. assert (j = 0%nat) as -> by lia. reflexivity.
  - split; [simpl; lia|reflexivity].
Qed.

Lemma disassemble_assemble_no_line_witness :
  bare_loop ≠ [] ∧
  aligned bare_loop ∧
  (∀ raw, raw ∈ bare_loop → is_jump cpython310 (from_dis raw) = true →
     ∃ j target, d_argval raw = VInt (2 * Z.of_nat j) ∧ bare_loop !! j = Some target ∧
                 d_is_jump_target target = true) ∧
  (∀ k raw, bare_loop !! k = Some raw → encodes_back cpython310 long_list_info k raw) ∧
  omap d_starts_line bare_loop = [] ∧
  ∃ blocks,
    disassemble cpython310 long_list_info bare_loop
      = Returns (Function long_list_info 0 1 blocks) ∧
    assemble cpython310 ideal_hash 2 (Function long_list_info 0 1 blocks)
      = Raises TypeError.
Proof.
  assert (H1 : bare_loop ≠ []) by done.
  split; [exact H1|]. split; [exact bare_loop_aligned|]. split; [exact bare_loop_targets|].
  split; [exact bare_loop_encodes_back|]. split; [reflexivity|].
  exact (disassemble_assemble_no_line cpython310 ideal_hash long_list_info bare_loop
           H1 bare_loop_aligned bare_loop_targets bare_loop_encodes_back eq_refl).
Defined.

End Assembler.
